(** * Realm transfer planner, transfer iterators and GPU stream scheduler

    A shallow embedding of
    - [runtime/realm/transfer/transfer.cc]: the transfer iterators
      ([TransferIteratorRect], [TransferIteratorIndexSpace],
      [TransferIteratorZIndexSpace]) and the planner ([select_dma_node],
      [TransferPlan::plan_copy], [TransferPlan::plan_fill] and the three
      [execute_plan] methods);
    - [runtime/lowlevel_gpu.cc]: the parts of [GPUProcessor] that pick task
      streams, pin host memory and record peers.

    Conventions.  Handles ([Memory], [RegionInstance], [CUstream], pointers to
    processors) are their integer ids.  [unsigned] and [size_t] arithmetic is
    written with its wrap-around ([u32], [u64]); [coord_t] values are plain
    integers, signed overflow being undefined in the source.  An [assert]
    that fails, an access through a null pointer or past the end of a vector
    and a division by zero end the run: functions that can hit one return a
    [result]. *)

From Stdlib Require Import ZArith List Bool Lia Sorted.
From stdpp Require Import base list gmap.
Import ListNotations.

Local Open Scope Z_scope.

(** ** Machine integers *)

Definition u32 (z : Z) : Z := z mod 2 ^ 32.
Definition u64 (z : Z) : Z := z mod 2 ^ 64.

(** [(coord_t) x] for a [size_t] value [x]: the two's complement reading. *)
Definition to_coord_t (z : Z) : Z :=
  let w := u64 z in if w <? 2 ^ 63 then w else w - 2 ^ 64.

(** ** Results of code that can stop *)

Inductive failure : Type :=
| AssertFailed   (* an [assert] did not hold, or [assert(0)] was reached *)
| Undefined      (* null dereference, out-of-range index, division by zero *)
| OutOfFuel.     (* the loop budget of the model ran out *)

Inductive result (A : Type) : Type :=
| Ok (a : A)
| Err (e : failure).
Arguments Ok {A} a.
Arguments Err {A} e.

#[global] Instance result_bind : MBind result := fun A B k r =>
  match r with
  | Ok a => k a
  | Err e => Err e
  end.

#[global] Instance result_ret : MRet result := fun A a => Ok a.

#[global] Instance result_fmap : FMap result := fun A B f r =>
  match r with
  | Ok a => Ok (f a)
  | Err e => Err e
  end.

Definition assert (b : bool) : result unit :=
  if b then Ok tt else Err AssertFailed.

Definition of_option {A} (o : option A) : result A :=
  match o with
  | Some a => Ok a
  | None => Err Undefined
  end.

(** ** [std::map] keyed by a pair of handles

    [std::map<std::pair<H,H>, V>] iterates in increasing key order, pairs
    being compared lexicographically.  The model is an association list kept
    in that order. *)

Definition HandlePair : Type := Z * Z.

Definition pair_ltb (a b : HandlePair) : bool :=
  (a.1 <? b.1) || ((a.1 =? b.1) && (a.2 <? b.2)).

Definition pair_lt (a b : HandlePair) : Prop := pair_ltb a b = true.

(** [m[k]] followed by an update of the slot: [f None] is what a fresh,
    value-initialised slot becomes, [f (Some v)] what an existing one does. *)
Fixpoint map_update {V} (k : HandlePair) (f : option V -> V)
    (m : list (HandlePair * V)) : list (HandlePair * V) :=
  match m with
  | [] => [(k, f None)]
  | (k', v) :: m' =>
      if pair_ltb k k' then (k, f None) :: m
      else if pair_ltb k' k then (k', v) :: map_update k f m'
      else (k', f (Some v)) :: m'
  end.

Fixpoint map_find {V} (k : HandlePair) (m : list (HandlePair * V)) : option V :=
  match m with
  | [] => None
  | (k', v) :: m' =>
      if pair_ltb k k' then None
      else if pair_ltb k' k then map_find k m'
      else Some v
  end.

(** ** The planner *)

Module Transfer.

Definition Memory : Type := Z.
Definition RegionInstance : Type := Z.
Definition gasnet_node_t : Type := Z.
Definition ReductionOpID : Type := Z.

(** [MemoryImpl::MemoryKind] *)
Inductive MemoryKind : Type :=
| MKIND_SYSMEM | MKIND_GLOBAL | MKIND_RDMA | MKIND_REMOTE | MKIND_GPUFB
| MKIND_ZEROCOPY | MKIND_DISK | MKIND_FILE | MKIND_HDF.

Definition is_MKIND_GLOBAL (k : MemoryKind) : bool :=
  match k with MKIND_GLOBAL => true | _ => false end.

(** What the planner asks of the runtime: the node it runs on, the owner
    node encoded in a memory or instance id, the kind of a memory and the
    memory an instance lives in ([get_instance_impl(inst)->memory], which is
    also what [inst.get_location()] returns). *)
Record Runtime : Type := {
  gasnet_mynode : gasnet_node_t;
  memory_owner_node : Memory -> gasnet_node_t;
  instance_owner_node : RegionInstance -> gasnet_node_t;
  memory_kind : Memory -> MemoryKind;
  get_location : RegionInstance -> Memory
}.

Record CopySrcDstField : Type := {
  inst : RegionInstance;
  offset : Z;      (* unsigned *)
  size : Z;        (* unsigned *)
  serdez_id : Z
}.

Record OffsetsAndSize : Type := {
  src_offset : Z;
  dst_offset : Z;
  oas_size : Z;
  oas_serdez_id : Z
}.

Definition InstPair : Type := HandlePair.
Definition MemPair : Type := HandlePair.
Definition OASVec : Type := list OffsetsAndSize.
Definition OASByInst : Type := list (InstPair * OASVec).
Definition OASByMem : Type := list (MemPair * OASByInst).

Inductive LogMsg : Type :=
| WarnGasnetToGasnetSerialized (node : gasnet_node_t)
| FatalInsufficientFillData (need have : Z).

Inductive TransferPlan : Type :=
| TransferPlanCopy (oas_by_inst : OASByInst)
| TransferPlanReduce (srcs : list CopySrcDstField) (dst : CopySrcDstField)
    (redop_id : ReductionOpID) (red_fold : bool)
| TransferPlanFill (data : list Byte.byte) (inst : RegionInstance) (offset : Z).

(** Where a request ends up: run through the local DMA queue, or forwarded
    to another node. *)
Inductive Dispatch : Type :=
| LocalOperation
| RemoteOperation (node : gasnet_node_t).

Definition executing_node (rt : Runtime) (d : Dispatch) : gasnet_node_t :=
  match d with
  | LocalOperation => gasnet_mynode rt
  | RemoteOperation n => n
  end.

Definition dispatch_to (rt : Runtime) (node : gasnet_node_t) : Dispatch :=
  if node =? gasnet_mynode rt then LocalOperation else RemoteOperation node.

Definition select_dma_node (rt : Runtime) (src_mem dst_mem : Memory)
    (redop_id : ReductionOpID) (red_fold : bool)
  : list LogMsg * gasnet_node_t :=
  let src_node := memory_owner_node rt src_mem in
  let dst_node := memory_owner_node rt dst_mem in
  let src_is_rdma := is_MKIND_GLOBAL (memory_kind rt src_mem) in
  let dst_is_rdma := is_MKIND_GLOBAL (memory_kind rt dst_mem) in
  if src_is_rdma then
    if dst_is_rdma then
      ([WarnGasnetToGasnetSerialized (gasnet_mynode rt)], gasnet_mynode rt)
    else ([], dst_node)
  else
    if dst_is_rdma then ([], src_node)
    else ([], src_node).

(** [TransferPlanCopy::execute_plan]: the log lines written and where the
    [CopyRequest] goes. *)
Definition copy_execute_plan (rt : Runtime) (oas_by_inst : OASByInst)
  : result (list LogMsg * Dispatch) :=
  match oas_by_inst with
  | [] => Err AssertFailed
  | (ip, _) :: _ =>
      let src_mem := get_location rt ip.1 in
      let dst_mem := get_location rt ip.2 in
      let '(log, dma_node) := select_dma_node rt src_mem dst_mem 0 false in
      Ok (log, dispatch_to rt dma_node)
  end.

(** [TransferPlanReduce::execute_plan] *)
Definition reduce_execute_plan (rt : Runtime) (srcs : list CopySrcDstField)
  : result (list LogMsg * Dispatch) :=
  match srcs with
  | [] => Err Undefined
  | s :: _ =>
      let src_node := instance_owner_node rt (inst s) in
      Ok ([], dispatch_to rt src_node)
  end.

(** [TransferPlanFill::execute_plan] *)
Definition fill_execute_plan (rt : Runtime) (i : RegionInstance)
  : result (list LogMsg * Dispatch) :=
  let tgt_node := instance_owner_node rt i in
  Ok ([], dispatch_to rt tgt_node).

Definition execute_plan (rt : Runtime) (p : TransferPlan)
  : result (list LogMsg * Dispatch) :=
  match p with
  | TransferPlanCopy oas_by_inst => copy_execute_plan rt oas_by_inst
  | TransferPlanReduce srcs _ _ _ => reduce_execute_plan rt srcs
  | TransferPlanFill _ i _ => fill_execute_plan rt i
  end.

(** *** [TransferPlan::plan_copy] *)

Definition push_back_oas (oas : OffsetsAndSize) (slot : option OASVec) : OASVec :=
  match slot with
  | None => [oas]
  | Some v => v ++ [oas]
  end.

(** [oas_by_mem[mp]] (created empty when missing), then
    [oas_by_inst->operator[](ip).push_back(oas)]. *)
Definition oas_by_mem_add (mp : MemPair) (ip : InstPair) (oas : OffsetsAndSize)
    (oas_by_mem : OASByMem) : OASByMem :=
  map_update mp
    (fun slot =>
       match slot with
       | None => map_update ip (push_back_oas oas) []
       | Some oas_by_inst => map_update ip (push_back_oas oas) oas_by_inst
       end)
    oas_by_mem.

Record CopyLoop : Type := {
  cl_plans : list TransferPlan;
  cl_oas_by_mem : OASByMem;
  cl_src_it : list CopySrcDstField;
  cl_dst_it : list CopySrcDstField
}.

(** The [while((src_it != srcs.end()) && (dst_it != dsts.end()))] loop.  The
    iterators are the not yet consumed suffixes of [srcs] and [dsts]. *)
Fixpoint plan_copy_loop (fuel : nat) (rt : Runtime)
    (plans : list TransferPlan) (oas_by_mem : OASByMem)
    (src_it dst_it : list CopySrcDstField)
    (src_suboffset dst_suboffset : Z) : result CopyLoop :=
  match src_it, dst_it with
  | s :: src_next, d :: dst_next =>
      match fuel with
      | O => Err OutOfFuel
      | S fuel' =>
          let ip : InstPair := (inst s, inst d) in
          let mp : MemPair := (get_location rt (inst s), get_location rt (inst d)) in
          let oas :=
            {| src_offset := u32 (offset s + src_suboffset);
               dst_offset := u32 (offset d + dst_suboffset);
               oas_size := Z.min (u32 (size s - src_suboffset))
                                 (u32 (size d - dst_suboffset));
               oas_serdez_id := serdez_id s |} in
          let '(plans, oas_by_mem) :=
            if negb (oas_serdez_id oas =? 0)
            then (plans ++ [TransferPlanCopy [(ip, [oas])]], oas_by_mem)
            else (plans, oas_by_mem_add mp ip oas oas_by_mem) in
          let src_suboffset := u32 (src_suboffset + oas_size oas) in
          _ ← assert (src_suboffset <=? size s);
          let '(src_it, src_suboffset) :=
            if src_suboffset =? size s then (src_next, 0)
            else (src_it, src_suboffset) in
          let dst_suboffset := u32 (dst_suboffset + oas_size oas) in
          _ ← assert (dst_suboffset <=? size d);
          let '(dst_it, dst_suboffset) :=
            if dst_suboffset =? size d then (dst_next, 0)
            else (dst_it, dst_suboffset) in
          plan_copy_loop fuel' rt plans oas_by_mem src_it dst_it
            src_suboffset dst_suboffset
      end
  | _, _ =>
      Ok {| cl_plans := plans; cl_oas_by_mem := oas_by_mem;
            cl_src_it := src_it; cl_dst_it := dst_it |}
  end.

(** The two nested [for] loops that turn every instance pair of every memory
    pair into a plan of its own. *)
Definition plans_of_oas_by_mem (oas_by_mem : OASByMem) : list TransferPlan :=
  flat_map
    (fun '(_, oas_by_inst) =>
       map (fun '(ip, v) => TransferPlanCopy [(ip, v)]) oas_by_inst)
    oas_by_mem.

Definition is_nil {A} (l : list A) : bool :=
  match l with [] => true | _ => false end.

Definition same_owner_node (rt : Runtime) (srcs : list CopySrcDstField) : bool :=
  match srcs with
  | [] => true
  | s0 :: rest =>
      forallb (fun s => instance_owner_node rt (inst s)
                        =? instance_owner_node rt (inst s0)) rest
  end.

Definition plan_copy (rt : Runtime) (plans : list TransferPlan)
    (srcs dsts : list CopySrcDstField)
    (redop_id : ReductionOpID) (red_fold : bool) : result (list TransferPlan) :=
  if redop_id =? 0 then
    st ← plan_copy_loop (length srcs + length dsts) rt plans [] srcs dsts 0 0;
    _ ← assert (is_nil (cl_src_it st));
    _ ← assert (is_nil (cl_dst_it st));
    Ok (cl_plans st ++ plans_of_oas_by_mem (cl_oas_by_mem st))
  else
    _ ← assert (same_owner_node rt srcs);
    _ ← assert (Nat.eqb (length dsts) 1);
    match dsts with
    | d :: _ => Ok (plans ++ [TransferPlanReduce srcs d redop_id red_fold])
    | [] => Err Undefined
    end.

(** *** [TransferPlan::plan_fill]

    [fill_value] is the caller's buffer and [fill_value_size] its length. *)

Definition byte_slice (buf : list Byte.byte) (ofs len : Z) : list Byte.byte :=
  firstn (Z.to_nat len) (skipn (Z.to_nat ofs) buf).

Fixpoint plan_fill_loop (plans : list TransferPlan)
    (it : list CopySrcDstField) (fill_value : list Byte.byte)
    (fill_value_size : Z) (fill_ofs : Z)
  : list LogMsg * result (list TransferPlan) :=
  match it with
  | [] => ([], Ok plans)
  | f :: rest =>
      if u64 (fill_ofs + size f) >? fill_value_size then
        ([FatalInsufficientFillData (u64 (fill_ofs + size f)) fill_value_size],
         Err AssertFailed)
      else
        let p := TransferPlanFill (byte_slice fill_value fill_ofs (size f))
                   (inst f) (offset f) in
        let fill_ofs :=
          if (fill_ofs >? 0) || negb (size f =? fill_value_size)
          then u64 (fill_ofs + size f) else fill_ofs in
        plan_fill_loop (plans ++ [p]) rest fill_value fill_value_size fill_ofs
  end.

Definition plan_fill (plans : list TransferPlan) (dsts : list CopySrcDstField)
    (fill_value : list Byte.byte)
  : list LogMsg * result (list TransferPlan) :=
  plan_fill_loop plans dsts fill_value (Z.of_nat (length fill_value)) 0.

End Transfer.

(** ** Points, rectangles and the pieces shared by the iterators *)

Abbreviation Point := (list Z) (only parsing).

(** [p[d]] *)
Definition coord (p : Point) (d : nat) : Z := nth d p 0.

Record Rect : Type := { lo : Point; hi : Point }.

Record AddressInfo : Type := {
  base_offset : Z;
  bytes_per_chunk : Z;
  num_lines : Z;
  line_stride : Z;
  num_planes : Z;
  plane_stride : Z
}.

(** The part of [RegionInstanceImpl::metadata] the iterators read. *)
Record RegionInstanceImpl : Type := {
  alloc_offset : Z;
  inst_offset : Z;
  block_size : Z;   (* size_t *)
  elmt_size : Z     (* size_t *)
}.

(** [Mapping<DIM,1>], an object of the array library: the one method used
    returns the image of the densest leading subrectangle together with that
    subrectangle. *)
Record Mapping : Type := {
  image_dense_subrect : Rect -> Rect * Rect
}.

(** [for(unsigned d = first; d < first + count; d++) body] *)
Fixpoint for_range {St} (first count : nat) (body : nat -> St -> result St)
    (s : St) : result St :=
  match count with
  | O => Ok s
  | S count' => s' ← body first s; for_range (S first) count' body s'
  end.

(** The carry loop that computes the point after a subrectangle [sub] of the
    iteration rectangle [r]; shared text of the rectangle iterators.  Every
    coordinate of the result is assigned, so the loop is started from a
    zeroed point instead of the previous contents of the member. *)
Record Carry : Type := { c_next : Point; c_carry : bool }.

Definition carry_dim (r sub : Rect) (d : nat) (st : Carry) : Carry :=
  if c_carry st then
    if coord (hi sub) d =? coord (hi r) d
    then {| c_next := <[d := coord (lo r) d]> (c_next st); c_carry := true |}
    else {| c_next := <[d := coord (hi sub) d + 1]> (c_next st); c_carry := false |}
  else {| c_next := <[d := coord (lo sub) d]> (c_next st); c_carry := false |}.

Fixpoint carry_loop (r sub : Rect) (first count : nat) (st : Carry) : Carry :=
  match count with
  | O => st
  | S count' => carry_loop r sub (S first) count' (carry_dim r sub first st)
  end.

Definition next_point_after (dim : nat) (r sub : Rect) : Carry :=
  carry_loop r sub 0 dim {| c_next := replicate dim 0; c_carry := true |}.

(** Which block of the instance a dense image starts in, and where in it. *)
Record BlockPos : Type := { first_block : Z; block_ofs : Z; last_block : Z }.

Definition block_pos (impl : RegionInstanceImpl) (image : Rect) : result BlockPos :=
  if block_size impl >? u64 (coord (hi image) 0) then
    Ok {| first_block := 0; block_ofs := coord (lo image) 0; last_block := 0 |}
  else if block_size impl =? 0 then Err Undefined
  else
    let fb := to_coord_t (u64 (coord (lo image) 0) / block_size impl) in
    Ok {| first_block := fb;
          block_ofs := to_coord_t (coord (lo image) 0 - fb * block_size impl);
          last_block := to_coord_t (u64 (coord (hi image) 0) / block_size impl) |}.

Definition fill_address_info (impl : RegionInstanceImpl) (bp : BlockPos)
    (field_offset field_size count : Z) : AddressInfo :=
  {| base_offset :=
       u64 (alloc_offset impl
            + first_block bp * block_size impl * elmt_size impl
            + field_offset * block_size impl
            + block_ofs bp * field_size);
     bytes_per_chunk := u64 (count * field_size);
     num_lines := 1; line_stride := 0; num_planes := 1; plane_stride := 0 |}.

(** ** [TransferIteratorRect<DIM>] *)

Module TransferIteratorRect.

Record t : Type := {
  DIM : nat;
  r : Rect;
  p : Point;
  next_p : Point;
  inst_impl : option RegionInstanceImpl;
  mapping : option Mapping;
  field_offsets : list Z;
  field_sizes : list Z;
  field_idx : nat;
  next_idx : nat;
  tentative_valid : bool
}.

Definition with_next (np : Point) (ni : nat) (tv : bool) (it : t) : t :=
  {| DIM := DIM it; r := r it; p := p it; next_p := np;
     inst_impl := inst_impl it; mapping := mapping it;
     field_offsets := field_offsets it; field_sizes := field_sizes it;
     field_idx := field_idx it; next_idx := ni; tentative_valid := tv |}.

Definition advance (it : t) : t :=
  {| DIM := DIM it; r := r it; p := next_p it; next_p := next_p it;
     inst_impl := inst_impl it; mapping := mapping it;
     field_offsets := field_offsets it; field_sizes := field_sizes it;
     field_idx := next_idx it; next_idx := next_idx it;
     tentative_valid := false |}.

Definition reset (it : t) : t :=
  {| DIM := DIM it; r := r it; p := lo (r it); next_p := next_p it;
     inst_impl := inst_impl it; mapping := mapping it;
     field_offsets := field_offsets it; field_sizes := field_sizes it;
     field_idx := 0; next_idx := next_idx it; tentative_valid := false |}.

Definition done (it : t) : bool :=
  Nat.eqb (field_idx it) (length (field_offsets it)).

(** Lines 553-580: the subrectangle the step would like to hand out. *)
Record Grow : Type := { g_hi : Point; g_grow : bool; g_count : Z }.

Definition grow_dim (r : Rect) (p : Point) (max_elems : Z) (d : nat) (st : Grow)
  : result Grow :=
  if g_grow st then
    let len := u64 (coord (hi r) d - coord p d + 1) in
    if u64 (g_count st * len) <=? max_elems then
      Ok {| g_hi := <[d := coord (hi r) d]> (g_hi st);
            g_grow := coord p d =? coord (lo r) d;
            g_count := u64 (g_count st * len) |}
    else if g_count st =? 0 then Err Undefined
    else
      let actlen := max_elems / g_count st in
      _ ← assert (actlen >=? 1);
      Ok {| g_hi := <[d := to_coord_t (coord p d + actlen - 1)]> (g_hi st);
            g_grow := false;
            g_count := u64 (g_count st * actlen) |}
  else
    Ok {| g_hi := <[d := coord p d]> (g_hi st);
          g_grow := false; g_count := g_count st |}.

Definition target_subrect (dim : nat) (r : Rect) (p : Point) (max_elems : Z)
  : result (Rect * Z) :=
  st ← for_range 0 dim (grow_dim r p max_elems)
         {| g_hi := replicate dim 0; g_grow := true; g_count := 1 |};
  Ok ({| lo := p; hi := g_hi st |}, g_count st).

(** Lines 603-634: cut the subrectangle down to what stays inside one block. *)
Record Shrink : Type := { s_hi : Point; s_count : Z; s_collapse : bool }.

Definition shrink_dim (act_lo : Point) (max_len : Z) (d : nat) (st : Shrink)
  : result Shrink :=
  if s_collapse st then
    Ok {| s_hi := <[d := coord act_lo d]> (s_hi st);
          s_count := s_count st; s_collapse := true |}
  else if coord act_lo d =? coord (s_hi st) d then Ok st
  else
    let dim_len := coord (s_hi st) d - coord act_lo d + 1 in
    if s_count st * dim_len <=? max_len then
      Ok {| s_hi := s_hi st; s_count := s_count st * dim_len; s_collapse := false |}
    else if s_count st =? 0 then Err Undefined
    else
      let new_len := Z.quot max_len (s_count st) in
      _ ← assert ((new_len >? 0) && (new_len <? dim_len));
      Ok {| s_hi := <[d := coord act_lo d + new_len - 1]> (s_hi st);
            s_count := s_count st * new_len; s_collapse := true |}.

Definition shrink_to_block (dim : nat) (impl : RegionInstanceImpl)
    (image act : Rect) (act_count : Z) (bp : BlockPos) : result (Rect * Z) :=
  if block_size impl >? u64 (coord (hi image) 0) then Ok (act, act_count)
  else if first_block bp =? last_block bp then Ok (act, act_count)
  else
    let max_len :=
      to_coord_t (block_size impl - u64 (coord (lo image) 0) mod block_size impl) in
    if max_len <? coord (hi act) 0 - coord (lo act) 0 + 1 then
      Ok ({| lo := lo act; hi := <[0%nat := coord (lo act) 0 + max_len - 1]> (lo act) |},
          u64 max_len)
    else
      st ← for_range 1 (dim - 1) (shrink_dim (lo act) max_len)
             {| s_hi := hi act;
                s_count := coord (hi act) 0 - coord (lo act) 0 + 1;
                s_collapse := false |};
      Ok ({| lo := lo act; hi := s_hi st |}, u64 (s_count st)).

Section WithArrays.

(** [Rect<DIM>::volume()], from the array library. *)
Variable volume : Rect -> Z.

Definition step (max_bytes : Z) (info : AddressInfo) (tentative : bool) (it : t)
  : result (Z * AddressInfo * t) :=
  _ ← assert (negb (done it));
  _ ← assert (negb (tentative_valid it));
  field_size ← of_option (field_sizes it !! field_idx it);
  _ ← (if field_size =? 0 then Err Undefined else Ok tt);
  let max_elems := max_bytes / field_size in
  if max_elems =? 0 then Ok (0, info, it)
  else
    '(target, _) ← target_subrect (DIM it) (r it) (p it) max_elems;
    m ← of_option (mapping it);
    let '(image, act_subrect) := image_dense_subrect m target in
    let act_count := volume act_subrect in
    impl ← of_option (inst_impl it);
    bp ← block_pos impl image;
    '(act_subrect, act_count) ←
       shrink_to_block (DIM it) impl image act_subrect act_count bp;
    field_offset ← of_option (field_offsets it !! field_idx it);
    let info := fill_address_info impl bp field_offset field_size act_count in
    let c := next_point_after (DIM it) (r it) act_subrect in
    let it := with_next (c_next c)
                (field_idx it + (if c_carry c then 1 else 0))%nat
                (tentative_valid it) it in
    if tentative then Ok (bytes_per_chunk info, info, with_next (next_p it) (next_idx it) true it)
    else Ok (bytes_per_chunk info, info, advance it).

End WithArrays.

Definition confirm_step (it : t) : result t :=
  _ ← assert (tentative_valid it);
  Ok (advance it).

Definition cancel_step (it : t) : result t :=
  _ ← assert (tentative_valid it);
  Ok (with_next (next_p it) (next_idx it) false it).

End TransferIteratorRect.

(** ** [ElementMask] and its [Enumerator] *)

Module ElementMask.

(** Modelled from the spec: [ElementMask] and [ElementMask::Enumerator] are
    declared outside the files at hand.  The spec's data model makes the
    sparsity data of an index space a bitmap over its elements; the mask is
    that bitmap (bit [i] set when element [i] is enabled) and the enumerator a
    cursor over it that hands out the maximal runs of enabled elements at or
    after its position. *)
Definition t : Type := list bool.

Fixpoint find_from (bits : list bool) (pos : Z) : option Z :=
  match bits with
  | [] => None
  | b :: bits' => if b then Some pos else find_from bits' (pos + 1)
  end.

Fixpoint run_length (bits : list bool) : Z :=
  match bits with
  | true :: bits' => 1 + run_length bits'
  | _ => 0
  end.

Definition find_enabled (m : t) : Z :=
  match find_from m 0 with
  | Some i => i
  | None => -1
  end.

Definition next_span (m : t) (pos : Z) : option (Z * Z) :=
  let start := Z.max 0 pos in
  match find_from (skipn (Z.to_nat start) m) start with
  | None => None
  | Some s => Some (s, run_length (skipn (Z.to_nat s) m))
  end.

Record Enumerator : Type := { mask : t; pos : Z }.

Definition enumerate_enabled (m : t) (start : Z) : Enumerator :=
  {| mask := m; pos := start |}.

Definition set_pos (e : Enumerator) (new_pos : Z) : Enumerator :=
  {| mask := mask e; pos := new_pos |}.

Definition get_next (e : Enumerator) : option (Z * Z) * Enumerator :=
  match next_span (mask e) (pos e) with
  | Some (s, l) => (Some (s, l), set_pos e (s + l))
  | None => (None, e)
  end.

Definition peek_next (e : Enumerator) : option (Z * Z) :=
  fst (get_next e).

End ElementMask.

#[global] Instance Rect_eq_dec : EqDecision Rect.
Proof. solve_decision. Defined.

(** ** [TransferIteratorIndexSpace] *)

Module TransferIteratorIndexSpace.

Import ElementMask.

(** What [get_runtime()->get_index_space_impl(is)] gives access to: whether
    the event of [request_valid_mask()] has triggered, and the mask pointer. *)
Record IndexSpaceImpl : Type := {
  valid_mask_ready : bool;
  impl_valid_mask : option ElementMask.t
}.

Record t : Type := {
  is_impl : IndexSpaceImpl;
  valid_mask : option ElementMask.t;
  first_enabled : Z;
  enumerator : option Enumerator;
  rewind_pos : Z;
  inst_impl : option RegionInstanceImpl;
  mapping : option Mapping;
  field_offsets : list Z;
  field_sizes : list Z;
  field_idx : nat;
  next_idx : nat;
  extra_elems : Z;
  tentative_valid : bool
}.

Definition set_mask (m : ElementMask.t) (fe : Z) (it : t) : t :=
  {| is_impl := is_impl it; valid_mask := Some m; first_enabled := fe;
     enumerator := enumerator it; rewind_pos := rewind_pos it;
     inst_impl := inst_impl it; mapping := mapping it;
     field_offsets := field_offsets it; field_sizes := field_sizes it;
     field_idx := field_idx it; next_idx := next_idx it;
     extra_elems := extra_elems it; tentative_valid := tentative_valid it |}.

Definition clear_fields (it : t) : t :=
  {| is_impl := is_impl it; valid_mask := valid_mask it;
     first_enabled := first_enabled it;
     enumerator := enumerator it; rewind_pos := rewind_pos it;
     inst_impl := inst_impl it; mapping := mapping it;
     field_offsets := []; field_sizes := [];
     field_idx := 0; next_idx := next_idx it;
     extra_elems := extra_elems it; tentative_valid := tentative_valid it |}.

(** The members a step writes: enumerator, rewind position, field index,
    next index and the tentative flag. *)
Definition with_cursor (e : option Enumerator) (rw : Z) (fi ni : nat) (tv : bool)
    (it : t) : t :=
  {| is_impl := is_impl it; valid_mask := valid_mask it;
     first_enabled := first_enabled it;
     enumerator := e; rewind_pos := rw;
     inst_impl := inst_impl it; mapping := mapping it;
     field_offsets := field_offsets it; field_sizes := field_sizes it;
     field_idx := fi; next_idx := ni;
     extra_elems := extra_elems it; tentative_valid := tv |}.

Definition reset (it : t) : t :=
  with_cursor None (rewind_pos it) 0 (next_idx it) (tentative_valid it) it.

Definition done (it : t) : bool :=
  Nat.eqb (field_idx it) (length (field_offsets it)).

(** Lines 245-259: fetch the valid mask on first use.  The flag tells that
    the space turned out empty and the step returns 0 at once. *)
Definition fetch_valid_mask (it : t) : result (t * bool) :=
  if negb (Transfer.is_nil (field_sizes it)) && negb (bool_decide (is_Some (valid_mask it)))
  then
    _ ← assert (valid_mask_ready (is_impl it));
    match impl_valid_mask (is_impl it) with
    | None => Err AssertFailed
    | Some m =>
        let fe := find_enabled m in
        if fe =? -1 then Ok (clear_fields (set_mask m fe it), true)
        else Ok (set_mask m fe it, false)
    end
  else Ok (it, false).

(** The [while(1)] loop of lines 291-312.  [peek_next] leaves the enumerator
    alone, so every iteration sees the same next span. *)
Fixpoint merge_spans (fuel : nat) (e : Enumerator)
    (span_start span_len extra max_elems : Z) : result (Z * bool) :=
  match fuel with
  | O => Err OutOfFuel
  | S fuel' =>
      match peek_next e with
      | Some (peek_start, peek_len) =>
          if (u64 (peek_start - (span_start + span_len)) <=? extra)
             && (u64 (peek_start + peek_len - span_start) <=? max_elems)
          then merge_spans fuel' e span_start
                 (u64 (peek_start - span_start + peek_len)) extra max_elems
          else Ok (span_len, false)
      | None => Ok (span_len, true)
      end
  end.

(** After one merge the loop state no longer changes: two iterations decide
    whether the loop leaves or spins for ever. *)
Definition merge_budget : nat := 2.

(** Lines 272-366: take the next span from the enumerator [e] and turn it
    into a chunk. *)
Definition step_from (e : Enumerator) (field_size max_elems : Z)
    (tentative : bool) (it : t) : result (Z * AddressInfo * t) :=
  let '(next, e) := get_next e in
  '(span_start, span_len) ←
     match next with Some sp => Ok sp | None => Err AssertFailed end;
  let rewind := span_start in
  '(span_len, e, last_span) ←
     (if span_len >? max_elems
      then Ok (max_elems, set_pos e (to_coord_t (span_start + max_elems)), false)
      else '(len, last) ← merge_spans merge_budget e span_start span_len
                            (extra_elems it) max_elems;
           Ok (len, e, last));
  let target := {| lo := [span_start];
                   hi := [to_coord_t (span_start + span_len - 1)] |} in
  m ← of_option (mapping it);
  let '(image, act_subrect) := image_dense_subrect m target in
  _ ← assert (bool_decide (act_subrect = target));
  impl ← of_option (inst_impl it);
  bp ← block_pos impl image;
  let '(span_len, e, last_span) :=
    if (block_size impl >? u64 (coord (hi image) 0))
       || (first_block bp =? last_block bp)
    then (span_len, e, last_span)
    else
      let len := u64 (block_size impl
                      - u64 (coord (lo image) 0) mod block_size impl) in
      (len, set_pos e (to_coord_t (coord (lo image) 0 + len)), false) in
  field_offset ← of_option (field_offsets it !! field_idx it);
  let info := fill_address_info impl bp field_offset field_size span_len in
  if tentative then
    Ok (bytes_per_chunk info, info,
        with_cursor (Some e) rewind (field_idx it)
          (field_idx it + (if last_span then 1 else 0))%nat true it)
  else if (last_span : bool) then
    Ok (bytes_per_chunk info, info,
        with_cursor None rewind (S (field_idx it)) (next_idx it)
          (tentative_valid it) it)
  else
    Ok (bytes_per_chunk info, info,
        with_cursor (Some e) rewind (field_idx it) (next_idx it)
          (tentative_valid it) it).

(** Lines 260-270: the step proper, once the valid mask is at hand; the
    enumerator is built when there is none. *)
Definition step_with_mask (max_bytes : Z) (info : AddressInfo) (tentative : bool)
    (it : t) : result (Z * AddressInfo * t) :=
  _ ← assert (negb (done it));
  _ ← assert (negb (tentative_valid it));
  field_size ← of_option (field_sizes it !! field_idx it);
  _ ← (if field_size =? 0 then Err Undefined else Ok tt);
  let max_elems := max_bytes / field_size in
  if max_elems =? 0 then Ok (0, info, it)
  else
    vm ← of_option (valid_mask it);
    let e := match enumerator it with
             | Some e => e
             | None => enumerate_enabled vm (first_enabled it)
             end in
    step_from e field_size max_elems tentative it.

Definition step (max_bytes : Z) (info : AddressInfo) (tentative : bool) (it : t)
  : result (Z * AddressInfo * t) :=
  '(it, empty) ← fetch_valid_mask it;
  if (empty : bool) then Ok (0, info, it)
  else step_with_mask max_bytes info tentative it.

Definition confirm_step (it : t) : result t :=
  _ ← assert (tentative_valid it);
  if Nat.eqb (next_idx it) (field_idx it)
  then Ok (with_cursor (enumerator it) (rewind_pos it) (field_idx it)
             (next_idx it) false it)
  else Ok (with_cursor None (rewind_pos it) (next_idx it) (next_idx it) false it).

Definition cancel_step (it : t) : result t :=
  _ ← assert (tentative_valid it);
  match enumerator it with
  | None => Err AssertFailed
  | Some e =>
      Ok (with_cursor (Some (set_pos e (rewind_pos it))) (rewind_pos it)
            (field_idx it) (next_idx it) false it)
  end.

End TransferIteratorIndexSpace.

(** ** [TransferIteratorZIndexSpace<N,T>] *)

Module TransferIteratorZIndexSpace.

(** Modelled from the spec: [ZIndexSpaceIterator] is declared outside the
    files at hand.  The spec's data model gives an index space as a bounded
    rectangle with an optional list of sub-rectangles; the iterator is a
    cursor over the dense rectangles of the space, [valid] while it stands on
    one of them. *)
Record ZIndexSpaceIterator : Type := {
  space : list Rect;
  rect : Rect;
  valid : bool;
  rest : list Rect
}.

Definition iter_reset (sp : list Rect) (dflt : Rect) : ZIndexSpaceIterator :=
  match sp with
  | [] => {| space := sp; rect := dflt; valid := false; rest := [] |}
  | r0 :: rs => {| space := sp; rect := r0; valid := true; rest := rs |}
  end.

Definition iter_step (it : ZIndexSpaceIterator) : bool * ZIndexSpaceIterator :=
  match rest it with
  | [] => (false, {| space := space it; rect := rect it; valid := false; rest := [] |})
  | r0 :: rs => (true, {| space := space it; rect := r0; valid := true; rest := rs |})
  end.

(** [InstanceLayoutGeneric::FieldLayout] *)
Record FieldLayout : Type := {
  list_idx : nat;
  rel_offset : Z;
  size_in_bytes : Z
}.

Inductive InstanceLayoutPiece : Type :=
| AffineLayoutPiece (bounds : Rect) (offset : Z) (strides : Point)
| OtherLayoutPiece (bounds : Rect).

(** [InstancePieceList<N,T>], an object of the layout library: the one
    method used looks up the piece that holds a point, null when there is
    none. *)
Record InstancePieceList : Type := {
  find_piece : Point -> option InstanceLayoutPiece
}.

Record InstanceLayout : Type := {
  fields_layout : gmap Z FieldLayout;
  piece_lists : list InstancePieceList
}.

(** [ZPoint::dot] *)
Fixpoint dot (a b : Point) : Z :=
  match a, b with
  | x :: a', y :: b' => x * y + dot a' b'
  | _, _ => 0
  end.

Record t : Type := {
  N : nat;
  iter : ZIndexSpaceIterator;
  cur_point : Point;
  next_point : Point;
  carry : bool;
  inst_impl : option RegionInstanceImpl;
  inst_layout : option InstanceLayout;
  fields : list Z;
  field_idx : nat;
  extra_elems : Z;
  tentative_valid : bool
}.

Definition with_next (np : Point) (c : bool) (tv : bool) (it : t) : t :=
  {| N := N it; iter := iter it; cur_point := cur_point it;
     next_point := np; carry := c;
     inst_impl := inst_impl it; inst_layout := inst_layout it;
     fields := fields it; field_idx := field_idx it;
     extra_elems := extra_elems it; tentative_valid := tv |}.

Definition with_position (i : ZIndexSpaceIterator) (cp : Point) (fi : nat) (it : t)
  : t :=
  {| N := N it; iter := i; cur_point := cp;
     next_point := next_point it; carry := carry it;
     inst_impl := inst_impl it; inst_layout := inst_layout it;
     fields := fields it; field_idx := fi;
     extra_elems := extra_elems it; tentative_valid := false |}.

(** The shared tail of a direct step and of [confirm_step]. *)
Definition advance (it : t) : t :=
  if carry it then
    let '(more, i) := iter_step (iter it) in
    if (more : bool) then with_position i (lo (rect i)) (field_idx it) it
    else with_position (iter_reset (space i) (rect i)) (cur_point it)
           (S (field_idx it)) it
  else with_position (iter it) (next_point it) (field_idx it) it.

Definition reset (it : t) : t :=
  let i := iter_reset (space (iter it)) (rect (iter it)) in
  {| N := N it; iter := i; cur_point := lo (rect i);
     next_point := next_point it; carry := carry it;
     inst_impl := inst_impl it; inst_layout := inst_layout it;
     fields := fields it; field_idx := 0;
     extra_elems := extra_elems it; tentative_valid := tentative_valid it |}.

Definition done (it : t) : bool :=
  Nat.eqb (field_idx it) (length (fields it)).

(** Lines 1013-1040: grow inside the affine piece while the strides stay
    those of a dense array. *)
Record Grow : Type := {
  g_hi : Point; g_grow : bool; g_exp_stride : Z; g_cur_bytes : Z
}.

Definition grow_dim (r bounds : Rect) (strides cur : Point) (max_bytes : Z)
    (d : nat) (st : Grow) : result Grow :=
  if g_grow st then
    if coord strides d =? g_exp_stride st then
      let len := u64 (coord (hi r) d - coord cur d + 1) in
      let exp_stride := u64 (g_exp_stride st * len) in
      let piece_limit := u64 (coord (hi bounds) d - coord cur d + 1) in
      let '(len, grow) := if piece_limit <? len then (piece_limit, false)
                          else (len, true) in
      if g_cur_bytes st =? 0 then Err Undefined
      else
        let byte_limit := max_bytes / g_cur_bytes st in
        let '(len, grow) := if byte_limit <? len then (byte_limit, false)
                            else (len, grow) in
        Ok {| g_hi := <[d := to_coord_t (coord cur d + len - 1)]> (g_hi st);
              g_grow := grow; g_exp_stride := exp_stride;
              g_cur_bytes := u64 (g_cur_bytes st * len) |}
    else
      Ok {| g_hi := <[d := to_coord_t (coord cur d + 1 - 1)]> (g_hi st);
            g_grow := false; g_exp_stride := g_exp_stride st;
            g_cur_bytes := u64 (g_cur_bytes st * 1) |}
  else
    Ok {| g_hi := <[d := coord cur d]> (g_hi st);
          g_grow := false; g_exp_stride := g_exp_stride st;
          g_cur_bytes := g_cur_bytes st |}.

Definition step (max_bytes : Z) (info : AddressInfo) (tentative : bool) (it : t)
  : result (Z * AddressInfo * t) :=
  _ ← assert (negb (done it));
  _ ← assert (negb (tentative_valid it));
  _ ← assert (valid (iter it));
  layout ← of_option (inst_layout it);
  fid ← of_option (fields it !! field_idx it);
  fl ← match fields_layout layout !! fid with
       | Some fl => Ok fl
       | None => Err AssertFailed
       end;
  pieces ← of_option (piece_lists layout !! list_idx fl);
  piece ← match find_piece pieces (cur_point it) with
          | Some pc => Ok pc
          | None => Err AssertFailed
          end;
  let field_size := size_in_bytes fl in
  _ ← (if field_size =? 0 then Err Undefined else Ok tt);
  let max_elems := max_bytes / field_size in
  if max_elems =? 0 then Ok (0, info, it)
  else
    match piece with
    | AffineLayoutPiece bounds offset strides =>
        g ← for_range 0 (N it)
              (grow_dim (rect (iter it)) bounds strides (cur_point it) max_bytes)
              {| g_hi := replicate (N it) 0; g_grow := true;
                 g_exp_stride := field_size; g_cur_bytes := field_size |};
        let target := {| lo := cur_point it; hi := g_hi g |} in
        impl ← of_option (inst_impl it);
        let info :=
          {| base_offset := u64 (inst_offset impl + offset
                                 + dot strides (cur_point it) + rel_offset fl);
             bytes_per_chunk := g_cur_bytes g;
             num_lines := 1; line_stride := 0;
             num_planes := 1; plane_stride := 0 |} in
        let c := next_point_after (N it) (rect (iter it)) target in
        if tentative then
          Ok (bytes_per_chunk info, info, with_next (c_next c) (c_carry c) true it)
        else
          Ok (bytes_per_chunk info, info,
              advance (with_next (c_next c) (c_carry c) (tentative_valid it) it))
    | OtherLayoutPiece _ => Err AssertFailed
    end.

Definition confirm_step (it : t) : result t :=
  _ ← assert (tentative_valid it);
  Ok (advance it).

Definition cancel_step (it : t) : result t :=
  _ ← assert (tentative_valid it);
  Ok (with_next (next_point it) (carry it) false it).

End TransferIteratorZIndexSpace.

(** ** The virtual interface [TransferIterator] *)

Module TransferIterator.

Inductive t : Type :=
| OfRect (it : TransferIteratorRect.t)
| OfIndexSpace (it : TransferIteratorIndexSpace.t)
| OfZIndexSpace (it : TransferIteratorZIndexSpace.t).

Definition done (ti : t) : bool :=
  match ti with
  | OfRect it => TransferIteratorRect.done it
  | OfIndexSpace it => TransferIteratorIndexSpace.done it
  | OfZIndexSpace it => TransferIteratorZIndexSpace.done it
  end.

Definition lift {A B} (f : A -> B) (x : result (Z * AddressInfo * A))
  : result (Z * AddressInfo * B) :=
  '(bytes, info, a) ← x; Ok (bytes, info, f a).

Section WithArrays.

Variable volume : Rect -> Z.

Definition step (max_bytes : Z) (info : AddressInfo) (tentative : bool) (ti : t)
  : result (Z * AddressInfo * t) :=
  match ti with
  | OfRect it =>
      lift OfRect (TransferIteratorRect.step volume max_bytes info tentative it)
  | OfIndexSpace it =>
      lift OfIndexSpace (TransferIteratorIndexSpace.step max_bytes info tentative it)
  | OfZIndexSpace it =>
      lift OfZIndexSpace (TransferIteratorZIndexSpace.step max_bytes info tentative it)
  end.

End WithArrays.

Definition confirm_step (ti : t) : result t :=
  match ti with
  | OfRect it => OfRect <$> TransferIteratorRect.confirm_step it
  | OfIndexSpace it => OfIndexSpace <$> TransferIteratorIndexSpace.confirm_step it
  | OfZIndexSpace it => OfZIndexSpace <$> TransferIteratorZIndexSpace.confirm_step it
  end.

Definition cancel_step (ti : t) : result t :=
  match ti with
  | OfRect it => OfRect <$> TransferIteratorRect.cancel_step it
  | OfIndexSpace it => OfIndexSpace <$> TransferIteratorIndexSpace.cancel_step it
  | OfZIndexSpace it => OfZIndexSpace <$> TransferIteratorZIndexSpace.cancel_step it
  end.

End TransferIterator.

(** ** [GPUProcessor]: task streams, pinned host memory, peers

    Objects reached through pointers ([GPUProcessor*], [GPUJob*]) live in
    stores keyed by their address.  Calls into the CUDA driver are recorded
    in the order they are issued; [CHECK_CU] around each of them ends the
    process when the driver reports an error, which is the driver's to
    decide and is not part of the log.  Loading and unloading of modules is
    left out. *)

Module GPU.

Definition CUstream : Type := Z.
Definition CUcontext : Type := Z.
Definition CUfunction : Type := Z.

(** [Event]: [(id, gen)]; [exists()] is [id != 0]. *)
Definition Event : Type := Z * Z.
Definition event_exists (e : Event) : bool := negb (e.1 =? 0).

Record Task : Type := {
  func_id : Z;
  finish_event : Event;
  run_count : Z;
  capture : bool          (* perform_capture() *)
}.

Inductive GPUMemcpyKind : Type :=
| GPU_MEMCPY_HOST_TO_DEVICE | GPU_MEMCPY_DEVICE_TO_HOST
| GPU_MEMCPY_DEVICE_TO_DEVICE | GPU_MEMCPY_PEER_TO_PEER.

(** The two subclasses of [GPUJob]; the first component is [gpu]. *)
Inductive GPUJob : Type :=
| GPUTask (gpu : Z) (task : Task) (local_stream : CUstream)
| GPUMemcpy (gpu : Z) (kind : GPUMemcpyKind) (copy_finish_event : Event).


Inductive StreamCallback : Type :=
| handle_start
| handle_finish.

Inductive DriverCall : Type :=
| cuCtxPushCurrent (ctx : CUcontext)
| cuCtxPopCurrent (ctx : CUcontext)
| cuMemHostRegister (base size : Z)       (* CU_MEMHOSTREGISTER_PORTABLE *)
| cuCtxEnablePeerAccess (peer_ctx : CUcontext)
| cuLaunchKernel (f : CUfunction) (stream : CUstream)
| cuStreamAddCallback (stream : CUstream) (cb : StreamCallback) (job : Z)
| cuCtxSynchronize.

Record GPUProcessor : Type := {
  proc_ctx : CUcontext;
  shutdown : bool;
  shutdown_trigger : bool;
  gpu_worker : bool;                 (* a DMA worker is attached *)
  task_streams : list CUstream;
  current_stream : Z;                (* int *)
  peer_gpus : gset Z;                (* std::set<GPUProcessor*> *)
  task_queue : list Task;
  copies : list Z;
  complete_jobs : list Z;
  resumable_threads : list Z;
  available_threads : list Z;
  running_thread : option Z
}.

Record State : Type := {
  procs : gmap Z GPUProcessor;
  jobs : gmap Z GPUJob;
  next_job : Z;                      (* address handed out by the next [new] *)
  worker_jobs : gmap Z (list Z);     (* GPUWorker::complete_jobs *)
  driver : list DriverCall;
  triggered : gset Event
}.

Definition set_procs (f : gmap Z GPUProcessor -> gmap Z GPUProcessor)
    (st : State) : State :=
  {| procs := f (procs st); jobs := jobs st; next_job := next_job st;
     worker_jobs := worker_jobs st; driver := driver st;
     triggered := triggered st |}.

Definition call (c : list DriverCall) (st : State) : State :=
  {| procs := procs st; jobs := jobs st; next_job := next_job st;
     worker_jobs := worker_jobs st; driver := driver st ++ c;
     triggered := triggered st |}.

Definition trigger (e : Event) (st : State) : State :=
  {| procs := procs st; jobs := jobs st; next_job := next_job st;
     worker_jobs := worker_jobs st; driver := driver st;
     triggered := {[e]} ∪ triggered st |}.

Definition new_job (j : GPUJob) (st : State) : Z * State :=
  (next_job st,
   {| procs := procs st; jobs := <[next_job st := j]> (jobs st);
      next_job := next_job st + 1;
      worker_jobs := worker_jobs st; driver := driver st;
      triggered := triggered st |}).

Definition set_worker_jobs (f : gmap Z (list Z) -> gmap Z (list Z))
    (st : State) : State :=
  {| procs := procs st; jobs := jobs st; next_job := next_job st;
     worker_jobs := f (worker_jobs st); driver := driver st;
     triggered := triggered st |}.

Definition get_proc (this : Z) (st : State) : result GPUProcessor :=
  of_option (procs st !! this).

Definition with_peer (peer : Z) (g : GPUProcessor) : GPUProcessor :=
  {| proc_ctx := proc_ctx g; shutdown := shutdown g;
     shutdown_trigger := shutdown_trigger g; gpu_worker := gpu_worker g;
     task_streams := task_streams g; current_stream := current_stream g;
     peer_gpus := {[peer]} ∪ peer_gpus g;
     task_queue := task_queue g; copies := copies g;
     complete_jobs := complete_jobs g;
     resumable_threads := resumable_threads g;
     available_threads := available_threads g;
     running_thread := running_thread g |}.

(** The members [execute_gpu] and [handle_complete_job] write. *)
Definition with_sched (strig : bool) (cur : Z) (tq : list Task) (cj : list Z)
    (rs av : list Z) (run : option Z) (g : GPUProcessor) : GPUProcessor :=
  {| proc_ctx := proc_ctx g; shutdown := shutdown g;
     shutdown_trigger := strig; gpu_worker := gpu_worker g;
     task_streams := task_streams g; current_stream := cur;
     peer_gpus := peer_gpus g;
     task_queue := tq; copies := copies g;
     complete_jobs := cj;
     resumable_threads := rs; available_threads := av;
     running_thread := run |}.

Definition register_host_memory (this : Z) (base size : Z) (st : State)
  : result State :=
  g ← get_proc this st;
  if negb (shutdown g) then
    Ok (call [cuCtxPushCurrent (proc_ctx g);
              cuMemHostRegister base size;
              cuCtxPopCurrent (proc_ctx g)] st)
  else Ok st.

Definition handle_peer_access (this : Z) (peer_ctx : CUcontext) (st : State)
  : result State :=
  g ← get_proc this st;
  Ok (call [cuCtxPushCurrent (proc_ctx g);
            cuCtxEnablePeerAccess peer_ctx;
            cuCtxPopCurrent (proc_ctx g)] st).

Definition enable_peer_access (this : Z) (peer : Z) (st : State) : result State :=
  g ← get_proc this st;
  st ← handle_peer_access peer (proc_ctx g) st;
  Ok (set_procs (alter (with_peer peer) this) st).

Definition can_access_peer (this : Z) (peer : Z) (st : State) : result bool :=
  g ← get_proc this st;
  Ok (bool_decide (peer ∈ peer_gpus g)).

Definition get_current_task_stream (g : GPUProcessor) : result CUstream :=
  if current_stream g <? 0 then Err Undefined
  else of_option (task_streams g !! Z.to_nat (current_stream g)).

(** [GPUProcessor::handle_complete_job]; starting a fresh thread when none is
    available is recorded as thread [-1] becoming the running one. *)
Definition handle_complete_job (this : Z) (job : Z) (st : State) : result State :=
  g ← get_proc this st;
  if gpu_worker g then
    Ok (set_worker_jobs
          (fun m => <[this := default [] (m !! this) ++ [job]]> m) st)
  else
    let cj := complete_jobs g ++ [job] in
    let g' :=
      match running_thread g with
      | Some _ => with_sched (shutdown_trigger g) (current_stream g)
                    (task_queue g) cj (resumable_threads g)
                    (available_threads g) (running_thread g) g
      | None =>
          match rev (available_threads g) with
          | to_wake :: others =>
              with_sched (shutdown_trigger g) (current_stream g)
                (task_queue g) cj (resumable_threads g)
                (rev others) (Some to_wake) g
          | [] =>
              with_sched (shutdown_trigger g) (current_stream g)
                (task_queue g) cj (resumable_threads g)
                (available_threads g) (Some (-1)) g
          end
      end in
    Ok (set_procs <[this := g']> st).


(** [GPUTask::finish_job] and [GPUMemcpy::finish_job] *)
Definition finish_job (job : Z) (st : State) : result State :=
  j ← of_option (jobs st !! job);
  let ev := match j with
            | GPUTask _ t _ => finish_event t
            | GPUMemcpy _ _ e => e
            end in
  Ok (if event_exists ev then trigger ev st else st).

Fixpoint finish_all (to_complete : list Z) (st : State) : result State :=
  match to_complete with
  | [] => Ok st
  | job :: rest => st ← finish_job job st; finish_all rest st
  end.

(** [GPUProcessor::finish_jobs], called by the DMA worker. *)
Definition finish_jobs (this : Z) (to_complete : list Z) (st : State)
  : result State :=
  g ← get_proc this st;
  st ← finish_all to_complete (call [cuCtxPushCurrent (proc_ctx g)] st);
  Ok (call [cuCtxPopCurrent (proc_ctx g)] st).

Section WithTaskTable.

(** [get_runtime()->task_table]: the body of a task is user code; the model
    keeps the kernels it launches, each of which the processor puts on
    [get_current_task_stream()]. *)
Variable task_table : Z -> list CUfunction.

(** [GPUTask::execute] *)
Definition execute (job : Z) (st : State) : result State :=
  j ← of_option (jobs st !! job);
  match j with
  | GPUTask gpu task local_stream =>
      g ← get_proc gpu st;
      let st := if capture task
                then call [cuStreamAddCallback local_stream handle_start job] st
                else st in
      launch_stream ← get_current_task_stream g;
      let st := call (map (fun f => cuLaunchKernel f launch_stream)
                        (task_table (func_id task))) st in
      Ok (call [cuStreamAddCallback local_stream handle_finish job] st)
  | GPUMemcpy _ _ _ => Err Undefined
  end.

Inductive Outcome : Type :=
| SwitchedThread    (* handed over to a resumable thread *)
| Slept             (* nothing to do *)
| Worked.

(** [GPUProcessor::execute_gpu].  In the work branch [ready_copies] is
    tested for emptiness right after its declaration, so no copy is ever
    moved into it. *)
Definition execute_gpu (this : Z) (thread : Z) (st : State)
  : result (Outcome * bool * State) :=
  g ← get_proc this st;
  _ ← assert (bool_decide (running_thread g = Some thread));
  match resumable_threads g with
  | to_resume :: others =>
      let g' := with_sched (shutdown_trigger g) (current_stream g)
                  (task_queue g) (complete_jobs g) others
                  (available_threads g ++ [thread]) (Some to_resume) g in
      Ok (SwitchedThread, shutdown g', set_procs <[this := g']> st)
  | [] =>
      if Transfer.is_nil (task_queue g)
         && (gpu_worker g
             || (Transfer.is_nil (copies g) && Transfer.is_nil (complete_jobs g)))
      then
        let g' := with_sched (shutdown_trigger g) (current_stream g)
                    (task_queue g) (complete_jobs g) []
                    (available_threads g ++ [thread]) None g in
        Ok (Slept, shutdown g', set_procs <[this := g']> st)
      else
        (* take over the completed jobs *)
        let to_complete := if gpu_worker g then [] else complete_jobs g in
        let cj := if gpu_worker g then complete_jobs g else [] in
        (* pop a task *)
        let '(popped, tq) := match task_queue g with
                             | [] => (None, [])
                             | t :: tq => (Some t, tq)
                             end in
        let kill := match popped with
                    | Some t => func_id t =? 0
                    | None => false
                    end in
        let g1 := with_sched (shutdown_trigger g || kill) (current_stream g)
                    tq cj [] (available_threads g) (running_thread g) g in
        let st := set_procs <[this := g1]> st in
        '(gpu_task, st) ←
           match popped with
           | None => Ok (None, st)
           | Some t =>
               if func_id t =? 0 then
                 Ok (None, if run_count t =? 0
                           then trigger (finish_event t) st else st)
               else if run_count t =? 0 then
                 stream ← get_current_task_stream g1;
                 let '(job, st) := new_job (GPUTask this t stream) st in
                 Ok (Some job, st)
               else Ok (None, st)
           end;
        st ← match gpu_task with
             | None => Ok st
             | Some job =>
                 st ← execute job st;
                 g2 ← get_proc this st;
                 let cur := current_stream g2 + 1 in
                 let cur := if cur >=? Z.of_nat (length (task_streams g2))
                            then 0 else cur in
                 Ok (set_procs
                       <[this := with_sched (shutdown_trigger g2) cur
                                   (task_queue g2) (complete_jobs g2)
                                   (resumable_threads g2) (available_threads g2)
                                   (running_thread g2) g2]> st)
             end;
        st ← finish_all to_complete st;
        g3 ← get_proc this st;
        Ok (Worked, shutdown g3, st)
  end.

End WithTaskTable.

(** One round of [GPUWorker::thread_main] for the jobs of processor [proc]. *)
Definition worker_drain (proc : Z) (st : State) : result State :=
  match worker_jobs st !! proc with
  | None | Some [] => Ok st
  | Some to_complete =>
      finish_jobs proc to_complete (set_worker_jobs <[proc := []]> st)
  end.

End GPU.


(** * Notions used in the statements *)

Module PlanNotions.
Import Transfer.

(** The sizes of a field list are [unsigned]. *)
Definition wf_field (f : CopySrcDstField) : Prop := 0 <= size f < 2 ^ 32.

(** What one turn of the walk over the two field lists emits: the offsets
    and size, with the instance pair and memory pair it belongs to. *)
Record Entry : Type := {
  e_mp : MemPair;
  e_ip : InstPair;
  e_oas : OffsetsAndSize
}.

Definition entry (rt : Runtime) (s d : CopySrcDstField) (ssub dsub : Z) : Entry :=
  {| e_mp := (get_location rt (inst s), get_location rt (inst d));
     e_ip := (inst s, inst d);
     e_oas := {| src_offset := u32 (offset s + ssub);
                 dst_offset := u32 (offset d + dsub);
                 oas_size := Z.min (size s - ssub) (size d - dsub);
                 oas_serdez_id := serdez_id s |} |}.

(** Leave a field behind once [n] more bytes exhaust it. *)
Definition advance (f : CopySrcDstField) (rest : list CopySrcDstField)
    (sub n : Z) : list CopySrcDstField * Z :=
  if sub + n =? size f then (rest, 0) else (f :: rest, sub + n).

(** The parallel walk: as long as both lists have a field, emit an entry of
    the smaller of the two remainders and advance whichever field it
    exhausts; stop when a list runs out, with what is left of both. *)
Inductive walk (rt : Runtime)
  : list CopySrcDstField -> list CopySrcDstField -> Z -> Z ->
    list Entry -> list CopySrcDstField -> list CopySrcDstField -> Prop :=
| walk_stop srcs dsts ssub dsub :
    srcs = [] \/ dsts = [] ->
    walk rt srcs dsts ssub dsub [] srcs dsts
| walk_emit s d srcs dsts ssub dsub es src_rest dst_rest :
    let n := Z.min (size s - ssub) (size d - dsub) in
    walk rt (advance s srcs ssub n).1 (advance d dsts dsub n).1
      (advance s srcs ssub n).2 (advance d dsts dsub n).2
      es src_rest dst_rest ->
    walk rt (s :: srcs) (d :: dsts) ssub dsub
      (entry rt s d ssub dsub :: es) src_rest dst_rest.

Definition has_serdez (e : Entry) : bool := negb (oas_serdez_id (e_oas e) =? 0).

(** Entries with a serdez id: a plan each, in the order of the walk. *)
Definition serdez_plans (es : list Entry) : list TransferPlan :=
  map (fun e => TransferPlanCopy [(e_ip e, [e_oas e])]) (List.filter has_serdez es).

(** The other entries are grouped. *)
Definition grouped (es : list Entry) : list Entry :=
  List.filter (fun e => negb (has_serdez e)) es.

Definition pair_eqb (a b : HandlePair) : bool := (a.1 =? b.1) && (a.2 =? b.2).

(** The entries of the group of memory pair [mp] and instance pair [ip], in
    the order of the walk. *)
Definition group (mp : MemPair) (ip : InstPair) (gs : list Entry) : OASVec :=
  map e_oas (List.filter (fun e => pair_eqb (e_mp e) mp && pair_eqb (e_ip e) ip) gs).

(** Groups are keyed by memory pair, then instance pair, and come in the
    order of these keys. *)
Definition Key : Type := MemPair * InstPair.

Definition entry_key (e : Entry) : Key := (e_mp e, e_ip e).

Definition key_lt (k1 k2 : Key) : Prop :=
  pair_lt k1.1 k2.1 \/ (k1.1 = k2.1 /\ pair_lt k1.2 k2.2).

Definition grouped_plans (keys : list Key) (es : list Entry) : list TransferPlan :=
  map (fun k : Key => TransferPlanCopy [(k.2, group k.1 k.2 (grouped es))]) keys.

(** The reading of the claim in which a memory pair makes one plan: two
    single-pair copy plans over the same memory pair are the same plan. *)
Definition one_plan_per_memory_pair (rt : Runtime) (plans : list TransferPlan)
  : Prop :=
  forall ip1 v1 ip2 v2,
    In (TransferPlanCopy [(ip1, v1)]) plans ->
    In (TransferPlanCopy [(ip2, v2)]) plans ->
    (get_location rt ip1.1, get_location rt ip1.2)
      = (get_location rt ip2.1, get_location rt ip2.2) ->
    ip1 = ip2.

(** Association lists in key order. *)
Definition keys_sorted {V} (m : list (HandlePair * V)) : Prop :=
  StronglySorted pair_lt (map fst m).

Definition add_entry (obm : OASByMem) (e : Entry) : OASByMem :=
  oas_by_mem_add (e_mp e) (e_ip e) (e_oas e) obm.

(** The triples [(mp, ip, entries)] of a two-level map, in iteration order. *)
Definition flatten (obm : OASByMem) : list (Key * OASVec) :=
  flat_map (fun '(mp, obi) => map (fun '(ip, v) => ((mp, ip), v)) obi) obm.

(** What the two-level map holds after the non-serdez entries [gs]. *)
Definition obm_inv (gs : list Entry) (obm : OASByMem) : Prop :=
  keys_sorted obm
  /\ (forall mp obi, In (mp, obi) obm -> keys_sorted obi)
  /\ (forall mp obi ip v, In (mp, obi) obm -> In (ip, v) obi ->
        v = group mp ip gs /\ exists e, In e gs /\ entry_key e = (mp, ip))
  /\ (forall e, In e gs ->
        exists obi v, In (e_mp e, obi) obm /\ In (e_ip e, v) obi).

(** Sub-offsets stay inside the field at the head of the list. *)
Definition sub_ok (sub : Z) (l : list CopySrcDstField) : Prop :=
  match l with
  | [] => sub = 0
  | f :: _ => sub = 0 \/ 0 < sub < size f
  end.

End PlanNotions.

Section RectNotions.
Import TransferIteratorRect.

(** A dimension is handled only partially when the step does not start at
    its low bound or does not reach its high bound. *)
Definition partially_handled (r : Rect) (p hi_t : Point) (d : nat) : Prop :=
  coord p d <> coord (lo r) d \/ coord hi_t d <> coord (hi r) d.

Definition grow_inv (dim : nat) (r : Rect) (p : Point) (d : nat) (st : Grow)
  : Prop :=
  length (g_hi st) = dim
  /\ (forall d0 d', (d0 < d' < d)%nat ->
        partially_handled r p (g_hi st) d0 -> coord (g_hi st) d' = coord p d')
  /\ (g_grow st = true ->
      forall d0, (d0 < d)%nat -> ~ partially_handled r p (g_hi st) d0).

End RectNotions.

Module IteratorNotions.
Import TransferIterator.

(** Where an iterator stands: the cursor inside the domain and the index of
    the field being copied. *)
Inductive Position : Type :=
| RectPosition (p : Point) (field_idx : nat)
| IndexSpacePosition (enumerator : option ElementMask.Enumerator) (field_idx : nat)
| ZIndexSpacePosition (iter : TransferIteratorZIndexSpace.ZIndexSpaceIterator)
    (cur_point : Point) (field_idx : nat).

Definition position (ti : t) : Position :=
  match ti with
  | OfRect it =>
      RectPosition (TransferIteratorRect.p it) (TransferIteratorRect.field_idx it)
  | OfIndexSpace it =>
      IndexSpacePosition (TransferIteratorIndexSpace.enumerator it)
        (TransferIteratorIndexSpace.field_idx it)
  | OfZIndexSpace it =>
      ZIndexSpacePosition (TransferIteratorZIndexSpace.iter it)
        (TransferIteratorZIndexSpace.cur_point it)
        (TransferIteratorZIndexSpace.field_idx it)
  end.

(** The size of one element of the field the next step works on. *)
Definition current_field_size (ti : t) : option Z :=
  match ti with
  | OfRect it =>
      TransferIteratorRect.field_sizes it !! TransferIteratorRect.field_idx it
  | OfIndexSpace it =>
      TransferIteratorIndexSpace.field_sizes it
        !! TransferIteratorIndexSpace.field_idx it
  | OfZIndexSpace it =>
      layout ← TransferIteratorZIndexSpace.inst_layout it;
      fid ← TransferIteratorZIndexSpace.fields it
              !! TransferIteratorZIndexSpace.field_idx it;
      TransferIteratorZIndexSpace.size_in_bytes
        <$> (TransferIteratorZIndexSpace.fields_layout layout !! fid)
  end.

(** What [step] asserts before it looks at [max_bytes]: no tentative step is
    pending; for the sparse iterator, a valid mask that is still to be
    fetched is ready, and no field has been started without it; for the
    layout-based iterator, the domain iterator stands on a rectangle and some
    piece of the field's layout holds the current point. *)
Definition step_ready (ti : t) : Prop :=
  match ti with
  | OfRect it => TransferIteratorRect.tentative_valid it = false
  | OfIndexSpace it =>
      TransferIteratorIndexSpace.tentative_valid it = false
      /\ (TransferIteratorIndexSpace.valid_mask it = None ->
          TransferIteratorIndexSpace.valid_mask_ready
            (TransferIteratorIndexSpace.is_impl it) = true
          /\ is_Some (TransferIteratorIndexSpace.impl_valid_mask
                        (TransferIteratorIndexSpace.is_impl it))
          /\ TransferIteratorIndexSpace.field_idx it = 0%nat)
  | OfZIndexSpace it =>
      TransferIteratorZIndexSpace.tentative_valid it = false
      /\ TransferIteratorZIndexSpace.valid (TransferIteratorZIndexSpace.iter it) = true
      /\ exists layout fid fl pieces,
           TransferIteratorZIndexSpace.inst_layout it = Some layout
           /\ TransferIteratorZIndexSpace.fields it
                !! TransferIteratorZIndexSpace.field_idx it = Some fid
           /\ TransferIteratorZIndexSpace.fields_layout layout !! fid = Some fl
           /\ TransferIteratorZIndexSpace.piece_lists layout
                !! TransferIteratorZIndexSpace.list_idx fl = Some pieces
           /\ is_Some (TransferIteratorZIndexSpace.find_piece pieces
                         (TransferIteratorZIndexSpace.cur_point it))
  end.

(** What a caller can tell about an iterator.  The members [next_p],
    [next_idx], [next_point], [carry] and [rewind_pos] only carry the outcome
    of a tentative step over to [confirm_step] or [cancel_step], and are
    written by a step before they are read; they are left out, the rest of a
    rectangle or layout-based iterator is kept as it is. *)
Definition forget_rect (it : TransferIteratorRect.t) : TransferIteratorRect.t :=
  TransferIteratorRect.with_next [] 0 (TransferIteratorRect.tentative_valid it) it.

Definition forget_z (it : TransferIteratorZIndexSpace.t)
  : TransferIteratorZIndexSpace.t :=
  TransferIteratorZIndexSpace.with_next [] false
    (TransferIteratorZIndexSpace.tentative_valid it) it.

(** For the sparse iterator the view also replaces the valid mask by the one
    the next step works with (fetched from the index space if need be) and
    the enumerator by what it yields next: the mask it scans and the next
    span of enabled elements. *)
Definition effective_mask (it : TransferIteratorIndexSpace.t)
  : option (ElementMask.t * Z) :=
  match TransferIteratorIndexSpace.valid_mask it with
  | Some m => Some (m, TransferIteratorIndexSpace.first_enabled it)
  | None =>
      if TransferIteratorIndexSpace.valid_mask_ready
           (TransferIteratorIndexSpace.is_impl it)
      then (fun m => (m, ElementMask.find_enabled m))
             <$> TransferIteratorIndexSpace.impl_valid_mask
                   (TransferIteratorIndexSpace.is_impl it)
      else None
  end.

Definition upcoming (it : TransferIteratorIndexSpace.t)
  : option (ElementMask.t * option (Z * Z)) :=
  match TransferIteratorIndexSpace.enumerator it with
  | Some e => Some (ElementMask.mask e,
                    ElementMask.next_span (ElementMask.mask e) (ElementMask.pos e))
  | None => (fun '(m, first) => (m, ElementMask.next_span m first))
              <$> effective_mask it
  end.

(** The enumerator a step starts from. *)
Definition starting_enumerator (it : TransferIteratorIndexSpace.t)
    (vm : ElementMask.t) : ElementMask.Enumerator :=
  match TransferIteratorIndexSpace.enumerator it with
  | Some e => e
  | None => ElementMask.enumerate_enabled vm
              (TransferIteratorIndexSpace.first_enabled it)
  end.

Record IndexSpaceView : Type := {
  v_is_impl : TransferIteratorIndexSpace.IndexSpaceImpl;
  v_mask : option (ElementMask.t * Z);
  v_upcoming : option (ElementMask.t * option (Z * Z));
  v_inst_impl : option RegionInstanceImpl;
  v_mapping : option Mapping;
  v_field_offsets : list Z;
  v_field_sizes : list Z;
  v_field_idx : nat;
  v_extra_elems : Z;
  v_tentative_valid : bool
}.

Definition view_index_space (it : TransferIteratorIndexSpace.t) : IndexSpaceView :=
  {| v_is_impl := TransferIteratorIndexSpace.is_impl it;
     v_mask := effective_mask it;
     v_upcoming := upcoming it;
     v_inst_impl := TransferIteratorIndexSpace.inst_impl it;
     v_mapping := TransferIteratorIndexSpace.mapping it;
     v_field_offsets := TransferIteratorIndexSpace.field_offsets it;
     v_field_sizes := TransferIteratorIndexSpace.field_sizes it;
     v_field_idx := TransferIteratorIndexSpace.field_idx it;
     v_extra_elems := TransferIteratorIndexSpace.extra_elems it;
     v_tentative_valid := TransferIteratorIndexSpace.tentative_valid it |}.

Inductive Observation : Type :=
| ObsRect (it : TransferIteratorRect.t)
| ObsIndexSpace (v : IndexSpaceView)
| ObsZIndexSpace (it : TransferIteratorZIndexSpace.t).

Definition observe (ti : t) : Observation :=
  match ti with
  | OfRect it => ObsRect (forget_rect it)
  | OfIndexSpace it => ObsIndexSpace (view_index_space it)
  | OfZIndexSpace it => ObsZIndexSpace (forget_z it)
  end.

(** What a caller sees of a step: the byte count, the address info and the
    iterator it is left with. *)
Definition observe_step (res : result (Z * AddressInfo * t))
  : result (Z * AddressInfo * Observation) :=
  TransferIterator.lift observe res.

End IteratorNotions.

Module GPUNotions.
Import GPU.

(** The completed jobs of processor [this] that wait for [finish_job]: the
    queue of the DMA worker when one is attached, the processor's own
    otherwise. *)
Definition pending_completions (this : Z) (st : State) : list Z :=
  match procs st !! this with
  | Some g => if gpu_worker g then default [] (worker_jobs st !! this)
              else complete_jobs g
  | None => []
  end.

(** The stream after [cur] in a pool of [n] task streams. *)
Definition next_stream (n : nat) (cur : Z) : Z :=
  if cur + 1 >=? Z.of_nat n then 0 else cur + 1.


End GPUNotions.

(** * Inputs used in the examples *)

Module Examples.
Import Transfer.

Definition reduce_rt : Runtime :=
  {| gasnet_mynode := 0;
     memory_owner_node := fun m => m / 16;
     instance_owner_node := fun i => i / 16;
     memory_kind := fun _ => MKIND_SYSMEM;
     get_location := fun i => i |}.

Definition reduce_field (i : RegionInstance) : CopySrcDstField :=
  {| inst := i; offset := 0; size := 8; serdez_id := 0 |}.

(** A four-byte fill value and fields of that size. *)
Definition fill_bytes : list Byte.byte := [Byte.x01; Byte.x02; Byte.x03; Byte.x04].

Definition fill_field (i : RegionInstance) : CopySrcDstField :=
  {| inst := i; offset := 0; size := 4; serdez_id := 0 |}.

(** A 4 x 4 grid with one 4-byte field, stored densely in column-major
    order; the iterator stands at (1,0). *)
Definition grid : Rect := {| lo := [0; 0]; hi := [3; 3] |}.

Definition grid_volume (b : Rect) : Z :=
  fold_right Z.mul 1 (zip_with (fun l h => Z.max 0 (h - l + 1)) (lo b) (hi b)).

Definition grid_linear (pt : Point) : Z := coord pt 0 + 4 * coord pt 1.

Definition grid_mapping : Mapping :=
  {| image_dense_subrect := fun sub =>
       ({| lo := [grid_linear (lo sub)]; hi := [grid_linear (hi sub)] |}, sub) |}.

Definition grid_impl : RegionInstanceImpl :=
  {| alloc_offset := 0; inst_offset := 0; block_size := 16; elmt_size := 4 |}.

Definition grid_info : AddressInfo :=
  {| base_offset := 0; bytes_per_chunk := 0; num_lines := 0; line_stride := 0;
     num_planes := 0; plane_stride := 0 |}.

Definition grid_iter : TransferIteratorRect.t :=
  {| TransferIteratorRect.DIM := 2;
     TransferIteratorRect.r := grid;
     TransferIteratorRect.p := [1; 0];
     TransferIteratorRect.next_p := [0; 0];
     TransferIteratorRect.inst_impl := Some grid_impl;
     TransferIteratorRect.mapping := Some grid_mapping;
     TransferIteratorRect.field_offsets := [0];
     TransferIteratorRect.field_sizes := [4];
     TransferIteratorRect.field_idx := 0;
     TransferIteratorRect.next_idx := 0;
     TransferIteratorRect.tentative_valid := false |}.

(** Two devices without a DMA worker, two task streams each, one task with
    two kernels queued on the first. *)
Definition gpu_task : GPU.Task :=
  {| GPU.func_id := 5; GPU.finish_event := (77, 1); GPU.run_count := 0;
     GPU.capture := false |}.

Definition gpu (ctx : Z) (queue : list GPU.Task) : GPU.GPUProcessor :=
  {| GPU.proc_ctx := ctx; GPU.shutdown := false; GPU.shutdown_trigger := false;
     GPU.gpu_worker := false;
     GPU.task_streams := [10 * ctx + 1; 10 * ctx + 2];
     GPU.current_stream := 1;
     GPU.peer_gpus := ∅;
     GPU.task_queue := queue; GPU.copies := []; GPU.complete_jobs := [];
     GPU.resumable_threads := []; GPU.available_threads := [];
     GPU.running_thread := Some 0 |}.

Definition two_gpus : GPU.State :=
  {| GPU.procs := {[ 1 := gpu 1 [gpu_task]; 2 := gpu 2 [] ]};
     GPU.jobs := ∅; GPU.next_job := 100; GPU.worker_jobs := ∅;
     GPU.driver := []; GPU.triggered := ∅ |}.

Definition gpu_task_table (func : Z) : list GPU.CUfunction :=
  if func =? 5 then [500; 501] else [].

(** Two source instances in memory 10, two destination instances in memory
    20, one 4-byte field each. *)
Definition split_rt : Runtime :=
  {| gasnet_mynode := 0;
     memory_owner_node := fun _ => 0;
     instance_owner_node := fun _ => 0;
     memory_kind := fun _ => MKIND_SYSMEM;
     get_location := fun i => if i <=? 2 then 10 else 20 |}.

Definition split_field (i : RegionInstance) : CopySrcDstField :=
  {| inst := i; offset := 0; size := 4; serdez_id := 0 |}.

Definition split_oas : OffsetsAndSize :=
  {| src_offset := 0; dst_offset := 0; oas_size := 4; oas_serdez_id := 0 |}.

End Examples.

(** * Callers of the planner and constructors of the iterators *)

(** ** [Domain::copy] and [Domain::fill]

    The same text serves [ZIndexSpace<N,T>::copy] and [ZIndexSpace<N,T>::fill],
    whose transfer domain is always built.  The events (one created for each
    request by the event table, merged at the end) are left out: the model
    keeps, for every plan in order, the lines logged and where the request
    went. *)

Module Domain.
Import Transfer.

Record t : Type := {
  get_dim : Z;               (* int *)
  get_index_space : Z;
  get_rect : Rect
}.

Inductive TransferDomain : Type :=
| TransferDomainIndexSpace (space : Z)
| TransferDomainRect (DIM : nat) (r : Rect).

(** [TransferDomain::construct(Domain)] *)
Definition construct (d : t) : result TransferDomain :=
  if get_dim d =? 0 then Ok (TransferDomainIndexSpace (get_index_space d))
  else if get_dim d =? 1 then Ok (TransferDomainRect 1 (get_rect d))
  else if get_dim d =? 2 then Ok (TransferDomainRect 2 (get_rect d))
  else if get_dim d =? 3 then Ok (TransferDomainRect 3 (get_rect d))
  else Err AssertFailed.

(** The loop over [plans]: every plan is executed in turn. *)
Fixpoint execute_plans (rt : Runtime) (plans : list TransferPlan)
  : result (list (list LogMsg * Dispatch)) :=
  match plans with
  | [] => Ok []
  | p :: rest =>
      req ← execute_plan rt p;
      reqs ← execute_plans rt rest;
      Ok (req :: reqs)
  end.

Definition copy (rt : Runtime) (d : t) (srcs dsts : list CopySrcDstField)
    (redop_id : ReductionOpID) (red_fold : bool)
  : result (list (list LogMsg * Dispatch)) :=
  _ ← construct d;
  plans ← plan_copy rt [] srcs dsts redop_id red_fold;
  execute_plans rt plans.

Definition fill (rt : Runtime) (d : t) (dsts : list CopySrcDstField)
    (fill_value : list Byte.byte)
  : list LogMsg * result (list (list LogMsg * Dispatch)) :=
  match construct d with
  | Err e => ([], Err e)
  | Ok _ =>
      let '(log, planned) := plan_fill [] dsts fill_value in
      (log, plans ← planned; execute_plans rt plans)
  end.

End Domain.

(** ** Constructors of the iterators *)

Module IteratorConstruction.
Import Transfer.

(** What [get_runtime()->get_instance_impl(inst)] gives access to: the
    metadata the steps read, the sizes of the fields of the instance in the
    order they are laid out, and the mapping of its linearization. *)
Record InstanceImpl : Type := {
  metadata : RegionInstanceImpl;
  metadata_field_sizes : list Z;     (* std::vector<size_t> *)
  get_mapping : option Mapping
}.

(** [while( *it != s) { s += *it2; ++it2; assert(it2 != end); }], with
    [sizes] what is left of the field sizes from [it2] on. *)
Fixpoint field_size_loop (target s : Z) (sizes : list Z) : result Z :=
  match sizes with
  | [] => Err Undefined
  | sz :: rest =>
      if target =? s then Ok sz
      else match rest with
           | [] => Err AssertFailed
           | _ :: _ => field_size_loop target (u64 (s + sz)) rest
           end
  end.

(** The body of the loop over [_fields]: the size of the field that starts
    at byte [target] of an element. *)
Definition find_field_size (sizes : list Z) (target : Z) : result Z :=
  _ ← assert (negb (is_nil sizes));
  field_size_loop target 0 sizes.

(** The loop over [_fields], which fills [field_offsets] and [field_sizes]. *)
Fixpoint collect_fields (sizes : list Z) (fields : list Z)
  : result (list Z * list Z) :=
  match fields with
  | [] => Ok ([], [])
  | f :: rest =>
      sz ← find_field_size sizes f;
      '(offsets, szs) ← collect_fields sizes rest;
      Ok (f :: offsets, sz :: szs)
  end.

Section WithRuntime.

Variable volume : Rect -> Z.
Variable get_instance_impl : RegionInstance -> InstanceImpl.

(** [TransferIteratorRect<DIM>::TransferIteratorRect(_r, _inst, _fields)].
    The constructor leaves [next_p] and [next_idx] as they are; the model
    takes what they hold as [next_p0] and [next_idx0]. *)
Definition new_rect_iterator (DIM : nat) (r : Rect) (inst : RegionInstance)
    (fields : list Z) (next_p0 : Point) (next_idx0 : nat)
  : result TransferIteratorRect.t :=
  if (volume r =? 0) || is_nil fields then
    Ok {| TransferIteratorRect.DIM := DIM;
          TransferIteratorRect.r := r;
          TransferIteratorRect.p := lo r;
          TransferIteratorRect.next_p := next_p0;
          TransferIteratorRect.inst_impl := None;
          TransferIteratorRect.mapping := None;
          TransferIteratorRect.field_offsets := [];
          TransferIteratorRect.field_sizes := [];
          TransferIteratorRect.field_idx := 0;
          TransferIteratorRect.next_idx := next_idx0;
          TransferIteratorRect.tentative_valid := false |}
  else
    let impl := get_instance_impl inst in
    '(offsets, sizes) ← collect_fields (metadata_field_sizes impl) fields;
    Ok {| TransferIteratorRect.DIM := DIM;
          TransferIteratorRect.r := r;
          TransferIteratorRect.p := lo r;
          TransferIteratorRect.next_p := next_p0;
          TransferIteratorRect.inst_impl := Some (metadata impl);
          TransferIteratorRect.mapping := get_mapping impl;
          TransferIteratorRect.field_offsets := offsets;
          TransferIteratorRect.field_sizes := sizes;
          TransferIteratorRect.field_idx := 0;
          TransferIteratorRect.next_idx := next_idx0;
          TransferIteratorRect.tentative_valid := false |}.

(** [TransferIteratorIndexSpace::TransferIteratorIndexSpace(_is, inst,
    _fields, _extra_elems)]; [rewind_pos] and [next_idx] are left as they
    are. *)
Definition new_index_space_iterator
    (idx_impl : TransferIteratorIndexSpace.IndexSpaceImpl)
    (inst : RegionInstance) (fields : list Z) (extra_elems : Z)
    (rewind_pos0 : Z) (next_idx0 : nat)
  : result TransferIteratorIndexSpace.t :=
  '(valid_mask, first_enabled) ←
     (if TransferIteratorIndexSpace.valid_mask_ready idx_impl then
        match TransferIteratorIndexSpace.impl_valid_mask idx_impl with
        | Some m => Ok (Some m, ElementMask.find_enabled m)
        | None => Err AssertFailed
        end
      else Ok (None, 0));
  let base inst_impl mapping offsets sizes :=
    {| TransferIteratorIndexSpace.is_impl := idx_impl;
       TransferIteratorIndexSpace.valid_mask := valid_mask;
       TransferIteratorIndexSpace.first_enabled := first_enabled;
       TransferIteratorIndexSpace.enumerator := None;
       TransferIteratorIndexSpace.rewind_pos := rewind_pos0;
       TransferIteratorIndexSpace.inst_impl := inst_impl;
       TransferIteratorIndexSpace.mapping := mapping;
       TransferIteratorIndexSpace.field_offsets := offsets;
       TransferIteratorIndexSpace.field_sizes := sizes;
       TransferIteratorIndexSpace.field_idx := 0;
       TransferIteratorIndexSpace.next_idx := next_idx0;
       TransferIteratorIndexSpace.extra_elems := extra_elems;
       TransferIteratorIndexSpace.tentative_valid := false |} in
  if (first_enabled =? -1) || is_nil fields then Ok (base None None [] [])
  else
    let impl := get_instance_impl inst in
    '(offsets, sizes) ← collect_fields (metadata_field_sizes impl) fields;
    Ok (base (Some (metadata impl)) (get_mapping impl) offsets sizes).

End WithRuntime.

End IteratorConstruction.


(** * Further notions *)

Module TransferNotions.
Import Transfer.

(** The bytes of a list of fields. *)
Fixpoint total_size (fields : list CopySrcDstField) : Z :=
  match fields with
  | [] => 0
  | f :: rest => size f + total_size rest
  end.

Definition positive_size (f : CopySrcDstField) : Prop := 0 < size f < 2 ^ 32.

Fixpoint oas_bytes (v : OASVec) : Z :=
  match v with
  | [] => 0
  | oas :: rest => oas_size oas + oas_bytes rest
  end.

(** The sum of [w] over the values of a map. *)
Fixpoint weight {V} (w : V -> Z) (m : list (HandlePair * V)) : Z :=
  match m with
  | [] => 0
  | (_, v) :: rest => w v + weight w rest
  end.

Definition oas_by_inst_bytes (m : OASByInst) : Z := weight oas_bytes m.

Definition oas_by_mem_bytes (m : OASByMem) : Z := weight oas_by_inst_bytes m.

(** The bytes a plan moves. *)
Definition plan_bytes (p : TransferPlan) : Z :=
  match p with
  | TransferPlanCopy oas_by_inst => oas_by_inst_bytes oas_by_inst
  | TransferPlanReduce srcs _ _ _ => total_size srcs
  | TransferPlanFill data _ _ => Z.of_nat (length data)
  end.

Fixpoint plans_bytes (plans : list TransferPlan) : Z :=
  match plans with
  | [] => 0
  | p :: rest => plan_bytes p + plans_bytes rest
  end.

Fixpoint entries_bytes (es : list PlanNotions.Entry) : Z :=
  match es with
  | [] => 0
  | e :: rest => oas_size (PlanNotions.e_oas e) + entries_bytes rest
  end.

(** A byte of an instance, and the move of one byte to another. *)
Abbreviation Cell := (RegionInstance * Z)%type (only parsing).
Abbreviation Move := ((RegionInstance * Z) * (RegionInstance * Z))%type
  (only parsing).

(** The offsets of a field are [unsigned] and it ends inside the range of
    that type. *)
Definition addressable (f : CopySrcDstField) : Prop :=
  0 <= offset f /\ offset f + size f <= 2 ^ 32.

(** The bytes of field [f] from its byte [from] on, in order. *)
Definition field_cells (f : CopySrcDstField) (from : Z) : list Cell :=
  (fun k => (inst f, offset f + k)) <$> seqZ from (size f - from).

(** The bytes of a list of fields in order, but for the first [from] bytes
    of its first field. *)
Definition fields_cells (fields : list CopySrcDstField) (from : Z) : list Cell :=
  match fields with
  | [] => []
  | f :: rest => field_cells f from ++ flat_map (fun g => field_cells g 0) rest
  end.

(** What a copy of [srcs] to [dsts] has to do: its i-th byte goes from the
    i-th byte of the sources to the i-th byte of the destinations. *)
Definition byte_moves (srcs dsts : list CopySrcDstField) : list Move :=
  zip (fields_cells srcs 0) (fields_cells dsts 0).

(** The byte moves an entry of a copy plan stands for. *)
Definition oas_moves (ip : InstPair) (oas : OffsetsAndSize) : list Move :=
  (fun k => ((ip.1, src_offset oas + k), (ip.2, dst_offset oas + k)))
    <$> seqZ 0 (oas_size oas).

Definition oas_vec_moves (ip : InstPair) (v : OASVec) : list Move :=
  flat_map (oas_moves ip) v.

Definition oas_by_inst_moves (m : OASByInst) : list Move :=
  flat_map (fun kv => oas_vec_moves kv.1 kv.2) m.

Definition oas_by_mem_moves (m : OASByMem) : list Move :=
  flat_map (fun kv => oas_by_inst_moves kv.2) m.

Definition plan_moves (p : TransferPlan) : list Move :=
  match p with
  | TransferPlanCopy oas_by_inst => oas_by_inst_moves oas_by_inst
  | _ => []
  end.

Definition plans_moves (plans : list TransferPlan) : list Move :=
  flat_map plan_moves plans.

Definition entries_moves (es : list PlanNotions.Entry) : list Move :=
  flat_map (fun e => oas_moves (PlanNotions.e_ip e) (PlanNotions.e_oas e)) es.

(** A copy plan over one instance pair that has something to copy. *)
Definition single_pair_plan (p : TransferPlan) : Prop :=
  exists ip v, p = TransferPlanCopy [(ip, v)] /\ v <> [].

(** The request of a copy plan over [ip], as [select_dma_node] places it. *)
Definition copy_request (rt : Runtime) (ip : InstPair) : list LogMsg * Dispatch :=
  let sel := select_dma_node rt (get_location rt ip.1) (get_location rt ip.2)
               0 false in
  (sel.1, dispatch_to rt sel.2).

(** Fill plans that take consecutive slices of a packed fill value, from
    byte [ofs] on. *)
Fixpoint packed_fills (fill_value : list Byte.byte) (ofs : Z)
    (dsts : list CopySrcDstField) : list TransferPlan :=
  match dsts with
  | [] => []
  | f :: rest =>
      TransferPlanFill (byte_slice fill_value ofs (size f)) (inst f) (offset f)
      :: packed_fills fill_value (ofs + size f) rest
  end.

(** A fill plan for field [f]: aimed at its instance and offset, with as many
    bytes as the field is wide. *)
Definition fills_field (f : CopySrcDstField) (p : TransferPlan) : Prop :=
  exists data,
    p = TransferPlanFill data (inst f) (offset f)
    /\ Z.of_nat (length data) = size f.

(** Fill plans that all take the whole fill value. *)
Definition broadcast_fills (fill_value : list Byte.byte)
    (dsts : list CopySrcDstField) : list TransferPlan :=
  map (fun f => TransferPlanFill fill_value (inst f) (offset f)) dsts.

End TransferNotions.

(** Rectangles as sets of points, dimension 0 running fastest. *)
Section RectangleNotions.

(** The number of points of the box from [a] to [b] in its first [d]
    dimensions. *)
Fixpoint box_volume (d : nat) (a b : Point) : Z :=
  match d with
  | O => 1
  | S d' => box_volume d' a b * (coord b d' - coord a d' + 1)
  end.

(** The rank of point [pt] among the points of rectangle [r], counted over
    the first [d] dimensions. *)
Fixpoint linear_index (d : nat) (r : Rect) (pt : Point) : Z :=
  match d with
  | O => 0
  | S d' => linear_index d' r pt
            + (coord pt d' - coord (lo r) d') * box_volume d' (lo r) (hi r)
  end.

(** [pt] lies in [r], and the coordinates of [r] are [coord_t] values. *)
Definition in_rect (dim : nat) (r : Rect) (pt : Point) : Prop :=
  forall d, (d < dim)%nat ->
    - 2 ^ 63 <= coord (lo r) d /\ coord (lo r) d <= coord pt d
    /\ coord pt d <= coord (hi r) d /\ coord (hi r) d < 2 ^ 63.

(** What the loop that grows the target subrectangle has established when
    it reaches dimension [d]. *)
Definition grow_bounds (dim : nat) (r : Rect) (p : Point) (max_elems : Z)
    (d : nat) (st : TransferIteratorRect.Grow) : Prop :=
  length (TransferIteratorRect.g_hi st) = dim
  /\ (forall d', (d' < d)%nat ->
        coord p d' <= coord (TransferIteratorRect.g_hi st) d'
        /\ coord (TransferIteratorRect.g_hi st) d' <= coord (hi r) d')
  /\ TransferIteratorRect.g_count st
     = box_volume d p (TransferIteratorRect.g_hi st)
  /\ 1 <= TransferIteratorRect.g_count st <= max_elems.

(** A subrectangle from [p] to [h] that respects the layout order: past a
    dimension it does not cover from end to end it is one point wide. *)
Definition layout_ordered (dim : nat) (r : Rect) (p h : Point) : Prop :=
  forall d d', (d < d' < dim)%nat ->
    partially_handled r p h d -> coord h d' = coord p d'.

(** What the loop that computes the next point has established when it
    reaches dimension [d], for the subrectangle from [p] to [h]. *)
Definition carry_inv (dim : nat) (r : Rect) (p h : Point) (d : nat) (c : Carry)
  : Prop :=
  length (c_next c) = dim
  /\ (c_carry c = true ->
      (forall d', (d' < d)%nat ->
         coord h d' = coord (hi r) d' /\ coord (c_next c) d' = coord (lo r) d')
      /\ linear_index d r p + box_volume d p h = box_volume d (lo r) (hi r))
  /\ (c_carry c = false ->
      (exists d0, (d0 < d)%nat /\ coord h d0 <> coord (hi r) d0)
      /\ linear_index d r (c_next c) = linear_index d r p + box_volume d p h
      /\ forall d', (d' < d)%nat ->
           coord (lo r) d' <= coord (c_next c) d' <= coord (hi r) d').

(** How far a subrectangle from [p] to [h] goes in dimension [d] when it
    covers every dimension below from end to end: to the end of [r] when
    the budget of [max_elems] elements allows that, and else as far as the
    budget allows. *)
Definition grown_to (r : Rect) (p h : Point) (max_elems : Z) (d : nat) : Prop :=
  (forall d0, (d0 < d)%nat -> ~ partially_handled r p h d0) ->
  let below := box_volume d p h in
  let len := coord (hi r) d - coord p d + 1 in
  (below * len <= max_elems -> coord h d = coord (hi r) d)
  /\ (max_elems < below * len -> coord h d = coord p d + max_elems / below - 1).

(** What the growth loop has established, beside the bounds, when it
    reaches dimension [d]. *)
Definition grow_shape (r : Rect) (p : Point) (max_elems : Z) (d : nat)
    (st : TransferIteratorRect.Grow) : Prop :=
  (TransferIteratorRect.g_grow st = false ->
   exists d0, (d0 < d)%nat
              /\ partially_handled r p (TransferIteratorRect.g_hi st) d0)
  /\ forall d', (d' < d)%nat ->
       grown_to r p (TransferIteratorRect.g_hi st) max_elems d'.

(** What [image_dense_subrect] owes its caller: the subrectangle [act] it
    returns for [target] starts at the low corner of [target] and lies
    inside it. *)
Definition leading_subrect (dim : nat) (target act : Rect) : Prop :=
  lo act = lo target
  /\ forall d, (d < dim)%nat ->
       coord (lo act) d <= coord (hi act) d <= coord (hi target) d.

(** The chunk a step of the rectangle iterator hands out for the target
    subrectangle: what the mapping makes of the target, cut down to what
    stays inside one block, with the number of its elements. *)
Definition step_chunk (volume : Rect -> Z) (dim : nat) (m : Mapping)
    (impl : RegionInstanceImpl) (target : Rect) : result (Rect * Z) :=
  let '(image, act) := image_dense_subrect m target in
  bp ← block_pos impl image;
  TransferIteratorRect.shrink_to_block dim impl image act (volume act) bp.

End RectangleNotions.

Module FieldNotions.

Fixpoint zsum (l : list Z) : Z :=
  match l with
  | [] => 0
  | x :: rest => x + zsum rest
  end.

(** The byte at which field [i] of an element starts, for fields of the
    given sizes laid out one after the other. *)
Definition field_start (sizes : list Z) (i : nat) : Z := zsum (take i sizes).

(** Field sizes as an instance has them: no empty field, and an element
    that fits a [size_t]. *)
Definition proper_sizes (sizes : list Z) : Prop :=
  Forall (fun sz => 0 < sz) sizes /\ zsum sizes < 2 ^ 64.

End FieldNotions.

Module StepNotions.
Import TransferIterator.

(** The point [cur] is not past [h] in any of the first [n] dimensions, and
    the distances fit a [coord_t]. *)
Definition not_past (n : nat) (cur h : Point) : Prop :=
  forall d, (d < n)%nat -> 0 <= coord h d - coord cur d < 2 ^ 63.

(** What the growth loop of the layout-based iterator keeps: the bytes
    gathered so far are whole elements, at least one, within the budget. *)
Definition bytes_inv (n : nat) (field_size max_bytes : Z) (d : nat)
    (st : TransferIteratorZIndexSpace.Grow) : Prop :=
  length (TransferIteratorZIndexSpace.g_hi st) = n
  /\ field_size <= TransferIteratorZIndexSpace.g_cur_bytes st <= max_bytes
  /\ (field_size | TransferIteratorZIndexSpace.g_cur_bytes st).

(** [confirm_step] of the sparse iterator leaves [next_idx] equal to
    [field_idx]; a step that is not tentative leaves it alone. *)
Definition sync_next_idx (ti : t) : t :=
  match ti with
  | OfIndexSpace it =>
      OfIndexSpace
        (TransferIteratorIndexSpace.with_cursor
           (TransferIteratorIndexSpace.enumerator it)
           (TransferIteratorIndexSpace.rewind_pos it)
           (TransferIteratorIndexSpace.field_idx it)
           (TransferIteratorIndexSpace.field_idx it)
           (TransferIteratorIndexSpace.tentative_valid it) it)
  | _ => ti
  end.



End StepNotions.

(** * Further inputs used in the examples *)

(** * Copies queued on a GPU processor *)

Module CopyQueue.
Import GPU.

Definition with_copies (cs : list Z) (g : GPUProcessor) : GPUProcessor :=
  {| proc_ctx := proc_ctx g; shutdown := shutdown g;
     shutdown_trigger := shutdown_trigger g; gpu_worker := gpu_worker g;
     task_streams := task_streams g; current_stream := current_stream g;
     peer_gpus := peer_gpus g;
     task_queue := task_queue g; copies := cs;
     complete_jobs := complete_jobs g;
     resumable_threads := resumable_threads g;
     available_threads := available_threads g;
     running_thread := running_thread g |}.

(** [GPUProcessor::enqueue_copy] and [GPUWorker::enqueue_copy].  The queues
    of the DMA worker, [GPUWorker::copies], are kept beside the state; a
    thread started because none is available is thread [-1], as in
    [handle_complete_job]. *)
Definition enqueue_copy (this copy : Z) (worker_copies : gmap Z (list Z))
    (st : State) : result (gmap Z (list Z) * State) :=
  g ← get_proc this st;
  if gpu_worker g then
    Ok (<[this := default [] (worker_copies !! this) ++ [copy]]> worker_copies,
        st)
  else
    let g := with_copies (copies g ++ [copy]) g in
    let g' :=
      match running_thread g with
      | Some _ => g
      | None =>
          match rev (available_threads g) with
          | to_wake :: others =>
              with_sched (shutdown_trigger g) (current_stream g)
                (task_queue g) (complete_jobs g) (resumable_threads g)
                (rev others) (Some to_wake) g
          | [] =>
              with_sched (shutdown_trigger g) (current_stream g)
                (task_queue g) (complete_jobs g) (resumable_threads g)
                (available_threads g) (Some (-1)) g
          end
      end in
    Ok (worker_copies, set_procs <[this := g']> st).

(** How far the loop of [GPUThread::thread_main] got. *)
Inductive LoopState : Type :=
| Quit              (* [execute_gpu] returned true *)
| Suspended         (* the thread sleeps inside [execute_gpu] *)
| Running.          (* still going round *)

(** The [while (true)] loop of [GPUThread::thread_main], for at most [fuel]
    rounds. *)
Fixpoint thread_main_loop (task_table : Z -> list CUfunction) (fuel : nat)
    (this thread : Z) (st : State) : result (LoopState * State) :=
  match fuel with
  | O => Ok (Running, st)
  | S fuel' =>
      '(outcome, quit, st) ← execute_gpu task_table this thread st;
      match outcome with
      | Worked =>
          if (quit : bool) then Ok (Quit, st)
          else thread_main_loop task_table fuel' this thread st
      | _ => Ok (Suspended, st)
      end
  end.

End CopyQueue.

Module SpaceNotions.
Import TransferIteratorIndexSpace.

(** No element of the mask is enabled. *)
Definition empty_mask (m : ElementMask.t) : Prop :=
  forall i, m !! i <> Some true.

(** The iterator at a time when the valid mask [m] of its index space has
    arrived. *)
Definition mask_arrived (m : ElementMask.t) (it : t) : t :=
  {| is_impl := {| valid_mask_ready := true; impl_valid_mask := Some m |};
     valid_mask := valid_mask it; first_enabled := first_enabled it;
     enumerator := enumerator it; rewind_pos := rewind_pos it;
     inst_impl := inst_impl it; mapping := mapping it;
     field_offsets := field_offsets it; field_sizes := field_sizes it;
     field_idx := field_idx it; next_idx := next_idx it;
     extra_elems := extra_elems it; tentative_valid := tentative_valid it |}.

End SpaceNotions.

Module JobNotions.
Import GPU.

(** The event [finish_job] triggers for a job. *)
Definition job_finish_event (j : GPUJob) : Event :=
  match j with
  | GPUTask _ t _ => finish_event t
  | GPUMemcpy _ _ e => e
  end.

(** [job] is a copy still in flight. *)
Definition is_copy_job (st : State) (job : Z) : Prop :=
  exists gpu kind e, jobs st !! job = Some (GPUMemcpy gpu kind e).

(** The events known as triggered once [e] went through [finish_job]. *)
Definition after_finish (e : Event) (evs : gset Event) : gset Event :=
  if event_exists e then {[e]} ∪ evs else evs.

(** What one reads of processor [this]. *)
Definition proc_field {A} (f : GPUProcessor -> A) (this : Z) (st : State)
  : option A :=
  f <$> procs st !! this.

End JobNotions.

(** * The CUDA runtime calls a GPU processor answers

    [GPUProcessor::internal_configure_call], [internal_setup_argument],
    [internal_launch], [internal_register_cuda_binary],
    [internal_register_function], [internal_register_var] and
    [internal_unregister_fat_binary] of [lowlevel_gpu.cc].  Pointers are
    addresses in [Z]; [size_t] arithmetic wraps at 64 bits.  The members
    these functions use are kept beside the processor of the scheduling
    model, whose task streams [get_current_task_stream] reads. *)

Module CudaRuntime.

Record dim3 : Type := { x : Z; y : Z; z : Z }.

Record LaunchConfig : Type := {
  grid : dim3;
  block : dim3;
  shared : Z
}.

Record ModuleInfo : Type := {
  module : Z;                        (* CUmodule *)
  host_aliases : gset Z;             (* std::set<const void*> *)
  var_aliases : gset Z
}.

Record VarInfo : Type := {
  name : Z;                          (* const char* *)
  ptr : Z;                           (* CUdeviceptr *)
  size : Z
}.

(** Host memory is a list of bytes; a byte that was never written is
    indeterminate, [None]. *)

Inductive DriverCall : Type :=
| cuMemAllocHost (bytes : Z)
| cuMemFreeHost
| cuCtxSynchronize
| cuModuleLoadData (image : Z)
| cuModuleUnload (m : Z)
| cuModuleGetFunction (m : Z) (device_fun : Z)
| cuModuleGetGlobal (m : Z) (device_name : Z)
(** the last two are [CU_LAUNCH_PARAM_BUFFER_POINTER] and
    [CU_LAUNCH_PARAM_BUFFER_SIZE] *)
| cuLaunchKernel (f : Z) (grid block : dim3) (shared : Z)
    (stream : GPU.CUstream) (buffer : list (option Byte.byte))
    (buffer_size : Z).

Record t : Type := {
  proc : GPU.GPUProcessor;
  launch_configs : list LaunchConfig;
  kernel_arg_buffer : list (option Byte.byte);
  kernel_buffer_size : Z;            (* size_t *)
  kernel_arg_size : Z;               (* size_t *)
  modules : gmap Z ModuleInfo;       (* std::map<void**,ModuleInfo> *)
  task_modules : gset Z;
  device_functions : gmap Z Z;       (* std::map<const void*,CUfunction> *)
  device_variables : gmap Z VarInfo;
  next_handle : Z;                   (* the block the next [malloc] returns *)
  calls : list DriverCall
}.

Definition call (c : list DriverCall) (s : t) : t :=
  {| proc := proc s; launch_configs := launch_configs s;
     kernel_arg_buffer := kernel_arg_buffer s;
     kernel_buffer_size := kernel_buffer_size s;
     kernel_arg_size := kernel_arg_size s;
     modules := modules s; task_modules := task_modules s;
     device_functions := device_functions s;
     device_variables := device_variables s;
     next_handle := next_handle s;
     calls := calls s ++ c |}.

Definition with_launch_configs (cs : list LaunchConfig) (s : t) : t :=
  {| proc := proc s; launch_configs := cs;
     kernel_arg_buffer := kernel_arg_buffer s;
     kernel_buffer_size := kernel_buffer_size s;
     kernel_arg_size := kernel_arg_size s;
     modules := modules s; task_modules := task_modules s;
     device_functions := device_functions s;
     device_variables := device_variables s;
     next_handle := next_handle s;
     calls := calls s |}.

Definition with_buffer (buffer : list (option Byte.byte))
    (buffer_size arg_size : Z) (s : t) : t :=
  {| proc := proc s; launch_configs := launch_configs s;
     kernel_arg_buffer := buffer;
     kernel_buffer_size := buffer_size;
     kernel_arg_size := arg_size;
     modules := modules s; task_modules := task_modules s;
     device_functions := device_functions s;
     device_variables := device_variables s;
     next_handle := next_handle s;
     calls := calls s |}.

(** The members the registration functions write. *)
Definition with_tables (ms : gmap Z ModuleInfo) (tm : gset Z)
    (fs : gmap Z Z) (vs : gmap Z VarInfo) (next : Z) (s : t) : t :=
  {| proc := proc s; launch_configs := launch_configs s;
     kernel_arg_buffer := kernel_arg_buffer s;
     kernel_buffer_size := kernel_buffer_size s;
     kernel_arg_size := kernel_arg_size s;
     modules := ms; task_modules := tm;
     device_functions := fs;
     device_variables := vs;
     next_handle := next;
     calls := calls s |}.

(** [memcpy(dst + pos, src, n)]; reading or writing outside a buffer is
    undefined. *)
Definition memcpy (dst : list (option Byte.byte)) (pos : Z)
    (src : list (option Byte.byte)) (n : Z)
  : result (list (option Byte.byte)) :=
  if (0 <=? pos) && (0 <=? n) && (pos + n <=? Z.of_nat (length dst))
     && (n <=? Z.of_nat (length src))
  then Ok (take (Z.to_nat pos) dst ++ take (Z.to_nat n) src
           ++ drop (Z.to_nat (pos + n)) dst)
  else Err Undefined.

Definition internal_configure_call (grid_dim block_dim : dim3)
    (shared_mem : Z) (s : t) : t :=
  let config := {| grid := grid_dim; block := block_dim;
                   shared := shared_mem |} in
  with_launch_configs (launch_configs s ++ [config]) s.

(** [arg] is the memory the argument pointer leads to. *)
Definition internal_setup_argument (arg : list Byte.byte) (size offset : Z)
    (s : t) : result t :=
  let required := u64 (offset + size) in
  s ← (if required >? kernel_buffer_size s then
         let needed := u64 (required * 2) in
         let s := call [cuMemAllocHost needed] s in
         new_buffer ← memcpy (replicate (Z.to_nat needed) None) 0
                        (kernel_arg_buffer s) (kernel_arg_size s);
         let s := call [cuMemFreeHost] s in
         Ok (with_buffer new_buffer needed (kernel_arg_size s) s)
       else Ok s);
  buffer ← memcpy (kernel_arg_buffer s) offset (map Some arg) size;
  Ok (with_buffer buffer (kernel_buffer_size s)
        (if required >? kernel_arg_size s then required
         else kernel_arg_size s) s).

Definition internal_launch (func : Z) (s : t) : result t :=
  match last (launch_configs s) with
  | None => Err AssertFailed
  | Some config =>
      let f := match device_functions s !! func with
               | Some f => f
               | None => func
               end in
      stream ← GPU.get_current_task_stream (proc s);
      let s := call [cuLaunchKernel f (grid config) (block config)
                       (shared config) stream
                       (kernel_arg_buffer s) (kernel_arg_size s)] s in
      let s := with_launch_configs (removelast (launch_configs s)) s in
      Ok (with_buffer (kernel_arg_buffer s) (kernel_buffer_size s) 0 s)
  end.

Section WithDriver.

(** What the driver hands back: the module of an image, the function and
    the global of a name in a module. *)
Variable driver_module : Z -> Z.
Variable driver_function : Z -> Z -> Z.
Variable driver_global : Z -> Z -> Z * Z.

Definition internal_register_cuda_binary (cubin : Z) (s : t) : Z * t :=
  let handle := next_handle s in
  let info := match modules s !! handle with
              | Some info => info
              | None => {| module := 0; host_aliases := ∅; var_aliases := ∅ |}
              end in
  let s := call [cuModuleLoadData cubin] s in
  let info := {| module := driver_module cubin;
                 host_aliases := host_aliases info;
                 var_aliases := var_aliases info |} in
  (handle,
   with_tables (<[handle := info]> (modules s)) ({[handle]} ∪ task_modules s)
     (device_functions s) (device_variables s) (next_handle s + 1) s).

Definition internal_register_function (fat_bin host_fun device_fun : Z)
    (s : t) : result t :=
  match device_functions s !! host_fun with
  | Some _ => Ok s
  | None =>
      info ← match modules s !! fat_bin with
             | Some info => Ok info
             | None => Err AssertFailed
             end;
      let info' := {| module := module info;
                      host_aliases := {[host_fun]} ∪ host_aliases info;
                      var_aliases := var_aliases info |} in
      let s := with_tables (<[fat_bin := info']> (modules s)) (task_modules s)
                 (<[host_fun := driver_function (module info) device_fun]>
                    (device_functions s))
                 (device_variables s) (next_handle s) s in
      Ok (call [cuModuleGetFunction (module info) device_fun] s)
  end.

Definition internal_register_var (fat_bin host_var device_name : Z) (s : t)
  : result t :=
  info ← match modules s !! fat_bin with
         | Some info => Ok info
         | None => Err AssertFailed
         end;
  match device_variables s !! host_var with
  | Some _ => Ok s
  | None =>
      let s := call [cuModuleGetGlobal (module info) device_name] s in
      let target := {| name := device_name;
                       ptr := (driver_global (module info) device_name).1;
                       size := (driver_global (module info) device_name).2 |} in
      let info' := {| module := module info;
                      host_aliases := host_aliases info;
                      var_aliases := {[host_var]} ∪ var_aliases info |} in
      Ok (with_tables (<[fat_bin := info']> (modules s)) (task_modules s)
            (device_functions s) (<[host_var := target]> (device_variables s))
            (next_handle s) s)
  end.

End WithDriver.

(** The two erase loops run over the aliases of the module; the table they
    leave does not depend on the order. *)
Definition erase_all {V} (keys : gset Z) (m : gmap Z V) : gmap Z V :=
  foldr delete m (elements keys).

Definition internal_unregister_fat_binary (fat_bin : Z) (s : t) : result t :=
  let s := call [cuCtxSynchronize] s in
  info ← match modules s !! fat_bin with
         | Some info => Ok info
         | None => Err AssertFailed
         end;
  let s := call [cuModuleUnload (module info)] s in
  Ok (with_tables (delete fat_bin (modules s)) (task_modules s)
        (erase_all (host_aliases info) (device_functions s))
        (erase_all (var_aliases info) (device_variables s))
        (next_handle s) s).

End CudaRuntime.

Module CudaNotions.
Import CudaRuntime.

(** The argument buffer is as large as the processor believes, and the
    arguments set up so far fit into it. *)
Definition buffer_ok (s : t) : Prop :=
  Z.of_nat (length (kernel_arg_buffer s)) = kernel_buffer_size s
  /\ 0 <= kernel_arg_size s <= kernel_buffer_size s.

(** The byte of the argument buffer at [i]. *)
Definition arg_byte (s : t) (i : Z) : option (option Byte.byte) :=
  kernel_arg_buffer s !! Z.to_nat i.

(** An argument of a kernel: where it goes in the buffer and its bytes. *)
Definition arg_end (a : Z * list Byte.byte) : Z :=
  a.1 + Z.of_nat (length a.2).

(** One [internal_setup_argument] for each argument, in the order of the
    list. *)
Fixpoint setup_arguments (args : list (Z * list Byte.byte)) (s : t)
  : result t :=
  match args with
  | [] => Ok s
  | a :: rest =>
      s ← internal_setup_argument a.2 (Z.of_nat (length a.2)) a.1 s;
      setup_arguments rest s
  end.

Definition apart (a b : Z * list Byte.byte) : Prop :=
  arg_end a <= b.1 \/ arg_end b <= a.1.

Fixpoint all_apart (args : list (Z * list Byte.byte)) : Prop :=
  match args with
  | [] => True
  | a :: rest => Forall (apart a) rest /\ all_apart rest
  end.

Definition well_placed (a : Z * list Byte.byte) : Prop :=
  0 <= a.1 /\ arg_end a < 2 ^ 63.

Fixpoint args_end (args : list (Z * list Byte.byte)) : Z :=
  match args with
  | [] => 0
  | a :: rest => Z.max (arg_end a) (args_end rest)
  end.

(** The bytes of [a] stand in [buffer] at its offset. *)
Definition stored (buffer : list (option Byte.byte))
    (a : Z * list Byte.byte) : Prop :=
  forall i c, a.2 !! i = Some c ->
              buffer !! Z.to_nat (a.1 + Z.of_nat i) = Some (Some c).

(** The driver calls that replace the argument buffer by a larger one. *)
Definition buffer_call (c : DriverCall) : Prop :=
  match c with
  | cuMemAllocHost _ | cuMemFreeHost => True
  | _ => False
  end.

(** The function a launch of [func] runs. *)
Definition launched_function (s : t) (func : Z) : Z :=
  match device_functions s !! func with
  | Some f => f
  | None => func
  end.

End CudaNotions.

Module MoreExamples.
Import Transfer Examples.

(** The 4 x 4 grid as a domain. *)
Definition grid_domain : Domain.t :=
  {| Domain.get_dim := 2; Domain.get_index_space := 0; Domain.get_rect := grid |}.

(** An eight-byte fill value: two packed four-byte values. *)
Definition wide_fill_bytes : list Byte.byte :=
  [Byte.x01; Byte.x02; Byte.x03; Byte.x04; Byte.x05; Byte.x06; Byte.x07; Byte.x08].

(** A line of ten points with one 8-byte field, kept in one affine piece;
    the iterator stands on point 2. *)
Definition line : Rect := {| lo := [0]; hi := [9] |}.

Definition line_field : TransferIteratorZIndexSpace.FieldLayout :=
  {| TransferIteratorZIndexSpace.list_idx := 0;
     TransferIteratorZIndexSpace.rel_offset := 0;
     TransferIteratorZIndexSpace.size_in_bytes := 8 |}.

Definition line_pieces : TransferIteratorZIndexSpace.InstancePieceList :=
  {| TransferIteratorZIndexSpace.find_piece := fun _ =>
       Some (TransferIteratorZIndexSpace.AffineLayoutPiece line 0 [8]) |}.

Definition line_layout : TransferIteratorZIndexSpace.InstanceLayout :=
  {| TransferIteratorZIndexSpace.fields_layout := {[ 7 := line_field ]};
     TransferIteratorZIndexSpace.piece_lists := [line_pieces] |}.

Definition line_iter : TransferIteratorZIndexSpace.t :=
  {| TransferIteratorZIndexSpace.N := 1;
     TransferIteratorZIndexSpace.iter :=
       {| TransferIteratorZIndexSpace.space := [line];
          TransferIteratorZIndexSpace.rect := line;
          TransferIteratorZIndexSpace.valid := true;
          TransferIteratorZIndexSpace.rest := [] |};
     TransferIteratorZIndexSpace.cur_point := [2];
     TransferIteratorZIndexSpace.next_point := [0];
     TransferIteratorZIndexSpace.carry := false;
     TransferIteratorZIndexSpace.inst_impl := Some grid_impl;
     TransferIteratorZIndexSpace.inst_layout := Some line_layout;
     TransferIteratorZIndexSpace.fields := [7];
     TransferIteratorZIndexSpace.field_idx := 0;
     TransferIteratorZIndexSpace.extra_elems := 0;
     TransferIteratorZIndexSpace.tentative_valid := false |}.

(** An instance of the grid with three fields of 4, 8 and 4 bytes. *)
Definition grid_instance (i : Transfer.RegionInstance)
  : IteratorConstruction.InstanceImpl :=
  {| IteratorConstruction.metadata := grid_impl;
     IteratorConstruction.metadata_field_sizes := [4; 8; 4];
     IteratorConstruction.get_mapping := Some grid_mapping |}.

(** An eight-byte field at byte 16 of an instance: copied to two four-byte
    fields it is split in the middle. *)
Definition wide_field (i : Transfer.RegionInstance) : Transfer.CopySrcDstField :=
  {| Transfer.inst := i; Transfer.offset := 16; Transfer.size := 8;
     Transfer.serdez_id := 0 |}.

(** An index space of five elements none of which is enabled, with its
    mask at hand and with its mask still on the way. *)
Definition no_elements : ElementMask.t := [false; false; false; false; false].

Definition ready_space : TransferIteratorIndexSpace.IndexSpaceImpl :=
  {| TransferIteratorIndexSpace.valid_mask_ready := true;
     TransferIteratorIndexSpace.impl_valid_mask := Some no_elements |}.

Definition pending_space : TransferIteratorIndexSpace.IndexSpaceImpl :=
  {| TransferIteratorIndexSpace.valid_mask_ready := false;
     TransferIteratorIndexSpace.impl_valid_mask := None |}.

(** A device without DMA worker whose only thread sleeps. *)
Definition copying_gpu : GPU.GPUProcessor :=
  {| GPU.proc_ctx := 1; GPU.shutdown := false; GPU.shutdown_trigger := false;
     GPU.gpu_worker := false;
     GPU.task_streams := [11; 12];
     GPU.current_stream := 0;
     GPU.peer_gpus := ∅;
     GPU.task_queue := []; GPU.copies := []; GPU.complete_jobs := [];
     GPU.resumable_threads := []; GPU.available_threads := [0];
     GPU.running_thread := None |}.

Definition copying_gpus : GPU.State :=
  {| GPU.procs := {[ 1 := copying_gpu ]};
     GPU.jobs := ∅; GPU.next_job := 100; GPU.worker_jobs := ∅;
     GPU.driver := []; GPU.triggered := ∅ |}.

(** An idle device without DMA worker, and a copy job of it that is still
    in flight. *)
Definition idle_gpu : GPU.GPUProcessor :=
  {| GPU.proc_ctx := 1; GPU.shutdown := false; GPU.shutdown_trigger := false;
     GPU.gpu_worker := false;
     GPU.task_streams := [11; 12];
     GPU.current_stream := 0;
     GPU.peer_gpus := ∅;
     GPU.task_queue := []; GPU.copies := []; GPU.complete_jobs := [];
     GPU.resumable_threads := []; GPU.available_threads := [7];
     GPU.running_thread := Some 0 |}.

Definition idle_gpus : GPU.State :=
  {| GPU.procs := {[ 1 := idle_gpu ]};
     GPU.jobs := {[ 90 := GPU.GPUMemcpy 1 GPU.GPU_MEMCPY_HOST_TO_DEVICE (4, 1) ]};
     GPU.next_job := 100; GPU.worker_jobs := ∅;
     GPU.driver := []; GPU.triggered := ∅ |}.

(** A device whose completed jobs go to the DMA worker. *)
Definition worker_gpu : GPU.GPUProcessor :=
  {| GPU.proc_ctx := 1; GPU.shutdown := false; GPU.shutdown_trigger := false;
     GPU.gpu_worker := true;
     GPU.task_streams := [11; 12];
     GPU.current_stream := 0;
     GPU.peer_gpus := ∅;
     GPU.task_queue := []; GPU.copies := []; GPU.complete_jobs := [];
     GPU.resumable_threads := []; GPU.available_threads := [0];
     GPU.running_thread := None |}.

Definition worker_gpus : GPU.State :=
  {| GPU.procs := {[ 1 := worker_gpu ]};
     GPU.jobs := {[ 90 := GPU.GPUMemcpy 1 GPU.GPU_MEMCPY_HOST_TO_DEVICE (4, 1) ]};
     GPU.next_job := 100; GPU.worker_jobs := ∅;
     GPU.driver := []; GPU.triggered := ∅ |}.

(** The processor as its constructor leaves it: four pages of argument
    buffer, nothing set up, nothing registered. *)
Definition cuda_gpu : CudaRuntime.t :=
  {| CudaRuntime.proc := gpu 1 [];
     CudaRuntime.launch_configs := [];
     CudaRuntime.kernel_arg_buffer := replicate (Z.to_nat 8192) None;
     CudaRuntime.kernel_buffer_size := 8192;
     CudaRuntime.kernel_arg_size := 0;
     CudaRuntime.modules := ∅;
     CudaRuntime.task_modules := ∅;
     CudaRuntime.device_functions := ∅;
     CudaRuntime.device_variables := ∅;
     CudaRuntime.next_handle := 4096;
     CudaRuntime.calls := [] |}.

(** Two arguments, the second of which ends behind the four pages. *)
Definition two_args : list (Z * list Byte.byte) :=
  [(0, [Byte.x05; Byte.x06]);
   (8190, [Byte.x01; Byte.x02; Byte.x03; Byte.x04])].

Definition unit_dim : CudaRuntime.dim3 :=
  {| CudaRuntime.x := 1; CudaRuntime.y := 1; CudaRuntime.z := 1 |}.

Definition row_dim : CudaRuntime.dim3 :=
  {| CudaRuntime.x := 32; CudaRuntime.y := 1; CudaRuntime.z := 1 |}.

(** A driver that numbers the module of an image and the symbols of a
    module. *)
Definition image_module (image : Z) : Z := image + 1.
Definition module_symbol (m device_name : Z) : Z := 100 * m + device_name.
Definition module_global (m device_name : Z) : Z * Z :=
  (1000 * m + device_name, 4).

(** The processor with one call configured. *)
Definition configured_gpu : CudaRuntime.t :=
  CudaRuntime.internal_configure_call unit_dim row_dim 0 cuda_gpu.

(** A processor with two modules: function 700 and variable 800 come from
    the first. *)
Definition loaded_gpu : CudaRuntime.t :=
  {| CudaRuntime.proc := gpu 1 [];
     CudaRuntime.launch_configs := [];
     CudaRuntime.kernel_arg_buffer := replicate (Z.to_nat 8192) None;
     CudaRuntime.kernel_buffer_size := 8192;
     CudaRuntime.kernel_arg_size := 0;
     CudaRuntime.modules :=
       {[ 4096 := {| CudaRuntime.module := 51;
                     CudaRuntime.host_aliases := {[ 700 ]};
                     CudaRuntime.var_aliases := {[ 800 ]} |};
          4097 := {| CudaRuntime.module := 61;
                     CudaRuntime.host_aliases := ∅;
                     CudaRuntime.var_aliases := ∅ |} ]};
     CudaRuntime.task_modules := {[ 4096; 4097 ]};
     CudaRuntime.device_functions := {[ 700 := 5107 ]};
     CudaRuntime.device_variables :=
       {[ 800 := {| CudaRuntime.name := 8; CudaRuntime.ptr := 51008;
                    CudaRuntime.size := 4 |} ]};
     CudaRuntime.next_handle := 4098;
     CudaRuntime.calls := [] |}.

(** The kill pill queued in front of a task. *)
Definition kill_pill : GPU.Task :=
  {| GPU.func_id := 0; GPU.finish_event := (77, 2); GPU.run_count := 0;
     GPU.capture := false |}.

Definition stopping_gpus : GPU.State :=
  {| GPU.procs := {[ 1 := gpu 1 [kill_pill; gpu_task] ]};
     GPU.jobs := ∅; GPU.next_job := 100; GPU.worker_jobs := ∅;
     GPU.driver := []; GPU.triggered := ∅ |}.

End MoreExamples.

(** * Properties *)

(** ** Node selection *)

Section NodeSelection.
Import Transfer.

Lemma executing_node_dispatch_to rt node :
  executing_node rt (dispatch_to rt node) = node.
Proof.
  unfold dispatch_to, executing_node.
  destruct (Z.eqb_spec node (gasnet_mynode rt)); congruence.
Qed.

(** C1.  A copy plan is executed on the node picked from the kinds of the
    memories of its first instance pair: both RDMA-global, the local node,
    with a warning in the log; only the source RDMA-global, the owner of the
    destination memory; otherwise the owner of the source memory.  The
    request runs locally when that node is the local one and is forwarded to
    it otherwise. *)
Theorem copy_plan_executing_node (rt : Runtime) (ip : InstPair) (v : OASVec)
    (rest : OASByInst) :
  let src_mem := get_location rt ip.1 in
  let dst_mem := get_location rt ip.2 in
  exists log d,
    execute_plan rt (TransferPlanCopy ((ip, v) :: rest)) = Ok (log, d)
    /\ d = dispatch_to rt (executing_node rt d)
    /\ (executing_node rt d, log) =
       match memory_kind rt src_mem, memory_kind rt dst_mem with
       | MKIND_GLOBAL, MKIND_GLOBAL =>
           (gasnet_mynode rt, [WarnGasnetToGasnetSerialized (gasnet_mynode rt)])
       | MKIND_GLOBAL, _ => (memory_owner_node rt dst_mem, [])
       | _, _ => (memory_owner_node rt src_mem, [])
       end.
Proof.
  intros src_mem dst_mem. cbn [execute_plan copy_execute_plan].
  fold src_mem dst_mem. unfold select_dma_node.
  destruct (memory_kind rt src_mem), (memory_kind rt dst_mem); cbn;
    eexists _, _; rewrite !executing_node_dispatch_to; auto.
Qed.

End NodeSelection.

(** ** Reductions *)

Section Reduction.
Import Transfer Examples.

Lemma same_owner_node_spec rt srcs :
  same_owner_node rt srcs = true <->
  (forall s1 s2, In s1 srcs -> In s2 srcs ->
     instance_owner_node rt (inst s1) = instance_owner_node rt (inst s2)).
Proof.
  destruct srcs as [|s0 rest]; cbn [same_owner_node].
  - split; [intros _ s1 s2 [] | reflexivity].
  - rewrite forallb_forall. split.
    + intros H s1 s2 H1 H2.
      assert (Hall : forall s, In s (s0 :: rest) ->
                instance_owner_node rt (inst s) = instance_owner_node rt (inst s0)).
      { intros s [<- | Hs]; [reflexivity | apply Z.eqb_eq, H, Hs]. }
      rewrite (Hall s1 H1), (Hall s2 H2). reflexivity.
    + intros H s Hs. apply Z.eqb_eq, H; [right; exact Hs | left; reflexivity].
Qed.

(** C3.  With a reduction operator, [plan_copy] produces exactly one reduce
    plan carrying the operator and the fold flag when all sources are owned
    by one node and there is a single destination field, and aborts
    otherwise; executing the plan sends the reduction to the owner node of
    the first source instance. *)
Theorem plan_copy_reduction (rt : Runtime) (plans : list TransferPlan)
    (srcs dsts : list CopySrcDstField) (redop_id : ReductionOpID)
    (red_fold : bool) :
  redop_id <> 0 ->
  (forall d,
     (forall s1 s2, In s1 srcs -> In s2 srcs ->
        instance_owner_node rt (inst s1) = instance_owner_node rt (inst s2)) ->
     dsts = [d] ->
     plan_copy rt plans srcs dsts redop_id red_fold
       = Ok (plans ++ [TransferPlanReduce srcs d redop_id red_fold])
     /\ forall s srcs', srcs = s :: srcs' ->
          exists log disp,
            execute_plan rt (TransferPlanReduce srcs d redop_id red_fold)
              = Ok (log, disp)
            /\ executing_node rt disp = instance_owner_node rt (inst s))
  /\ ((exists s1 s2, In s1 srcs /\ In s2 srcs /\
         instance_owner_node rt (inst s1) <> instance_owner_node rt (inst s2))
      \/ length dsts <> 1%nat ->
      plan_copy rt plans srcs dsts redop_id red_fold = Err AssertFailed).
Proof.
  intros Hred. unfold plan_copy.
  destruct (Z.eqb_spec redop_id 0) as [|_]; [contradiction|].
  split.
  - intros d Hsame ->. apply same_owner_node_spec in Hsame. rewrite Hsame.
    cbn. split; [reflexivity|].
    intros s srcs' ->. cbn. eexists _, _. split; [reflexivity|].
    apply executing_node_dispatch_to.
  - intros [(s1 & s2 & H1 & H2 & Hne) | Hlen].
    + destruct (same_owner_node rt srcs) eqn:E; [|reflexivity].
      exfalso. apply Hne. eapply same_owner_node_spec; eassumption.
    + destruct (same_owner_node rt srcs); [|reflexivity]. cbn.
      destruct (Nat.eqb_spec (length dsts) 1); [contradiction | reflexivity].
Qed.

Lemma plan_copy_reduction_witness :
  plan_copy reduce_rt [] [reduce_field 33; reduce_field 34] [reduce_field 1] 7 true
    = Ok [TransferPlanReduce [reduce_field 33; reduce_field 34] (reduce_field 1) 7 true]
  /\ forall s srcs', [reduce_field 33; reduce_field 34] = s :: srcs' ->
       exists log disp,
         execute_plan reduce_rt
           (TransferPlanReduce [reduce_field 33; reduce_field 34] (reduce_field 1) 7 true)
           = Ok (log, disp)
         /\ executing_node reduce_rt disp = instance_owner_node reduce_rt (inst s).
Proof.
  refine (proj1 (plan_copy_reduction reduce_rt [] [reduce_field 33; reduce_field 34]
                   [reduce_field 1] 7 true _) (reduce_field 1) _ eq_refl).
  - lia.
  - intros s1 s2 [<- | [<- | []]] [<- | [<- | []]]; reflexivity.
Defined.

End Reduction.

(** ** Fills *)

Section Fill.
Import Transfer Examples.

Lemma u64_small z : 0 <= z < 2 ^ 64 -> u64 z = z.
Proof. intros H. unfold u64. apply Z.mod_small, H. Qed.

Lemma byte_slice_all (buf : list Byte.byte) :
  byte_slice buf 0 (Z.of_nat (length buf)) = buf.
Proof.
  unfold byte_slice. rewrite Nat2Z.id. cbn [Z.to_nat skipn].
  apply firstn_all.
Qed.


(** One turn of the loop of [plan_fill], without the wrap-around. *)
Lemma plan_fill_loop_step plans f rest fv ofs :
  let fvs := Z.of_nat (length fv) in
  0 <= ofs <= fvs -> 0 <= size f < 2 ^ 32 -> fvs + 2 ^ 32 <= 2 ^ 64 ->
  plan_fill_loop plans (f :: rest) fv fvs ofs =
    if ofs + size f >? fvs
    then ([FatalInsufficientFillData (ofs + size f) fvs], Err AssertFailed)
    else plan_fill_loop
           (plans ++ [TransferPlanFill (byte_slice fv ofs (size f)) (inst f) (offset f)])
           rest fv fvs
           (if (ofs =? 0) && (size f =? fvs) then 0 else ofs + size f).
Proof.
  intros fvs Hofs Hsz Hfvs. cbn [plan_fill_loop].
  rewrite u64_small by lia.
  destruct (ofs + size f >? fvs); [reflexivity|].
  f_equal.
  destruct (Z.eqb_spec ofs 0) as [->|Hne]; cbn [andb orb negb].
  - destruct (size f =? fvs); reflexivity.
  - destruct (Z.gtb_spec ofs 0); [reflexivity | lia].
Qed.



End Fill.

(** ** The subrectangle of a step *)

Section RectGrowth.
Import TransferIteratorRect Examples.

Lemma coord_insert_eq (l : Point) (d : nat) (v : Z) :
  (d < length l)%nat -> coord (<[d := v]> l) d = v.
Proof.
  intros H. unfold coord. rewrite nth_lookup, list_lookup_insert_eq by exact H.
  reflexivity.
Qed.

Lemma coord_insert_ne (l : Point) (d d' : nat) (v : Z) :
  d <> d' -> coord (<[d := v]> l) d' = coord l d'.
Proof.
  intros H. unfold coord. rewrite !nth_lookup, list_lookup_insert_ne by exact H.
  reflexivity.
Qed.

(** Invariants of a counted loop. *)
Lemma for_range_inv {St} (P : nat -> St -> Prop) (body : nat -> St -> result St) :
  forall count first s s',
    P first s ->
    (forall d st st', (first <= d < first + count)%nat ->
       P d st -> body d st = Ok st' -> P (S d) st') ->
    for_range first count body s = Ok s' ->
    P (first + count)%nat s'.
Proof.
  induction count as [|count IH]; intros first s s' H0 Hstep Hrun.
  - cbn in Hrun. injection Hrun as <-. rewrite Nat.add_0_r. exact H0.
  - cbn [for_range] in Hrun.
    destruct (body first s) as [s1|e] eqn:Hbody; [|discriminate].
    cbn in Hrun.
    replace (first + S count)%nat with (S first + count)%nat by lia.
    apply (IH (S first) s1 s').
    + apply (Hstep first s s1); [lia | exact H0 | exact Hbody].
    + intros d st st' Hd. apply Hstep. lia.
    + exact Hrun.
Qed.

Lemma grow_dim_inv dim r p max_elems d st st' :
  (d < dim)%nat ->
  grow_inv dim r p d st ->
  grow_dim r p max_elems d st = Ok st' ->
  grow_inv dim r p (S d) st'.
Proof.
  intros Hd (Hlen & Hhigher & Hfull) Hstep.
  assert (Hshape : exists v g c,
            st' = {| g_hi := <[d := v]> (g_hi st); g_grow := g; g_count := c |}
            /\ (g_grow st = false -> v = coord p d /\ g = false)
            /\ (g = true -> g_grow st = true /\ v = coord (hi r) d
                            /\ coord p d = coord (lo r) d)).
  { unfold grow_dim in Hstep. destruct (g_grow st) eqn:Hg.
    - destruct (_ <=? max_elems).
      + injection Hstep as <-. eexists _, _, _. split; [reflexivity|].
        split; [discriminate|]. intros Hp. apply Z.eqb_eq in Hp. auto.
      + destruct (g_count st =? 0); [discriminate|].
        destruct (max_elems / g_count st >=? 1); [|discriminate].
        cbn in Hstep. injection Hstep as <-. eexists _, _, _.
        split; [reflexivity|]. split; discriminate.
    - injection Hstep as <-. eexists _, _, _. split; [reflexivity|].
      split; [auto | discriminate]. }
  destruct Hshape as (v & g & c & -> & Hoff & Hon).
  unfold grow_inv. cbn [g_hi g_grow].
  assert (Hkeep : forall d0, (d0 < d)%nat ->
            (partially_handled r p (<[d := v]> (g_hi st)) d0
             <-> partially_handled r p (g_hi st) d0)).
  { intros d0 Hd0. unfold partially_handled.
    rewrite coord_insert_ne by lia. reflexivity. }
  split; [|split].
  - rewrite length_insert. exact Hlen.
  - intros d0 d' Hrange Hpart. apply Hkeep in Hpart; [|lia].
    destruct (Nat.eq_dec d' d) as [->|Hne].
    + rewrite coord_insert_eq by lia.
      destruct (g_grow st) eqn:Hg.
      * exfalso. exact (Hfull eq_refl d0 ltac:(lia) Hpart).
      * apply Hoff. reflexivity.
    + rewrite coord_insert_ne by lia. apply (Hhigher d0 d'); [lia | exact Hpart].
  - intros -> d0 Hd0. destruct (Hon eq_refl) as (Hg & -> & Hp).
    destruct (Nat.eq_dec d0 d) as [->|Hne].
    + unfold partially_handled. rewrite coord_insert_eq by lia. tauto.
    + rewrite Hkeep by lia. apply Hfull; [exact Hg | lia].
Qed.

Lemma target_subrect_shape (dim : nat) (r : Rect) (p : Point)
    (max_elems : Z) (target : Rect) (count : Z) :
  target_subrect dim r p max_elems = Ok (target, count) ->
  lo target = p
  /\ forall d d', (d < d' < dim)%nat ->
       partially_handled r p (hi target) d ->
       coord (hi target) d' = coord (lo target) d'
       /\ coord (hi target) d' - coord (lo target) d' + 1 = 1.
Proof.
  unfold target_subrect. intros Hrun.
  destruct (for_range 0 dim _ _) as [st|e] eqn:Hloop; [|discriminate].
  cbn in Hrun. injection Hrun as <- <-. cbn [lo hi].
  split; [reflexivity|].
  assert (Hinv : grow_inv dim r p (0 + dim) st).
  { eapply (for_range_inv (grow_inv dim r p)); [| |exact Hloop].
    - split; [apply length_replicate|]. split; intros; lia.
    - intros d st0 st1 Hd. apply grow_dim_inv. lia. }
  destruct Hinv as (_ & Hhigher & _).
  intros d d' Hrange Hpart.
  rewrite (Hhigher d d') by (auto; lia). lia.
Qed.

Lemma bind_Ok {A B} (r : result A) (k : A -> result B) (b : B) :
  (r ≫= k) = Ok b -> exists a, r = Ok a /\ k a = Ok b.
Proof. destruct r as [a|e]; [eauto | discriminate]. Qed.

End RectGrowth.

(** ** Steps smaller than one element *)

Section SmallSteps.
Import TransferIterator IteratorNotions Examples.

Lemma is_nil_false_lookup {A} (l : list A) (i : nat) (x : A) :
  l !! i = Some x -> Transfer.is_nil l = false.
Proof. destruct l; [rewrite lookup_nil; discriminate | reflexivity]. Qed.

(** C5.  When [max_bytes] holds less than one element of the current field,
    a step of an iterator that is not done returns 0 and leaves the position
    and the field index alone. *)
Theorem step_below_one_element (volume : Rect -> Z) (ti : t) (max_bytes : Z)
    (info : AddressInfo) (tentative : bool) (field_size : Z) :
  done ti = false ->
  step_ready ti ->
  current_field_size ti = Some field_size ->
  0 < field_size ->
  max_bytes / field_size = 0 ->
  exists ti',
    step volume max_bytes info tentative ti = Ok (0, info, ti')
    /\ position ti' = position ti.
Proof.
  intros Hdone Hready Hfs Hpos Hsmall.
  assert (Hnz : (field_size =? 0) = false) by (apply Z.eqb_neq; lia).
  destruct ti as [it|it|it]; cbn in Hdone, Hready, Hfs |- *.
  - (* rectangle *)
    unfold TransferIteratorRect.step.
    rewrite Hdone, Hready, Hfs. cbn. rewrite Hnz, Hsmall. cbn.
    eexists. split; reflexivity.
  - (* index space with an element mask *)
    destruct Hready as [Htv Hlazy].
    unfold TransferIteratorIndexSpace.step, TransferIteratorIndexSpace.fetch_valid_mask,
      TransferIteratorIndexSpace.step_with_mask.
    rewrite (is_nil_false_lookup _ _ _ Hfs). cbn [negb andb].
    destruct (TransferIteratorIndexSpace.valid_mask it) as [m|] eqn:Hvm.
    + rewrite bool_decide_eq_true_2 by eauto. cbn.
      rewrite Hdone, Htv, Hfs. cbn. rewrite Hnz, Hsmall. cbn.
      eexists. split; reflexivity.
    + rewrite bool_decide_eq_false_2 by (intros [? ?]; discriminate).
      destruct (Hlazy eq_refl) as (Hrdy & [m Hm] & Hidx).
      rewrite Hrdy, Hm. cbn.
      destruct (ElementMask.find_enabled m =? -1) eqn:Hempty; cbn.
      * eexists. split; [reflexivity|]. cbn. rewrite Hidx. reflexivity.
      * unfold TransferIteratorIndexSpace.done in *. cbn.
        rewrite Hdone, Htv, Hfs. cbn. rewrite Hnz, Hsmall. cbn.
        eexists. split; reflexivity.
  - (* index space with an instance layout *)
    destruct Hready as (Htv & Hvalid & layout & fid & fl & pieces
                        & Hl & Hfid & Hfl & Hpieces & [pc Hpc]).
    rewrite Hl in Hfs. cbn in Hfs. rewrite Hfid in Hfs. cbn in Hfs.
    rewrite Hfl in Hfs. cbn in Hfs. injection Hfs as Hfs.
    unfold TransferIteratorZIndexSpace.step.
    rewrite Hdone, Htv, Hvalid, Hl, Hfid. cbn. rewrite Hfl. cbn.
    rewrite Hpieces. cbn. rewrite Hpc. cbn. rewrite Hfs, Hnz, Hsmall. cbn.
    eexists. split; reflexivity.
Qed.

Lemma step_below_one_element_witness :
  exists ti',
    step grid_volume 3 grid_info true (OfRect grid_iter) = Ok (0, grid_info, ti')
    /\ position ti' = position (OfRect grid_iter).
Proof.
  apply (step_below_one_element grid_volume (OfRect grid_iter) 3 grid_info true 4);
    [reflexivity | reflexivity | reflexivity | lia | reflexivity].
Defined.

End SmallSteps.

(** ** Peers and pinned host memory *)

Section Peers.
Import GPU GPUNotions Examples.

(** C8, as the claim has it, fails: the peer is recorded in the processor
    that was called only. *)
Lemma enable_peer_access_one_sided :
  exists st',
    enable_peer_access 1 2 two_gpus = Ok st'
    /\ can_access_peer 1 2 st' = Ok true
    /\ can_access_peer 2 1 st' = Ok false.
Proof. eexists. repeat split; vm_compute; reflexivity. Qed.

(** C8, amended.  [A.enable_peer_access(B)] has the driver enable access to
    A's context from B's context and records B in A's set of peers:
    afterwards [A.can_access_peer(B)] holds, and the peers of every other
    processor, B included, are what they were. *)
Theorem enable_peer_access_records_caller (st : State) (a b : Z)
    (ga gb : GPUProcessor) :
  procs st !! a = Some ga ->
  procs st !! b = Some gb ->
  exists st',
    enable_peer_access a b st = Ok st'
    /\ can_access_peer a b st' = Ok true
    /\ (forall c peer, c <> a ->
          can_access_peer c peer st' = can_access_peer c peer st)
    /\ (forall peer, peer <> b ->
          can_access_peer a peer st' = can_access_peer a peer st)
    /\ driver st' = driver st ++ [cuCtxPushCurrent (proc_ctx gb);
                                  cuCtxEnablePeerAccess (proc_ctx ga);
                                  cuCtxPopCurrent (proc_ctx gb)].
Proof.
  intros Ha Hb.
  unfold enable_peer_access, handle_peer_access, get_proc.
  rewrite Ha. cbn. rewrite Hb. cbn.
  eexists. split; [reflexivity|].
  unfold can_access_peer, get_proc. cbn.
  split; [|split; [|split; [|reflexivity]]].
  - rewrite lookup_alter_eq, Ha. cbn.
    rewrite bool_decide_eq_true_2 by set_solver. reflexivity.
  - intros c peer Hc. rewrite lookup_alter_ne by congruence. reflexivity.
  - intros peer Hpeer. rewrite lookup_alter_eq, Ha. cbn. f_equal.
    apply bool_decide_ext. rewrite elem_of_union, elem_of_singleton.
    split; [intros [?|?]; [congruence | assumption] | auto].
Qed.

Lemma enable_peer_access_records_caller_witness :
  exists st',
    enable_peer_access 1 2 two_gpus = Ok st'
    /\ can_access_peer 1 2 st' = Ok true
    /\ (forall c peer, c <> 1 ->
          can_access_peer c peer st' = can_access_peer c peer two_gpus)
    /\ (forall peer, peer <> 2 ->
          can_access_peer 1 peer st' = can_access_peer 1 peer two_gpus)
    /\ driver st' = driver two_gpus
                    ++ [cuCtxPushCurrent (proc_ctx (gpu 2 []));
                        cuCtxEnablePeerAccess (proc_ctx (gpu 1 [gpu_task]));
                        cuCtxPopCurrent (proc_ctx (gpu 2 []))].
Proof.
  apply (enable_peer_access_records_caller two_gpus 1 2
           (gpu 1 [gpu_task]) (gpu 2 [])); reflexivity.
Defined.

(** C9, as the claim has it, fails: the second call registers again. *)
Lemma register_host_memory_twice :
  exists st1 st2,
    register_host_memory 1 4096 256 two_gpus = Ok st1
    /\ register_host_memory 1 4096 256 st1 = Ok st2
    /\ st2 <> st1
    /\ driver st2 = [cuCtxPushCurrent 1; cuMemHostRegister 4096 256; cuCtxPopCurrent 1;
                     cuCtxPushCurrent 1; cuMemHostRegister 4096 256; cuCtxPopCurrent 1].
Proof.
  eexists _, _. split; [vm_compute; reflexivity|].
  split; [vm_compute; reflexivity|].
  split; [|vm_compute; reflexivity].
  intros Heq. apply (f_equal (fun s => length (driver s))) in Heq.
  vm_compute in Heq. discriminate.
Qed.

(** C9, amended.  Every call of [register_host_memory] on a processor that
    is not shutting down asks the driver to pin the region, whatever was
    registered before; the processor keeps no record of regions.  After
    shutdown the call does nothing. *)
Theorem register_host_memory_calls (st : State) (this : Z) (g : GPUProcessor)
    (base size : Z) :
  procs st !! this = Some g ->
  register_host_memory this base size st
    = Ok (if shutdown g then st
          else call [cuCtxPushCurrent (proc_ctx g);
                     cuMemHostRegister base size;
                     cuCtxPopCurrent (proc_ctx g)] st)
  /\ (shutdown g = false ->
      exists st1 st2,
        register_host_memory this base size st = Ok st1
        /\ register_host_memory this base size st1 = Ok st2
        /\ driver st2 = driver st1 ++ [cuCtxPushCurrent (proc_ctx g);
                                       cuMemHostRegister base size;
                                       cuCtxPopCurrent (proc_ctx g)]).
Proof.
  intros Hg. unfold register_host_memory, get_proc. rewrite Hg. cbn.
  split; [destruct (shutdown g); reflexivity|].
  intros Hlive. rewrite Hlive. cbn. eexists _, _. split; [reflexivity|].
  cbn. rewrite Hg. cbn. rewrite Hlive. cbn. split; reflexivity.
Qed.

Lemma register_host_memory_calls_witness :
  register_host_memory 1 4096 256 two_gpus
    = Ok (if shutdown (gpu 1 [gpu_task]) then two_gpus
          else call [cuCtxPushCurrent (proc_ctx (gpu 1 [gpu_task]));
                     cuMemHostRegister 4096 256;
                     cuCtxPopCurrent (proc_ctx (gpu 1 [gpu_task]))] two_gpus)
  /\ (shutdown (gpu 1 [gpu_task]) = false ->
      exists st1 st2,
        register_host_memory 1 4096 256 two_gpus = Ok st1
        /\ register_host_memory 1 4096 256 st1 = Ok st2
        /\ driver st2 = driver st1
                        ++ [cuCtxPushCurrent (proc_ctx (gpu 1 [gpu_task]));
                            cuMemHostRegister 4096 256;
                            cuCtxPopCurrent (proc_ctx (gpu 1 [gpu_task]))]).
Proof.
  apply (register_host_memory_calls two_gpus 1 (gpu 1 [gpu_task]) 4096 256).
  reflexivity.
Defined.

End Peers.

(** ** Task streams *)

Section TaskStreams.
Import GPU GPUNotions Examples.

Lemma finish_job_keeps job st st' :
  finish_job job st = Ok st' ->
  jobs st' = jobs st /\ procs st' = procs st /\ worker_jobs st' = worker_jobs st
  /\ driver st' = driver st /\ triggered st ⊆ triggered st'.
Proof.
  unfold finish_job. destruct (jobs st !! job) as [j|]; [|discriminate]. cbn.
  destruct (event_exists _); intros [= <-]; cbn; repeat split; set_solver.
Qed.

Lemma finish_all_keeps l : forall st st',
  finish_all l st = Ok st' ->
  jobs st' = jobs st /\ procs st' = procs st /\ worker_jobs st' = worker_jobs st
  /\ driver st' = driver st /\ triggered st ⊆ triggered st'.
Proof.
  induction l as [|job l IH]; intros st st' H; cbn in H.
  - injection H as <-. repeat split; set_solver.
  - destruct (finish_job job st) as [st1|] eqn:H1; [|discriminate]. cbn in H.
    apply finish_job_keeps in H1 as (E1 & E2 & E3 & E4 & Hsub).
    apply IH in H as (F1 & F2 & F3 & F4 & Hsub').
    rewrite F1, F2, F3, F4, E1, E2, E3, E4.
    repeat split. etransitivity; eassumption.
Qed.

(** Every job of a list whose entries are all live gets its [finish_job]. *)
Lemma finish_all_Ok l : forall st,
  (forall job, In job l -> is_Some (jobs st !! job)) ->
  exists st', finish_all l st = Ok st'.
Proof.
  induction l as [|job l IH]; intros st Hlive; cbn.
  - eauto.
  - destruct (Hlive job (or_introl eq_refl)) as [j Hj].
    unfold finish_job at 1. rewrite Hj. cbn.
    apply IH. intros job' Hin.
    destruct (event_exists _); cbn; apply Hlive; right; exact Hin.
Qed.





Lemma next_stream_mod (n : nat) (cur : Z) :
  0 <= cur < Z.of_nat n -> next_stream n cur = (cur + 1) mod Z.of_nat n.
Proof.
  intros H. unfold next_stream.
  destruct (Z.geb_spec (cur + 1) (Z.of_nat n)).
  - replace (cur + 1) with (Z.of_nat n) by lia. rewrite Z.mod_same; lia.
  - rewrite Z.mod_small; lia.
Qed.

Lemma finish_all_next_job l : forall st st',
  finish_all l st = Ok st' -> next_job st' = next_job st.
Proof.
  induction l as [|job l IH]; intros s s' H; cbn in H.
  - injection H as <-. reflexivity.
  - unfold finish_job in H. destruct (jobs s !! job); [|discriminate].
    cbn in H. apply IH in H. rewrite H.
    destruct (event_exists _); reflexivity.
Qed.





End TaskStreams.

(** ** Tentative steps *)

Section TentativeSteps.
Import TransferIterator IteratorNotions Examples.

Lemma lift_bind {A B C} (f : B -> C) (r : result A)
    (k : A -> result (Z * AddressInfo * B)) :
  lift f (r ≫= k) = r ≫= (fun a => lift f (k a)).
Proof. destruct r; reflexivity. Qed.

Lemma bind_ext {A B} (r : result A) (k1 k2 : A -> result B) :
  (forall a, k1 a = k2 a) -> r ≫= k1 = r ≫= k2.
Proof. intros H. destruct r; [apply H | reflexivity]. Qed.

(** Both sides run the same code on the same values: walk down the binds and
    the branches until the results meet. *)
Ltac same_run :=
  repeat first
    [ reflexivity
    | rewrite !lift_bind
    | apply bind_ext; intros
    | match goal with
      | |- context [if ?b then _ else _] => destruct b
      | |- context [let '(_, _) := ?x in _] => destruct x
      end ].

(** *** Rectangle iterator *)

Lemma rect_step_forget volume mb info tent (it : TransferIteratorRect.t) :
  lift (fun s => ObsRect (forget_rect s)) (TransferIteratorRect.step volume mb info tent it)
  = lift (fun s => ObsRect (forget_rect s))
      (TransferIteratorRect.step volume mb info tent (forget_rect it)).
Proof.
  destruct it. unfold TransferIteratorRect.step, forget_rect, TransferIteratorRect.done.
  cbn [TransferIteratorRect.with_next TransferIteratorRect.DIM TransferIteratorRect.r
       TransferIteratorRect.p TransferIteratorRect.next_p TransferIteratorRect.inst_impl
       TransferIteratorRect.mapping TransferIteratorRect.field_offsets
       TransferIteratorRect.field_sizes TransferIteratorRect.field_idx
       TransferIteratorRect.next_idx TransferIteratorRect.tentative_valid].
  same_run.
Qed.

Lemma lift_lift {A B C} (f : A -> B) (g : B -> C) (x : result (Z * AddressInfo * A)) :
  lift g (lift f x) = lift (fun a => g (f a)) x.
Proof. destruct x as [[[? ?] ?]|]; reflexivity. Qed.

Lemma assert_Ok (b : bool) (u : unit) : assert b = Ok u -> b = true.
Proof. destruct b; [reflexivity | discriminate]. Qed.

(** A tentative step that hands out bytes leaves everything but the scratch
    members and the flag as it was. *)
Lemma rect_tentative_shape volume mb info bytes info1 (it it1 : TransferIteratorRect.t) :
  TransferIteratorRect.step volume mb info true it = Ok (bytes, info1, it1) ->
  bytes <> 0 ->
  TransferIteratorRect.tentative_valid it = false
  /\ exists np ni, it1 = TransferIteratorRect.with_next np ni true it.
Proof.
  intros Hstep Hbytes. unfold TransferIteratorRect.step in Hstep.
  apply bind_Ok in Hstep as (_ & _ & Hstep).
  apply bind_Ok in Hstep as (? & Htv & Hstep). apply assert_Ok in Htv.
  apply negb_true_iff in Htv. split; [exact Htv|].
  apply bind_Ok in Hstep as (fs & _ & Hstep).
  apply bind_Ok in Hstep as (_ & _ & Hstep).
  destruct (mb / fs =? 0); [injection Hstep as <- _ _; contradiction|].
  apply bind_Ok in Hstep as ([target cnt] & _ & Hstep).
  apply bind_Ok in Hstep as (m & _ & Hstep).
  destruct (image_dense_subrect m target) as [image act].
  apply bind_Ok in Hstep as (impl & _ & Hstep).
  apply bind_Ok in Hstep as (bp & _ & Hstep).
  apply bind_Ok in Hstep as ([act' cnt'] & _ & Hstep).
  apply bind_Ok in Hstep as (fo & _ & Hstep).
  injection Hstep as _ _ <-. eexists _, _. destruct it. reflexivity.
Qed.

Lemma rect_tentative_cancel volume mb info bytes info1
    (it it1 : TransferIteratorRect.t) :
  TransferIteratorRect.step volume mb info true it = Ok (bytes, info1, it1) ->
  bytes <> 0 ->
  exists it2,
    TransferIteratorRect.cancel_step it1 = Ok it2
    /\ forget_rect it2 = forget_rect it.
Proof.
  intros Hstep Hbytes.
  destruct (rect_tentative_shape _ _ _ _ _ _ _ Hstep Hbytes)
    as (Htv & np & ni & ->).
  eexists. split; [reflexivity|].
  destruct it. cbn in Htv. subst. reflexivity.
Qed.

(** *** Layout-based iterator *)

Lemma z_step_forget mb info tent (it : TransferIteratorZIndexSpace.t) :
  lift (fun s => ObsZIndexSpace (forget_z s))
    (TransferIteratorZIndexSpace.step mb info tent it)
  = lift (fun s => ObsZIndexSpace (forget_z s))
      (TransferIteratorZIndexSpace.step mb info tent (forget_z it)).
Proof.
  destruct it.
  unfold TransferIteratorZIndexSpace.step, forget_z, TransferIteratorZIndexSpace.done.
  cbn [TransferIteratorZIndexSpace.with_next TransferIteratorZIndexSpace.N
       TransferIteratorZIndexSpace.iter TransferIteratorZIndexSpace.cur_point
       TransferIteratorZIndexSpace.next_point TransferIteratorZIndexSpace.carry
       TransferIteratorZIndexSpace.inst_impl TransferIteratorZIndexSpace.inst_layout
       TransferIteratorZIndexSpace.fields TransferIteratorZIndexSpace.field_idx
       TransferIteratorZIndexSpace.extra_elems
       TransferIteratorZIndexSpace.tentative_valid].
  same_run.
Qed.

Lemma z_tentative_shape mb info bytes info1 (it it1 : TransferIteratorZIndexSpace.t) :
  TransferIteratorZIndexSpace.step mb info true it = Ok (bytes, info1, it1) ->
  bytes <> 0 ->
  TransferIteratorZIndexSpace.tentative_valid it = false
  /\ exists np c, it1 = TransferIteratorZIndexSpace.with_next np c true it.
Proof.
  intros Hstep Hbytes. unfold TransferIteratorZIndexSpace.step in Hstep.
  apply bind_Ok in Hstep as (_ & _ & Hstep).
  apply bind_Ok in Hstep as (? & Htv & Hstep). apply assert_Ok in Htv.
  apply negb_true_iff in Htv. split; [exact Htv|].
  apply bind_Ok in Hstep as (_ & _ & Hstep).
  apply bind_Ok in Hstep as (layout & _ & Hstep).
  apply bind_Ok in Hstep as (fid & _ & Hstep).
  apply bind_Ok in Hstep as (fl & _ & Hstep).
  apply bind_Ok in Hstep as (pieces & _ & Hstep).
  apply bind_Ok in Hstep as (piece & _ & Hstep).
  apply bind_Ok in Hstep as (_ & _ & Hstep).
  destruct (mb / _ =? 0); [injection Hstep as <- _ _; contradiction|].
  destruct piece as [bounds offset strides|]; [|discriminate].
  apply bind_Ok in Hstep as (g & _ & Hstep).
  apply bind_Ok in Hstep as (impl & _ & Hstep).
  injection Hstep as _ _ <-. eexists _, _. reflexivity.
Qed.

Lemma z_tentative_cancel mb info bytes info1 (it it1 : TransferIteratorZIndexSpace.t) :
  TransferIteratorZIndexSpace.step mb info true it = Ok (bytes, info1, it1) ->
  bytes <> 0 ->
  exists it2,
    TransferIteratorZIndexSpace.cancel_step it1 = Ok it2
    /\ forget_z it2 = forget_z it.
Proof.
  intros Hstep Hbytes.
  destruct (z_tentative_shape _ _ _ _ _ _ Hstep Hbytes) as (Htv & np & c & ->).
  eexists. split; [reflexivity|].
  destruct it. cbn in Htv. subst. reflexivity.
Qed.

(** *** Sparse iterator *)

Lemma find_from_found bits : forall pos s,
  ElementMask.find_from bits pos = Some s ->
  pos <= s /\ exists rest, skipn (Z.to_nat (s - pos)) bits = true :: rest.
Proof.
  induction bits as [|b bits IH]; intros pos s H; cbn in H; [discriminate|].
  destruct b.
  - injection H as <-. split; [lia|]. rewrite Z.sub_diag. cbn. eauto.
  - apply IH in H as (Hle & rest & Hrest). split; [lia|]. exists rest.
    replace (Z.to_nat (s - pos)) with (S (Z.to_nat (s - (pos + 1)))) by lia.
    exact Hrest.
Qed.

(** Scanning again from the start of the span just found finds the same
    span: what [cancel_step] relies on when it rewinds to [rewind_pos]. *)
Lemma next_span_rescan (m : ElementMask.t) (pos s l : Z) :
  ElementMask.next_span m pos = Some (s, l) ->
  ElementMask.next_span m s = Some (s, l).
Proof.
  unfold ElementMask.next_span. intros H.
  destruct (ElementMask.find_from _ _) as [s'|] eqn:Hfind; [|discriminate].
  injection H as -> <-.
  apply find_from_found in Hfind as (Hle & rest & Hrest).
  assert (Hs : 0 <= s) by lia.
  rewrite skipn_skipn in Hrest.
  replace (Z.to_nat (s - Z.max 0 pos) + Z.to_nat (Z.max 0 pos))%nat
    with (Z.to_nat s) in Hrest by lia.
  rewrite Z.max_r by lia. rewrite Hrest. cbn [ElementMask.find_from].
  rewrite <- Hrest. reflexivity.
Qed.

Lemma fetch_valid_mask_view (it it_f : TransferIteratorIndexSpace.t) :
  TransferIteratorIndexSpace.fetch_valid_mask it = Ok (it_f, false) ->
  view_index_space it_f = view_index_space it.
Proof.
  unfold TransferIteratorIndexSpace.fetch_valid_mask. intros H.
  destruct (negb _ && negb _) eqn:Hcond; [|injection H as <-; reflexivity].
  apply andb_true_iff in Hcond as [_ Hnone].
  apply negb_true_iff, bool_decide_eq_false in Hnone.
  apply bind_Ok in H as (? & Hready & H). apply assert_Ok in Hready.
  destruct (TransferIteratorIndexSpace.impl_valid_mask _) as [m|] eqn:Hm;
    [|discriminate].
  destruct (ElementMask.find_enabled m =? -1); [discriminate|].
  injection H as <-.
  destruct it as [impl vm fe en rw ii mp fo fs fi ni ex tv]. cbn in *.
  destruct vm as [vm|]; [exfalso; apply Hnone; eauto|].
  unfold view_index_space, effective_mask, upcoming, effective_mask. cbn.
  rewrite Hready, Hm. reflexivity.
Qed.

Lemma fetch_valid_mask_present (it : TransferIteratorIndexSpace.t) vm :
  TransferIteratorIndexSpace.valid_mask it = Some vm ->
  TransferIteratorIndexSpace.fetch_valid_mask it = Ok (it, false).
Proof.
  intros H. unfold TransferIteratorIndexSpace.fetch_valid_mask. rewrite H.
  rewrite bool_decide_eq_true_2 by eauto. rewrite andb_false_r. reflexivity.
Qed.

Lemma step_with_mask_tentative_shape mb info bytes info1
    (a a1 : TransferIteratorIndexSpace.t) :
  TransferIteratorIndexSpace.step_with_mask mb info true a = Ok (bytes, info1, a1) ->
  bytes <> 0 ->
  exists vm s l efin ni,
    TransferIteratorIndexSpace.tentative_valid a = false
    /\ TransferIteratorIndexSpace.valid_mask a = Some vm
    /\ ElementMask.next_span (ElementMask.mask (starting_enumerator a vm))
         (ElementMask.pos (starting_enumerator a vm)) = Some (s, l)
    /\ ElementMask.mask efin = ElementMask.mask (starting_enumerator a vm)
    /\ a1 = TransferIteratorIndexSpace.with_cursor (Some efin) s
              (TransferIteratorIndexSpace.field_idx a) ni true a.
Proof.
  intros Hstep Hbytes. unfold TransferIteratorIndexSpace.step_with_mask in Hstep.
  apply bind_Ok in Hstep as (_ & _ & Hstep).
  apply bind_Ok in Hstep as (? & Htv & Hstep). apply assert_Ok in Htv.
  apply negb_true_iff in Htv.
  apply bind_Ok in Hstep as (fs & _ & Hstep).
  apply bind_Ok in Hstep as (_ & _ & Hstep).
  destruct (mb / fs =? 0); [injection Hstep as <- _ _; contradiction|].
  apply bind_Ok in Hstep as (vm & Hvm & Hstep).
  destruct (TransferIteratorIndexSpace.valid_mask a) as [vm'|] eqn:Hvm';
    [|discriminate].
  injection Hvm as <-.
  fold (starting_enumerator a vm') in Hstep.
  unfold TransferIteratorIndexSpace.step_from, ElementMask.get_next in Hstep.
  destruct (ElementMask.next_span _ _) as [[s l]|] eqn:Hspan; [|discriminate].
  cbn [mbind result_bind] in Hstep.
  apply bind_Ok in Hstep as ([[span_len e] last_span] & Hmerge & Hstep).
  assert (He : ElementMask.mask e
               = ElementMask.mask (starting_enumerator a vm')).
  { destruct (l >? mb / fs).
    - injection Hmerge as _ <- _. reflexivity.
    - apply bind_Ok in Hmerge as ([len last] & _ & Hmerge).
      injection Hmerge as _ <- _. reflexivity. }
  apply bind_Ok in Hstep as (m & _ & Hstep).
  destruct (image_dense_subrect m _) as [image act].
  apply bind_Ok in Hstep as (_ & _ & Hstep).
  apply bind_Ok in Hstep as (impl & _ & Hstep).
  apply bind_Ok in Hstep as (bp & _ & Hstep).
  destruct (_ || _);
    apply bind_Ok in Hstep as (fo & _ & Hstep); injection Hstep as _ _ <-;
    eexists vm', s, l, _, _;
    (split; [exact Htv|]); (split; [reflexivity|]); (split; [exact Hspan|]);
    (split; [|reflexivity]); exact He.
Qed.

Lemma get_next_same_span (e' e0 : ElementMask.Enumerator) :
  ElementMask.mask e' = ElementMask.mask e0 ->
  ElementMask.next_span (ElementMask.mask e') (ElementMask.pos e')
    = ElementMask.next_span (ElementMask.mask e0) (ElementMask.pos e0) ->
  (ElementMask.get_next e' = ElementMask.get_next e0
   /\ is_Some (ElementMask.get_next e0).1)
  \/ ((ElementMask.get_next e').1 = None /\ (ElementMask.get_next e0).1 = None).
Proof.
  intros Hmask Hspan. unfold ElementMask.get_next. rewrite Hspan. clear Hspan.
  destruct (ElementMask.next_span _ _) as [[s l]|];
    [left | right; split; reflexivity].
  unfold ElementMask.set_pos. rewrite Hmask. split; [reflexivity | cbn; eauto].
Qed.

(** A step taken from a rewound enumerator is the step taken from the
    enumerator the cancelled step started with. *)
Lemma step_from_rewound (a : TransferIteratorIndexSpace.t) e' e0 fs me tent rw ni :
  ElementMask.mask e' = ElementMask.mask e0 ->
  ElementMask.next_span (ElementMask.mask e') (ElementMask.pos e')
    = ElementMask.next_span (ElementMask.mask e0) (ElementMask.pos e0) ->
  lift (fun s => ObsIndexSpace (view_index_space s))
    (TransferIteratorIndexSpace.step_from e' fs me tent
       (TransferIteratorIndexSpace.with_cursor (Some e') rw
          (TransferIteratorIndexSpace.field_idx a) ni
          (TransferIteratorIndexSpace.tentative_valid a) a))
  = lift (fun s => ObsIndexSpace (view_index_space s))
      (TransferIteratorIndexSpace.step_from e0 fs me tent a).
Proof.
  intros Hmask Hspan. unfold TransferIteratorIndexSpace.step_from.
  cbn [TransferIteratorIndexSpace.with_cursor
       TransferIteratorIndexSpace.is_impl TransferIteratorIndexSpace.valid_mask
       TransferIteratorIndexSpace.first_enabled TransferIteratorIndexSpace.enumerator
       TransferIteratorIndexSpace.rewind_pos TransferIteratorIndexSpace.inst_impl
       TransferIteratorIndexSpace.mapping TransferIteratorIndexSpace.field_offsets
       TransferIteratorIndexSpace.field_sizes TransferIteratorIndexSpace.field_idx
       TransferIteratorIndexSpace.next_idx TransferIteratorIndexSpace.extra_elems
       TransferIteratorIndexSpace.tentative_valid].
  destruct (get_next_same_span _ _ Hmask Hspan) as [[-> _] | [Hn' Hn0]].
  - destruct (ElementMask.get_next e0) as [next e1]. same_run.
  - destruct (ElementMask.get_next e') as [n' e1'], (ElementMask.get_next e0) as [n0 e1].
    cbn in Hn', Hn0. subst. reflexivity.
Qed.

Lemma view_rewound (a : TransferIteratorIndexSpace.t) vm e' rw ni :
  TransferIteratorIndexSpace.valid_mask a = Some vm ->
  ElementMask.mask e' = ElementMask.mask (starting_enumerator a vm) ->
  ElementMask.next_span (ElementMask.mask e') (ElementMask.pos e')
    = ElementMask.next_span (ElementMask.mask (starting_enumerator a vm))
        (ElementMask.pos (starting_enumerator a vm)) ->
  view_index_space
    (TransferIteratorIndexSpace.with_cursor (Some e') rw
       (TransferIteratorIndexSpace.field_idx a) ni
       (TransferIteratorIndexSpace.tentative_valid a) a)
  = view_index_space a.
Proof.
  intros Hvm Hmask Hspan.
  unfold view_index_space, upcoming, effective_mask. cbn. rewrite Hvm. cbn.
  rewrite Hspan, Hmask. unfold starting_enumerator.
  destruct (TransferIteratorIndexSpace.enumerator a); reflexivity.
Qed.

Lemma step_with_mask_rewound mb info tent (a : TransferIteratorIndexSpace.t)
    vm e' rw ni :
  TransferIteratorIndexSpace.valid_mask a = Some vm ->
  ElementMask.mask e' = ElementMask.mask (starting_enumerator a vm) ->
  ElementMask.next_span (ElementMask.mask e') (ElementMask.pos e')
    = ElementMask.next_span (ElementMask.mask (starting_enumerator a vm))
        (ElementMask.pos (starting_enumerator a vm)) ->
  lift (fun s => ObsIndexSpace (view_index_space s))
    (TransferIteratorIndexSpace.step_with_mask mb info tent
       (TransferIteratorIndexSpace.with_cursor (Some e') rw
          (TransferIteratorIndexSpace.field_idx a) ni
          (TransferIteratorIndexSpace.tentative_valid a) a))
  = lift (fun s => ObsIndexSpace (view_index_space s))
      (TransferIteratorIndexSpace.step_with_mask mb info tent a).
Proof.
  intros Hvm Hmask Hspan.
  pose proof (view_rewound a vm e' rw ni Hvm Hmask Hspan) as Hview.
  unfold TransferIteratorIndexSpace.step_with_mask,
    TransferIteratorIndexSpace.done.
  cbn [TransferIteratorIndexSpace.with_cursor
       TransferIteratorIndexSpace.is_impl TransferIteratorIndexSpace.valid_mask
       TransferIteratorIndexSpace.first_enabled TransferIteratorIndexSpace.enumerator
       TransferIteratorIndexSpace.rewind_pos TransferIteratorIndexSpace.inst_impl
       TransferIteratorIndexSpace.mapping TransferIteratorIndexSpace.field_offsets
       TransferIteratorIndexSpace.field_sizes TransferIteratorIndexSpace.field_idx
       TransferIteratorIndexSpace.next_idx TransferIteratorIndexSpace.extra_elems
       TransferIteratorIndexSpace.tentative_valid].
  do 2 (try rewrite !lift_bind; apply bind_ext; intros _; cbv beta).
  try rewrite !lift_bind. apply bind_ext. intros fs. cbv beta.
  try rewrite !lift_bind. apply bind_ext. intros _. cbv beta zeta.
  destruct (mb / fs =? 0).
  - cbn. rewrite Hview. reflexivity.
  - rewrite Hvm. cbn [of_option mbind result_bind].
    apply step_from_rewound; assumption.
Qed.

(** Two turns of the merge loop settle it: a second merge leaves the loop
    state as it was, so the loop would go on for ever, which is what running
    out of the budget stands for. *)
Lemma merge_spans_spins e s l ex me ps pl : forall n,
  ElementMask.peek_next e = Some (ps, pl) ->
  l = u64 (ps - s + pl) ->
  (u64 (ps - (s + l)) <=? ex) && (u64 (ps + pl - s) <=? me) = true ->
  TransferIteratorIndexSpace.merge_spans n e s l ex me = Err OutOfFuel.
Proof.
  induction n as [|n IH]; intros Hpeek Hl Hcond; [reflexivity|].
  cbn [TransferIteratorIndexSpace.merge_spans]. rewrite Hpeek, Hcond, <- Hl.
  apply IH; assumption.
Qed.

Lemma merge_spans_budget e s l ex me n :
  TransferIteratorIndexSpace.merge_spans
    (TransferIteratorIndexSpace.merge_budget + n) e s l ex me
  = TransferIteratorIndexSpace.merge_spans
      TransferIteratorIndexSpace.merge_budget e s l ex me.
Proof.
  unfold TransferIteratorIndexSpace.merge_budget.
  cbn [Nat.add TransferIteratorIndexSpace.merge_spans].
  destruct (ElementMask.peek_next e) as [[ps pl]|] eqn:Hpeek; [|reflexivity].
  destruct (_ && _); [|reflexivity].
  destruct ((u64 (ps - (s + u64 (ps - s + pl))) <=? ex)
            && (u64 (ps + pl - s) <=? me)) eqn:Hcond; [|reflexivity].
  apply merge_spans_spins with (ps := ps) (pl := pl); auto.
Qed.

Lemma index_space_tentative_cancel mb info bytes info1
    (it it1 : TransferIteratorIndexSpace.t) :
  TransferIteratorIndexSpace.step mb info true it = Ok (bytes, info1, it1) ->
  bytes <> 0 ->
  exists it2,
    TransferIteratorIndexSpace.cancel_step it1 = Ok it2
    /\ view_index_space it2 = view_index_space it
    /\ forall mb' info' tent',
         lift (fun s => ObsIndexSpace (view_index_space s))
           (TransferIteratorIndexSpace.step mb' info' tent' it2)
         = lift (fun s => ObsIndexSpace (view_index_space s))
             (TransferIteratorIndexSpace.step mb' info' tent' it).
Proof.
  intros Hstep Hbytes. unfold TransferIteratorIndexSpace.step in Hstep.
  apply bind_Ok in Hstep as ([it_f empty] & Hfetch & Hstep).
  destruct empty; [injection Hstep as <- _ _; contradiction|].
  destruct (step_with_mask_tentative_shape _ _ _ _ _ _ Hstep Hbytes)
    as (vm & s & l & efin & ni & Htv & Hvm & Hspan & Hmask & ->).
  set (e' := ElementMask.set_pos efin s).
  assert (Hspan' :
    ElementMask.next_span (ElementMask.mask e') (ElementMask.pos e')
    = ElementMask.next_span (ElementMask.mask (starting_enumerator it_f vm))
        (ElementMask.pos (starting_enumerator it_f vm))).
  { cbn. rewrite Hmask, Hspan. eapply next_span_rescan. exact Hspan. }
  exists (TransferIteratorIndexSpace.with_cursor (Some e') s
            (TransferIteratorIndexSpace.field_idx it_f) ni
            (TransferIteratorIndexSpace.tentative_valid it_f) it_f).
  split; [rewrite Htv; reflexivity|].
  split.
  - rewrite <- (fetch_valid_mask_view _ _ Hfetch).
    apply (view_rewound it_f vm e' s ni Hvm); [exact Hmask | exact Hspan'].
  - intros mb' info' tent'. unfold TransferIteratorIndexSpace.step.
    rewrite Hfetch.
    rewrite (fetch_valid_mask_present _ vm) by exact Hvm.
    cbn [mbind result_bind].
    apply (step_with_mask_rewound mb' info' tent' it_f vm e' s ni Hvm);
      [exact Hmask | exact Hspan'].
Qed.

(** *** All iterators *)

(** C4, as the claim has it, fails: with room for less than one element the
    tentative step returns 0 without becoming pending, and [cancel_step]
    then stops on its assertion. *)
Lemma tentative_cancel_below_one_element :
  done (OfRect grid_iter) = false
  /\ exists ti1,
       step grid_volume 3 grid_info true (OfRect grid_iter) = Ok (0, grid_info, ti1)
       /\ cancel_step ti1 = Err AssertFailed.
Proof. split; [reflexivity|]. eexists. split; reflexivity. Qed.

(** C4, amended.  When a tentative step of an iterator that is not done
    hands out a chunk (a byte count other than 0), [cancel_step] succeeds and
    leaves the iterator as a caller could tell it before the step: the
    position, the field index and the flag are restored, only the members
    that carry the outcome of the tentative step keep it, and the enumerator
    of the sparse iterator stands at the start of the span instead of
    somewhere in the gap before it.  Any step taken afterwards returns the
    byte count and address info it would have returned without the
    tentative step, and leaves the same iterator. *)
Theorem tentative_step_cancel (volume : Rect -> Z) (ti ti1 : t)
    (max_bytes : Z) (info info1 : AddressInfo) (bytes : Z) :
  done ti = false ->
  step volume max_bytes info true ti = Ok (bytes, info1, ti1) ->
  bytes <> 0 ->
  exists ti2,
    cancel_step ti1 = Ok ti2
    /\ observe ti2 = observe ti
    /\ forall max_bytes' info' tentative',
         observe_step (step volume max_bytes' info' tentative' ti2)
         = observe_step (step volume max_bytes' info' tentative' ti).
Proof.
  intros _ Hstep Hbytes. unfold observe_step.
  destruct ti as [it|it|it]; cbn [step] in Hstep;
    apply bind_Ok in Hstep as ([[b i] it1] & Hstep & Heq);
    injection Heq as -> -> <-.
  - destruct (rect_tentative_cancel _ _ _ _ _ _ _ Hstep Hbytes)
      as (it2 & Hcancel & Hforget).
    exists (OfRect it2).
    split; [cbn [cancel_step]; rewrite Hcancel; reflexivity|].
    split; [cbn [observe]; rewrite Hforget; reflexivity|].
    intros mb' info' tent'. cbn [step]. rewrite !lift_lift. cbn [observe].
    rewrite (rect_step_forget _ _ _ _ it2), (rect_step_forget _ _ _ _ it), Hforget.
    reflexivity.
  - destruct (index_space_tentative_cancel _ _ _ _ _ _ Hstep Hbytes)
      as (it2 & Hcancel & Hview & Hsteps).
    exists (OfIndexSpace it2).
    split; [cbn [cancel_step]; rewrite Hcancel; reflexivity|].
    split; [cbn [observe]; rewrite Hview; reflexivity|].
    intros mb' info' tent'. cbn [step]. rewrite !lift_lift. cbn [observe]. apply Hsteps.
  - destruct (z_tentative_cancel _ _ _ _ _ _ Hstep Hbytes)
      as (it2 & Hcancel & Hforget).
    exists (OfZIndexSpace it2).
    split; [cbn [cancel_step]; rewrite Hcancel; reflexivity|].
    split; [cbn [observe]; rewrite Hforget; reflexivity|].
    intros mb' info' tent'. cbn [step]. rewrite !lift_lift. cbn [observe].
    rewrite (z_step_forget _ _ _ it2), (z_step_forget _ _ _ it), Hforget.
    reflexivity.
Qed.

Lemma tentative_step_cancel_witness :
  exists ti2,
    cancel_step
      (OfRect (TransferIteratorRect.with_next [0; 1] 0 true grid_iter)) = Ok ti2
    /\ observe ti2 = observe (OfRect grid_iter)
    /\ forall max_bytes' info' tentative',
         observe_step (step grid_volume max_bytes' info' tentative' ti2)
         = observe_step (step grid_volume max_bytes' info' tentative'
                           (OfRect grid_iter)).
Proof.
  refine (tentative_step_cancel grid_volume (OfRect grid_iter) _ 100 grid_info
            _ 12 _ _ _).
  - reflexivity.
  - vm_compute. reflexivity.
  - discriminate.
Defined.

End TentativeSteps.

(** ** Copy plans *)

Section CopyPlans.
Import Transfer PlanNotions Examples.

(** *** Order of the keys *)

Lemma pair_ltb_irrefl a : pair_ltb a a = false.
Proof.
  unfold pair_ltb. rewrite !Z.ltb_irrefl, Z.eqb_refl. reflexivity.
Qed.

Lemma pair_lt_spec a b :
  pair_lt a b <-> a.1 < b.1 \/ (a.1 = b.1 /\ a.2 < b.2).
Proof.
  unfold pair_lt, pair_ltb.
  rewrite orb_true_iff, andb_true_iff, !Z.ltb_lt, Z.eqb_eq. reflexivity.
Qed.

Lemma pair_lt_trans a b c : pair_lt a b -> pair_lt b c -> pair_lt a c.
Proof. rewrite !pair_lt_spec. lia. Qed.

Lemma pair_ltb_total a b : pair_ltb a b = false -> pair_ltb b a = false -> a = b.
Proof.
  intros H1 H2.
  assert (N1 : ~ pair_lt a b) by (unfold pair_lt; congruence).
  assert (N2 : ~ pair_lt b a) by (unfold pair_lt; congruence).
  rewrite pair_lt_spec in N1, N2. destruct a, b. cbn in *. f_equal; lia.
Qed.

Lemma pair_lt_neq a b : pair_lt a b -> a <> b.
Proof. intros H ->. unfold pair_lt in H. rewrite pair_ltb_irrefl in H. discriminate. Qed.

Lemma pair_eqb_eq a b : pair_eqb a b = true <-> a = b.
Proof.
  unfold pair_eqb. rewrite andb_true_iff, !Z.eqb_eq. destruct a, b. cbn.
  split; [intros [-> ->]; reflexivity | intros [= -> ->]; auto].
Qed.

Lemma pair_eqb_refl a : pair_eqb a a = true.
Proof. apply pair_eqb_eq. reflexivity. Qed.

Lemma pair_eqb_neq a b : a <> b -> pair_eqb a b = false.
Proof.
  intros H. destruct (pair_eqb a b) eqn:E; [|reflexivity].
  apply pair_eqb_eq in E. contradiction.
Qed.

(** *** [std::map] as a sorted list *)

Lemma keys_sorted_cons {V} k (v : V) m :
  keys_sorted ((k, v) :: m) <->
  keys_sorted m /\ Forall (fun kv => pair_lt k kv.1) m.
Proof.
  unfold keys_sorted. cbn. split.
  - intros H. apply StronglySorted_inv in H as [Hs Hall]. split; [exact Hs|].
    rewrite Forall_map in Hall. exact Hall.
  - intros [Hs Hall]. constructor; [exact Hs|]. rewrite Forall_map. exact Hall.
Qed.

Lemma map_find_In {V} (m : list (HandlePair * V)) k v :
  keys_sorted m -> (map_find k m = Some v <-> In (k, v) m).
Proof.
  induction m as [|[k' v'] m IH]; intros Hs; cbn.
  - split; [discriminate | tauto].
  - apply keys_sorted_cons in Hs as [Hs Hall].
    destruct (pair_ltb k k') eqn:E1.
    + split; [discriminate|]. intros [[= -> ->] | Hin].
      * rewrite pair_ltb_irrefl in E1. discriminate.
      * rewrite List.Forall_forall in Hall. apply Hall in Hin. cbn in Hin.
        exfalso. apply (pair_lt_neq k k); [|reflexivity].
        eapply pair_lt_trans; eassumption.
    + destruct (pair_ltb k' k) eqn:E2.
      * rewrite (IH Hs). split; [tauto|]. intros [[= -> ->] | Hin]; [|exact Hin].
        rewrite pair_ltb_irrefl in E2. discriminate.
      * apply pair_ltb_total in E1 as ->; [|exact E2].
        split; [intros [= ->]; left; reflexivity|].
        intros [[= ->] | Hin]; [reflexivity|].
        rewrite List.Forall_forall in Hall. apply Hall in Hin. cbn in Hin.
        exfalso. exact (pair_lt_neq _ _ Hin eq_refl).
Qed.

Lemma map_update_In {V} (m : list (HandlePair * V)) k f k' v' :
  keys_sorted m ->
  In (k', v') (map_update k f m) <->
  (k' = k /\ v' = f (map_find k m)) \/ (k' <> k /\ In (k', v') m).
Proof.
  induction m as [|[k0 v0] m IH]; intros Hs; cbn.
  - split; [intros [[= <- <-] | []]; auto | intros [[-> ->] | [_ []]]; auto].
  - apply keys_sorted_cons in Hs as [Hs Hall].
    rewrite List.Forall_forall in Hall.
    destruct (pair_ltb k k0) eqn:E1; [|destruct (pair_ltb k0 k) eqn:E2].
    + cbn. split.
      * intros [[= <- <-] | [[= -> ->] | Hin]]; [auto | right | right].
        -- split; [|auto]. apply not_eq_sym, pair_lt_neq. exact E1.
        -- split; [|auto]. apply Hall in Hin. cbn in Hin.
           apply not_eq_sym, pair_lt_neq. eapply pair_lt_trans; eassumption.
      * intros [[-> ->] | [_ Hin]]; auto.
    + cbn. rewrite (IH Hs). split.
      * intros [[= -> ->] | [[-> ->] | [Hne Hin]]]; auto.
        right. split; [|auto]. apply pair_lt_neq. exact E2.
      * intros [[-> ->] | [Hne [[= -> ->] | Hin]]]; auto.
    + apply pair_ltb_total in E1 as ->; [|exact E2]. cbn. split.
      * intros [[= <- <-] | Hin]; [auto|]. right. split; [|auto].
        apply Hall in Hin. cbn in Hin. apply not_eq_sym, pair_lt_neq. exact Hin.
      * intros [[-> ->] | [Hne [[= -> ->] | Hin]]]; auto. contradiction.
Qed.

Lemma map_update_sorted {V} (m : list (HandlePair * V)) k f :
  keys_sorted m -> keys_sorted (map_update k f m).
Proof.
  induction m as [|[k0 v0] m IH]; intros Hs; cbn.
  - apply keys_sorted_cons. split; [constructor | constructor].
  - pose proof Hs as Hs0. apply keys_sorted_cons in Hs as [Hs Hall].
    destruct (pair_ltb k k0) eqn:E1; [|destruct (pair_ltb k0 k) eqn:E2].
    + apply keys_sorted_cons. split; [exact Hs0|].
      constructor; [exact E1|]. eapply List.Forall_impl; [|exact Hall].
      intros kv. apply pair_lt_trans. exact E1.
    + apply keys_sorted_cons. split; [apply IH, Hs|].
      rewrite List.Forall_forall. intros [k' v'] Hin. cbn.
      apply (map_update_In m k f k' v' Hs) in Hin as [[-> _] | [_ Hin]];
        [exact E2|].
      rewrite List.Forall_forall in Hall. exact (Hall _ Hin).
    + apply keys_sorted_cons. split; assumption.
Qed.

(** *** The two-level map of the planner *)

Lemma group_app mp ip gs e :
  group mp ip (gs ++ [e])
  = group mp ip gs
    ++ (if pair_eqb (e_mp e) mp && pair_eqb (e_ip e) ip then [e_oas e] else []).
Proof.
  unfold group. rewrite List.filter_app, map_app. cbn.
  destruct (_ && _); reflexivity.
Qed.

Lemma group_none mp ip gs :
  (forall e, In e gs -> entry_key e <> (mp, ip)) -> group mp ip gs = [].
Proof.
  unfold group. induction gs as [|e gs IH]; intros H; [reflexivity|]. cbn.
  destruct (pair_eqb (e_mp e) mp && pair_eqb (e_ip e) ip) eqn:E.
  - apply andb_true_iff in E as [E1 E2].
    apply pair_eqb_eq in E1, E2. exfalso. apply (H e); [left; reflexivity|].
    unfold entry_key. congruence.
  - apply IH. intros e' Hin. apply H. right. exact Hin.
Qed.

Lemma keys_sorted_nil {V} : keys_sorted (@nil (HandlePair * V)).
Proof. constructor. Qed.

Lemma add_entry_inv gs obm e :
  obm_inv gs obm -> obm_inv (gs ++ [e]) (add_entry obm e).
Proof.
  intros (Hsorted & Hinner & Hcontent & Hcover).
  set (mp := e_mp e). set (ip := e_ip e).
  set (obi0 := match map_find mp obm with Some obi => obi | None => [] end).
  assert (Hobi0 : keys_sorted obi0).
  { unfold obi0. destruct (map_find mp obm) as [obi|] eqn:Hfind;
      [|apply keys_sorted_nil].
    apply (map_find_In obm mp obi Hsorted) in Hfind. eapply Hinner, Hfind. }
  assert (Hobi0_in : forall ip' v', In (ip', v') obi0 -> In (mp, obi0) obm).
  { unfold obi0. intros ip' v'.
    destruct (map_find mp obm) as [obi|] eqn:Hfind; [|intros []].
    intros _. apply (map_find_In obm mp obi Hsorted). exact Hfind. }
  assert (Hin_add : forall mp' obi',
            In (mp', obi') (add_entry obm e) <->
            (mp' = mp /\ obi' = map_update ip (push_back_oas (e_oas e)) obi0)
            \/ (mp' <> mp /\ In (mp', obi') obm)).
  { intros mp' obi'. unfold add_entry, oas_by_mem_add.
    rewrite (map_update_In obm _ _ mp' obi' Hsorted). fold mp ip. unfold obi0.
    destruct (map_find mp obm); reflexivity. }
  split; [|split; [|split]].
  - apply map_update_sorted, Hsorted.
  - intros mp' obi' Hin. apply Hin_add in Hin as [[-> ->] | [_ Hin]].
    + apply map_update_sorted, Hobi0.
    + eapply Hinner, Hin.
  - intros mp' obi' ip' v' Hin Hin'. rewrite group_app. fold mp ip.
    apply Hin_add in Hin as [[-> ->] | [Hne Hin]].
    + rewrite pair_eqb_refl. cbn [andb].
      apply (map_update_In obi0 _ _ ip' v' Hobi0) in Hin' as [[-> ->] | [Hne Hin']].
      * rewrite pair_eqb_refl. split.
        -- destruct (map_find ip obi0) as [v0|] eqn:Hfind; cbn.
           ++ apply (map_find_In obi0 ip v0 Hobi0) in Hfind.
              destruct (Hcontent mp obi0 ip v0 (Hobi0_in _ _ Hfind) Hfind) as [-> _].
              reflexivity.
           ++ rewrite group_none; [reflexivity|].
              intros e0 He0 Hkey. destruct (Hcover e0 He0) as (obi & v & H1 & H2).
              unfold entry_key in Hkey. injection Hkey as Hmp Hip.
              rewrite Hmp in H1. rewrite Hip in H2.
              apply (map_find_In obm mp obi Hsorted) in H1.
              unfold obi0 in Hfind. rewrite H1 in Hfind.
              apply (map_find_In obm mp obi Hsorted) in H1.
              apply (map_find_In obi ip v (Hinner _ _ H1)) in H2. congruence.
        -- exists e. split; [apply in_or_app; right; left; reflexivity|].
           reflexivity.
      * rewrite (pair_eqb_neq ip ip') by congruence. rewrite app_nil_r.
        destruct (Hcontent mp obi0 ip' v' (Hobi0_in _ _ Hin') Hin')
          as [-> (e0 & He0 & Hkey)].
        split; [reflexivity|]. exists e0. split; [apply in_or_app; auto | exact Hkey].
    + rewrite (pair_eqb_neq mp mp') by congruence. cbn [andb]. rewrite app_nil_r.
      destruct (Hcontent mp' obi' ip' v' Hin Hin') as [-> (e0 & He0 & Hkey)].
      split; [reflexivity|]. exists e0. split; [apply in_or_app; auto | exact Hkey].
  - intros e0 He0.
    exists (if pair_eqb (e_mp e0) mp
            then map_update ip (push_back_oas (e_oas e)) obi0
            else match map_find (e_mp e0) obm with Some obi => obi | None => [] end).
    apply in_app_or in He0 as [He0 | [<- | []]].
    + destruct (Hcover e0 He0) as (obi & v & H1 & H2).
      destruct (pair_eqb (e_mp e0) mp) eqn:Emp.
      * apply pair_eqb_eq in Emp.
        assert (obi = obi0) as ->.
        { rewrite Emp in H1. apply (map_find_In obm mp obi Hsorted) in H1.
          unfold obi0. rewrite H1. reflexivity. }
        exists (if pair_eqb (e_ip e0) ip
                then push_back_oas (e_oas e) (map_find ip obi0) else v).
        split; [apply Hin_add; left; auto|].
        apply (map_update_In obi0 _ _ _ _ Hobi0).
        destruct (pair_eqb (e_ip e0) ip) eqn:Eip.
        -- apply pair_eqb_eq in Eip. left. auto.
        -- right. split; [|exact H2]. intros Heq. rewrite Heq, pair_eqb_refl in Eip.
           discriminate.
      * exists v.
        assert (Hne : e_mp e0 <> mp).
        { intros Heq. rewrite Heq, pair_eqb_refl in Emp. discriminate. }
        pose proof H1 as H1'.
        apply (map_find_In obm _ obi Hsorted) in H1'. rewrite H1'.
        split; [apply Hin_add; right; auto | exact H2].
    + fold mp ip. rewrite pair_eqb_refl.
      exists (push_back_oas (e_oas e) (map_find ip obi0)).
      split; [apply Hin_add; left; auto|].
      apply (map_update_In obi0 _ _ _ _ Hobi0). left. auto.
Qed.

Lemma fold_add_entry_inv l : forall gs obm,
  obm_inv gs obm -> obm_inv (gs ++ l) (fold_left add_entry l obm).
Proof.
  induction l as [|e l IH]; intros gs obm H; cbn.
  - rewrite app_nil_r. exact H.
  - replace (gs ++ e :: l) with ((gs ++ [e]) ++ l) by (rewrite <- app_assoc; reflexivity).
    apply IH, add_entry_inv, H.
Qed.

Lemma obm_inv_nil : obm_inv [] [].
Proof.
  split; [apply keys_sorted_nil|]. split; [intros ? ? []|].
  split; [intros ? ? ? ? []|intros ? []].
Qed.

(** *** From the map to the plans *)

Lemma in_flatten obm mp ip v :
  In ((mp, ip), v) (flatten obm) <->
  exists obi, In (mp, obi) obm /\ In (ip, v) obi.
Proof.
  unfold flatten. rewrite in_flat_map. split.
  - intros ([mp' obi] & Hin & Hin'). apply in_map_iff in Hin' as ([ip' v'] & Heq & Hin').
    injection Heq as -> -> ->. eauto.
  - intros (obi & Hin & Hin'). exists (mp, obi). split; [exact Hin|].
    apply in_map_iff. exists (ip, v). auto.
Qed.

Lemma plans_of_flatten obm :
  plans_of_oas_by_mem obm
  = map (fun kv : Key * OASVec => TransferPlanCopy [(kv.1.2, kv.2)]) (flatten obm).
Proof.
  unfold plans_of_oas_by_mem, flatten.
  induction obm as [|[mp obi] obm IH]; [reflexivity|]. cbn.
  rewrite map_app, IH, map_map. f_equal.
  apply map_ext. intros [ip v]. reflexivity.
Qed.

Lemma StronglySorted_app {A} (R : A -> A -> Prop) (l1 l2 : list A) :
  StronglySorted R l1 -> StronglySorted R l2 ->
  (forall x y, In x l1 -> In y l2 -> R x y) ->
  StronglySorted R (l1 ++ l2).
Proof.
  induction l1 as [|a l1 IH]; intros H1 H2 Hcross; [exact H2|]. cbn.
  apply StronglySorted_inv in H1 as [H1 Ha]. constructor.
  - apply IH; [exact H1 | exact H2 |]. intros x y Hx. apply Hcross. right. exact Hx.
  - apply Forall_app. split; [exact Ha|].
    apply List.Forall_forall. intros y Hy. apply Hcross; [left; reflexivity | exact Hy].
Qed.

Lemma flatten_sorted obm :
  keys_sorted obm ->
  (forall mp obi, In (mp, obi) obm -> keys_sorted obi) ->
  StronglySorted key_lt (map fst (flatten obm)).
Proof.
  induction obm as [|[mp obi] obm IH]; intros Hs Hinner; [constructor|].
  apply keys_sorted_cons in Hs as [Hs Hall].
  change (flatten ((mp, obi) :: obm))
    with (map (fun '(ip, v) => ((mp, ip), v)) obi ++ flatten obm).
  rewrite map_app. apply StronglySorted_app.
  - assert (Hobi : keys_sorted obi) by (apply (Hinner mp); left; reflexivity).
    clear -Hobi. induction obi as [|[ip v] obi IH]; [constructor|].
    apply keys_sorted_cons in Hobi as [Hobi Hall]. cbn. constructor; [apply IH, Hobi|].
    rewrite Forall_map, Forall_map. eapply List.Forall_impl; [|exact Hall].
    intros [ip' v'] Hlt. right. cbn. auto.
  - apply IH; [exact Hs|]. intros mp' obi' Hin. apply (Hinner mp'). right. exact Hin.
  - intros k1 k2 H1 H2.
    apply in_map_iff in H1 as ([[mp1 ip1] v1] & <- & H1).
    apply in_map_iff in H1 as ([ip1' v1'] & [= <- <- <-] & H1).
    apply in_map_iff in H2 as ([[mp2 ip2] v2] & <- & H2).
    apply in_flatten in H2 as (obi2 & H2 & _).
    left. cbn. rewrite List.Forall_forall in Hall. exact (Hall _ H2).
Qed.

(** The plans made from the map once the loop is over. *)
Lemma plans_of_oas_by_mem_spec gs obm :
  obm_inv gs obm ->
  exists keys,
    plans_of_oas_by_mem obm
    = map (fun k : Key => TransferPlanCopy [(k.2, group k.1 k.2 gs)]) keys
    /\ StronglySorted key_lt keys
    /\ (forall k, In k keys <-> exists e, In e gs /\ entry_key e = k).
Proof.
  intros (Hsorted & Hinner & Hcontent & Hcover).
  exists (map fst (flatten obm)). split; [|split].
  - rewrite plans_of_flatten, map_map. apply map_ext_in.
    intros [[mp ip] v] Hin. cbn.
    apply in_flatten in Hin as (obi & H1 & H2).
    destruct (Hcontent mp obi ip v H1 H2) as [-> _]. reflexivity.
  - apply flatten_sorted; assumption.
  - intros [mp ip]. rewrite in_map_iff. split.
    + intros ([[mp' ip'] v] & [= -> ->] & Hin).
      apply in_flatten in Hin as (obi & H1 & H2).
      destruct (Hcontent mp obi ip v H1 H2) as [_ He]. exact He.
    + intros (e & He & Hkey). destruct (Hcover e He) as (obi & v & H1 & H2).
      injection Hkey as <- <-. exists ((e_mp e, e_ip e), v).
      split; [reflexivity|]. apply in_flatten. eauto.
Qed.

(** *** The loop over the field lists *)

Lemma u32_small z : 0 <= z < 2 ^ 32 -> u32 z = z.
Proof. intros H. unfold u32. apply Z.mod_small, H. Qed.

Lemma sub_ok_advance f rest sub n :
  wf_field f -> sub_ok sub (f :: rest) -> 0 <= n <= size f - sub ->
  sub_ok (advance f rest sub n).2 (advance f rest sub n).1.
Proof.
  intros Hwf Hsub Hn. unfold advance.
  destruct (Z.eqb_spec (sub + n) (size f)); cbn.
  - destruct rest; cbn; auto.
  - cbn in Hsub. lia.
Qed.

Lemma advance_length f rest sub n :
  (length (advance f rest sub n).1 <= S (length rest))%nat
  /\ (sub + n = size f -> length (advance f rest sub n).1 = length rest).
Proof.
  unfold advance. destruct (Z.eqb_spec (sub + n) (size f)); cbn; split; lia.
Qed.

Lemma advance_wf f rest sub n :
  Forall wf_field (f :: rest) -> Forall wf_field (advance f rest sub n).1.
Proof.
  intros H. unfold advance. destruct (_ =? _); cbn; [|exact H].
  apply Forall_inv_tail in H. exact H.
Qed.

Lemma plan_copy_loop_walk rt : forall fuel srcs dsts ssub dsub plans obm,
  Forall wf_field srcs -> Forall wf_field dsts ->
  sub_ok ssub srcs -> sub_ok dsub dsts ->
  (length srcs + length dsts <= fuel)%nat ->
  exists es src_rest dst_rest,
    walk rt srcs dsts ssub dsub es src_rest dst_rest
    /\ plan_copy_loop fuel rt plans obm srcs dsts ssub dsub
       = Ok {| cl_plans := plans ++ serdez_plans es;
               cl_oas_by_mem := fold_left add_entry (grouped es) obm;
               cl_src_it := src_rest; cl_dst_it := dst_rest |}.
Proof.
  induction fuel as [|fuel IH]; intros srcs dsts ssub dsub plans obm
    Hwfs Hwfd Hss Hsd Hfuel.
  - exists [], srcs, dsts. split.
    + apply walk_stop. destruct srcs; [auto|]. destruct dsts; [auto|]. cbn in Hfuel. lia.
    + destruct srcs; [|destruct dsts; [|cbn in Hfuel; lia]];
        cbn; unfold serdez_plans; cbn; rewrite app_nil_r; reflexivity.
  - destruct srcs as [|s srcs].
    { exists [], [], dsts. split; [apply walk_stop; auto|].
      cbn. unfold serdez_plans. cbn. rewrite app_nil_r. reflexivity. }
    destruct dsts as [|d dsts].
    { exists [], (s :: srcs), []. split; [apply walk_stop; auto|].
      cbn. unfold serdez_plans. cbn. rewrite app_nil_r. reflexivity. }
    pose proof (Forall_inv Hwfs) as Hs. pose proof (Forall_inv Hwfd) as Hd.
    unfold wf_field in Hs, Hd. cbn in Hss, Hsd.
    set (n := Z.min (size s - ssub) (size d - dsub)).
    assert (Hn : 0 <= n /\ n <= size s - ssub /\ n <= size d - dsub
                 /\ (ssub + n = size s \/ dsub + n = size d)) by (unfold n; lia).
    destruct (IH (advance s srcs ssub n).1 (advance d dsts dsub n).1
                 (advance s srcs ssub n).2 (advance d dsts dsub n).2
                 (if has_serdez (entry rt s d ssub dsub)
                  then plans ++ [TransferPlanCopy
                                   [(e_ip (entry rt s d ssub dsub),
                                     [e_oas (entry rt s d ssub dsub)])]]
                  else plans)
                 (if has_serdez (entry rt s d ssub dsub) then obm
                  else add_entry obm (entry rt s d ssub dsub)))
      as (es & sr & dr & Hwalk & Hloop).
    { apply advance_wf, Hwfs. }
    { apply advance_wf, Hwfd. }
    { apply sub_ok_advance; [exact Hs | exact Hss | lia]. }
    { apply sub_ok_advance; [exact Hd | exact Hsd | lia]. }
    { destruct (advance_length s srcs ssub n) as [Hs1 Hs2].
      destruct (advance_length d dsts dsub n) as [Hd1 Hd2].
      cbn in Hfuel. destruct Hn as (_ & _ & _ & [Hx | Hx]);
        [rewrite (Hs2 Hx) | rewrite (Hd2 Hx)]; lia. }
    exists (entry rt s d ssub dsub :: es), sr, dr.
    split; [apply walk_emit; exact Hwalk|].
    cbn [plan_copy_loop oas_size oas_serdez_id].
    rewrite (u32_small (size s - ssub)), (u32_small (size d - dsub)) by lia.
    fold n. rewrite (u32_small (ssub + n)), (u32_small (dsub + n)) by lia.
    destruct (Z.leb_spec (ssub + n) (size s)) as [_|]; [|lia].
    destruct (Z.leb_spec (dsub + n) (size d)) as [_|]; [|lia].
    cbn [assert mbind result_bind].
    unfold advance in Hloop.
    assert (Hser : has_serdez (entry rt s d ssub dsub) = negb (serdez_id s =? 0))
      by reflexivity.
    unfold serdez_plans, grouped. cbn [List.filter]. rewrite Hser in Hloop |- *.
    change (oas_by_mem_add _ _ _ obm) with (add_entry obm (entry rt s d ssub dsub)).
    change (inst s, inst d) with (e_ip (entry rt s d ssub dsub)).
    change {| src_offset := u32 (offset s + ssub);
              dst_offset := u32 (offset d + dsub);
              oas_size := n; oas_serdez_id := serdez_id s |}
      with (e_oas (entry rt s d ssub dsub)).
    destruct (ssub + n =? size s), (dsub + n =? size d), (serdez_id s =? 0);
      cbn [fst snd negb map fold_left] in Hloop |- *;
      rewrite Hloop; unfold serdez_plans, grouped;
      rewrite <- ?app_assoc; reflexivity.
Qed.

(** The walk is a function of the two lists. *)
Lemma walk_deterministic rt srcs dsts ssub dsub es sr dr :
  walk rt srcs dsts ssub dsub es sr dr ->
  forall es' sr' dr', walk rt srcs dsts ssub dsub es' sr' dr' ->
  es' = es /\ sr' = sr /\ dr' = dr.
Proof.
  induction 1 as [srcs dsts ssub dsub Hend | s d srcs dsts ssub dsub es sr dr n Hw IH];
    intros es' sr' dr' Hw'.
  - inversion Hw'; subst; [auto|]. destruct Hend; discriminate.
  - inversion Hw' as [? ? ? ? Hend | ? ? ? ? ? ? es0 ? ? n0 Hw0]; subst.
    + destruct Hend; discriminate.
    + destruct (IH _ _ _ Hw0) as (-> & -> & ->). auto.
Qed.

Lemma walk_entries_keyed rt srcs dsts ssub dsub es sr dr :
  walk rt srcs dsts ssub dsub es sr dr ->
  Forall (fun e => e_mp e = (get_location rt (e_ip e).1, get_location rt (e_ip e).2)) es.
Proof. induction 1; constructor; [reflexivity | assumption]. Qed.

(** C2, as the claim has it, fails: two fields that share a memory pair but
    not an instance pair end up in two plans. *)
Lemma plan_copy_splits_memory_pair :
  plan_copy split_rt [] [split_field 1; split_field 2]
    [split_field 3; split_field 4] 0 false
  = Ok [TransferPlanCopy [((1, 3), [split_oas])];
        TransferPlanCopy [((2, 4), [split_oas])]]
  /\ ~ one_plan_per_memory_pair split_rt
        [TransferPlanCopy [((1, 3), [split_oas])];
         TransferPlanCopy [((2, 4), [split_oas])]].
Proof.
  split; [vm_compute; reflexivity|].
  intros H.
  specialize (H (1, 3) [split_oas] (2, 4) [split_oas]).
  assert (Hne : (1, 3) <> ((2, 4) : InstPair)) by discriminate.
  apply Hne, H; [left; reflexivity | right; left; reflexivity | reflexivity].
Qed.

(** C2, amended.  A copy without reduction walks the source and destination
    fields in parallel until a list runs out, emitting an entry of the
    smaller remainder each time and leaving behind whichever field that
    exhausts, and aborts unless both lists run out together.  An entry with
    a serdez id becomes a plan of its own; the other entries are grouped by
    memory pair and, inside a memory pair, by instance pair, and every
    instance pair becomes one plan, in the order of these keys. *)
Theorem plan_copy_plans (rt : Runtime) (plans : list TransferPlan)
    (srcs dsts : list CopySrcDstField) (red_fold : bool) :
  Forall wf_field srcs -> Forall wf_field dsts ->
  exists es src_rest dst_rest keys,
    walk rt srcs dsts 0 0 es src_rest dst_rest
    /\ StronglySorted key_lt keys
    /\ (forall k, In k keys <-> exists e, In e (grouped es) /\ entry_key e = k)
    /\ (forall k, In k keys ->
          k.1 = (get_location rt k.2.1, get_location rt k.2.2))
    /\ plan_copy rt plans srcs dsts 0 red_fold
       = match src_rest, dst_rest with
         | [], [] => Ok (plans ++ serdez_plans es ++ grouped_plans keys es)
         | _, _ => Err AssertFailed
         end.
Proof.
  intros Hwfs Hwfd.
  destruct (plan_copy_loop_walk rt (length srcs + length dsts) srcs dsts 0 0
              plans [] Hwfs Hwfd) as (es & sr & dr & Hwalk & Hloop).
  { destruct srcs; cbn; auto. }
  { destruct dsts; cbn; auto. }
  { lia. }
  pose proof (fold_add_entry_inv (grouped es) [] [] obm_inv_nil) as Hinv.
  cbn [app] in Hinv.
  destruct (plans_of_oas_by_mem_spec _ _ Hinv) as (keys & Hplans & Hsorted & Hkeys).
  exists es, sr, dr, keys. split; [exact Hwalk|]. split; [exact Hsorted|].
  split; [exact Hkeys|]. split.
  - intros k Hk. apply Hkeys in Hk as (e & He & <-).
    pose proof (walk_entries_keyed _ _ _ _ _ _ _ _ Hwalk) as Hkeyed.
    rewrite List.Forall_forall in Hkeyed. apply Hkeyed.
    unfold grouped in He. apply filter_In in He as [He _]. exact He.
  - unfold plan_copy. cbn [Z.eqb]. rewrite Hloop.
    cbn [mbind result_bind cl_src_it cl_dst_it cl_plans cl_oas_by_mem].
    destruct sr; [|reflexivity]. destruct dr; [|reflexivity].
    cbn [is_nil assert mbind result_bind].
    rewrite Hplans, <- app_assoc. reflexivity.
Qed.

Lemma plan_copy_plans_witness :
  exists es src_rest dst_rest keys,
    walk split_rt [split_field 1; split_field 2] [split_field 3; split_field 4]
      0 0 es src_rest dst_rest
    /\ StronglySorted key_lt keys
    /\ (forall k, In k keys <-> exists e, In e (grouped es) /\ entry_key e = k)
    /\ (forall k, In k keys ->
          k.1 = (get_location split_rt k.2.1, get_location split_rt k.2.2))
    /\ plan_copy split_rt [] [split_field 1; split_field 2]
         [split_field 3; split_field 4] 0 false
       = match src_rest, dst_rest with
         | [], [] => Ok ([] ++ serdez_plans es ++ grouped_plans keys es)
         | _, _ => Err AssertFailed
         end.
Proof.
  apply (plan_copy_plans split_rt [] [split_field 1; split_field 2]
           [split_field 3; split_field 4] false);
    repeat (apply List.Forall_cons; [unfold wf_field; cbn; lia|]);
    apply List.Forall_nil.
Defined.

End CopyPlans.

(** ** Whole copies and fills *)

Section WholeCopies.
Import Transfer PlanNotions TransferNotions Examples MoreExamples.

Lemma positive_wf l : Forall positive_size l -> Forall wf_field l.
Proof.
  apply List.Forall_impl. unfold positive_size, wf_field. intros f H. lia.
Qed.

(** What [plan_copy] returns for a copy without reduction, before the groups
    are told apart. *)
Lemma plan_copy_outcome rt plans srcs dsts red_fold :
  Forall wf_field srcs -> Forall wf_field dsts ->
  exists es src_rest dst_rest,
    walk rt srcs dsts 0 0 es src_rest dst_rest
    /\ plan_copy rt plans srcs dsts 0 red_fold
       = match src_rest, dst_rest with
         | [], [] =>
             Ok (plans ++ serdez_plans es
                 ++ plans_of_oas_by_mem (fold_left add_entry (grouped es) []))
         | _, _ => Err AssertFailed
         end.
Proof.
  intros Hwfs Hwfd.
  destruct (plan_copy_loop_walk rt (length srcs + length dsts) srcs dsts 0 0
              plans [] Hwfs Hwfd) as (es & sr & dr & Hwalk & Hloop).
  { destruct srcs; cbn; auto. }
  { destruct dsts; cbn; auto. }
  { lia. }
  exists es, sr, dr. split; [exact Hwalk|].
  unfold plan_copy. cbn [Z.eqb]. rewrite Hloop.
  cbn [mbind result_bind cl_src_it cl_dst_it cl_plans cl_oas_by_mem].
  destruct sr; [|reflexivity]. destruct dr; [|reflexivity].
  cbn [is_nil assert mbind result_bind].
  rewrite <- app_assoc. reflexivity.
Qed.

Lemma total_size_advance f rest sub n :
  total_size (advance f rest sub n).1 - (advance f rest sub n).2
  = total_size (f :: rest) - sub - n.
Proof.
  unfold advance. destruct (Z.eqb_spec (sub + n) (size f)); cbn; lia.
Qed.

Lemma advance_In f rest sub n g :
  In g (advance f rest sub n).1 -> In g (f :: rest).
Proof. unfold advance. destruct (_ =? _); cbn; auto. Qed.

Lemma sub_ok_bound sub f rest :
  wf_field f -> sub_ok sub (f :: rest) -> 0 <= sub <= size f.
Proof. unfold wf_field. cbn. lia. Qed.

(** The walk hands every byte of the fields it leaves behind to an entry. *)
Lemma walk_totals rt srcs dsts ssub dsub es sr dr :
  walk rt srcs dsts ssub dsub es sr dr ->
  Forall wf_field srcs -> Forall wf_field dsts ->
  sub_ok ssub srcs -> sub_ok dsub dsts ->
  exists ssub' dsub',
    sub_ok ssub' sr /\ sub_ok dsub' dr
    /\ (sr = [] \/ dr = [])
    /\ (forall f, In f sr -> In f srcs) /\ (forall f, In f dr -> In f dsts)
    /\ entries_bytes es + (total_size sr - ssub') = total_size srcs - ssub
    /\ entries_bytes es + (total_size dr - dsub') = total_size dsts - dsub.
Proof.
  induction 1 as [srcs dsts ssub dsub Hend
                 | s d srcs dsts ssub dsub es sr dr n Hwalk IH];
    intros Hwfs Hwfd Hss Hsd.
  - exists ssub, dsub. cbn. repeat split; auto; lia.
  - pose proof (sub_ok_bound _ _ _ (Forall_inv Hwfs) Hss) as Hbs.
    pose proof (sub_ok_bound _ _ _ (Forall_inv Hwfd) Hsd) as Hbd.
    assert (Hn : 0 <= n <= size s - ssub /\ n <= size d - dsub) by (subst n; lia).
    destruct IH as (ssub' & dsub' & Hs1 & Hs2 & Hend & Hin1 & Hin2 & Ht1 & Ht2).
    + apply advance_wf, Hwfs.
    + apply advance_wf, Hwfd.
    + apply sub_ok_advance; [exact (Forall_inv Hwfs) | exact Hss | lia].
    + apply sub_ok_advance; [exact (Forall_inv Hwfd) | exact Hsd | lia].
    + exists ssub', dsub'.
      split; [exact Hs1|]. split; [exact Hs2|]. split; [exact Hend|].
      split; [intros f Hf; eapply advance_In, Hin1, Hf|].
      split; [intros f Hf; eapply advance_In, Hin2, Hf|].
      rewrite total_size_advance in Ht1, Ht2.
      change (entries_bytes (entry rt s d ssub dsub :: es))
        with (n + entries_bytes es).
      lia.
Qed.

Lemma total_size_nonneg l : Forall wf_field l -> 0 <= total_size l.
Proof.
  induction 1 as [|f l Hf _ IH]; cbn; [lia|]. unfold wf_field in Hf. lia.
Qed.

(** A field list that is not used up has bytes left when no field is empty. *)
Lemma remainder_positive sub l :
  Forall positive_size l -> sub_ok sub l -> l <> [] -> 0 < total_size l - sub.
Proof.
  intros Hpos Hsub Hne. destruct l as [|f l]; [contradiction|].
  pose proof (total_size_nonneg l (positive_wf _ (Forall_inv_tail Hpos))).
  pose proof (Forall_inv Hpos) as Hf. unfold positive_size in Hf.
  cbn in *. lia.
Qed.

Lemma map_update_weight {V} (w : V -> Z) (k : HandlePair) (f : option V -> V)
    (m : list (HandlePair * V)) (n : Z) :
  w (f None) = n ->
  (forall v, w (f (Some v)) = w v + n) ->
  weight w (map_update k f m) = weight w m + n.
Proof.
  intros Hnone Hsome. induction m as [|[k' v] m IH]; cbn.
  - lia.
  - destruct (pair_ltb k k'); cbn; [lia|].
    destruct (pair_ltb k' k); cbn; [lia|].
    rewrite Hsome. lia.
Qed.

Lemma oas_bytes_push oas slot :
  oas_bytes (push_back_oas oas slot)
  = match slot with Some v => oas_bytes v | None => 0 end + oas_size oas.
Proof.
  destruct slot as [v|]; cbn; [|lia].
  induction v as [|o v IH]; cbn in *; lia.
Qed.

Lemma add_entry_bytes obm e :
  oas_by_mem_bytes (add_entry obm e)
  = oas_by_mem_bytes obm + oas_size (e_oas e).
Proof.
  unfold add_entry, oas_by_mem_add, oas_by_mem_bytes.
  apply (map_update_weight oas_by_inst_bytes).
  - unfold oas_by_inst_bytes.
    rewrite (map_update_weight oas_bytes _ _ [] (oas_size (e_oas e))).
    + reflexivity.
    + rewrite oas_bytes_push. lia.
    + intros v. rewrite oas_bytes_push. reflexivity.
  - intros obi. unfold oas_by_inst_bytes.
    apply (map_update_weight oas_bytes).
    + rewrite oas_bytes_push. lia.
    + intros v. rewrite oas_bytes_push. reflexivity.
Qed.

Lemma fold_add_entry_bytes gs : forall obm,
  oas_by_mem_bytes (fold_left add_entry gs obm)
  = oas_by_mem_bytes obm + entries_bytes gs.
Proof.
  induction gs as [|e gs IH]; intros obm; cbn [fold_left entries_bytes]; [lia|].
  rewrite IH, add_entry_bytes. lia.
Qed.

Lemma plans_bytes_app l1 l2 :
  plans_bytes (l1 ++ l2) = plans_bytes l1 + plans_bytes l2.
Proof. induction l1 as [|p l1 IH]; cbn; lia. Qed.

Lemma plans_of_oas_by_mem_bytes obm :
  plans_bytes (plans_of_oas_by_mem obm) = oas_by_mem_bytes obm.
Proof.
  unfold plans_of_oas_by_mem.
  induction obm as [|[mp obi] obm IH]; [reflexivity|].
  cbn [flat_map]. rewrite plans_bytes_app, IH.
  unfold oas_by_mem_bytes. cbn [weight]. f_equal.
  induction obi as [|[ip v] obi IHo]; [reflexivity|].
  cbn [map plans_bytes plan_bytes]. rewrite IHo.
  unfold oas_by_inst_bytes. cbn [weight]. lia.
Qed.

Lemma serdez_grouped_bytes es :
  plans_bytes (serdez_plans es) + entries_bytes (grouped es) = entries_bytes es.
Proof.
  unfold serdez_plans, grouped.
  induction es as [|e es IH]; [reflexivity|].
  cbn [List.filter]. destruct (has_serdez e); cbn in *; lia.
Qed.

(** Where the walk ends, by the totals of the two lists. *)
Lemma walk_end rt srcs dsts es sr dr :
  Forall positive_size srcs -> Forall positive_size dsts ->
  walk rt srcs dsts 0 0 es sr dr ->
  (total_size srcs = total_size dsts ->
   sr = [] /\ dr = [] /\ entries_bytes es = total_size srcs)
  /\ (total_size srcs <> total_size dsts -> sr <> [] \/ dr <> []).
Proof.
  intros Hps Hpd Hwalk.
  pose proof (positive_wf _ Hps) as Hwfs. pose proof (positive_wf _ Hpd) as Hwfd.
  destruct (walk_totals _ _ _ _ _ _ _ _ Hwalk Hwfs Hwfd)
    as (ssub' & dsub' & Hs1 & Hs2 & Hend & Hin1 & Hin2 & Ht1 & Ht2).
  { destruct srcs; cbn; auto. }
  { destruct dsts; cbn; auto. }
  assert (Hpsr : Forall positive_size sr).
  { rewrite List.Forall_forall in Hps |- *. auto. }
  assert (Hpdr : Forall positive_size dr).
  { rewrite List.Forall_forall in Hpd |- *. auto. }
  assert (Hrs : sr <> [] -> 0 < total_size sr - ssub')
    by (apply remainder_positive; assumption).
  assert (Hrd : dr <> [] -> 0 < total_size dr - dsub')
    by (apply remainder_positive; assumption).
  split.
  - intros Heq.
    destruct sr as [|s sr]; [destruct dr as [|d dr]|].
    + cbn in Hs1. cbn [total_size] in Ht1. repeat split. lia.
    + exfalso. cbn in Hs1. cbn [total_size] in Ht1.
      specialize (Hrd ltac:(discriminate)). lia.
    + exfalso. specialize (Hrs ltac:(discriminate)).
      destruct Hend as [Hend|Hend]; [discriminate|]. subst dr.
      cbn in Hs2. cbn [total_size] in Ht2. lia.
  - intros Hne.
    destruct sr as [|s sr]; [destruct dr as [|d dr]|].
    + exfalso. cbn in Hs1, Hs2. cbn [total_size] in Ht1, Ht2. lia.
    + right. discriminate.
    + left. discriminate.
Qed.

Lemma plan_copy_balanced rt plans srcs dsts red_fold :
  Forall positive_size srcs -> Forall positive_size dsts ->
  total_size srcs = total_size dsts ->
  exists es,
    plan_copy rt plans srcs dsts 0 red_fold
    = Ok (plans ++ serdez_plans es
          ++ plans_of_oas_by_mem (fold_left add_entry (grouped es) []))
    /\ entries_bytes es = total_size srcs.
Proof.
  intros Hps Hpd Heq.
  destruct (plan_copy_outcome rt plans srcs dsts red_fold
              (positive_wf _ Hps) (positive_wf _ Hpd))
    as (es & sr & dr & Hwalk & Hplan).
  destruct (proj1 (walk_end _ _ _ _ _ _ Hps Hpd Hwalk) Heq) as (-> & -> & Hbytes).
  exists es. auto.
Qed.

(** *** The bytes a copy moves *)

Lemma field_cells_split f from n :
  0 <= n -> 0 <= size f - from - n ->
  field_cells f from
  = ((fun k => (inst f, offset f + (from + k))) <$> seqZ 0 n)
    ++ field_cells f (from + n).
Proof.
  intros Hn Hrest. unfold field_cells.
  replace (size f - from) with (n + (size f - (from + n))) by lia.
  rewrite seqZ_app by lia. rewrite fmap_app. f_equal.
  rewrite <- (Z.add_0_r from) at 1. rewrite <- fmap_add_seqZ.
  rewrite <- list_fmap_compose. reflexivity.
Qed.

Lemma field_cells_end f : field_cells f (size f) = [].
Proof. unfold field_cells. rewrite seqZ_nil by lia. reflexivity. Qed.

(** The bytes of a field list, told by what [advance] leaves of it. *)
Lemma fields_cells_advance f rest sub n :
  0 <= n <= size f - sub ->
  fields_cells (f :: rest) sub
  = ((fun k => (inst f, offset f + (sub + k))) <$> seqZ 0 n)
    ++ fields_cells (advance f rest sub n).1 (advance f rest sub n).2.
Proof.
  intros Hn. cbn [fields_cells].
  rewrite (field_cells_split f sub n) by lia. rewrite <- app_assoc. f_equal.
  unfold advance. destruct (Z.eqb_spec (sub + n) (size f)) as [Heq|Hne];
    cbn [fst snd].
  - rewrite Heq, field_cells_end. destruct rest; reflexivity.
  - reflexivity.
Qed.

Lemma entry_moves rt s d ssub dsub :
  addressable s -> addressable d ->
  0 <= ssub < size s -> 0 <= dsub < size d ->
  let n := Z.min (size s - ssub) (size d - dsub) in
  zip ((fun k => (inst s, offset s + (ssub + k))) <$> seqZ 0 n)
      ((fun k => (inst d, offset d + (dsub + k))) <$> seqZ 0 n)
  = oas_moves (e_ip (entry rt s d ssub dsub)) (e_oas (entry rt s d ssub dsub)).
Proof.
  intros [Hs0 Hs1] [Hd0 Hd1] Hss Hsd n. unfold oas_moves, entry.
  cbn [e_ip e_oas src_offset dst_offset oas_size fst snd]. fold n.
  rewrite !u32_small by lia.
  rewrite zip_with_fmap_l, zip_with_fmap_r, zip_with_diag.
  apply list_fmap_ext. intros i k _. rewrite !Z.add_assoc. reflexivity.
Qed.

(** The entries of the walk move the bytes of the two lists in step. *)
Lemma walk_moves rt srcs dsts ssub dsub es sr dr :
  walk rt srcs dsts ssub dsub es sr dr ->
  Forall positive_size srcs -> Forall positive_size dsts ->
  Forall addressable srcs -> Forall addressable dsts ->
  sub_ok ssub srcs -> sub_ok dsub dsts ->
  zip (fields_cells srcs ssub) (fields_cells dsts dsub) = entries_moves es.
Proof.
  induction 1 as [srcs dsts ssub dsub Hend
                 | s d srcs dsts ssub dsub es sr dr n Hwalk IH];
    intros Hps Hpd Has Had Hss Hsd.
  - destruct Hend as [-> | ->]; [reflexivity|].
    cbn [fields_cells]. destruct (fields_cells srcs ssub); reflexivity.
  - pose proof (Forall_inv Hps) as Hs. pose proof (Forall_inv Hpd) as Hd.
    unfold positive_size in Hs, Hd.
    assert (Hbs : 0 <= ssub < size s) by (cbn in Hss; lia).
    assert (Hbd : 0 <= dsub < size d) by (cbn in Hsd; lia).
    assert (Hn : 0 < n /\ n <= size s - ssub /\ n <= size d - dsub)
      by (subst n; lia).
    rewrite (fields_cells_advance s srcs ssub n) by lia.
    rewrite (fields_cells_advance d dsts dsub n) by lia.
    etransitivity;
      [apply zip_with_app; rewrite !length_fmap, !length_seqZ; reflexivity|].
    cbn [entries_moves flat_map]. f_equal.
    + exact (entry_moves rt s d ssub dsub (Forall_inv Has) (Forall_inv Had)
               Hbs Hbd).
    + apply IH.
      * unfold advance. destruct (_ =? _); cbn [fst];
          [exact (Forall_inv_tail Hps) | exact Hps].
      * unfold advance. destruct (_ =? _); cbn [fst];
          [exact (Forall_inv_tail Hpd) | exact Hpd].
      * unfold advance. destruct (_ =? _); cbn [fst];
          [exact (Forall_inv_tail Has) | exact Has].
      * unfold advance. destruct (_ =? _); cbn [fst];
          [exact (Forall_inv_tail Had) | exact Had].
      * apply sub_ok_advance; [unfold wf_field; lia | exact Hss | lia].
      * apply sub_ok_advance; [unfold wf_field; lia | exact Hsd | lia].
Qed.

(** Updating a slot of a map adds to what the map stands for. *)
Lemma map_update_moves {V} (w : HandlePair -> V -> list Move) (k : HandlePair)
    (f : option V -> V) (m : list (HandlePair * V)) (extra : list Move) :
  w k (f None) ≡ₚ extra ->
  (forall v, w k (f (Some v)) ≡ₚ w k v ++ extra) ->
  flat_map (fun kv => w kv.1 kv.2) (map_update k f m)
  ≡ₚ flat_map (fun kv => w kv.1 kv.2) m ++ extra.
Proof.
  intros Hnone Hsome. induction m as [|[k' v] m IH]; cbn [map_update].
  - cbn. rewrite app_nil_r. exact Hnone.
  - destruct (pair_ltb k k') eqn:E1; [|destruct (pair_ltb k' k) eqn:E2].
    + cbn [flat_map fst snd]. rewrite Hnone. apply Permutation_app_comm.
    + cbn [flat_map fst snd]. rewrite IH, app_assoc. reflexivity.
    + rewrite (pair_ltb_total k k' E1 E2) in *.
      cbn [flat_map fst snd]. rewrite Hsome, <- !app_assoc.
      apply Permutation_app_head, Permutation_app_comm.
Qed.

Lemma push_back_moves ip oas slot :
  oas_vec_moves ip (push_back_oas oas slot)
  = match slot with Some v => oas_vec_moves ip v | None => [] end
    ++ oas_moves ip oas.
Proof.
  unfold oas_vec_moves. destruct slot as [v|]; cbn [push_back_oas].
  - rewrite flat_map_app. cbn. rewrite app_nil_r. reflexivity.
  - cbn. rewrite app_nil_r. reflexivity.
Qed.

Lemma add_entry_moves obm e :
  oas_by_mem_moves (add_entry obm e)
  ≡ₚ oas_by_mem_moves obm ++ oas_moves (e_ip e) (e_oas e).
Proof.
  assert (Hinner : forall obi,
            oas_by_inst_moves
              (map_update (e_ip e) (push_back_oas (e_oas e)) obi)
            ≡ₚ oas_by_inst_moves obi ++ oas_moves (e_ip e) (e_oas e)).
  { intros obi. unfold oas_by_inst_moves.
    apply (map_update_moves oas_vec_moves).
    - rewrite push_back_moves. reflexivity.
    - intros v. rewrite push_back_moves. reflexivity. }
  unfold add_entry, oas_by_mem_add, oas_by_mem_moves.
  apply (map_update_moves (fun _ obi => oas_by_inst_moves obi)).
  - rewrite Hinner. reflexivity.
  - intros obi. apply Hinner.
Qed.

Lemma fold_add_entry_moves gs : forall obm,
  oas_by_mem_moves (fold_left add_entry gs obm)
  ≡ₚ oas_by_mem_moves obm ++ entries_moves gs.
Proof.
  induction gs as [|e gs IH]; intros obm; cbn [fold_left entries_moves flat_map].
  - rewrite app_nil_r. reflexivity.
  - rewrite IH, add_entry_moves, <- app_assoc. reflexivity.
Qed.

Lemma plans_of_oas_by_mem_moves obm :
  plans_moves (plans_of_oas_by_mem obm) = oas_by_mem_moves obm.
Proof.
  unfold plans_of_oas_by_mem, plans_moves, oas_by_mem_moves.
  induction obm as [|[mp obi] obm IH]; [reflexivity|].
  cbn [flat_map snd]. rewrite flat_map_app, IH. f_equal.
  unfold oas_by_inst_moves.
  induction obi as [|[ip v] obi IHo]; [reflexivity|].
  cbn [map flat_map plan_moves fst snd]. rewrite IHo.
  unfold oas_by_inst_moves. cbn [flat_map fst snd]. rewrite app_nil_r.
  reflexivity.
Qed.

Lemma serdez_grouped_moves es :
  plans_moves (serdez_plans es) ++ entries_moves (grouped es)
  ≡ₚ entries_moves es.
Proof.
  unfold serdez_plans, grouped, plans_moves, entries_moves.
  induction es as [|e es IH]; [reflexivity|].
  cbn [List.filter flat_map]. destruct (has_serdez e);
    cbn [negb map flat_map plan_moves].
  - unfold oas_by_inst_moves, oas_vec_moves. cbn [flat_map fst snd].
    rewrite !app_nil_r, <- app_assoc. apply Permutation_app_head, IH.
  - rewrite <- IH, !app_assoc.
    apply Permutation_app_tail, Permutation_app_comm.
Qed.

(** A balanced copy, with the walk that gave its plans. *)
Lemma plan_copy_balanced_walk rt plans srcs dsts red_fold :
  Forall positive_size srcs -> Forall positive_size dsts ->
  total_size srcs = total_size dsts ->
  exists es,
    walk rt srcs dsts 0 0 es [] []
    /\ plan_copy rt plans srcs dsts 0 red_fold
       = Ok (plans ++ serdez_plans es
             ++ plans_of_oas_by_mem (fold_left add_entry (grouped es) []))
    /\ entries_bytes es = total_size srcs.
Proof.
  intros Hps Hpd Heq.
  destruct (plan_copy_outcome rt plans srcs dsts red_fold
              (positive_wf _ Hps) (positive_wf _ Hpd))
    as (es & sr & dr & Hwalk & Hplan).
  destruct (proj1 (walk_end _ _ _ _ _ _ Hps Hpd Hwalk) Heq) as (-> & -> & Hbytes).
  exists es. auto.
Qed.

(** X1.  A copy without reduction over fields none of which is empty is
    planned exactly when the source fields and the destination fields hold
    the same number of bytes.  The plans then move that many bytes, and
    they move every byte of every field once: the byte moves their entries
    stand for are, in some order, the moves of the i-th byte of the sources
    to the i-th byte of the destinations.  When the totals differ the
    planner stops on its assertion. *)
Theorem plan_copy_totals (rt : Runtime) (plans : list TransferPlan)
    (srcs dsts : list CopySrcDstField) (red_fold : bool) :
  Forall positive_size srcs -> Forall positive_size dsts ->
  (total_size srcs = total_size dsts ->
   exists new,
     plan_copy rt plans srcs dsts 0 red_fold = Ok (plans ++ new)
     /\ plans_bytes new = total_size srcs
     /\ (Forall addressable srcs -> Forall addressable dsts ->
         plans_moves new ≡ₚ byte_moves srcs dsts))
  /\ (total_size srcs <> total_size dsts ->
      plan_copy rt plans srcs dsts 0 red_fold = Err AssertFailed).
Proof.
  intros Hps Hpd. split.
  - intros Heq.
    destruct (plan_copy_balanced_walk rt plans srcs dsts red_fold Hps Hpd Heq)
      as (es & Hwalk & Hplan & Hbytes).
    eexists. split; [exact Hplan|]. split.
    + rewrite plans_bytes_app, plans_of_oas_by_mem_bytes, fold_add_entry_bytes.
      change (oas_by_mem_bytes []) with 0.
      pose proof (serdez_grouped_bytes es). lia.
    + intros Has Had. unfold byte_moves.
      rewrite (walk_moves rt srcs dsts 0 0 es [] [] Hwalk Hps Hpd Has Had).
      * unfold plans_moves. rewrite flat_map_app.
        fold (plans_moves (serdez_plans es)).
        fold (plans_moves (plans_of_oas_by_mem
                             (fold_left add_entry (grouped es) []))).
        rewrite plans_of_oas_by_mem_moves, fold_add_entry_moves.
        cbn [oas_by_mem_moves flat_map app].
        apply serdez_grouped_moves.
      * destruct srcs; cbn; auto.
      * destruct dsts; cbn; auto.
  - intros Hne.
    destruct (plan_copy_outcome rt plans srcs dsts red_fold
                (positive_wf _ Hps) (positive_wf _ Hpd))
      as (es & sr & dr & Hwalk & Hplan).
    rewrite Hplan.
    destruct (proj2 (walk_end _ _ _ _ _ _ Hps Hpd Hwalk) Hne) as [H|H].
    + destruct sr; [contradiction | reflexivity].
    + destruct sr; [|reflexivity]. destruct dr; [contradiction | reflexivity].
Qed.

Lemma plan_copy_totals_witness :
  exists new,
    plan_copy split_rt [] [wide_field 1] [split_field 3; split_field 4] 0 false
    = Ok ([] ++ new)
    /\ plans_bytes new = 8
    /\ plans_moves new ≡ₚ byte_moves [wide_field 1] [split_field 3; split_field 4].
Proof.
  destruct (proj1 (plan_copy_totals split_rt [] [wide_field 1]
                     [split_field 3; split_field 4] false
                     ltac:(repeat constructor) ltac:(repeat constructor))
              eq_refl) as (new & Hplan & Hbytes & Hmoves).
  exists new. split; [exact Hplan|]. split; [exact Hbytes|].
  apply Hmoves; repeat constructor; cbn; lia.
Defined.

(** Every plan of a copy holds one instance pair and something to copy. *)
Lemma serdez_plans_single es : Forall single_pair_plan (serdez_plans es).
Proof.
  unfold serdez_plans. apply Forall_map. apply List.Forall_forall.
  intros e _. exists (e_ip e), [e_oas e]. split; [reflexivity | discriminate].
Qed.

Lemma grouped_plans_single gs obm :
  obm_inv gs obm -> Forall single_pair_plan (plans_of_oas_by_mem obm).
Proof.
  intros Hinv.
  destruct (plans_of_oas_by_mem_spec gs obm Hinv) as (keys & -> & _ & Hkeys).
  apply Forall_map. apply List.Forall_forall. intros k Hk.
  apply Hkeys in Hk as (e & He & <-).
  eexists _, _. split; [reflexivity|].
  unfold entry_key, group. cbn [fst snd].
  intros Hnil.
  assert (Hin : In (e_oas e)
                  (map e_oas
                     (List.filter
                        (fun e0 => pair_eqb (e_mp e0) (e_mp e)
                                   && pair_eqb (e_ip e0) (e_ip e)) gs))).
  { apply in_map, filter_In. split; [exact He|].
    rewrite !pair_eqb_refl. reflexivity. }
  rewrite Hnil in Hin. exact Hin.
Qed.

Lemma execute_single_pair_plans rt plans :
  Forall single_pair_plan plans ->
  exists reqs,
    Domain.execute_plans rt plans = Ok reqs
    /\ Forall2 (fun p req => exists ip v,
                  p = TransferPlanCopy [(ip, v)] /\ v <> []
                  /\ req = copy_request rt ip) plans reqs.
Proof.
  induction 1 as [|p plans (ip & v & -> & Hv) _ (reqs & Hrun & Hall)].
  - exists []. split; [reflexivity | constructor].
  - exists (copy_request rt ip :: reqs). split.
    + cbn [Domain.execute_plans execute_plan copy_execute_plan].
      unfold copy_request.
      destruct (select_dma_node rt _ _ 0 false) as [log node].
      cbn [mbind result_bind fst snd]. rewrite Hrun. reflexivity.
    + constructor; [|exact Hall]. exists ip, v. auto.
Qed.

(** X2.  [Domain::copy] without reduction, over fields none of which is
    empty and whose totals agree, issues one request for every plan of
    [plan_copy], in the order of the plans; every plan holds a single
    instance pair with at least one entry, so no [execute_plan] stops on its
    assertion, and its request goes where [select_dma_node] sends that pair.
    A domain of more than three dimensions stops the copy before any
    planning. *)
Theorem domain_copy_requests (rt : Runtime) (d : Domain.t)
    (srcs dsts : list CopySrcDstField) (red_fold : bool) :
  Forall positive_size srcs -> Forall positive_size dsts ->
  total_size srcs = total_size dsts ->
  (0 <= Domain.get_dim d <= 3 ->
   exists plans reqs,
     plan_copy rt [] srcs dsts 0 red_fold = Ok plans
     /\ Domain.copy rt d srcs dsts 0 red_fold = Ok reqs
     /\ Forall2 (fun p req => exists ip v,
                   p = TransferPlanCopy [(ip, v)] /\ v <> []
                   /\ req = copy_request rt ip) plans reqs)
  /\ (Domain.get_dim d < 0 \/ 3 < Domain.get_dim d ->
      Domain.copy rt d srcs dsts 0 red_fold = Err AssertFailed).
Proof.
  intros Hps Hpd Heq.
  pose proof (positive_wf _ Hps) as Hwfs. pose proof (positive_wf _ Hpd) as Hwfd.
  split.
  - intros Hdim.
    destruct (plan_copy_balanced rt [] srcs dsts red_fold Hps Hpd Heq)
      as (es & Hok & _).
    cbn [app] in Hok.
    set (new := serdez_plans es
                ++ plans_of_oas_by_mem (fold_left add_entry (grouped es) [])) in *.
    assert (Hsingle : Forall single_pair_plan new).
    { apply Forall_app. split; [apply serdez_plans_single|].
      apply (grouped_plans_single (grouped es)).
      apply (fold_add_entry_inv (grouped es) [] [] obm_inv_nil). }
    destruct (execute_single_pair_plans rt new Hsingle) as (reqs & Hrun & Hall).
    exists new, reqs. split; [exact Hok|]. split; [|exact Hall].
    unfold Domain.copy, Domain.construct.
    assert (Hcases : Domain.get_dim d = 0 \/ Domain.get_dim d = 1
                     \/ Domain.get_dim d = 2 \/ Domain.get_dim d = 3) by lia.
    destruct Hcases as [-> | [-> | [-> | ->]]]; cbn [Z.eqb Pos.eqb mbind result_bind];
      rewrite Hok; cbn [mbind result_bind]; exact Hrun.
  - intros Hdim. unfold Domain.copy, Domain.construct.
    destruct (Z.eqb_spec (Domain.get_dim d) 0); [lia|].
    destruct (Z.eqb_spec (Domain.get_dim d) 1); [lia|].
    destruct (Z.eqb_spec (Domain.get_dim d) 2); [lia|].
    destruct (Z.eqb_spec (Domain.get_dim d) 3); [lia|].
    reflexivity.
Qed.

Lemma domain_copy_requests_witness :
  exists plans reqs,
    plan_copy split_rt [] [split_field 1; split_field 2]
      [split_field 3; split_field 4] 0 false = Ok plans
    /\ Domain.copy split_rt grid_domain [split_field 1; split_field 2]
         [split_field 3; split_field 4] 0 false = Ok reqs
    /\ Forall2 (fun p req => exists ip v,
                  p = TransferPlanCopy [(ip, v)] /\ v <> []
                  /\ req = copy_request split_rt ip) plans reqs.
Proof.
  refine (proj1 (domain_copy_requests split_rt grid_domain
                   [split_field 1; split_field 2]
                   [split_field 3; split_field 4] false _ _ eq_refl) _);
    [| | cbn; lia];
    repeat (apply List.Forall_cons; [unfold positive_size; cbn; lia|]);
    apply List.Forall_nil.
Defined.

End WholeCopies.

Section WholeFills.
Import Transfer PlanNotions TransferNotions Examples MoreExamples.

Lemma byte_slice_empty (buf : list Byte.byte) ofs : byte_slice buf ofs 0 = [].
Proof. reflexivity. Qed.

Lemma byte_slice_length (buf : list Byte.byte) ofs len :
  0 <= ofs -> 0 <= len -> ofs + len <= Z.of_nat (length buf) ->
  Z.of_nat (length (byte_slice buf ofs len)) = len.
Proof.
  intros Hofs Hlen Hfit. unfold byte_slice.
  rewrite length_firstn, length_skipn. lia.
Qed.

(** Fields without bytes take nothing from the fill value, wherever the
    offset stands. *)
Lemma plan_fill_loop_empty_fields fv : forall dsts plans ofs,
  let fvs := Z.of_nat (length fv) in
  Forall (fun f => size f = 0) dsts -> 0 <= ofs <= fvs -> fvs + 2 ^ 32 <= 2 ^ 64 ->
  plan_fill_loop plans dsts fv fvs ofs
  = ([], Ok (plans ++ map (fun f => TransferPlanFill [] (inst f) (offset f)) dsts)).
Proof.
  intros dsts plans ofs fvs Hzero. revert plans ofs.
  induction Hzero as [|f dsts Hf _ IH]; intros plans ofs Hofs Hfvs.
  - cbn. rewrite app_nil_r. reflexivity.
  - rewrite plan_fill_loop_step by (fold fvs; lia). fold fvs.
    rewrite Hf, Z.add_0_r.
    destruct (Z.gtb_spec ofs fvs); [lia|].
    rewrite byte_slice_empty.
    assert (Hsame : (if (ofs =? 0) && (0 =? fvs) then 0 else ofs) = ofs).
    { destruct (Z.eqb_spec ofs 0) as [->|]; [|reflexivity].
      destruct (0 =? fvs); reflexivity. }
    rewrite Hsame, IH by lia. cbn [map]. rewrite <- app_assoc. reflexivity.
Qed.

Lemma packed_fills_empty_fields fv dsts : forall ofs,
  Forall (fun f => size f = 0) dsts ->
  packed_fills fv ofs dsts
  = map (fun f => TransferPlanFill [] (inst f) (offset f)) dsts.
Proof.
  induction dsts as [|f dsts IH]; intros ofs Hzero; [reflexivity|].
  cbn [packed_fills map].
  rewrite (Forall_inv Hzero), byte_slice_empty, IH by exact (Forall_inv_tail Hzero).
  reflexivity.
Qed.

Lemma total_size_zero dsts :
  Forall wf_field dsts -> total_size dsts <= 0 -> Forall (fun f => size f = 0) dsts.
Proof.
  induction 1 as [|f dsts Hf Hwf IH]; intros Htotal; constructor.
  - pose proof (total_size_nonneg dsts Hwf). unfold wf_field in Hf.
    cbn [total_size] in Htotal. lia.
  - apply IH. unfold wf_field in Hf. cbn [total_size] in Htotal. lia.
Qed.

Lemma plan_fill_loop_packed fv : forall dsts plans ofs,
  let fvs := Z.of_nat (length fv) in
  Forall wf_field dsts -> 0 <= ofs -> ofs + total_size dsts <= fvs ->
  fvs + 2 ^ 32 <= 2 ^ 64 ->
  plan_fill_loop plans dsts fv fvs ofs = ([], Ok (plans ++ packed_fills fv ofs dsts)).
Proof.
  intros dsts plans ofs fvs Hwf. revert plans ofs.
  induction Hwf as [|f dsts Hf Hwf IH]; intros plans ofs Hofs Hfit Hfvs.
  - cbn. rewrite app_nil_r. reflexivity.
  - pose proof (total_size_nonneg dsts Hwf) as Hrest.
    unfold wf_field in Hf. cbn [total_size] in Hfit.
    rewrite plan_fill_loop_step by (fold fvs; lia). fold fvs.
    destruct (Z.gtb_spec (ofs + size f) fvs); [lia|].
    cbn [packed_fills].
    destruct ((ofs =? 0) && (size f =? fvs)) eqn:Hwhole.
    + apply andb_true_iff in Hwhole as [H0 Hall].
      apply Z.eqb_eq in H0, Hall.
      assert (Hzero : Forall (fun f => size f = 0) dsts)
        by (apply total_size_zero; [exact Hwf | lia]).
      rewrite plan_fill_loop_empty_fields by (fold fvs; auto; lia).
      rewrite packed_fills_empty_fields by exact Hzero.
      rewrite <- app_assoc. reflexivity.
    + rewrite IH by lia. rewrite <- app_assoc. reflexivity.
Qed.

Lemma plan_fill_loop_broadcast fv : forall dsts plans,
  let fvs := Z.of_nat (length fv) in
  Forall (fun f => size f = fvs) dsts -> fvs < 2 ^ 32 ->
  plan_fill_loop plans dsts fv fvs 0 = ([], Ok (plans ++ broadcast_fills fv dsts)).
Proof.
  intros dsts plans fvs Hall. revert plans.
  induction Hall as [|f dsts Hf _ IH]; intros plans Hfvs.
  - cbn. rewrite app_nil_r. reflexivity.
  - rewrite plan_fill_loop_step by (fold fvs; lia). fold fvs.
    rewrite Hf, Z.add_0_l.
    destruct (Z.gtb_spec fvs fvs); [lia|].
    rewrite !Z.eqb_refl. cbn [andb].
    unfold fvs at 1. rewrite byte_slice_all.
    rewrite IH by exact Hfvs.
    unfold broadcast_fills. cbn [map]. rewrite <- app_assoc. reflexivity.
Qed.

(** X3.  The two ways a fill value serves a list of fields.  A value that
    holds at least the bytes of all fields is read as a packed struct: field
    after field takes the next slice of its own size.  A value of exactly
    the size of every field is handed whole to each of them.  Either way
    there is one fill plan for every field, in order, aimed at the instance
    and offset of the field. *)
Theorem plan_fill_modes (plans : list TransferPlan) (dsts : list CopySrcDstField)
    (fill_value : list Byte.byte) :
  let fvs := Z.of_nat (length fill_value) in
  Forall wf_field dsts -> fvs + 2 ^ 32 <= 2 ^ 64 ->
  (total_size dsts <= fvs ->
   plan_fill plans dsts fill_value
   = ([], Ok (plans ++ packed_fills fill_value 0 dsts)))
  /\ (Forall (fun f => size f = fvs) dsts ->
      plan_fill plans dsts fill_value
      = ([], Ok (plans ++ broadcast_fills fill_value dsts))).
Proof.
  intros fvs Hwf Hfvs. unfold plan_fill. fold fvs. split.
  - intros Hfit. apply plan_fill_loop_packed; [exact Hwf | lia | lia | exact Hfvs].
  - intros Hall. destruct dsts as [|f dsts].
    + cbn. rewrite app_nil_r. reflexivity.
    + apply plan_fill_loop_broadcast; [exact Hall|].
      pose proof (Forall_inv Hwf) as Hf. pose proof (Forall_inv Hall) as Hsz.
      unfold wf_field in Hf. cbn beta in Hsz. lia.
Qed.

Lemma plan_fill_modes_witness :
  plan_fill [] [fill_field 1; fill_field 2] wide_fill_bytes
  = ([], Ok ([] ++ packed_fills wide_fill_bytes 0 [fill_field 1; fill_field 2])).
Proof.
  refine (proj1 (plan_fill_modes [] [fill_field 1; fill_field 2] wide_fill_bytes
                   _ _) _).
  - repeat (apply List.Forall_cons; [unfold wf_field; cbn; lia|]).
    apply List.Forall_nil.
  - cbn. lia.
  - cbn. lia.
Defined.

(** The plans of a fill that went through, whatever the offsets were. *)
Lemma plan_fill_loop_shape fv : forall dsts plans ofs log out,
  let fvs := Z.of_nat (length fv) in
  Forall wf_field dsts -> 0 <= ofs <= fvs -> fvs + 2 ^ 32 <= 2 ^ 64 ->
  plan_fill_loop plans dsts fv fvs ofs = (log, Ok out) ->
  log = [] /\ exists new, out = plans ++ new /\ Forall2 fills_field dsts new.
Proof.
  intros dsts plans ofs log out fvs Hwf. revert plans ofs.
  induction Hwf as [|f dsts Hf Hwf IH]; intros plans ofs Hofs Hfvs Hrun.
  - cbn in Hrun. injection Hrun as <- <-. split; [reflexivity|].
    exists []. rewrite app_nil_r. split; [reflexivity | constructor].
  - unfold wf_field in Hf.
    rewrite plan_fill_loop_step in Hrun by (fold fvs; lia). fold fvs in Hrun.
    destruct (Z.gtb_spec (ofs + size f) fvs); [discriminate|].
    apply IH in Hrun as (-> & new & -> & Hall); [| |exact Hfvs].
    + split; [reflexivity|]. eexists. rewrite <- app_assoc. split; [reflexivity|].
      constructor; [|exact Hall].
      eexists. split; [reflexivity|]. apply byte_slice_length; lia.
    + destruct ((ofs =? 0) && (size f =? fvs)); lia.
Qed.

Lemma execute_fill_plans rt : forall dsts plans,
  Forall2 fills_field dsts plans ->
  Domain.execute_plans rt plans
  = Ok (map (fun f => ([], dispatch_to rt (instance_owner_node rt (inst f)))) dsts).
Proof.
  induction 1 as [|f p dsts plans (data & -> & _) _ IH]; [reflexivity|].
  cbn [Domain.execute_plans execute_plan fill_execute_plan mbind result_bind map].
  rewrite IH. reflexivity.
Qed.

(** X4.  [Domain::fill] issues one fill request for every destination field,
    in order; the request of a field carries as many bytes as the field is
    wide and is run on the node that owns the instance of the field.  When
    the fill value runs short nothing is issued: the fatal line of the
    planner is all there is. *)
Theorem domain_fill_requests (rt : Runtime) (d : Domain.t)
    (dsts : list CopySrcDstField) (fill_value : list Byte.byte) :
  0 <= Domain.get_dim d <= 3 ->
  Forall wf_field dsts -> Z.of_nat (length fill_value) + 2 ^ 32 <= 2 ^ 64 ->
  match plan_fill [] dsts fill_value with
  | (log, Ok plans) =>
      Forall2 fills_field dsts plans
      /\ Domain.fill rt d dsts fill_value
         = ([], Ok (map (fun f => ([], dispatch_to rt
                                         (instance_owner_node rt (inst f)))) dsts))
  | (log, Err e) => Domain.fill rt d dsts fill_value = (log, Err e)
  end.
Proof.
  intros Hdim Hwf Hfvs.
  assert (Hcons : exists td, Domain.construct d = Ok td).
  { unfold Domain.construct.
    assert (Hcases : Domain.get_dim d = 0 \/ Domain.get_dim d = 1
                     \/ Domain.get_dim d = 2 \/ Domain.get_dim d = 3) by lia.
    destruct Hcases as [-> | [-> | [-> | ->]]]; cbn; eauto. }
  destruct Hcons as (td & Hcons).
  unfold Domain.fill. rewrite Hcons.
  destruct (plan_fill [] dsts fill_value) as [log [plans|e]] eqn:Hplan;
    [|reflexivity].
  unfold plan_fill in Hplan.
  apply plan_fill_loop_shape in Hplan as (-> & new & -> & Hall);
    [|exact Hwf | lia | exact Hfvs].
  cbn [app] in *. split; [exact Hall|].
  cbn [mbind result_bind]. rewrite (execute_fill_plans rt dsts new Hall).
  reflexivity.
Qed.

Lemma domain_fill_requests_witness :
  Forall2 fills_field [fill_field 1; fill_field 2]
    [TransferPlanFill fill_bytes 1 0; TransferPlanFill fill_bytes 2 0]
  /\ Domain.fill reduce_rt grid_domain [fill_field 1; fill_field 2] fill_bytes
     = ([], Ok [([], LocalOperation); ([], LocalOperation)]).
Proof.
  refine (domain_fill_requests reduce_rt grid_domain [fill_field 1; fill_field 2]
            fill_bytes _ _ _).
  - cbn. lia.
  - repeat (apply List.Forall_cons; [unfold wf_field; cbn; lia|]).
    apply List.Forall_nil.
  - cbn. lia.
Defined.

End WholeFills.

(** ** Rectangles in layout order *)

Section LayoutOrder.
Import TransferIteratorRect Examples MoreExamples.

Lemma for_range_total {St} (P : nat -> St -> Prop) (body : nat -> St -> result St) :
  forall count first s,
    P first s ->
    (forall d st, (first <= d < first + count)%nat -> P d st ->
       exists st', body d st = Ok st' /\ P (S d) st') ->
    exists s', for_range first count body s = Ok s' /\ P (first + count)%nat s'.
Proof.
  induction count as [|count IH]; intros first s H0 Hstep.
  - exists s. rewrite Nat.add_0_r. split; [reflexivity | exact H0].
  - destruct (Hstep first s ltac:(lia) H0) as (s1 & Hbody & H1).
    destruct (IH (S first) s1 H1) as (s' & Hrun & Hend).
    { intros d st Hd. apply Hstep. lia. }
    exists s'. cbn [for_range]. rewrite Hbody. cbn [mbind result_bind].
    split; [exact Hrun|].
    replace (first + S count)%nat with (S first + count)%nat by lia. exact Hend.
Qed.

Lemma box_volume_insert (d k : nat) (a b : Point) (v : Z) :
  (d <= k)%nat -> box_volume d a (<[k := v]> b) = box_volume d a b.
Proof.
  induction d as [|d IH]; intros Hk; [reflexivity|].
  cbn [box_volume]. rewrite IH by lia. rewrite coord_insert_ne by lia. reflexivity.
Qed.

Lemma box_volume_same (d : nat) (a b b' : Point) :
  (forall d', (d' < d)%nat -> coord b d' = coord b' d') ->
  box_volume d a b = box_volume d a b'.
Proof.
  induction d as [|d IH]; intros H; [reflexivity|].
  cbn [box_volume]. rewrite IH by (intros; apply H; lia). rewrite H by lia.
  reflexivity.
Qed.

Lemma box_volume_lo_same (d : nat) (a a' b : Point) :
  (forall d', (d' < d)%nat -> coord a d' = coord a' d') ->
  box_volume d a b = box_volume d a' b.
Proof.
  induction d as [|d IH]; intros H; [reflexivity|].
  cbn [box_volume]. rewrite IH by (intros; apply H; lia). rewrite H by lia.
  reflexivity.
Qed.

Lemma box_volume_pos (d : nat) (a b : Point) :
  (forall d', (d' < d)%nat -> coord a d' <= coord b d') ->
  1 <= box_volume d a b.
Proof.
  induction d as [|d IH]; intros H; cbn [box_volume]; [lia|].
  specialize (IH ltac:(intros; apply H; lia)).
  specialize (H d ltac:(lia)). nia.
Qed.

Lemma box_volume_grows (d dim : nat) (a b : Point) :
  (forall d', (d' < dim)%nat -> coord a d' <= coord b d') ->
  (d <= dim)%nat -> box_volume d a b <= box_volume dim a b.
Proof.
  intros H. induction 1 as [|dim' Hle IH]; [lia|].
  cbn [box_volume].
  specialize (IH ltac:(intros; apply H; lia)).
  pose proof (box_volume_pos d a b ltac:(intros; apply H; lia)).
  specialize (H dim' ltac:(lia)). nia.
Qed.

Lemma box_volume_le (d : nat) (a b b' : Point) :
  (forall d', (d' < d)%nat -> coord a d' <= coord b d' <= coord b' d') ->
  box_volume d a b <= box_volume d a b'.
Proof.
  induction d as [|d IH]; intros H; cbn [box_volume]; [lia|].
  specialize (IH ltac:(intros; apply H; lia)).
  pose proof (box_volume_pos d a b ltac:(intros d' Hd'; apply (H d'); lia)).
  specialize (H d ltac:(lia)). nia.
Qed.

Lemma to_coord_t_small z : - 2 ^ 63 <= z < 2 ^ 63 -> to_coord_t z = z.
Proof.
  intros H. unfold to_coord_t, u64.
  destruct (Z_lt_le_dec z 0).
  - replace (z mod 2 ^ 64) with (z + 2 ^ 64).
    + destruct (Z.ltb_spec (z + 2 ^ 64) (2 ^ 63)); lia.
    + apply (Z.mod_unique _ _ (-1)); lia.
  - rewrite Z.mod_small by lia. destruct (Z.ltb_spec z (2 ^ 63)); lia.
Qed.

(** One turn of the growth loop keeps the target inside the rectangle and
    inside the budget. *)
Lemma grow_dim_bounds dim r p max_elems d st :
  in_rect dim r p -> box_volume dim p (hi r) < 2 ^ 64 -> 1 <= max_elems < 2 ^ 64 ->
  (d < dim)%nat ->
  grow_bounds dim r p max_elems d st ->
  exists st', grow_dim r p max_elems d st = Ok st'
              /\ grow_bounds dim r p max_elems (S d) st'.
Proof.
  intros Hin Hvol Hmax Hd (Hlen & Hbox & Hcount & Hrange).
  destruct (Hin d Hd) as (Hlo_min & Hlo & Hhi & Hhi_max).
  set (len := coord (hi r) d - coord p d + 1).
  assert (Hple : forall d', (d' < dim)%nat -> coord p d' <= coord (hi r) d')
    by (intros d' Hd'; destruct (Hin d' Hd'); lia).
  assert (Hprefix : g_count st <= box_volume d p (hi r)).
  { rewrite Hcount. apply box_volume_le. intros d' Hd'. apply Hbox, Hd'. }
  assert (Hnext : box_volume (S d) p (hi r) <= box_volume dim p (hi r))
    by (apply box_volume_grows; [exact Hple | lia]).
  cbn [box_volume] in Hnext. fold len in Hnext.
  assert (Hlen1 : 1 <= len) by (unfold len; lia).
  assert (Hprod : g_count st * len < 2 ^ 64) by nia.
  assert (Hlen64 : len < 2 ^ 64) by nia.
  assert (Hkeep : forall v d', (d' < d)%nat ->
            coord p d' <= coord (<[d := v]> (g_hi st)) d'
            /\ coord (<[d := v]> (g_hi st)) d' <= coord (hi r) d').
  { intros v d' Hd'. rewrite coord_insert_ne by lia. apply Hbox, Hd'. }
  assert (Hstep : forall v g c,
            coord p d <= v <= coord (hi r) d ->
            c = g_count st * (v - coord p d + 1) -> c <= max_elems ->
            grow_bounds dim r p max_elems (S d)
              {| g_hi := <[d := v]> (g_hi st); g_grow := g; g_count := c |}).
  { intros v g c Hv -> Hc. unfold grow_bounds. cbn [g_hi g_grow g_count].
    split; [rewrite length_insert; exact Hlen|]. split; [|split].
    - intros d' Hd'. destruct (Nat.eq_dec d' d) as [->|Hne].
      + rewrite coord_insert_eq by lia. lia.
      + apply Hkeep. lia.
    - cbn [box_volume]. rewrite box_volume_insert by lia.
      rewrite coord_insert_eq by lia. rewrite Hcount. reflexivity.
    - nia. }
  unfold grow_dim. fold len. destruct (g_grow st).
  - rewrite (u64_small len) by lia. rewrite (u64_small (g_count st * len)) by nia.
    destruct (Z.leb_spec (g_count st * len) max_elems) as [Hfit|Hcut].
    + eexists. split; [reflexivity|]. apply Hstep; [lia | unfold len; lia | lia].
    + destruct (Z.eqb_spec (g_count st) 0); [lia|].
      set (actlen := max_elems / g_count st).
      assert (Hact : 1 <= actlen < len).
      { unfold actlen. split.
        - apply Z.div_le_lower_bound; lia.
        - apply Z.div_lt_upper_bound; lia. }
      assert (Hmul : g_count st * actlen <= max_elems)
        by (unfold actlen; apply Z.mul_div_le; lia).
      destruct (Z.geb_spec actlen 1); [|lia].
      cbn [assert mbind result_bind].
      rewrite to_coord_t_small by (unfold len in Hact; lia).
      rewrite u64_small by nia.
      eexists. split; [reflexivity|].
      apply Hstep; [unfold len in Hact; lia | f_equal; lia | lia].
  - eexists. split; [reflexivity|]. apply Hstep; [lia | lia | lia].
Qed.

Lemma grow_loop_bounds dim r p max_elems :
  in_rect dim r p -> box_volume dim p (hi r) < 2 ^ 64 -> 1 <= max_elems < 2 ^ 64 ->
  exists st,
    for_range 0 dim (grow_dim r p max_elems)
      {| g_hi := replicate dim 0; g_grow := true; g_count := 1 |} = Ok st
    /\ grow_bounds dim r p max_elems dim st.
Proof.
  intros Hin Hvol Hmax.
  apply (for_range_total (grow_bounds dim r p max_elems)).
  - unfold grow_bounds. cbn [g_hi g_count box_volume].
    split; [apply length_replicate|]. split; [intros; lia|]. split; lia.
  - intros d st Hd Hinv. apply grow_dim_bounds; auto. lia.
Qed.

(** X5.  The subrectangle a step of the rectangle iterator would like to
    hand out, for an iterator that stands inside its rectangle and a budget
    of at least one element: it starts at the current point, stays inside
    the rectangle, and holds [count] points, at least one and no more than
    the budget allows.  The loop never stops on its assertion. *)
Theorem target_subrect_bounds (dim : nat) (r : Rect) (p : Point) (max_elems : Z) :
  in_rect dim r p -> box_volume dim p (hi r) < 2 ^ 64 -> 1 <= max_elems < 2 ^ 64 ->
  exists target count,
    target_subrect dim r p max_elems = Ok (target, count)
    /\ lo target = p
    /\ (forall d, (d < dim)%nat ->
          coord p d <= coord (hi target) d <= coord (hi r) d)
    /\ count = box_volume dim (lo target) (hi target)
    /\ 1 <= count <= max_elems.
Proof.
  intros Hin Hvol Hmax.
  destruct (grow_loop_bounds dim r p max_elems Hin Hvol Hmax)
    as (st & Hloop & Hlen & Hbox & Hcount & Hrange).
  exists {| lo := p; hi := g_hi st |}, (g_count st).
  unfold target_subrect. rewrite Hloop. cbn [mbind result_bind lo hi].
  split; [reflexivity|]. split; [reflexivity|].
  split; [intros d Hd; destruct (Hbox d Hd); lia|].
  split; [exact Hcount | exact Hrange].
Qed.

Lemma grid_in_rect : in_rect 2 grid [1; 0].
Proof.
  intros d Hd. destruct d as [|[|d]]; [cbn; lia | cbn; lia | lia].
Qed.

Lemma target_subrect_bounds_witness :
  exists target count,
    target_subrect 2 grid [1; 0] 5 = Ok (target, count)
    /\ lo target = [1; 0]
    /\ (forall d, (d < 2)%nat ->
          coord [1; 0] d <= coord (hi target) d <= coord (hi grid) d)
    /\ count = box_volume 2 (lo target) (hi target)
    /\ 1 <= count <= 5.
Proof.
  apply (target_subrect_bounds 2 grid [1; 0] 5).
  - exact grid_in_rect.
  - cbn. lia.
  - lia.
Defined.

(** *** The point after a subrectangle *)

Lemma carry_loop_snoc r sub : forall count first st,
  carry_loop r sub first (S count) st
  = carry_dim r sub (first + count) (carry_loop r sub first count st).
Proof.
  induction count as [|count IH]; intros first st.
  - cbn. rewrite Nat.add_0_r. reflexivity.
  - change (carry_loop r sub first (S (S count)) st)
      with (carry_loop r sub (S first) (S count) (carry_dim r sub first st)).
    rewrite IH. cbn [carry_loop].
    replace (S first + count)%nat with (first + S count)%nat by lia. reflexivity.
Qed.

Lemma linear_index_insert (d k : nat) (r : Rect) (pt : Point) (v : Z) :
  (d <= k)%nat -> linear_index d r (<[k := v]> pt) = linear_index d r pt.
Proof.
  induction d as [|d IH]; intros Hk; [reflexivity|].
  cbn [linear_index]. rewrite IH by lia. rewrite coord_insert_ne by lia. reflexivity.
Qed.

(** The dimensions below [d] are covered from end to end, or one of them is
    not. *)
Lemma covered_or_not (r : Rect) (p h : Point) (d : nat) :
  (forall d', (d' < d)%nat ->
     coord p d' = coord (lo r) d' /\ coord h d' = coord (hi r) d')
  \/ (exists d0, (d0 < d)%nat /\ partially_handled r p h d0).
Proof.
  induction d as [|d [IH|(d0 & Hd0 & Hpart)]].
  - left. intros; lia.
  - destruct (Z.eq_dec (coord p d) (coord (lo r) d)) as [Hp|Hp];
      [destruct (Z.eq_dec (coord h d) (coord (hi r) d)) as [Hh|Hh]|].
    + left. intros d' Hd'. destruct (Nat.eq_dec d' d) as [->|]; [auto|].
      apply IH. lia.
    + right. exists d. split; [lia|]. right. exact Hh.
    + right. exists d. split; [lia|]. left. exact Hp.
  - right. exists d0. split; [lia | exact Hpart].
Qed.

Lemma covered_linear_index (r : Rect) (p : Point) (d : nat) :
  (forall d', (d' < d)%nat -> coord p d' = coord (lo r) d') ->
  linear_index d r p = 0.
Proof.
  induction d as [|d IH]; intros H; [reflexivity|].
  cbn [linear_index]. rewrite IH by (intros; apply H; lia).
  rewrite H by lia. lia.
Qed.

Lemma covered_box_volume (r : Rect) (p h : Point) (d : nat) :
  (forall d', (d' < d)%nat ->
     coord p d' = coord (lo r) d' /\ coord h d' = coord (hi r) d') ->
  box_volume d p h = box_volume d (lo r) (hi r).
Proof.
  intros H.
  rewrite (box_volume_same d p h (hi r)) by (intros; apply H; assumption).
  apply box_volume_lo_same. intros. apply H. assumption.
Qed.

Lemma carry_dim_inv dim r p h d c :
  in_rect dim r p ->
  (forall d', (d' < dim)%nat -> coord p d' <= coord h d' <= coord (hi r) d') ->
  layout_ordered dim r p h ->
  (d < dim)%nat ->
  carry_inv dim r p h d c ->
  carry_inv dim r p h (S d) (carry_dim r {| lo := p; hi := h |} d c).
Proof.
  intros Hin Hh Hord Hd (Hlen & Hon & Hoff).
  destruct (Hin d Hd) as (_ & Hlo & _ & _). destruct (Hh d Hd) as [Hph Hhr].
  set (V := box_volume d (lo r) (hi r)).
  unfold carry_dim. cbn [lo hi]. destruct (c_carry c) eqn:Hcarry.
  - destruct (Hon eq_refl) as (Hfull & Hsum). clear Hon Hoff.
    destruct (Z.eqb_spec (coord h d) (coord (hi r) d)) as [Heq|Hne];
      unfold carry_inv; cbn [c_next c_carry];
      (split; [rewrite length_insert; exact Hlen|]).
    + split; [|intros; discriminate]. intros _. split.
      * intros d' Hd'. destruct (Nat.eq_dec d' d) as [->|].
        -- rewrite coord_insert_eq by lia. auto.
        -- rewrite coord_insert_ne by lia. apply Hfull. lia.
      * cbn [linear_index box_volume]. fold V. rewrite Heq.
        destruct (covered_or_not r p h d) as [Hcov|(d0 & Hd0 & Hpart)].
        -- rewrite covered_linear_index by (intros; apply Hcov; assumption).
           rewrite (covered_box_volume r p h d Hcov). fold V. lia.
        -- rewrite <- Heq. rewrite (Hord d0 d) by (auto; lia).
           fold V in Hsum. lia.
    + split; [intros; discriminate|].
      intros _. split; [exists d; split; [lia | exact Hne]|]. split.
      * cbn [linear_index box_volume]. fold V.
        rewrite linear_index_insert by lia.
        rewrite coord_insert_eq by lia.
        rewrite (covered_linear_index r (c_next c) d)
          by (intros; apply Hfull; assumption).
        destruct (covered_or_not r p h d) as [Hcov|(d0 & Hd0 & Hpart)].
        -- rewrite covered_linear_index by (intros; apply Hcov; assumption).
           rewrite (covered_box_volume r p h d Hcov). fold V. lia.
        -- rewrite (Hord d0 d) by (auto; lia). fold V in Hsum. lia.
      * intros d' Hd'. destruct (Nat.eq_dec d' d) as [->|].
        -- rewrite coord_insert_eq by lia. lia.
        -- rewrite coord_insert_ne by lia.
           destruct (Hfull d' ltac:(lia)) as [_ ->].
           destruct (Hin d' ltac:(lia)). lia.
  - destruct (Hoff eq_refl) as ((d0 & Hd0 & Hshort) & Hsum & Hrange).
    clear Hon Hoff.
    unfold carry_inv; cbn [c_next c_carry].
    split; [rewrite length_insert; exact Hlen|].
    split; [intros; discriminate|]. intros _.
    split; [exists d0; split; [lia | exact Hshort]|].
    assert (Hflat : coord h d = coord p d).
    { apply (Hord d0 d); [lia|]. right. exact Hshort. }
    split.
    + cbn [linear_index box_volume]. fold V.
      rewrite linear_index_insert by lia. rewrite coord_insert_eq by lia.
      rewrite Hsum, Hflat. lia.
    + intros d' Hd'. destruct (Nat.eq_dec d' d) as [->|].
      * rewrite coord_insert_eq by lia. lia.
      * rewrite coord_insert_ne by lia. apply Hrange. lia.
Qed.

Lemma carry_loop_inv dim r p h :
  in_rect dim r p ->
  (forall d', (d' < dim)%nat -> coord p d' <= coord h d' <= coord (hi r) d') ->
  layout_ordered dim r p h ->
  forall d, (d <= dim)%nat ->
    carry_inv dim r p h d
      (carry_loop r {| lo := p; hi := h |} 0 d
         {| c_next := replicate dim 0; c_carry := true |}).
Proof.
  intros Hin Hh Hord. induction d as [|d IH]; intros Hd.
  - cbn [carry_loop]. unfold carry_inv. cbn [c_next c_carry linear_index box_volume].
    split; [apply length_replicate|]. split; [|intros; discriminate].
    intros _. split; [intros; lia | lia].
  - rewrite carry_loop_snoc. cbn [Nat.add].
    apply carry_dim_inv; auto. apply IH. lia.
Qed.

(** The loop carries as long as the subrectangle reaches the high bound. *)
Lemma carry_reaches_corner dim r sub : forall d, (d <= dim)%nat ->
  c_carry (carry_loop r sub 0 d {| c_next := replicate dim 0; c_carry := true |})
  = true
  <-> forall d', (d' < d)%nat -> coord (hi sub) d' = coord (hi r) d'.
Proof.
  induction d as [|d IH]; intros Hd.
  - cbn. split; [intros; lia | reflexivity].
  - rewrite carry_loop_snoc. cbn [Nat.add]. specialize (IH ltac:(lia)).
    unfold carry_dim at 1.
    destruct (c_carry (carry_loop r sub 0 d _)) eqn:Hc.
    + destruct (Z.eqb_spec (coord (hi sub) d) (coord (hi r) d)) as [Heq|Hne];
        cbn [c_carry].
      * split; [|reflexivity]. intros _ d' Hd'.
        destruct (Nat.eq_dec d' d) as [->|]; [exact Heq|].
        apply IH; [reflexivity | lia].
      * split; [discriminate|]. intros H. exfalso. apply Hne, H. lia.
    + cbn [c_carry]. split; [discriminate|]. intros H.
      apply IH. intros d' Hd'. apply H. lia.
Qed.

Lemma next_point_after_target (dim : nat) (r : Rect) (p : Point)
    (max_elems : Z) (target : Rect) (count : Z) :
  in_rect dim r p -> box_volume dim p (hi r) < 2 ^ 64 -> 1 <= max_elems < 2 ^ 64 ->
  target_subrect dim r p max_elems = Ok (target, count) ->
  let c := next_point_after dim r target in
  if c_carry c
  then linear_index dim r p + count = box_volume dim (lo r) (hi r)
       /\ forall d, (d < dim)%nat -> coord (c_next c) d = coord (lo r) d
  else linear_index dim r (c_next c) = linear_index dim r p + count
       /\ in_rect dim r (c_next c).
Proof.
  intros Hin Hvol Hmax Htarget.
  destruct (target_subrect_shape dim r p max_elems target count Htarget)
    as (Hlo & Hshape).
  destruct (grow_loop_bounds dim r p max_elems Hin Hvol Hmax)
    as (st & Hloop & Hlen & Hbox & Hcount & Hrange).
  unfold target_subrect in Htarget. rewrite Hloop in Htarget.
  cbn [mbind result_bind] in Htarget. injection Htarget as <- <-.
  cbn [lo hi] in Hshape.
  assert (Hord : layout_ordered dim r p (g_hi st)).
  { intros d d' Hd Hpart. apply (Hshape d d' Hd Hpart). }
  pose proof (carry_loop_inv dim r p (g_hi st) Hin Hbox Hord dim (le_n _))
    as (Hclen & Hon & Hoff).
  unfold next_point_after. cbn zeta.
  destruct (c_carry _) eqn:Hcarry.
  - destruct (Hon eq_refl) as (Hfull & Hsum). split.
    + rewrite Hcount. exact Hsum.
    + intros d Hd. apply Hfull, Hd.
  - destruct (Hoff eq_refl) as (_ & Hsum & Hnext). split.
    + rewrite Hcount. exact Hsum.
    + intros d Hd. destruct (Hin d Hd). specialize (Hnext d Hd). lia.
Qed.

(** X6.  The point after the target subrectangle of a step.  Counting the
    points of the rectangle with dimension 0 running fastest, the next point
    is the one [count] places after the current point; and when there is no
    such point, because the target took all that was left of the rectangle,
    the loop carries all the way (the field is finished) and the next point
    is the low corner again. *)
Theorem next_point_in_layout_order (dim : nat) (r : Rect) (p : Point)
    (max_elems : Z) (target : Rect) (count : Z) :
  in_rect dim r p -> box_volume dim p (hi r) < 2 ^ 64 -> 1 <= max_elems < 2 ^ 64 ->
  target_subrect dim r p max_elems = Ok (target, count) ->
  let c := next_point_after dim r target in
  (c_carry c = false ->
   linear_index dim r (c_next c) = linear_index dim r p + count
   /\ in_rect dim r (c_next c))
  /\ (c_carry c = true ->
      linear_index dim r p + count = box_volume dim (lo r) (hi r)
      /\ forall d, (d < dim)%nat -> coord (c_next c) d = coord (lo r) d)
  /\ (c_carry c = true <->
      forall d, (d < dim)%nat -> coord (hi target) d = coord (hi r) d).
Proof.
  intros Hin Hvol Hmax Htarget c.
  pose proof (next_point_after_target dim r p max_elems target count
                Hin Hvol Hmax Htarget) as Hnext.
  cbn zeta in Hnext. fold c in Hnext.
  split; [intros Hc; rewrite Hc in Hnext; exact Hnext|].
  split; [intros Hc; rewrite Hc in Hnext; exact Hnext|].
  pose proof (carry_reaches_corner dim r target dim (le_n _)) as Hcorner.
  exact Hcorner.
Qed.

Lemma next_point_in_layout_order_witness :
  linear_index 2 grid
    (c_next (next_point_after 2 grid {| lo := [1; 0]; hi := [3; 0] |}))
  = linear_index 2 grid [1; 0] + 3
  /\ in_rect 2 grid
       (c_next (next_point_after 2 grid {| lo := [1; 0]; hi := [3; 0] |})).
Proof.
  refine (proj1 (next_point_in_layout_order 2 grid [1; 0] 5
                   {| lo := [1; 0]; hi := [3; 0] |} 3 grid_in_rect _ _ eq_refl)
            eq_refl).
  - cbn. lia.
  - lia.
Defined.

End LayoutOrder.

(** ** The chunk of a step *)

Section RectChunks.
Import TransferIteratorRect Examples.

Lemma partially_handled_insert (r : Rect) (p h : Point) (k d : nat) (v : Z) :
  d <> k ->
  partially_handled r p (<[k := v]> h) d <-> partially_handled r p h d.
Proof.
  intros Hne. unfold partially_handled. rewrite coord_insert_ne by lia.
  reflexivity.
Qed.

Lemma grown_to_insert (r : Rect) (p h : Point) (max_elems : Z) (k d : nat)
    (v : Z) :
  (d < k)%nat ->
  grown_to r p h max_elems d -> grown_to r p (<[k := v]> h) max_elems d.
Proof.
  intros Hk Hgrown Hbelow. cbn zeta.
  rewrite box_volume_insert by lia. rewrite coord_insert_ne by lia.
  apply Hgrown. intros d0 Hd0 Hpart.
  apply (Hbelow d0 Hd0). apply partially_handled_insert; [lia | exact Hpart].
Qed.

(** One turn of the growth loop: the dimension is taken whole, or cut by
    the budget, or left at the current point. *)
Lemma grow_dim_cases dim r p max_elems d st st' :
  in_rect dim r p -> box_volume dim p (hi r) < 2 ^ 64 -> 1 <= max_elems < 2 ^ 64 ->
  (d < dim)%nat ->
  grow_bounds dim r p max_elems d st ->
  grow_dim r p max_elems d st = Ok st' ->
  let len := coord (hi r) d - coord p d + 1 in
  (g_grow st = true /\ g_count st * len <= max_elems
   /\ g_hi st' = <[d := coord (hi r) d]> (g_hi st)
   /\ g_grow st' = (coord p d =? coord (lo r) d))
  \/ (g_grow st = true /\ max_elems < g_count st * len
      /\ g_hi st' = <[d := coord p d + max_elems / g_count st - 1]> (g_hi st)
      /\ g_grow st' = false
      /\ 1 <= max_elems / g_count st < len)
  \/ (g_grow st = false
      /\ g_hi st' = <[d := coord p d]> (g_hi st)
      /\ g_grow st' = false).
Proof.
  intros Hin Hvol Hmax Hd (Hlen & Hbox & Hcount & Hrange) Hrun len.
  destruct (Hin d Hd) as (Hlo_min & Hlo & Hhi & Hhi_max).
  assert (Hple : forall d', (d' < dim)%nat -> coord p d' <= coord (hi r) d')
    by (intros d' Hd'; destruct (Hin d' Hd'); lia).
  assert (Hprefix : g_count st <= box_volume d p (hi r)).
  { rewrite Hcount. apply box_volume_le. intros d' Hd'. apply Hbox, Hd'. }
  assert (Hnext : box_volume (S d) p (hi r) <= box_volume dim p (hi r))
    by (apply box_volume_grows; [exact Hple | lia]).
  cbn [box_volume] in Hnext. fold len in Hnext.
  assert (Hlen1 : 1 <= len) by (unfold len; lia).
  assert (Hprod : g_count st * len < 2 ^ 64) by nia.
  assert (Hlen64 : len < 2 ^ 64) by nia.
  unfold grow_dim in Hrun. fold len in Hrun. destruct (g_grow st).
  - rewrite (u64_small len) in Hrun by lia.
    rewrite (u64_small (g_count st * len)) in Hrun by nia.
    destruct (Z.leb_spec (g_count st * len) max_elems) as [Hfit|Hcut].
    + injection Hrun as <-. left. cbn [g_hi g_grow]. auto.
    + destruct (Z.eqb_spec (g_count st) 0); [lia|].
      set (actlen := max_elems / g_count st) in *.
      assert (Hact : 1 <= actlen < len).
      { unfold actlen. split.
        - apply Z.div_le_lower_bound; lia.
        - apply Z.div_lt_upper_bound; lia. }
      destruct (Z.geb_spec actlen 1); [|lia].
      cbn [assert mbind result_bind] in Hrun.
      rewrite to_coord_t_small in Hrun by (unfold len in Hact; lia).
      injection Hrun as <-. right. left. cbn [g_hi g_grow]. auto.
  - injection Hrun as <-. right. right. cbn [g_hi g_grow]. auto.
Qed.

Lemma grow_dim_shape dim r p max_elems d st st' :
  in_rect dim r p -> box_volume dim p (hi r) < 2 ^ 64 -> 1 <= max_elems < 2 ^ 64 ->
  (d < dim)%nat ->
  grow_bounds dim r p max_elems d st ->
  grow_shape r p max_elems d st ->
  grow_dim r p max_elems d st = Ok st' ->
  grow_shape r p max_elems (S d) st'.
Proof.
  intros Hin Hvol Hmax Hd Hbounds (Hoff & Hgrown) Hrun.
  pose proof (grow_dim_cases dim r p max_elems d st st' Hin Hvol Hmax Hd
                Hbounds Hrun) as Hcases.
  destruct Hbounds as (Hlen & Hbox & Hcount & Hrange).
  cbn zeta in Hcases.
  assert (Hlower : forall v d', (d' < d)%nat ->
            grown_to r p (<[d := v]> (g_hi st)) max_elems d').
  { intros v d' Hd'. apply grown_to_insert; [exact Hd' | apply Hgrown, Hd']. }
  assert (Hvolume : forall v, box_volume d p (<[d := v]> (g_hi st)) = g_count st).
  { intros v. rewrite box_volume_insert by lia. symmetry. exact Hcount. }
  assert (Hstay : forall v, g_grow st = false ->
            exists d0, (d0 < d)%nat
                       /\ partially_handled r p (<[d := v]> (g_hi st)) d0).
  { intros v Hg. destruct (Hoff Hg) as (d0 & Hd0 & Hpart).
    exists d0. split; [exact Hd0|].
    apply partially_handled_insert; [lia | exact Hpart]. }
  unfold grow_shape.
  destruct Hcases as [(Hg & Hfit & -> & Hg')
                     | [(Hg & Hcut & -> & Hg' & Hact) | (Hg & -> & Hg')]];
    split.
  - (* taken whole: partial when the point is off the low bound *)
    rewrite Hg'. intros Hp. apply Z.eqb_neq in Hp.
    exists d. split; [lia|]. left. exact Hp.
  - intros d' Hd'. destruct (Nat.eq_dec d' d) as [->|Hne];
      [|apply Hlower; lia].
    intros _. cbn zeta. rewrite Hvolume, coord_insert_eq by lia.
    split; [reflexivity | lia].
  - (* cut by the budget *)
    intros _. exists d. split; [lia|]. right.
    rewrite coord_insert_eq by lia. lia.
  - intros d' Hd'. destruct (Nat.eq_dec d' d) as [->|Hne];
      [|apply Hlower; lia].
    intros _. cbn zeta. rewrite Hvolume, coord_insert_eq by lia.
    split; [lia | reflexivity].
  - (* no growth any more *)
    intros _. destruct (Hstay (coord p d) Hg) as (d0 & Hd0 & Hpart).
    exists d0. split; [lia | exact Hpart].
  - intros d' Hd'. destruct (Nat.eq_dec d' d) as [->|Hne];
      [|apply Hlower; lia].
    intros Hnone. exfalso.
    destruct (Hstay (coord p d) Hg) as (d0 & Hd0 & Hpart).
    exact (Hnone d0 Hd0 Hpart).
Qed.

(** The target subrectangle of a step, dimension by dimension. *)
Lemma target_subrect_grown dim r p max_elems target count :
  in_rect dim r p -> box_volume dim p (hi r) < 2 ^ 64 -> 1 <= max_elems < 2 ^ 64 ->
  target_subrect dim r p max_elems = Ok (target, count) ->
  lo target = p
  /\ length (hi target) = dim
  /\ (forall d, (d < dim)%nat ->
        coord p d <= coord (hi target) d <= coord (hi r) d)
  /\ (forall d, (d < dim)%nat -> grown_to r p (hi target) max_elems d).
Proof.
  intros Hin Hvol Hmax Htarget.
  destruct (for_range_total
              (fun d st => grow_bounds dim r p max_elems d st
                           /\ grow_shape r p max_elems d st)
              (grow_dim r p max_elems) dim 0
              {| g_hi := replicate dim 0; g_grow := true; g_count := 1 |})
    as (st & Hloop & Hbounds & Hshape).
  - split.
    + unfold grow_bounds. cbn [g_hi g_count box_volume].
      split; [apply length_replicate|]. split; [intros; lia|]. split; lia.
    + split; [discriminate | intros; lia].
  - intros d st Hd [Hb Hs].
    destruct (grow_dim_bounds dim r p max_elems d st Hin Hvol Hmax
                ltac:(lia) Hb) as (st' & Hrun & Hb').
    exists st'. split; [exact Hrun|]. split; [exact Hb'|].
    apply (grow_dim_shape dim r p max_elems d st st'); auto. lia.
  - unfold target_subrect in Htarget. rewrite Hloop in Htarget.
    cbn [mbind result_bind] in Htarget. injection Htarget as <- <-.
    cbn [lo hi]. destruct Hbounds as (Hlen & Hbox & _).
    destruct Hshape as [_ Hgrown].
    split; [reflexivity|]. split; [exact Hlen|].
    split; [exact Hbox | exact Hgrown].
Qed.

Lemma coord_insert_same (l : Point) (d : nat) (v : Z) :
  coord l d = v -> coord (<[d := v]> l) d = v.
Proof.
  intros H. destruct (decide (d < length l)%nat) as [Hlt|Hge].
  - apply coord_insert_eq, Hlt.
  - rewrite list_insert_ge by lia. exact H.
Qed.

(** Cutting a subrectangle down to one block leaves its low corner, and
    leaves it one point wide wherever it was. *)
Lemma shrink_dim_flat (act : Rect) (max_len : Z) (d : nat) (st st' : Shrink) :
  (forall d', coord (hi act) d' = coord (lo act) d' ->
              coord (s_hi st) d' = coord (lo act) d') ->
  shrink_dim (lo act) max_len d st = Ok st' ->
  forall d', coord (hi act) d' = coord (lo act) d' ->
             coord (s_hi st') d' = coord (lo act) d'.
Proof.
  intros Hflat Hrun d' Hd'. specialize (Hflat d' Hd').
  unfold shrink_dim in Hrun. destruct (s_collapse st).
  - injection Hrun as <-. cbn [s_hi].
    destruct (Nat.eq_dec d' d) as [->|Hne].
    + apply coord_insert_same, Hflat.
    + rewrite coord_insert_ne by lia. exact Hflat.
  - destruct (Z.eqb_spec (coord (lo act) d) (coord (s_hi st) d)) as [Heq|Hneq].
    + injection Hrun as <-. exact Hflat.
    + destruct (_ <=? max_len).
      * injection Hrun as <-. exact Hflat.
      * destruct (s_count st =? 0); [discriminate Hrun|].
        destruct (_ && _); [|discriminate Hrun].
        cbn [assert mbind result_bind] in Hrun. injection Hrun as <-.
        cbn [s_hi]. destruct (Nat.eq_dec d' d) as [->|Hne].
        -- exfalso. apply Hneq. symmetry. exact Hflat.
        -- rewrite coord_insert_ne by lia. exact Hflat.
Qed.

Lemma shrink_to_block_flat dim impl image act act_count bp chunk n :
  shrink_to_block dim impl image act act_count bp = Ok (chunk, n) ->
  lo chunk = lo act
  /\ forall d', (1 <= d')%nat ->
       coord (hi act) d' = coord (lo act) d' ->
       coord (hi chunk) d' = coord (lo chunk) d'.
Proof.
  unfold shrink_to_block. intros Hrun.
  destruct (_ >? _); [injection Hrun as <- <-; auto|].
  destruct (_ =? _); [injection Hrun as <- <-; auto|].
  destruct (_ <? _).
  - injection Hrun as <- <-. cbn [lo hi]. split; [reflexivity|].
    intros d' Hd' _. apply coord_insert_ne. lia.
  - destruct (for_range 1 (dim - 1) _ _) as [st|] eqn:Hloop;
      [|discriminate Hrun].
    cbn [mbind result_bind] in Hrun. injection Hrun as <- <-. cbn [lo hi].
    split; [reflexivity|]. intros d' _.
    match type of Hloop with
    | for_range _ _ ?body ?init = _ =>
        apply (for_range_inv
                 (fun _ s => forall d0,
                      coord (hi act) d0 = coord (lo act) d0 ->
                      coord (s_hi s) d0 = coord (lo act) d0)
                 body (dim - 1) 1 init st)
    end.
    + intros d0 H0. exact H0.
    + intros d s0 s1 _ Hflat Hstep.
      exact (shrink_dim_flat act _ d s0 s1 Hflat Hstep).
    + exact Hloop.
Qed.

(** C6.  A step of the rectangle iterator that stands in its rectangle and
    hands out a chunk.  The target subrectangle starts at the current point
    and is grown dimension after dimension in the order of the layout:
    while every dimension so far is covered from end to end, the next one
    is taken whole if the element budget allows and else as far as the
    budget allows; once a dimension is handled only partially every higher
    dimension stays at the current coordinate.  The chunk is what the
    mapping and the block bound leave of the target: the bytes returned are
    its elements times the field size, the next point is the point after
    it, and above a partially handled dimension its extent is one. *)
Theorem rect_step_growth (volume : Rect -> Z) (it it' : t) (max_bytes : Z)
    (info info' : AddressInfo) (tentative : bool) (bytes field_size : Z)
    (m : Mapping) :
  step volume max_bytes info tentative it = Ok (bytes, info', it') ->
  field_sizes it !! field_idx it = Some field_size ->
  1 <= max_bytes / field_size < 2 ^ 64 ->
  in_rect (DIM it) (r it) (p it) ->
  box_volume (DIM it) (p it) (hi (r it)) < 2 ^ 64 ->
  mapping it = Some m ->
  (forall target,
     lo target = p it -> length (hi target) = DIM it ->
     (forall d, (d < DIM it)%nat ->
        coord (p it) d <= coord (hi target) d <= coord (hi (r it)) d) ->
     leading_subrect (DIM it) target (image_dense_subrect m target).2) ->
  let max_elems := max_bytes / field_size in
  exists target count impl chunk act_count,
    target_subrect (DIM it) (r it) (p it) max_elems = Ok (target, count)
    /\ lo target = p it
    /\ (forall d, (d < DIM it)%nat ->
          grown_to (r it) (p it) (hi target) max_elems d)
    /\ (forall d d', (d < d' < DIM it)%nat ->
          partially_handled (r it) (p it) (hi target) d ->
          coord (hi target) d' = coord (p it) d')
    /\ inst_impl it = Some impl
    /\ step_chunk volume (DIM it) m impl target = Ok (chunk, act_count)
    /\ bytes = u64 (act_count * field_size)
    /\ bytes_per_chunk info' = bytes
    /\ (if tentative then next_p it' else p it')
       = c_next (next_point_after (DIM it) (r it) chunk)
    /\ lo chunk = p it
    /\ forall d d', (d < d' < DIM it)%nat ->
         partially_handled (r it) (p it) (hi target) d ->
         coord (hi chunk) d' = coord (lo chunk) d'
         /\ coord (hi chunk) d' - coord (lo chunk) d' + 1 = 1.
Proof.
  intros Hstep Hfs Hmax Hin Hvol Hm Hcontract max_elems.
  unfold step in Hstep.
  apply bind_Ok in Hstep as (_ & _ & Hstep).
  apply bind_Ok in Hstep as (_ & _ & Hstep).
  rewrite Hfs in Hstep. cbn [of_option] in Hstep.
  apply bind_Ok in Hstep as (? & Heq & Hstep). injection Heq as <-.
  apply bind_Ok in Hstep as (_ & _ & Hstep).
  fold max_elems in Hstep.
  destruct (Z.eqb_spec max_elems 0) as [|_]; [lia|].
  apply bind_Ok in Hstep as ([target count] & Htarget & Hstep).
  rewrite Hm in Hstep. cbn [of_option mbind result_bind] in Hstep.
  destruct (image_dense_subrect m target) as [image act] eqn:Himage.
  apply bind_Ok in Hstep as (impl & Himpl & Hstep).
  destruct (inst_impl it) as [impl0|] eqn:Hinst; [|discriminate Himpl].
  injection Himpl as ->.
  apply bind_Ok in Hstep as (bp & Hbp & Hstep).
  apply bind_Ok in Hstep as ([chunk act_count] & Hshrink & Hstep).
  apply bind_Ok in Hstep as (fo & _ & Hstep).
  destruct (target_subrect_grown _ _ _ _ _ _ Hin Hvol Hmax Htarget)
    as (Hlo & Hlen & Hbox & Hgrown).
  destruct (target_subrect_shape _ _ _ _ _ _ Htarget) as (_ & Hflat).
  pose proof (Hcontract target Hlo Hlen Hbox) as [Hact_lo Hact_in].
  rewrite Himage in Hact_lo, Hact_in. cbn [snd] in Hact_lo, Hact_in.
  destruct (shrink_to_block_flat _ _ _ _ _ _ _ _ Hshrink) as [Hchunk_lo Hkeep].
  exists target, count, impl, chunk, act_count.
  split; [exact Htarget|]. split; [exact Hlo|]. split; [exact Hgrown|].
  split.
  { intros d d' Hd Hpart. rewrite <- Hlo. apply (Hflat d d' Hd Hpart). }
  split; [reflexivity|].
  split.
  { unfold step_chunk. rewrite Himage, Hbp. exact Hshrink. }
  assert (Hout : bytes = u64 (act_count * field_size)
                 /\ bytes_per_chunk info' = bytes
                 /\ (if tentative then next_p it' else p it')
                    = c_next (next_point_after (DIM it) (r it) chunk)).
  { destruct tentative; injection Hstep as <- <- <-; repeat split. }
  destruct Hout as (Hbytes & Hinfo & Hnext).
  split; [exact Hbytes|]. split; [exact Hinfo|]. split; [exact Hnext|].
  split; [rewrite Hchunk_lo, Hact_lo; exact Hlo|].
  intros d d' Hd Hpart.
  assert (Heq : coord (hi chunk) d' = coord (lo chunk) d').
  { apply Hkeep; [lia|].
    destruct (Hflat d d' Hd Hpart) as [Htop _].
    specialize (Hact_in d' ltac:(lia)). rewrite Hact_lo in *. lia. }
  split; [exact Heq | lia].
Qed.

Lemma rect_step_growth_witness :
  exists info' it',
    step grid_volume 100 grid_info false grid_iter = Ok (12, info', it')
    /\ exists target count impl chunk act_count,
         target_subrect 2 grid [1; 0] (100 / 4) = Ok (target, count)
         /\ lo target = [1; 0]
         /\ (forall d, (d < 2)%nat ->
               grown_to grid [1; 0] (hi target) (100 / 4) d)
         /\ (forall d d', (d < d' < 2)%nat ->
               partially_handled grid [1; 0] (hi target) d ->
               coord (hi target) d' = coord [1; 0] d')
         /\ inst_impl grid_iter = Some impl
         /\ step_chunk grid_volume 2 grid_mapping impl target
            = Ok (chunk, act_count)
         /\ 12 = u64 (act_count * 4)
         /\ bytes_per_chunk info' = 12
         /\ p it' = c_next (next_point_after 2 grid chunk)
         /\ lo chunk = [1; 0]
         /\ forall d d', (d < d' < 2)%nat ->
              partially_handled grid [1; 0] (hi target) d ->
              coord (hi chunk) d' = coord (lo chunk) d'
              /\ coord (hi chunk) d' - coord (lo chunk) d' + 1 = 1.
Proof.
  eexists _, _. split; [vm_compute; reflexivity|].
  refine (rect_step_growth grid_volume grid_iter _ 100 grid_info _ false 12 4
            grid_mapping _ eq_refl _ grid_in_rect _ eq_refl _).
  - vm_compute. reflexivity.
  - vm_compute. split; [discriminate | reflexivity].
  - cbn. lia.
  - intros target Hlo _ Hbox. split; [reflexivity|].
    intros d Hd. cbn [grid_mapping image_dense_subrect snd].
    rewrite Hlo. specialize (Hbox d Hd). cbn [p grid_iter] in *. lia.
Defined.

End RectChunks.

(** ** Steps of the rectangle iterator in a single block *)

Section RectSteps.
Import TransferIteratorRect Examples MoreExamples.

(** X7.  A step of the rectangle iterator over an instance that keeps every
    subrectangle starting at the current point dense and inside one block.
    With room for at least one element the step hands out [count] elements,
    at least one and never more bytes than asked for, and moves the iterator
    [count] places forward in the order of the layout.  The field index
    moves on exactly when the step took all that was left of the rectangle,
    and the iterator then stands on the low corner again. *)
Theorem rect_step_advances (volume : Rect -> Z) (it : t) (max_bytes : Z)
    (info : AddressInfo) (fs fo : Z) (m : Mapping) (impl : RegionInstanceImpl) :
  tentative_valid it = false ->
  field_sizes it !! field_idx it = Some fs ->
  field_offsets it !! field_idx it = Some fo ->
  0 < fs <= max_bytes -> max_bytes < 2 ^ 64 ->
  mapping it = Some m -> inst_impl it = Some impl ->
  in_rect (DIM it) (r it) (p it) ->
  box_volume (DIM it) (p it) (hi (r it)) < 2 ^ 64 ->
  (forall target,
     lo target = p it -> length (hi target) = DIM it ->
     (forall d, (d < DIM it)%nat ->
        coord (p it) d <= coord (hi target) d <= coord (hi (r it)) d) ->
     exists image,
       image_dense_subrect m target = (image, target)
       /\ u64 (coord (hi image) 0) < block_size impl
       /\ volume target = box_volume (DIM it) (lo target) (hi target)) ->
  exists count info' it',
    step volume max_bytes info false it = Ok (count * fs, info', it')
    /\ 1 <= count /\ count * fs <= max_bytes
    /\ bytes_per_chunk info' = count * fs
    /\ r it' = r it /\ tentative_valid it' = false
    /\ ((field_idx it' = field_idx it
         /\ linear_index (DIM it) (r it) (p it')
            = linear_index (DIM it) (r it) (p it) + count
         /\ in_rect (DIM it) (r it) (p it'))
        \/ (field_idx it' = S (field_idx it)
            /\ linear_index (DIM it) (r it) (p it) + count
               = box_volume (DIM it) (lo (r it)) (hi (r it))
            /\ forall d, (d < DIM it)%nat ->
                 coord (p it') d = coord (lo (r it)) d)).
Proof.
  intros Htv Hfs Hfo Hsize Hmb Hm Himpl Hin Hvol Hdense.
  set (max_elems := max_bytes / fs).
  assert (Hmax : 1 <= max_elems < 2 ^ 64).
  { unfold max_elems. split.
    - apply Z.div_le_lower_bound; lia.
    - apply Z.div_lt_upper_bound; nia. }
  assert (Hbudget : max_elems * fs <= max_bytes).
  { unfold max_elems. rewrite Z.mul_comm. apply Z.mul_div_le. lia. }
  destruct (grow_loop_bounds (DIM it) (r it) (p it) max_elems Hin Hvol Hmax)
    as (st & Hloop & Hlen & Hbox & Hcount & Hrange).
  assert (Htarget : target_subrect (DIM it) (r it) (p it) max_elems
                    = Ok ({| lo := p it; hi := g_hi st |}, g_count st)).
  { unfold target_subrect. rewrite Hloop. reflexivity. }
  destruct (Hdense {| lo := p it; hi := g_hi st |} eq_refl Hlen Hbox)
    as (image & Himage & Hblock & Hvolume).
  cbn [lo hi] in Hvolume. rewrite <- Hcount in Hvolume.
  pose proof (next_point_after_target (DIM it) (r it) (p it) max_elems
                _ _ Hin Hvol Hmax Htarget) as Hnext.
  exists (g_count st).
  unfold step, done.
  assert (Hnd : Nat.eqb (field_idx it) (length (field_offsets it)) = false).
  { apply Nat.eqb_neq. apply lookup_lt_Some in Hfo. lia. }
  rewrite Hnd, Htv, Hfs. cbn [negb assert mbind result_bind of_option].
  destruct (Z.eqb_spec fs 0); [lia|]. cbn [mbind result_bind].
  fold max_elems. destruct (Z.eqb_spec max_elems 0); [lia|].
  rewrite Htarget, Hm. cbn [mbind result_bind of_option].
  rewrite Himage, Himpl. cbn [mbind result_bind of_option].
  unfold block_pos, shrink_to_block.
  destruct (Z.gtb_spec (block_size impl) (u64 (coord (hi image) 0))); [|lia].
  cbn [mbind result_bind]. rewrite Hfo. cbn [mbind result_bind of_option].
  rewrite Hvolume.
  assert (Hbytes : u64 (g_count st * fs) = g_count st * fs)
    by (apply u64_small; nia).
  eexists _, _. split; [cbn [bytes_per_chunk fill_address_info];
                        rewrite Hbytes; reflexivity|].
  split; [lia|]. split; [nia|].
  split; [cbn [bytes_per_chunk fill_address_info]; exact Hbytes|].
  split; [reflexivity|]. split; [reflexivity|].
  cbn [advance with_next p next_p field_idx next_idx r DIM].
  cbn zeta in Hnext.
  destruct (c_carry _) eqn:Hcarry.
  - right. destruct Hnext as [Hsum Hlow].
    split; [apply Nat.add_1_r|]. split; assumption.
  - left. destruct Hnext as [Hsum Hrect].
    split; [apply Nat.add_0_r|]. split; assumption.
Qed.

Lemma rect_step_advances_witness :
  exists count info' it',
    step grid_volume 100 grid_info false grid_iter = Ok (count * 4, info', it')
    /\ 1 <= count /\ count * 4 <= 100
    /\ bytes_per_chunk info' = count * 4
    /\ r it' = grid /\ tentative_valid it' = false
    /\ ((field_idx it' = 0%nat
         /\ linear_index 2 grid (p it') = linear_index 2 grid [1; 0] + count
         /\ in_rect 2 grid (p it'))
        \/ (field_idx it' = 1%nat
            /\ linear_index 2 grid [1; 0] + count = box_volume 2 (lo grid) (hi grid)
            /\ forall d, (d < 2)%nat -> coord (p it') d = coord (lo grid) d)).
Proof.
  refine (rect_step_advances grid_volume grid_iter 100 grid_info 4 0
            grid_mapping grid_impl eq_refl eq_refl eq_refl _ _ eq_refl eq_refl
            grid_in_rect _ _).
  - lia.
  - lia.
  - cbn. lia.
  - intros [tlo thi] Hlo Hlen Hbox. cbn [lo hi] in *. subst tlo.
    destruct thi as [|a [|b [|? ?]]]; try discriminate Hlen.
    pose proof (Hbox 0%nat ltac:(cbn; lia)) as H0.
    pose proof (Hbox 1%nat ltac:(cbn; lia)) as H1.
    cbn in H0, H1.
    eexists. split; [reflexivity|]. split.
    + unfold grid_linear. cbn [hi lo coord nth block_size grid_impl].
      rewrite u64_small by lia. lia.
    + unfold grid_volume.
      cbn [DIM p grid_iter lo hi zip_with fold_right box_volume coord nth]. lia.
Defined.

End RectSteps.

(** ** Confirming a tentative step *)

Section Confirmation.
Import TransferIterator IteratorNotions StepNotions Examples MoreExamples.

(** Run a bind, or open a pair, of the hypothesis and of the goal on the
    same value. *)
Ltac run_bind H :=
  match type of H with
  | (?r ≫= _) = Ok _ =>
      let E := fresh "E" in
      destruct r eqn:E; [cbn [mbind result_bind] in H |- * | discriminate H]
  | (let '(_, _) := ?x in _) = Ok _ =>
      let E := fresh "E" in
      destruct x eqn:E; cbn [mbind result_bind] in H |- *
  end.

Lemma rect_confirm_is_step volume mb info bytes info1
    (it it1 : TransferIteratorRect.t) :
  TransferIteratorRect.step volume mb info true it = Ok (bytes, info1, it1) ->
  bytes <> 0 ->
  exists it2,
    TransferIteratorRect.confirm_step it1 = Ok it2
    /\ TransferIteratorRect.step volume mb info false it = Ok (bytes, info1, it2).
Proof.
  intros Hstep Hbytes. unfold TransferIteratorRect.step in Hstep |- *.
  do 4 run_bind Hstep.
  destruct (mb / _ =? 0); [injection Hstep as <- _ _; contradiction|].
  repeat run_bind Hstep.
  injection Hstep as <- <- <-.
  eexists. split; [reflexivity|].
  destruct it. reflexivity.
Qed.

Lemma z_confirm_is_step mb info bytes info1
    (it it1 : TransferIteratorZIndexSpace.t) :
  TransferIteratorZIndexSpace.step mb info true it = Ok (bytes, info1, it1) ->
  bytes <> 0 ->
  exists it2,
    TransferIteratorZIndexSpace.confirm_step it1 = Ok it2
    /\ TransferIteratorZIndexSpace.step mb info false it = Ok (bytes, info1, it2).
Proof.
  intros Hstep Hbytes. unfold TransferIteratorZIndexSpace.step in Hstep |- *.
  repeat run_bind Hstep.
  destruct (mb / _ =? 0); [injection Hstep as <- _ _; contradiction|].
  match type of Hstep with
  | match ?pc with _ => _ end = _ => destruct pc; [|discriminate Hstep]
  end.
  repeat run_bind Hstep.
  injection Hstep as <- <- <-.
  eexists. split; [reflexivity|].
  destruct it. reflexivity.
Qed.

Lemma with_cursor_with_cursor e rw fi ni tv e' rw' fi' ni' tv'
    (a : TransferIteratorIndexSpace.t) :
  TransferIteratorIndexSpace.with_cursor e rw fi ni tv
    (TransferIteratorIndexSpace.with_cursor e' rw' fi' ni' tv' a)
  = TransferIteratorIndexSpace.with_cursor e rw fi ni tv a.
Proof. reflexivity. Qed.

Lemma index_space_confirm_is_step mb info bytes info1
    (it it1 : TransferIteratorIndexSpace.t) :
  TransferIteratorIndexSpace.step mb info true it = Ok (bytes, info1, it1) ->
  bytes <> 0 ->
  exists it2 it2',
    TransferIteratorIndexSpace.confirm_step it1 = Ok it2
    /\ TransferIteratorIndexSpace.step mb info false it = Ok (bytes, info1, it2')
    /\ OfIndexSpace it2 = sync_next_idx (OfIndexSpace it2').
Proof.
  intros Hstep Hbytes. unfold TransferIteratorIndexSpace.step in Hstep |- *.
  do 2 run_bind Hstep.
  match type of Hstep with
  | (if ?b then _ else _) = _ =>
      destruct b; [injection Hstep as <- _ _; contradiction|]
  end.
  unfold TransferIteratorIndexSpace.step_with_mask in Hstep |- *.
  do 4 run_bind Hstep.
  destruct (mb / _ =? 0); [injection Hstep as <- _ _; contradiction|].
  run_bind Hstep.
  unfold TransferIteratorIndexSpace.step_from in Hstep |- *.
  repeat run_bind Hstep.
  injection Hstep as <- <- <-.
  match goal with
  | H : assert (negb (TransferIteratorIndexSpace.tentative_valid ?a)) = Ok _ |- _ =>
      apply assert_Ok, negb_true_iff in H; rename H into Htv
  end.
  unfold TransferIteratorIndexSpace.confirm_step.
  cbn [TransferIteratorIndexSpace.with_cursor
       TransferIteratorIndexSpace.tentative_valid
       TransferIteratorIndexSpace.next_idx TransferIteratorIndexSpace.field_idx
       TransferIteratorIndexSpace.enumerator TransferIteratorIndexSpace.rewind_pos
       assert mbind result_bind].
  match goal with
  | |- context [if ?b then 1%nat else 0%nat] => destruct b
  end.
  - rewrite Nat.add_1_r.
    replace (Nat.eqb (S _) _) with false by (symmetry; apply Nat.eqb_neq; lia).
    eexists _, _. split; [reflexivity|]. split; [reflexivity|].
    cbn [sync_next_idx TransferIteratorIndexSpace.with_cursor
         TransferIteratorIndexSpace.tentative_valid
         TransferIteratorIndexSpace.next_idx TransferIteratorIndexSpace.field_idx
         TransferIteratorIndexSpace.enumerator TransferIteratorIndexSpace.rewind_pos].
    rewrite Htv. reflexivity.
  - rewrite Nat.add_0_r, Nat.eqb_refl.
    eexists _, _. split; [reflexivity|]. split; [reflexivity|].
    cbn [sync_next_idx TransferIteratorIndexSpace.with_cursor
         TransferIteratorIndexSpace.tentative_valid
         TransferIteratorIndexSpace.next_idx TransferIteratorIndexSpace.field_idx
         TransferIteratorIndexSpace.enumerator TransferIteratorIndexSpace.rewind_pos].
    rewrite Htv. reflexivity.
Qed.

(** X8.  Confirming a tentative step comes to the same as taking the step
    outright: the bytes and the address info are those of a step that is
    not tentative, and so is the iterator left behind, up to [next_idx] of
    the sparse iterator, which [confirm_step] leaves equal to [field_idx]. *)
Theorem tentative_confirm_is_step (volume : Rect -> Z) (ti ti1 : t)
    (max_bytes : Z) (info info1 : AddressInfo) (bytes : Z) :
  step volume max_bytes info true ti = Ok (bytes, info1, ti1) ->
  bytes <> 0 ->
  exists ti2 ti2',
    confirm_step ti1 = Ok ti2
    /\ step volume max_bytes info false ti = Ok (bytes, info1, ti2')
    /\ ti2 = sync_next_idx ti2'.
Proof.
  intros Hstep Hbytes.
  destruct ti as [it|it|it]; cbn [step] in Hstep |- *;
    apply bind_Ok in Hstep as ([[b i] it1] & Hstep & Heq);
    injection Heq as -> -> <-.
  - destruct (rect_confirm_is_step _ _ _ _ _ _ _ Hstep Hbytes)
      as (it2 & Hconfirm & Hdirect).
    exists (OfRect it2), (OfRect it2).
    cbn [confirm_step]. rewrite Hconfirm, Hdirect. auto.
  - destruct (index_space_confirm_is_step _ _ _ _ _ _ Hstep Hbytes)
      as (it2 & it2' & Hconfirm & Hdirect & Hsync).
    exists (OfIndexSpace it2), (OfIndexSpace it2').
    cbn [confirm_step]. rewrite Hconfirm, Hdirect. auto.
  - destruct (z_confirm_is_step _ _ _ _ _ _ Hstep Hbytes)
      as (it2 & Hconfirm & Hdirect).
    exists (OfZIndexSpace it2), (OfZIndexSpace it2).
    cbn [confirm_step]. rewrite Hconfirm, Hdirect. auto.
Qed.

Lemma tentative_confirm_is_step_witness :
  exists ti2 ti2',
    confirm_step
      (OfRect (TransferIteratorRect.with_next [0; 1] 0 true grid_iter)) = Ok ti2
    /\ step grid_volume 100 grid_info false (OfRect grid_iter)
       = Ok (12, fill_address_info grid_impl
                   {| first_block := 0; block_ofs := 1; last_block := 0 |} 0 4 3,
             ti2')
    /\ ti2 = sync_next_idx ti2'.
Proof.
  refine (tentative_confirm_is_step grid_volume (OfRect grid_iter) _ 100 grid_info
            _ 12 _ _).
  - reflexivity.
  - discriminate.
Defined.

(** *** One tentative step at a time *)

Lemma rect_not_pending (it : TransferIteratorRect.t) :
  TransferIteratorRect.tentative_valid it = false ->
  TransferIteratorRect.confirm_step it = Err AssertFailed
  /\ TransferIteratorRect.cancel_step it = Err AssertFailed.
Proof.
  intros H. unfold TransferIteratorRect.confirm_step, TransferIteratorRect.cancel_step.
  rewrite H. auto.
Qed.

Lemma index_space_not_pending (it : TransferIteratorIndexSpace.t) :
  TransferIteratorIndexSpace.tentative_valid it = false ->
  TransferIteratorIndexSpace.confirm_step it = Err AssertFailed
  /\ TransferIteratorIndexSpace.cancel_step it = Err AssertFailed.
Proof.
  intros H. unfold TransferIteratorIndexSpace.confirm_step,
    TransferIteratorIndexSpace.cancel_step.
  rewrite H. auto.
Qed.

Lemma z_not_pending (it : TransferIteratorZIndexSpace.t) :
  TransferIteratorZIndexSpace.tentative_valid it = false ->
  TransferIteratorZIndexSpace.confirm_step it = Err AssertFailed
  /\ TransferIteratorZIndexSpace.cancel_step it = Err AssertFailed.
Proof.
  intros H. unfold TransferIteratorZIndexSpace.confirm_step,
    TransferIteratorZIndexSpace.cancel_step.
  rewrite H. auto.
Qed.

Lemma z_advance_not_pending (it : TransferIteratorZIndexSpace.t) :
  TransferIteratorZIndexSpace.tentative_valid
    (TransferIteratorZIndexSpace.advance it) = false.
Proof.
  unfold TransferIteratorZIndexSpace.advance.
  destruct (TransferIteratorZIndexSpace.carry it); [|reflexivity].
  destruct (TransferIteratorZIndexSpace.iter_step _) as [[] i]; reflexivity.
Qed.

Lemma rect_pending volume mb info bytes info1 (it it1 : TransferIteratorRect.t) :
  TransferIteratorRect.step volume mb info true it = Ok (bytes, info1, it1) ->
  bytes <> 0 ->
  (forall mb' info' tent',
     TransferIteratorRect.step volume mb' info' tent' it1 = Err AssertFailed)
  /\ (forall it2,
        TransferIteratorRect.confirm_step it1 = Ok it2
        \/ TransferIteratorRect.cancel_step it1 = Ok it2 ->
        TransferIteratorRect.tentative_valid it2 = false).
Proof.
  intros Hstep Hbytes.
  destruct (rect_tentative_shape _ _ _ _ _ _ _ Hstep Hbytes) as (_ & np & ni & ->).
  split.
  - intros mb' info' tent'. unfold TransferIteratorRect.step.
    destruct (TransferIteratorRect.done _); reflexivity.
  - intros it2 [H|H]; cbn in H; injection H as <-; reflexivity.
Qed.

Lemma z_pending mb info bytes info1 (it it1 : TransferIteratorZIndexSpace.t) :
  TransferIteratorZIndexSpace.step mb info true it = Ok (bytes, info1, it1) ->
  bytes <> 0 ->
  (forall mb' info' tent',
     TransferIteratorZIndexSpace.step mb' info' tent' it1 = Err AssertFailed)
  /\ (forall it2,
        TransferIteratorZIndexSpace.confirm_step it1 = Ok it2
        \/ TransferIteratorZIndexSpace.cancel_step it1 = Ok it2 ->
        TransferIteratorZIndexSpace.tentative_valid it2 = false).
Proof.
  intros Hstep Hbytes.
  destruct (z_tentative_shape _ _ _ _ _ _ Hstep Hbytes) as (_ & np & c & ->).
  split.
  - intros mb' info' tent'. unfold TransferIteratorZIndexSpace.step.
    destruct (TransferIteratorZIndexSpace.done _); reflexivity.
  - intros it2 [H|H]; cbn [TransferIteratorZIndexSpace.confirm_step
                           TransferIteratorZIndexSpace.cancel_step
                           TransferIteratorZIndexSpace.with_next
                           TransferIteratorZIndexSpace.tentative_valid
                           assert mbind result_bind] in H;
      injection H as <-; [apply z_advance_not_pending | reflexivity].
Qed.

Lemma index_space_pending mb info bytes info1
    (it it1 : TransferIteratorIndexSpace.t) :
  TransferIteratorIndexSpace.step mb info true it = Ok (bytes, info1, it1) ->
  bytes <> 0 ->
  (forall mb' info' tent',
     TransferIteratorIndexSpace.step mb' info' tent' it1 = Err AssertFailed)
  /\ (forall it2,
        TransferIteratorIndexSpace.confirm_step it1 = Ok it2
        \/ TransferIteratorIndexSpace.cancel_step it1 = Ok it2 ->
        TransferIteratorIndexSpace.tentative_valid it2 = false).
Proof.
  intros Hstep Hbytes. unfold TransferIteratorIndexSpace.step in Hstep.
  apply bind_Ok in Hstep as ([it_f empty] & Hfetch & Hstep).
  destruct empty; [injection Hstep as <- _ _; contradiction|].
  destruct (step_with_mask_tentative_shape _ _ _ _ _ _ Hstep Hbytes)
    as (vm & s & l & efin & ni & Htv & Hvm & Hspan & Hmask & ->).
  split.
  - intros mb' info' tent'. unfold TransferIteratorIndexSpace.step.
    rewrite (fetch_valid_mask_present _ vm) by exact Hvm.
    cbn [mbind result_bind]. unfold TransferIteratorIndexSpace.step_with_mask.
    destruct (TransferIteratorIndexSpace.done _); reflexivity.
  - intros it2 [H|H].
    + unfold TransferIteratorIndexSpace.confirm_step in H.
      cbn [TransferIteratorIndexSpace.with_cursor
           TransferIteratorIndexSpace.tentative_valid assert mbind result_bind] in H.
      destruct (Nat.eqb _ _); injection H as <-; reflexivity.
    + cbn in H. injection H as <-. reflexivity.
Qed.

(** X9.  Tentative steps do not nest and are settled once.  While a
    tentative step that handed out bytes is pending, every further step
    stops on its assertion; once the step is confirmed or cancelled, a
    second [confirm_step] or [cancel_step] stops on its assertion too. *)
Theorem pending_step_blocks (volume : Rect -> Z) (ti ti1 : t)
    (max_bytes : Z) (info info1 : AddressInfo) (bytes : Z) :
  step volume max_bytes info true ti = Ok (bytes, info1, ti1) ->
  bytes <> 0 ->
  (forall max_bytes' info' tentative',
     step volume max_bytes' info' tentative' ti1 = Err AssertFailed)
  /\ (forall ti2,
        confirm_step ti1 = Ok ti2 \/ cancel_step ti1 = Ok ti2 ->
        confirm_step ti2 = Err AssertFailed
        /\ cancel_step ti2 = Err AssertFailed).
Proof.
  intros Hstep Hbytes.
  destruct ti as [it|it|it]; cbn [step] in Hstep;
    apply bind_Ok in Hstep as ([[b i] it1] & Hstep & Heq);
    injection Heq as -> -> <-.
  - destruct (rect_pending _ _ _ _ _ _ _ Hstep Hbytes) as [Hblock Hsettled].
    split.
    + intros mb' info' tent'. cbn [step]. rewrite Hblock. reflexivity.
    + intros ti2 Hti2.
      assert (exists it2, ti2 = OfRect it2
                /\ TransferIteratorRect.tentative_valid it2 = false)
        as (it2 & -> & Htv).
      { cbn [confirm_step cancel_step] in Hti2.
        destruct Hti2 as [H|H];
          [destruct (TransferIteratorRect.confirm_step it1) as [it2|] eqn:E
          |destruct (TransferIteratorRect.cancel_step it1) as [it2|] eqn:E];
          try discriminate H; injection H as <-; eauto. }
      cbn [confirm_step cancel_step].
      destruct (rect_not_pending it2 Htv) as [-> ->]. auto.
  - destruct (index_space_pending _ _ _ _ _ _ Hstep Hbytes) as [Hblock Hsettled].
    split.
    + intros mb' info' tent'. cbn [step]. rewrite Hblock. reflexivity.
    + intros ti2 Hti2.
      assert (exists it2, ti2 = OfIndexSpace it2
                /\ TransferIteratorIndexSpace.tentative_valid it2 = false)
        as (it2 & -> & Htv).
      { cbn [confirm_step cancel_step] in Hti2.
        destruct Hti2 as [H|H];
          [destruct (TransferIteratorIndexSpace.confirm_step it1) as [it2|] eqn:E
          |destruct (TransferIteratorIndexSpace.cancel_step it1) as [it2|] eqn:E];
          try discriminate H; injection H as <-; eauto. }
      cbn [confirm_step cancel_step].
      destruct (index_space_not_pending it2 Htv) as [-> ->]. auto.
  - destruct (z_pending _ _ _ _ _ _ Hstep Hbytes) as [Hblock Hsettled].
    split.
    + intros mb' info' tent'. cbn [step]. rewrite Hblock. reflexivity.
    + intros ti2 Hti2.
      assert (exists it2, ti2 = OfZIndexSpace it2
                /\ TransferIteratorZIndexSpace.tentative_valid it2 = false)
        as (it2 & -> & Htv).
      { cbn [confirm_step cancel_step] in Hti2.
        destruct Hti2 as [H|H];
          [destruct (TransferIteratorZIndexSpace.confirm_step it1) as [it2|] eqn:E
          |destruct (TransferIteratorZIndexSpace.cancel_step it1) as [it2|] eqn:E];
          try discriminate H; injection H as <-; eauto. }
      cbn [confirm_step cancel_step].
      destruct (z_not_pending it2 Htv) as [-> ->]. auto.
Qed.

Lemma pending_step_blocks_witness :
  (forall max_bytes' info' tentative',
     step grid_volume max_bytes' info' tentative'
       (OfRect (TransferIteratorRect.with_next [0; 1] 0 true grid_iter))
     = Err AssertFailed)
  /\ (forall ti2,
        confirm_step
          (OfRect (TransferIteratorRect.with_next [0; 1] 0 true grid_iter)) = Ok ti2
        \/ cancel_step
             (OfRect (TransferIteratorRect.with_next [0; 1] 0 true grid_iter))
           = Ok ti2 ->
        confirm_step ti2 = Err AssertFailed
        /\ cancel_step ti2 = Err AssertFailed).
Proof.
  refine (pending_step_blocks grid_volume (OfRect grid_iter) _ 100 grid_info
            _ 12 _ _).
  - reflexivity.
  - discriminate.
Defined.

End Confirmation.

(** ** The budget of the layout-based iterator *)

Section ZBudget.
Import TransferIteratorZIndexSpace StepNotions.

Lemma z_grow_dim_bytes n r bounds strides cur fs mb d st :
  0 < fs -> mb < 2 ^ 64 ->
  not_past n cur (hi r) -> not_past n cur (hi bounds) ->
  (d < n)%nat ->
  bytes_inv n fs mb d st ->
  exists st', grow_dim r bounds strides cur mb d st = Ok st'
              /\ bytes_inv n fs mb (S d) st'.
Proof.
  intros Hfs Hmb Hr Hb Hd (Hlen & Hbytes & Hdiv).
  specialize (Hr d Hd). specialize (Hb d Hd).
  assert (Hkeep : forall v g e c,
            fs <= c <= mb -> (fs | c) ->
            bytes_inv n fs mb (S d)
              {| g_hi := <[d := v]> (g_hi st); g_grow := g;
                 g_exp_stride := e; g_cur_bytes := c |}).
  { intros v g e c Hc Hcd. unfold bytes_inv. cbn [g_hi g_cur_bytes].
    rewrite length_insert. auto. }
  unfold grow_dim. destruct (g_grow st).
  - destruct (coord strides d =? g_exp_stride st).
    + rewrite !u64_small by lia.
      set (len0 := coord (hi r) d - coord cur d + 1).
      set (plim := coord (hi bounds) d - coord cur d + 1).
      destruct (if plim <? len0 then (plim, false) else (len0, true))
        as [len1 grow1] eqn:Hlim.
      assert (Hlen1 : 1 <= len1).
      { destruct (Z.ltb_spec plim len0); injection Hlim as <- _;
          unfold len0, plim in *; lia. }
      destruct (Z.eqb_spec (g_cur_bytes st) 0); [lia|].
      set (blim := mb / g_cur_bytes st).
      assert (Hblim : 1 <= blim) by (apply Z.div_le_lower_bound; lia).
      assert (Hmul : g_cur_bytes st * blim <= mb) by (apply Z.mul_div_le; lia).
      destruct (if blim <? len1 then (blim, false) else (len1, grow1))
        as [len2 grow2] eqn:Hblimit.
      assert (Hlen2 : 1 <= len2 <= blim).
      { destruct (Z.ltb_spec blim len1); injection Hblimit as <- _; lia. }
      assert (Hle : g_cur_bytes st * len2 <= g_cur_bytes st * blim)
        by (apply Z.mul_le_mono_nonneg_l; lia).
      assert (Hge : g_cur_bytes st * 1 <= g_cur_bytes st * len2)
        by (apply Z.mul_le_mono_nonneg_l; lia).
      eexists. split; [reflexivity|].
      rewrite (u64_small (g_cur_bytes st * len2)) by lia.
      apply Hkeep; [lia|]. apply Z.divide_mul_l, Hdiv.
    + eexists. split; [reflexivity|].
      rewrite Z.mul_1_r, u64_small by lia. apply Hkeep; [lia | exact Hdiv].
  - eexists. split; [reflexivity|]. apply Hkeep; [lia | exact Hdiv].
Qed.

(** X10.  A step of the layout-based iterator never hands out more than it
    was asked for.  For an iterator that stands on a point of its rectangle
    inside an affine piece, with room for at least one element, the step
    goes through (no assertion, no division by zero) and returns a whole
    number of elements: at least one element and at most [max_bytes]
    bytes. *)
Theorem z_step_within_budget (it : t) (max_bytes : Z) (info : AddressInfo)
    (tentative : bool) (layout : InstanceLayout) (fid : Z) (fl : FieldLayout)
    (pieces : InstancePieceList) (bounds : Rect) (offset : Z) (strides : Point)
    (impl : RegionInstanceImpl) :
  tentative_valid it = false -> valid (iter it) = true ->
  inst_layout it = Some layout ->
  fields it !! field_idx it = Some fid ->
  fields_layout layout !! fid = Some fl ->
  piece_lists layout !! list_idx fl = Some pieces ->
  find_piece pieces (cur_point it) = Some (AffineLayoutPiece bounds offset strides) ->
  inst_impl it = Some impl ->
  0 < size_in_bytes fl <= max_bytes -> max_bytes < 2 ^ 64 ->
  not_past (N it) (cur_point it) (hi (rect (iter it))) ->
  not_past (N it) (cur_point it) (hi bounds) ->
  exists bytes info' it',
    step max_bytes info tentative it = Ok (bytes, info', it')
    /\ bytes_per_chunk info' = bytes
    /\ size_in_bytes fl <= bytes <= max_bytes
    /\ (size_in_bytes fl | bytes).
Proof.
  intros Htv Hvalid Hlayout Hfid Hfl Hpieces Hpiece Himpl Hfs Hmb Hr Hb.
  set (fs := size_in_bytes fl) in *.
  destruct (for_range_total (bytes_inv (N it) fs max_bytes)
              (grow_dim (rect (iter it)) bounds strides (cur_point it) max_bytes)
              (N it) 0
              {| g_hi := replicate (N it) 0; g_grow := true;
                 g_exp_stride := fs; g_cur_bytes := fs |})
    as (g & Hloop & Hlen & Hbytes & Hdiv).
  { unfold bytes_inv. cbn [g_hi g_cur_bytes].
    split; [apply length_replicate|]. split; [lia | reflexivity]. }
  { intros d st Hd Hinv. apply z_grow_dim_bytes; auto; lia. }
  unfold step, done.
  assert (Hnd : Nat.eqb (field_idx it) (length (fields it)) = false).
  { apply Nat.eqb_neq. apply lookup_lt_Some in Hfid. lia. }
  rewrite Hnd, Htv, Hvalid, Hlayout, Hfid.
  cbn [negb assert mbind result_bind of_option].
  rewrite Hfl. cbn [mbind result_bind]. rewrite Hpieces.
  cbn [mbind result_bind of_option]. rewrite Hpiece. cbn [mbind result_bind].
  fold fs. destruct (Z.eqb_spec fs 0); [lia|]. cbn [mbind result_bind].
  assert (Hme : max_bytes / fs <> 0).
  { assert (1 <= max_bytes / fs) by (apply Z.div_le_lower_bound; lia). lia. }
  destruct (Z.eqb_spec (max_bytes / fs) 0); [contradiction|].
  rewrite Hloop, Himpl. cbn [mbind result_bind of_option].
  destruct tentative; eexists _, _, _; (split; [reflexivity|]);
    cbn [bytes_per_chunk]; auto.
Qed.

Lemma z_step_within_budget_witness :
  exists bytes info' it',
    step 100 Examples.grid_info false MoreExamples.line_iter = Ok (bytes, info', it')
    /\ bytes_per_chunk info' = bytes
    /\ 8 <= bytes <= 100
    /\ (8 | bytes).
Proof.
  refine (z_step_within_budget MoreExamples.line_iter 100 Examples.grid_info false
            MoreExamples.line_layout 7 MoreExamples.line_field
            MoreExamples.line_pieces MoreExamples.line 0 [8]
            Examples.grid_impl eq_refl eq_refl eq_refl eq_refl eq_refl eq_refl
            eq_refl eq_refl _ _ _ _).
  - cbn. lia.
  - lia.
  - intros d Hd. destruct d; [cbn; lia | cbn in Hd; lia].
  - intros d Hd. destruct d; [cbn; lia | cbn in Hd; lia].
Defined.

End ZBudget.

(** ** Resetting an iterator *)

Section Resets.
Import TransferIterator IteratorNotions StepNotions Examples MoreExamples.








End Resets.

(** ** Fields of a new iterator *)

Section IteratorFields.
Import Transfer IteratorConstruction FieldNotions Examples MoreExamples.

Lemma zsum_nonneg l : Forall (fun sz => 0 < sz) l -> 0 <= zsum l.
Proof. induction 1; cbn [zsum]; lia. Qed.

Lemma zsum_take_le l : Forall (fun sz => 0 < sz) l ->
  forall i, 0 <= zsum (take i l) <= zsum l.
Proof.
  induction 1 as [|x l Hx Hl IH]; intros [|i]; cbn [take zsum]; try lia.
  - pose proof (zsum_nonneg l Hl). lia.
  - specialize (IH i). lia.
Qed.

Lemma field_size_loop_found : forall sizes s i sz,
  Forall (fun sz => 0 < sz) sizes -> 0 <= s -> s + zsum sizes < 2 ^ 64 ->
  sizes !! i = Some sz ->
  field_size_loop (s + zsum (take i sizes)) s sizes = Ok sz.
Proof.
  induction sizes as [|sz0 rest IH]; intros s i sz Hpos Hs Hfit Hi;
    [rewrite lookup_nil in Hi; discriminate|].
  pose proof (Forall_inv Hpos) as Hsz0. cbn beta in Hsz0.
  pose proof (Forall_inv_tail Hpos) as Hrest.
  pose proof (zsum_nonneg rest Hrest) as Hsum.
  cbn [zsum] in Hfit.
  destruct i as [|i]; cbn [take zsum field_size_loop].
  - rewrite Z.add_0_r, Z.eqb_refl. cbn in Hi. injection Hi as ->. reflexivity.
  - cbn in Hi. pose proof (zsum_take_le rest Hrest i) as Hprefix.
    destruct (Z.eqb_spec (s + (sz0 + zsum (take i rest))) s); [lia|].
    destruct rest as [|sz1 rest']; [destruct i; discriminate Hi|].
    rewrite u64_small by lia.
    replace (s + (sz0 + zsum (take i (sz1 :: rest'))))
      with ((s + sz0) + zsum (take i (sz1 :: rest'))) by lia.
    apply IH; [exact Hrest | lia | lia | exact Hi].
Qed.

Lemma field_size_loop_missing : forall sizes s target,
  Forall (fun sz => 0 < sz) sizes -> 0 <= s -> s + zsum sizes < 2 ^ 64 ->
  sizes <> [] ->
  (forall i, (i < length sizes)%nat -> s + zsum (take i sizes) <> target) ->
  field_size_loop target s sizes = Err AssertFailed.
Proof.
  induction sizes as [|sz0 rest IH]; intros s target Hpos Hs Hfit Hne Hmiss;
    [contradiction|].
  pose proof (Forall_inv Hpos) as Hsz0. cbn beta in Hsz0.
  pose proof (Forall_inv_tail Hpos) as Hrest.
  cbn [zsum] in Hfit. cbn [field_size_loop].
  pose proof (Hmiss 0%nat ltac:(cbn; lia)) as H0. cbn [take zsum] in H0.
  destruct (Z.eqb_spec target s); [lia|].
  destruct rest as [|sz1 rest']; [reflexivity|].
  rewrite u64_small by (pose proof (zsum_nonneg _ Hrest); lia).
  apply IH; [exact Hrest | lia | lia | discriminate|].
  intros i Hi. specialize (Hmiss (S i) ltac:(cbn in *; lia)).
  cbn [take zsum] in Hmiss. lia.
Qed.

Lemma find_field_size_found sizes i sz :
  proper_sizes sizes -> sizes !! i = Some sz ->
  find_field_size sizes (field_start sizes i) = Ok sz.
Proof.
  intros [Hpos Hfit] Hi. unfold find_field_size, field_start.
  destruct sizes as [|sz0 rest]; [rewrite lookup_nil in Hi; discriminate|].
  cbn [is_nil negb assert mbind result_bind].
  apply (field_size_loop_found (sz0 :: rest) 0 i sz Hpos); [lia | lia | exact Hi].
Qed.

Lemma find_field_size_missing sizes target :
  proper_sizes sizes ->
  (forall i, (i < length sizes)%nat -> field_start sizes i <> target) ->
  find_field_size sizes target = Err AssertFailed.
Proof.
  intros [Hpos Hfit] Hmiss. unfold find_field_size.
  destruct sizes as [|sz0 rest]; [reflexivity|].
  cbn [is_nil negb assert mbind result_bind].
  apply field_size_loop_missing; [exact Hpos | lia | lia | discriminate|].
  intros i Hi. cbn [Z.add]. apply Hmiss, Hi.
Qed.

(** Looking a field up either finds a size or stops on an assertion. *)
Lemma find_field_size_outcome sizes target :
  proper_sizes sizes ->
  (exists sz, find_field_size sizes target = Ok sz)
  \/ find_field_size sizes target = Err AssertFailed.
Proof.
  intros Hproper.
  assert (Hdec : forall n, (n <= length sizes)%nat ->
            (exists i, (i < n)%nat /\ field_start sizes i = target)
            \/ (forall i, (i < n)%nat -> field_start sizes i <> target)).
  { induction n as [|n IH]; intros Hn; [right; intros; lia|].
    destruct (IH ltac:(lia)) as [(i & Hi & Heq)|Hnone].
    - left. exists i. split; [lia | exact Heq].
    - destruct (Z.eq_dec (field_start sizes n) target) as [Heq|Hne].
      + left. exists n. split; [lia | exact Heq].
      + right. intros i Hi. destruct (Nat.eq_dec i n) as [->|]; [exact Hne|].
        apply Hnone. lia. }
  destruct (Hdec (length sizes) (le_n _)) as [(i & Hi & <-)|Hnone].
  - left. destruct (lookup_lt_is_Some_2 sizes i Hi) as [sz Hsz].
    exists sz. apply find_field_size_found; assumption.
  - right. apply find_field_size_missing; assumption.
Qed.

Lemma collect_fields_found sizes : forall idxs,
  proper_sizes sizes ->
  Forall (fun i => (i < length sizes)%nat) idxs ->
  collect_fields sizes (map (field_start sizes) idxs)
  = Ok (map (field_start sizes) idxs, map (fun i => nth i sizes 0) idxs).
Proof.
  intros idxs Hproper. induction 1 as [|i idxs Hi _ IH]; [reflexivity|].
  cbn [map collect_fields].
  destruct (lookup_lt_is_Some_2 sizes i Hi) as [sz Hsz].
  rewrite (find_field_size_found sizes i sz Hproper Hsz).
  cbn [mbind result_bind]. rewrite IH. cbn [mbind result_bind].
  rewrite (nth_lookup_Some _ _ 0 _ Hsz). reflexivity.
Qed.

Lemma collect_fields_missing sizes : forall fields f,
  proper_sizes sizes ->
  In f fields ->
  (forall i, (i < length sizes)%nat -> field_start sizes i <> f) ->
  collect_fields sizes fields = Err AssertFailed.
Proof.
  intros fields f Hproper.
  induction fields as [|f0 fields IH]; intros Hin Hmiss; [contradiction|].
  cbn [collect_fields].
  destruct Hin as [->|Hin].
  - rewrite (find_field_size_missing sizes f Hproper Hmiss). reflexivity.
  - destruct (find_field_size_outcome sizes f0 Hproper) as [(sz & ->)| ->];
      [|reflexivity].
    cbn [mbind result_bind]. rewrite (IH Hin Hmiss). reflexivity.
Qed.

(** X12.  The fields of a new rectangle iterator.  Fields are named by the
    byte at which they start in an element of the instance.  Over a
    rectangle with points, the constructor takes every such field with the
    size the instance gives it, in the order asked for, and the iterator
    starts on the low corner with work to do; a field that starts where no
    field of the instance starts stops the constructor on its assertion.
    Over an empty rectangle, or without fields, the iterator is done from
    the start and stays so after a reset. *)
Theorem new_rect_iterator_fields (volume : Rect -> Z)
    (get_instance_impl : RegionInstance -> InstanceImpl) (DIM : nat) (r : Rect)
    (inst : RegionInstance) (fields : list Z) (next_p0 : Point) (next_idx0 : nat) :
  let sizes := metadata_field_sizes (get_instance_impl inst) in
  let new := new_rect_iterator volume get_instance_impl DIM r inst fields
               next_p0 next_idx0 in
  proper_sizes sizes ->
  (volume r = 0 \/ fields = [] ->
   exists it, new = Ok it
     /\ TransferIteratorRect.done it = true
     /\ TransferIteratorRect.done (TransferIteratorRect.reset it) = true)
  /\ (volume r <> 0 -> fields <> [] ->
      forall idxs,
        fields = map (field_start sizes) idxs ->
        Forall (fun i => (i < length sizes)%nat) idxs ->
        exists it, new = Ok it
          /\ TransferIteratorRect.field_offsets it = fields
          /\ TransferIteratorRect.field_sizes it = map (fun i => nth i sizes 0) idxs
          /\ TransferIteratorRect.p it = lo r
          /\ TransferIteratorRect.done it = false)
  /\ (volume r <> 0 ->
      forall f, In f fields ->
        (forall i, (i < length sizes)%nat -> field_start sizes i <> f) ->
        new = Err AssertFailed).
Proof.
  intros sizes new Hproper. subst new. unfold new_rect_iterator. fold sizes.
  split; [|split].
  - intros Hdegenerate.
    assert (Hcond : (volume r =? 0) || is_nil fields = true).
    { destruct Hdegenerate as [-> | ->]; [reflexivity | apply orb_true_r]. }
    rewrite Hcond. eexists. split; [reflexivity|]. split; reflexivity.
  - intros Hvol Hfields idxs -> Hidxs.
    destruct (Z.eqb_spec (volume r) 0); [contradiction|].
    destruct idxs as [|i idxs]; [contradiction|].
    cbn [map is_nil orb].
    change (field_start sizes i :: map (field_start sizes) idxs)
      with (map (field_start sizes) (i :: idxs)).
    rewrite (collect_fields_found sizes (i :: idxs) Hproper Hidxs).
    cbn [mbind result_bind]. eexists. split; [reflexivity|].
    repeat split.
  - intros Hvol f Hin Hmiss.
    destruct (Z.eqb_spec (volume r) 0); [contradiction|].
    destruct fields as [|f0 fields]; [contradiction|].
    cbn [is_nil orb].
    rewrite (collect_fields_missing sizes (f0 :: fields) f Hproper Hin Hmiss).
    reflexivity.
Qed.

Lemma grid_sizes_proper : proper_sizes [4; 8; 4].
Proof.
  split; [|cbn; lia].
  repeat (apply List.Forall_cons; [lia|]). apply List.Forall_nil.
Qed.

Lemma new_rect_iterator_fields_witness :
  exists it,
    new_rect_iterator grid_volume grid_instance 2 grid 1 [12; 4] [] 0 = Ok it
    /\ TransferIteratorRect.field_offsets it = [12; 4]
    /\ TransferIteratorRect.field_sizes it = [4; 8]
    /\ TransferIteratorRect.p it = lo grid
    /\ TransferIteratorRect.done it = false.
Proof.
  refine (proj1 (proj2 (new_rect_iterator_fields grid_volume grid_instance 2 grid
                          1 [12; 4] [] 0 grid_sizes_proper))
            _ _ [2; 1]%nat eq_refl _).
  - cbn. lia.
  - discriminate.
  - repeat (apply List.Forall_cons; [cbn; lia|]). apply List.Forall_nil.
Defined.

End IteratorFields.

(** ** Rounds of a GPU thread *)

Section Scheduling.
Import GPU GPUNotions JobNotions CopyQueue Examples MoreExamples.

Lemma with_sched_same (g : GPUProcessor) :
  with_sched (shutdown_trigger g) (current_stream g) (task_queue g)
    (complete_jobs g) (resumable_threads g) (available_threads g)
    (running_thread g) g = g.
Proof. destruct g. reflexivity. Qed.

Lemma set_procs_same this g st :
  procs st !! this = Some g -> set_procs <[this := g]> st = st.
Proof.
  intros H. unfold set_procs. rewrite (insert_id _ _ _ H). destruct st. reflexivity.
Qed.

(** A round that finds only copies to do leaves everything as it is. *)
Lemma execute_gpu_copies_only (task_table : Z -> list CUfunction)
    (st : State) (this thread : Z) (g : GPUProcessor) :
  procs st !! this = Some g ->
  running_thread g = Some thread ->
  resumable_threads g = [] -> task_queue g = [] -> complete_jobs g = [] ->
  gpu_worker g = false -> copies g <> [] ->
  execute_gpu task_table this thread st = Ok (Worked, shutdown g, st).
Proof.
  intros Hg Hrun Hres Htq Hcj Hworker Hcopies.
  unfold execute_gpu, get_proc. rewrite Hg.
  cbn [of_option mbind result_bind]. rewrite Hrun.
  rewrite bool_decide_eq_true_2 by reflexivity.
  cbn [assert mbind result_bind]. rewrite Hres, Htq, Hworker, Hcj.
  destruct (copies g) as [|c cs] eqn:Hc; [contradiction|].
  cbn [Transfer.is_nil andb orb mbind result_bind finish_all].
  assert (Hsame : with_sched (shutdown_trigger g || false) (current_stream g)
                    [] [] [] (available_threads g) (Some thread) g = g).
  { rewrite orb_false_r, <- Htq at 1. rewrite <- Hcj at 1. rewrite <- Hres at 1.
    rewrite <- Hrun. apply with_sched_same. }
  rewrite Hsame, (set_procs_same this g st Hg), Hg. reflexivity.
Qed.

(** X13.  A copy enqueued on a processor without DMA worker is never
    issued.  [enqueue_copy] queues it and wakes the thread that went to
    sleep last; from then on every round of that thread finds work, does
    none of it and leaves the state as it is: the thread goes round and
    round without sleeping, the copy stays queued, the driver sees no call
    and no event is triggered, unless the processor is shut down, in which
    case the thread quits with the copy still queued. *)
Theorem copy_without_worker_never_issued (task_table : Z -> list CUfunction)
    (worker_copies : gmap Z (list Z)) (st : State) (this thread copy : Z)
    (g : GPUProcessor) (sleeping : list Z) :
  procs st !! this = Some g ->
  gpu_worker g = false ->
  running_thread g = None -> available_threads g = sleeping ++ [thread] ->
  resumable_threads g = [] -> task_queue g = [] -> complete_jobs g = [] ->
  exists st1,
    enqueue_copy this copy worker_copies st = Ok (worker_copies, st1)
    /\ proc_field running_thread this st1 = Some (Some thread)
    /\ proc_field available_threads this st1 = Some sleeping
    /\ proc_field copies this st1 = Some (copies g ++ [copy])
    /\ driver st1 = driver st /\ triggered st1 = triggered st
    /\ forall rounds,
         thread_main_loop task_table (S rounds) this thread st1
         = Ok (if shutdown g then Quit else Running, st1).
Proof.
  intros Hg Hworker Hrun Hav Hres Htq Hcj.
  unfold enqueue_copy, get_proc. rewrite Hg.
  cbn [of_option mbind result_bind]. rewrite Hworker.
  cbn [with_copies running_thread available_threads shutdown_trigger
       current_stream task_queue complete_jobs resumable_threads].
  rewrite Hrun, Hav, rev_app_distr. cbn [rev app]. rewrite rev_involutive.
  eexists. split; [reflexivity|].
  match goal with |- proc_field _ _ (set_procs <[_ := ?x]> _) = _ /\ _ =>
    set (g1 := x) end.
  set (st1 := set_procs <[this := g1]> st).
  assert (Hg1 : procs st1 !! this = Some g1) by apply lookup_insert_eq.
  unfold proc_field. rewrite Hg1.
  split; [reflexivity|]. split; [reflexivity|]. split; [reflexivity|].
  split; [reflexivity|]. split; [reflexivity|].
  assert (Hround : execute_gpu task_table this thread st1
                   = Ok (Worked, shutdown g, st1)).
  { apply (execute_gpu_copies_only task_table st1 this thread g1 Hg1);
      [reflexivity | exact Hres | exact Htq | exact Hcj | exact Hworker |].
    unfold g1. cbn [with_sched with_copies copies]. intros Hnil.
    destruct (copies g); discriminate Hnil. }
  intros rounds. induction rounds as [|rounds IH].
  - cbn [thread_main_loop]. rewrite Hround. cbn [mbind result_bind].
    destruct (shutdown g); reflexivity.
  - change (thread_main_loop task_table (S (S rounds)) this thread st1)
      with ('(outcome, quit, st') ← execute_gpu task_table this thread st1;
            match outcome with
            | Worked =>
                if (quit : bool) then Ok (Quit, st')
                else thread_main_loop task_table (S rounds) this thread st'
            | _ => Ok (Suspended, st')
            end).
    rewrite Hround. cbn [mbind result_bind].
    destruct (shutdown g) eqn:Hs; [reflexivity|].
    rewrite IH. reflexivity.
Qed.

Lemma copy_without_worker_never_issued_witness :
  exists st1,
    enqueue_copy 1 300 ∅ copying_gpus = Ok (∅, st1)
    /\ proc_field running_thread 1 st1 = Some (Some 0)
    /\ proc_field available_threads 1 st1 = Some []
    /\ proc_field copies 1 st1 = Some ([] ++ [300])
    /\ driver st1 = [] /\ triggered st1 = ∅
    /\ forall rounds,
         thread_main_loop gpu_task_table (S rounds) 1 0 st1
         = Ok (Running, st1).
Proof.
  exact (copy_without_worker_never_issued gpu_task_table ∅ copying_gpus 1 0
           300 copying_gpu [] eq_refl eq_refl eq_refl eq_refl eq_refl eq_refl
           eq_refl).
Defined.

Lemma set_procs_procs f st : procs (set_procs f st) = f (procs st).
Proof. reflexivity. Qed.

(** X14.  An idle processor without DMA worker: the round of its thread puts
    the thread to sleep at the back of the available threads; the completion
    of a copy then wakes that very thread, and its next round finishes the
    copy.  Afterwards the processor is as it was before the thread slept, the
    event of the copy is triggered and the driver has seen no call. *)
Theorem sleep_wake_finish (task_table : Z -> list CUfunction)
    (st : State) (this thread : Z) (g : GPUProcessor) (job : Z)
    (gpu : Z) (kind : GPUMemcpyKind) (e : Event) :
  let j := GPUMemcpy gpu kind e in
  procs st !! this = Some g ->
  running_thread g = Some thread ->
  resumable_threads g = [] -> task_queue g = [] ->
  gpu_worker g = false -> copies g = [] -> complete_jobs g = [] ->
  jobs st !! job = Some j ->
  exists st1 st2 st3,
    execute_gpu task_table this thread st = Ok (Slept, shutdown g, st1)
    /\ proc_field running_thread this st1 = Some None
    /\ proc_field available_threads this st1
       = Some (available_threads g ++ [thread])
    /\ handle_complete_job this job st1 = Ok st2
    /\ proc_field running_thread this st2 = Some (Some thread)
    /\ proc_field available_threads this st2 = Some (available_threads g)
    /\ proc_field complete_jobs this st2 = Some [job]
    /\ execute_gpu task_table this thread st2 = Ok (Worked, shutdown g, st3)
    /\ procs st3 = procs st /\ jobs st3 = jobs st /\ driver st3 = driver st
    /\ triggered st3 = after_finish e (triggered st).
Proof.
  intros j Hg Hrun Hres Htq Hworker Hcopies Hcj Hjob.
  change e with (job_finish_event j).
  set (g1 := with_sched (shutdown_trigger g) (current_stream g) [] [] []
               (available_threads g ++ [thread]) None g).
  set (g2 := with_sched (shutdown_trigger g) (current_stream g) [] [job] []
               (available_threads g) (Some thread) g).
  set (st1 := set_procs <[this := g1]> st).
  set (st2 := set_procs <[this := g2]> st1).
  assert (Hg3 : with_sched (shutdown_trigger g || false) (current_stream g)
                  [] [] [] (available_threads g) (Some thread) g = g).
  { rewrite orb_false_r, <- Htq at 1. rewrite <- Hcj at 1. rewrite <- Hres at 1.
    rewrite <- Hrun. apply with_sched_same. }
  assert (H1 : execute_gpu task_table this thread st
               = Ok (Slept, shutdown g, st1)).
  { unfold execute_gpu, get_proc. rewrite Hg.
    cbn [of_option mbind result_bind]. rewrite Hrun.
    rewrite bool_decide_eq_true_2 by reflexivity.
    cbn [assert mbind result_bind].
    rewrite Hres, Htq, Hworker, Hcopies, Hcj. reflexivity. }
  assert (H2 : handle_complete_job this job st1 = Ok st2).
  { unfold handle_complete_job, get_proc, st1.
    rewrite set_procs_procs, lookup_insert_eq.
    cbn [of_option mbind result_bind g1 with_sched gpu_worker running_thread
         available_threads complete_jobs task_queue resumable_threads
         shutdown_trigger current_stream].
    rewrite Hworker, rev_app_distr. cbn [rev app]. rewrite rev_involutive.
    reflexivity. }
  assert (H3 : exists st3,
             execute_gpu task_table this thread st2
             = Ok (Worked, shutdown g, st3)
             /\ procs st3 = procs st /\ jobs st3 = jobs st
             /\ driver st3 = driver st
             /\ triggered st3
                = after_finish (job_finish_event j) (triggered st)).
  { unfold execute_gpu, get_proc, st2.
    rewrite set_procs_procs, lookup_insert_eq.
    cbn [of_option mbind result_bind g2 with_sched gpu_worker running_thread
         available_threads complete_jobs task_queue resumable_threads
         shutdown_trigger current_stream copies].
    rewrite bool_decide_eq_true_2 by reflexivity.
    cbn [assert mbind result_bind]. rewrite Hworker, andb_false_r.
    cbn [Transfer.is_nil andb orb mbind result_bind finish_all].
    unfold finish_job, st1. cbn [jobs set_procs].
    rewrite Hjob. cbn [of_option mbind result_bind].
    fold (job_finish_event j). unfold after_finish.
    change (with_sched (shutdown_trigger g || false) (current_stream g)
              [] [] [] (available_threads g) (Some thread) g2)
      with (with_sched (shutdown_trigger g || false) (current_stream g)
              [] [] [] (available_threads g) (Some thread) g).
    rewrite Hg3.
    assert (Hprocs : <[this := g]> (<[this := g2]> (<[this := g1]> (procs st)))
                     = procs st).
    { rewrite !insert_insert_eq. apply insert_id, Hg. }
    destruct (event_exists (job_finish_event j));
      cbn [trigger set_procs procs jobs driver triggered];
      rewrite lookup_insert_eq; cbn [of_option mbind result_bind];
      (eexists; split; [reflexivity|]);
      cbn [procs jobs driver triggered]; auto. }
  destruct H3 as (st3 & H3 & Hp & Hj & Hd & Ht).
  exists st1, st2, st3. unfold proc_field, st2, st1.
  rewrite !set_procs_procs, !lookup_insert_eq.
  repeat split; assumption.
Qed.

Lemma sleep_wake_finish_witness :
  exists st1 st2 st3,
    execute_gpu gpu_task_table 1 0 idle_gpus = Ok (Slept, false, st1)
    /\ proc_field running_thread 1 st1 = Some None
    /\ proc_field available_threads 1 st1 = Some [7; 0]
    /\ handle_complete_job 1 90 st1 = Ok st2
    /\ proc_field running_thread 1 st2 = Some (Some 0)
    /\ proc_field available_threads 1 st2 = Some [7]
    /\ proc_field complete_jobs 1 st2 = Some [90]
    /\ execute_gpu gpu_task_table 1 0 st2 = Ok (Worked, false, st3)
    /\ procs st3 = procs idle_gpus /\ jobs st3 = jobs idle_gpus
    /\ driver st3 = []
    /\ triggered st3 = after_finish (4, 1) ∅.
Proof.
  exact (sleep_wake_finish gpu_task_table idle_gpus 1 0 idle_gpu 90
           1 GPU_MEMCPY_HOST_TO_DEVICE (4, 1)
           eq_refl eq_refl eq_refl eq_refl eq_refl eq_refl eq_refl eq_refl).
Defined.

(** X15.  The kill pill (function 0) and a task that has been run before are
    taken off the queue without a launch: no job is made, the driver sees no
    call and the current stream stays (the completed jobs that the round
    finishes on its way being copies).  The kill pill sets the shutdown
    trigger and, on its first run, triggers its finish event; the round
    still returns the [shutdown] flag, which it does not write. *)
Theorem execute_gpu_skips_task (task_table : Z -> list CUfunction)
    (st : State) (this thread : Z) (g : GPUProcessor) (t : Task)
    (tq : list Task) :
  procs st !! this = Some g ->
  running_thread g = Some thread ->
  resumable_threads g = [] ->
  task_queue g = t :: tq ->
  func_id t = 0 \/ run_count t <> 0 ->
  (gpu_worker g = false ->
   forall job, In job (complete_jobs g) -> is_copy_job st job) ->
  exists st' g',
    execute_gpu task_table this thread st = Ok (Worked, shutdown g, st')
    /\ procs st' !! this = Some g'
    /\ task_queue g' = tq
    /\ current_stream g' = current_stream g
    /\ shutdown_trigger g' = shutdown_trigger g || (func_id t =? 0)
    /\ shutdown g' = shutdown g
    /\ jobs st' = jobs st /\ next_job st' = next_job st
    /\ driver st' = driver st
    /\ (func_id t = 0 -> run_count t = 0 -> finish_event t ∈ triggered st')
    /\ (func_id t <> 0 -> gpu_worker g = true -> triggered st' = triggered st).
Proof.
  intros Hg Hrun Hres Htq Hskip Hlive.
  set (to_complete := if gpu_worker g then [] else complete_jobs g).
  set (g1 := with_sched (shutdown_trigger g || (func_id t =? 0))
               (current_stream g) tq (if gpu_worker g then complete_jobs g else [])
               [] (available_threads g) (running_thread g) g).
  set (st0 := set_procs <[this := g1]> st).
  set (st1 := if (func_id t =? 0) && (run_count t =? 0)
              then trigger (finish_event t) st0 else st0).
  assert (Hlive1 : forall job, In job to_complete -> is_Some (jobs st1 !! job)).
  { intros job Hin. unfold to_complete in Hin.
    destruct (gpu_worker g) eqn:Hw; [destruct Hin|].
    destruct (Hlive eq_refl job Hin) as (gpu & kind & e & Hjob).
    unfold st1. destruct (_ && _); cbn; rewrite Hjob; eauto. }
  destruct (finish_all_Ok to_complete st1 Hlive1) as [st' Hfin].
  destruct (finish_all_keeps _ _ _ Hfin) as (Ej & Ep & Ew & Ed & Hsub).
  assert (Hnext : next_job st' = next_job st1).
  { exact (finish_all_next_job _ _ _ Hfin). }
  assert (Hp1 : procs st1 !! this = Some g1).
  { unfold st1. destruct (_ && _); cbn; apply lookup_insert_eq. }
  exists st', g1.
  split.
  { unfold execute_gpu, get_proc. rewrite Hg.
    cbn [of_option mbind result_bind]. rewrite Hrun.
    rewrite bool_decide_eq_true_2 by reflexivity.
    cbn [assert mbind result_bind]. rewrite Hres, Htq.
    cbn [Transfer.is_nil andb].
    fold to_complete. rewrite <- Hrun. fold g1. fold st0.
    assert (Hpop :
      (if func_id t =? 0
       then Ok (None, if run_count t =? 0
                      then trigger (finish_event t) st0 else st0)
       else if run_count t =? 0
            then stream ← get_current_task_stream g1;
                 (let '(job, st) := new_job (GPUTask this t stream) st0 in
                  Ok (Some job, st))
            else Ok (None, st0))
      = Ok (@None Z, st1)).
    { unfold st1. destruct (func_id t =? 0) eqn:Hf; cbn [andb].
      - reflexivity.
      - destruct (run_count t =? 0) eqn:Hr; [|reflexivity].
        destruct Hskip; lia. }
    rewrite Hpop. cbn [mbind result_bind]. rewrite Hfin.
    cbn [mbind result_bind]. unfold get_proc. rewrite Ep, Hp1. reflexivity. }
  rewrite Ep, Ej, Ed, Hnext.
  split; [exact Hp1|].
  split; [reflexivity|]. split; [reflexivity|]. split; [reflexivity|].
  split; [reflexivity|].
  split; [unfold st1; destruct (_ && _); reflexivity|].
  split; [unfold st1; destruct (_ && _); reflexivity|].
  split; [unfold st1; destruct (_ && _); reflexivity|].
  split.
  - intros Hf Hr. apply Hsub. unfold st1.
    rewrite Hf, Hr. cbn. apply elem_of_union. left.
    apply elem_of_singleton. reflexivity.
  - intros Hf Hw. unfold to_complete in Hfin. rewrite Hw in Hfin.
    cbn in Hfin. injection Hfin as <-. unfold st1.
    destruct (func_id t =? 0) eqn:E; [lia|]. reflexivity.
Qed.

Lemma execute_gpu_skips_task_witness :
  exists st' g',
    execute_gpu gpu_task_table 1 0 stopping_gpus = Ok (Worked, false, st')
    /\ procs st' !! 1 = Some g'
    /\ task_queue g' = [gpu_task]
    /\ current_stream g' = 1
    /\ shutdown_trigger g' = true
    /\ shutdown g' = false
    /\ jobs st' = ∅ /\ next_job st' = 100
    /\ driver st' = []
    /\ (77, 2) ∈ triggered st'.
Proof.
  destruct (execute_gpu_skips_task gpu_task_table stopping_gpus 1 0
              (gpu 1 [kill_pill; gpu_task]) kill_pill [gpu_task]
              eq_refl eq_refl eq_refl eq_refl (or_introl eq_refl))
    as (st' & g' & H & Hp & Hq & Hc & Ht & Hs & Hj & Hn & Hd & Hev & _).
  { intros _ job []. }
  exists st', g'. repeat split; try assumption.
  exact (Hev eq_refl eq_refl).
Defined.

Lemma finish_all_finishes l : forall st st' job j,
  finish_all l st = Ok st' ->
  In job l ->
  jobs st !! job = Some j ->
  after_finish (job_finish_event j) (triggered st) ⊆ triggered st'.
Proof.
  induction l as [|job0 l IH]; intros st st' job j H Hin Hjob; [destruct Hin|].
  cbn in H. destruct (finish_job job0 st) as [st1|] eqn:H1; [|discriminate].
  cbn in H. destruct Hin as [->|Hin].
  - apply finish_all_keeps in H as (_ & _ & _ & _ & Hsub).
    etransitivity; [|exact Hsub].
    unfold finish_job in H1. rewrite Hjob in H1. cbn in H1.
    fold (job_finish_event j) in H1. injection H1 as <-.
    unfold after_finish. destruct (event_exists _); reflexivity.
  - pose proof (finish_job_keeps _ _ _ H1) as (E1 & _ & _ & _ & Hsub).
    etransitivity; [|apply (IH st1 st' job j H Hin); rewrite E1; exact Hjob].
    unfold after_finish. destruct (event_exists _); [|exact Hsub].
    apply union_mono_l, Hsub.
Qed.

(** X16.  With a DMA worker attached, a completed copy goes to the queue the
    worker keeps for the processor: the processor itself is not touched and
    no thread of it is woken.  The next round of the worker empties that
    queue and finishes the copies in it between a push and a pop of the
    context of the processor, which triggers the event of the copy. *)
Theorem worker_finishes_job (st : State) (this : Z) (g : GPUProcessor)
    (job : Z) (gpu : Z) (kind : GPUMemcpyKind) (e : Event) :
  let j := GPUMemcpy gpu kind e in
  procs st !! this = Some g ->
  gpu_worker g = true ->
  jobs st !! job = Some j ->
  (forall job', In job' (pending_completions this st) ->
                is_copy_job st job') ->
  exists st1 st2,
    handle_complete_job this job st = Ok st1
    /\ procs st1 = procs st /\ driver st1 = driver st
    /\ triggered st1 = triggered st
    /\ pending_completions this st1 = pending_completions this st ++ [job]
    /\ worker_drain this st1 = Ok st2
    /\ pending_completions this st2 = []
    /\ procs st2 = procs st
    /\ driver st2 = driver st ++ [cuCtxPushCurrent (proc_ctx g);
                                  cuCtxPopCurrent (proc_ctx g)]
    /\ after_finish e (triggered st) ⊆ triggered st2.
Proof.
  intros j Hg Hworker Hjob Hlive.
  change e with (job_finish_event j).
  assert (Hpend : pending_completions this st
                  = default [] (worker_jobs st !! this)).
  { unfold pending_completions. rewrite Hg, Hworker. reflexivity. }
  rewrite Hpend in *.
  set (old := default [] (worker_jobs st !! this)) in *.
  set (st1 := set_worker_jobs (fun m => <[this := old ++ [job]]> m) st).
  set (st1' := call [cuCtxPushCurrent (proc_ctx g)]
                 (set_worker_jobs <[this := []]> st1)).
  assert (Hlive1 : forall job', In job' (old ++ [job]) ->
                                is_Some (jobs st1' !! job')).
  { intros job' Hin. apply in_app_or in Hin as [Hin|[<-|[]]].
    - destruct (Hlive job' Hin) as (gpu' & kind' & e' & Hjob'). eauto.
    - exists j. exact Hjob. }
  destruct (finish_all_Ok _ st1' Hlive1) as [st2 Hfin].
  destruct (finish_all_keeps _ _ _ Hfin) as (Ej & Ep & Ew & Ed & Hsub).
  exists st1, (call [cuCtxPopCurrent (proc_ctx g)] st2).
  split.
  { unfold handle_complete_job, get_proc. rewrite Hg. cbn. rewrite Hworker.
    reflexivity. }
  split; [reflexivity|]. split; [reflexivity|]. split; [reflexivity|].
  split.
  { unfold pending_completions. cbn. rewrite Hg, Hworker.
    rewrite lookup_insert_eq. reflexivity. }
  split.
  { unfold worker_drain. cbn [st1 worker_jobs set_worker_jobs].
    rewrite lookup_insert_eq.
    destruct (old ++ [job]) as [|a q] eqn:Hq.
    { destruct old; discriminate Hq. }
    unfold finish_jobs, get_proc.
    change (procs (set_worker_jobs <[this:=[]]> st1) !! this)
      with (procs st !! this).
    rewrite Hg. cbn [of_option mbind result_bind].
    fold st1'. rewrite Hfin. reflexivity. }
  split.
  { unfold pending_completions. cbn [procs call]. rewrite Ep. cbn.
    rewrite Hg, Hworker, Ew. cbn. rewrite lookup_insert_eq. reflexivity. }
  split; [cbn; rewrite Ep; reflexivity|].
  split; [cbn; rewrite Ed; cbn; rewrite <- app_assoc; reflexivity|].
  cbn [triggered call].
  apply (finish_all_finishes _ st1' st2 job j Hfin).
  - apply in_or_app. right. left. reflexivity.
  - exact Hjob.
Qed.

Lemma worker_finishes_job_witness :
  exists st1 st2,
    handle_complete_job 1 90 worker_gpus = Ok st1
    /\ procs st1 = procs worker_gpus /\ driver st1 = []
    /\ triggered st1 = ∅
    /\ pending_completions 1 st1 = [] ++ [90]
    /\ worker_drain 1 st1 = Ok st2
    /\ pending_completions 1 st2 = []
    /\ procs st2 = procs worker_gpus
    /\ driver st2 = [cuCtxPushCurrent 1; cuCtxPopCurrent 1]
    /\ after_finish (4, 1) ∅ ⊆ triggered st2.
Proof.
  refine (worker_finishes_job worker_gpus 1 worker_gpu 90
            1 GPU_MEMCPY_HOST_TO_DEVICE (4, 1)
            eq_refl eq_refl eq_refl _).
  intros job' [].
Defined.

End Scheduling.

(** ** Kernel arguments and launches *)

Section KernelArguments.
Import CudaRuntime CudaNotions MoreExamples.

Lemma memcpy_ok (dst : list (option Byte.byte)) (pos : Z)
    (src : list (option Byte.byte)) (n : Z) :
  0 <= pos -> 0 <= n -> pos + n <= Z.of_nat (length dst) ->
  n <= Z.of_nat (length src) ->
  exists r,
    memcpy dst pos src n = Ok r
    /\ length r = length dst
    /\ (forall i, (Z.to_nat pos <= i < Z.to_nat (pos + n))%nat ->
                  r !! i = src !! (i - Z.to_nat pos)%nat)
    /\ (forall i, ~ (Z.to_nat pos <= i < Z.to_nat (pos + n))%nat ->
                  r !! i = dst !! i).
Proof.
  intros Hpos Hn Hdst Hsrc. unfold memcpy.
  rewrite (proj2 (Z.leb_le 0 pos) Hpos), (proj2 (Z.leb_le 0 n) Hn),
    (proj2 (Z.leb_le _ _) Hdst), (proj2 (Z.leb_le _ _) Hsrc).
  cbn [andb]. eexists. split; [reflexivity|].
  assert (L1 : length (take (Z.to_nat pos) dst) = Z.to_nat pos)
    by (rewrite length_take; lia).
  assert (L2 : length (take (Z.to_nat n) src) = Z.to_nat n)
    by (rewrite length_take; lia).
  split; [|split].
  - rewrite !length_app, L1, L2, length_drop. lia.
  - intros i Hi. rewrite lookup_app_r by (rewrite L1; lia). rewrite L1.
    rewrite lookup_app_l by (rewrite L2; lia). apply lookup_take_lt. lia.
  - intros i Hi. destruct (decide (i < Z.to_nat pos)%nat) as [Hlt|Hge].
    + rewrite lookup_app_l by (rewrite L1; lia). apply lookup_take_lt. exact Hlt.
    + rewrite lookup_app_r by (rewrite L1; lia). rewrite L1.
      rewrite lookup_app_r by (rewrite L2; lia).
      rewrite L2, lookup_drop. f_equal. lia.
Qed.

Lemma u64_id (v : Z) : 0 <= v < 2 ^ 64 -> u64 v = v.
Proof. intros H. unfold u64. apply Z.mod_small. exact H. Qed.

(** One argument: it is stored at its offset, the bytes set up before stay
    where they do not overlap it, also when the buffer is replaced by one of
    twice the required size. *)
Lemma setup_argument_spec (arg : list Byte.byte) (size offset : Z) (s : t) :
  buffer_ok s ->
  0 <= offset -> size = Z.of_nat (length arg) -> offset + size < 2 ^ 63 ->
  exists s',
    internal_setup_argument arg size offset s = Ok s'
    /\ buffer_ok s'
    /\ kernel_arg_size s' = Z.max (kernel_arg_size s) (offset + size)
    /\ kernel_buffer_size s'
       = (if offset + size >? kernel_buffer_size s then 2 * (offset + size)
          else kernel_buffer_size s)
    /\ (forall i b, arg !! i = Some b ->
                    arg_byte s' (offset + Z.of_nat i) = Some (Some b))
    /\ (forall i, 0 <= i < kernel_arg_size s ->
                  ~ (offset <= i < offset + size) ->
                  arg_byte s' i = arg_byte s i)
    /\ launch_configs s' = launch_configs s
    /\ device_functions s' = device_functions s
    /\ proc s' = proc s.
Proof.
  intros [Hlen [Hlo Hhi]] Hoff -> Hwrap.
  set (size := Z.of_nat (length arg)) in *.
  assert (Hsize : 0 <= size) by (unfold size; lia).
  unfold internal_setup_argument.
  rewrite (u64_id (offset + size)) by lia.
  assert (Hsrc : size <= Z.of_nat (length (map Some arg)))
    by (rewrite length_map; unfold size; lia).
  assert (Hargs : forall i b, arg !! i = Some b ->
            map Some arg !! (Z.to_nat (offset + Z.of_nat i) - Z.to_nat offset)%nat
            = Some (Some b)).
  { intros i b Hb.
    replace (Z.to_nat (offset + Z.of_nat i) - Z.to_nat offset)%nat with i by lia.
    change (map Some arg) with (Some <$> arg).
    rewrite list_lookup_fmap, Hb. reflexivity. }
  assert (Hin : forall i b, arg !! i = Some b ->
            (Z.to_nat offset <= Z.to_nat (offset + Z.of_nat i)
             < Z.to_nat (offset + size))%nat).
  { intros i b Hb. apply lookup_lt_Some in Hb. unfold size. lia. }
  destruct (offset + size >? kernel_buffer_size s) eqn:Hgrow.
  - (* a larger buffer *)
    apply Z.gtb_lt in Hgrow.
    rewrite (u64_id ((offset + size) * 2)) by lia.
    set (needed := (offset + size) * 2).
    destruct (memcpy_ok (replicate (Z.to_nat needed) None) 0
                (kernel_arg_buffer s) (kernel_arg_size s))
      as (nb & Hnb & Lnb & Hcopied & Hrest);
      [lia | lia | rewrite length_replicate; lia | lia |].
    cbn [call kernel_arg_buffer kernel_arg_size].
    rewrite Hnb. cbn [mbind result_bind with_buffer call kernel_arg_buffer
                      kernel_buffer_size kernel_arg_size].
    rewrite length_replicate in Lnb.
    destruct (memcpy_ok nb offset (map Some arg) size)
      as (r & Hr & Lr & Hnew & Hold); [lia | lia | lia | exact Hsrc |].
    rewrite Hr. cbn [mbind result_bind].
    eexists. split; [reflexivity|].
    cbn [with_buffer call buffer_ok kernel_arg_buffer kernel_buffer_size
         kernel_arg_size launch_configs device_functions proc].
    unfold buffer_ok, arg_byte.
    cbn [with_buffer call kernel_arg_buffer kernel_buffer_size
         kernel_arg_size].
    assert (Hmax : (if offset + size >? kernel_arg_size s
                    then offset + size else kernel_arg_size s)
                   = Z.max (kernel_arg_size s) (offset + size)).
    { destruct (Z.gtb_spec (offset + size) (kernel_arg_size s)); lia. }
    rewrite Hmax.
    split; [split; [lia | unfold needed; lia]|].
    split; [reflexivity|].
    split; [unfold needed; lia|].
    split; [intros i b Hb; rewrite Hnew by exact (Hin i b Hb);
            exact (Hargs i b Hb)|].
    split; [|repeat split; reflexivity].
    intros i Hi Hout. rewrite Hold by lia.
    rewrite Hcopied by lia. f_equal. lia.
  - (* the buffer is large enough *)
    assert (Hfit : offset + size <= kernel_buffer_size s).
    { destruct (Z.gtb_spec (offset + size) (kernel_buffer_size s));
        [discriminate | assumption]. }
    cbn [mbind result_bind].
    destruct (memcpy_ok (kernel_arg_buffer s) offset (map Some arg) size)
      as (r & Hr & Lr & Hnew & Hold); [lia | lia | lia | exact Hsrc |].
    rewrite Hr. cbn [mbind result_bind].
    eexists. split; [reflexivity|].
    unfold buffer_ok, arg_byte.
    cbn [with_buffer call kernel_arg_buffer kernel_buffer_size
         kernel_arg_size launch_configs device_functions proc].
    assert (Hmax : (if offset + size >? kernel_arg_size s
                    then offset + size else kernel_arg_size s)
                   = Z.max (kernel_arg_size s) (offset + size)).
    { destruct (Z.gtb_spec (offset + size) (kernel_arg_size s)); lia. }
    rewrite Hmax.
    split; [split; lia|].
    split; [reflexivity|].
    split; [reflexivity|].
    split; [intros i b Hb; rewrite Hnew by exact (Hin i b Hb);
            exact (Hargs i b Hb)|].
    split; [|repeat split; reflexivity].
    intros i Hi Hout. apply Hold. lia.
Qed.

(** Setting up arguments calls the driver only for a larger buffer. *)
Lemma setup_argument_calls (arg : list Byte.byte) (size offset : Z) (s s' : t) :
  internal_setup_argument arg size offset s = Ok s' ->
  exists extra, calls s' = calls s ++ extra /\ Forall buffer_call extra.
Proof.
  unfold internal_setup_argument. intros Hrun.
  destruct (u64 (offset + size) >? kernel_buffer_size s).
  - destruct (memcpy _ 0 _ _) as [nb|] eqn:Hnb; [|discriminate Hrun].
    cbn [mbind result_bind] in Hrun.
    destruct (memcpy _ offset _ _) as [b|]; [|discriminate Hrun].
    cbn [mbind result_bind] in Hrun. injection Hrun as <-.
    exists [cuMemAllocHost (u64 (u64 (offset + size) * 2)); cuMemFreeHost].
    cbn [with_buffer call calls]. rewrite <- app_assoc.
    split; [reflexivity|]. repeat constructor.
  - cbn [mbind result_bind] in Hrun.
    destruct (memcpy _ offset _ _) as [b|]; [|discriminate Hrun].
    cbn [mbind result_bind] in Hrun. injection Hrun as <-.
    exists []. cbn [with_buffer calls]. rewrite app_nil_r.
    split; [reflexivity | constructor].
Qed.

Lemma setup_arguments_calls args : forall s s',
  setup_arguments args s = Ok s' ->
  exists extra, calls s' = calls s ++ extra /\ Forall buffer_call extra.
Proof.
  induction args as [|a rest IH]; intros s s' Hrun; cbn [setup_arguments] in Hrun.
  - injection Hrun as <-. exists []. rewrite app_nil_r.
    split; [reflexivity | constructor].
  - destruct (internal_setup_argument _ _ _ s) as [s1|] eqn:H1;
      [|discriminate Hrun].
    cbn [mbind result_bind] in Hrun.
    destruct (setup_argument_calls _ _ _ _ _ H1) as (e1 & Hc1 & He1).
    destruct (IH _ _ Hrun) as (e2 & Hc2 & He2).
    exists (e1 ++ e2). rewrite Hc2, Hc1, <- app_assoc.
    split; [reflexivity | apply Forall_app; auto].
Qed.

Lemma args_end_nonneg args : 0 <= args_end args.
Proof. induction args as [|a rest IH]; cbn [args_end]; lia. Qed.

Lemma setup_arguments_spec args : forall s,
  buffer_ok s -> Forall well_placed args -> all_apart args ->
  exists s',
    setup_arguments args s = Ok s'
    /\ buffer_ok s'
    /\ kernel_arg_size s' = Z.max (kernel_arg_size s) (args_end args)
    /\ Forall (stored (kernel_arg_buffer s')) args
    /\ (forall a, 0 <= a.1 -> arg_end a <= kernel_arg_size s ->
                  Forall (apart a) args ->
                  stored (kernel_arg_buffer s) a ->
                  stored (kernel_arg_buffer s') a)
    /\ launch_configs s' = launch_configs s
    /\ device_functions s' = device_functions s
    /\ proc s' = proc s.
Proof.
  induction args as [|a rest IH]; intros s Hok Hwp Hapart.
  - exists s. cbn [setup_arguments args_end].
    pose proof Hok as [_ [Hlo _]].
    repeat split; try apply Hok; try lia; auto.
  - apply Forall_cons in Hwp as [[Ha1 Ha2] Hwp].
    destruct Hapart as [Hhead Hapart]. unfold arg_end in Ha2.
    destruct (setup_argument_spec a.2 (Z.of_nat (length a.2)) a.1 s
                Hok Ha1 eq_refl Ha2)
      as (s1 & Hrun & Hok1 & Hsize1 & _ & Hnew & Hold & Hl1 & Hf1 & Hp1).
    destruct (IH s1 Hok1 Hwp Hapart)
      as (s' & Hrest & Hok' & Hsize' & Hst & Hkeep & Hl & Hf & Hp).
    exists s'. cbn [setup_arguments args_end]. rewrite Hrun.
    cbn [mbind result_bind].
    split; [exact Hrest|]. split; [exact Hok'|].
    split; [rewrite Hsize', Hsize1; unfold arg_end; lia|].
    split.
    { apply Forall_cons. split; [|exact Hst].
      apply Hkeep; [exact Ha1 | rewrite Hsize1; unfold arg_end; lia
                   | exact Hhead |].
      intros i c Hc. exact (Hnew i c Hc). }
    split.
    { intros b Hb1 Hb2 Hb3 Hb4. apply Forall_cons in Hb3 as [Hba Hb3].
      apply Hkeep; [exact Hb1 | rewrite Hsize1; lia | exact Hb3 |].
      intros i c Hc. rewrite <- (Hb4 i c Hc).
      pose proof (lookup_lt_Some _ _ _ Hc) as Hlt.
      apply Hold.
      - unfold arg_end in Hb2. lia.
      - unfold apart, arg_end in Hba. lia. }
    rewrite Hl, Hf, Hp. auto.
Qed.

Lemma launch_run (func : Z) (s : t) (cs : list LaunchConfig)
    (c : LaunchConfig) (stream : GPU.CUstream) :
  launch_configs s = cs ++ [c] ->
  GPU.get_current_task_stream (proc s) = Ok stream ->
  internal_launch func s
  = Ok (with_buffer (kernel_arg_buffer s) (kernel_buffer_size s) 0
          (with_launch_configs cs
             (call [cuLaunchKernel (launched_function s func) (grid c)
                      (block c) (shared c) stream (kernel_arg_buffer s)
                      (kernel_arg_size s)] s))).
Proof.
  intros Hcs Hstream. unfold internal_launch.
  rewrite Hcs, last_snoc, Hstream. cbn [mbind result_bind call launch_configs].
  rewrite Hcs, removelast_last. reflexivity.
Qed.

(** X17.  A configured call, arguments that do not overlap set up in any
    order, then the launch: the driver is called for larger argument buffers
    and then for one launch and nothing else, the launch being the last
    call.  It has the grid, the block and the shared memory of the
    configuration and goes to the current task stream; the buffer it is
    handed holds every argument at its offset, its size being the end of the
    last argument.  Afterwards the configuration is gone and the argument
    size is back at 0. *)
Theorem launch_passes_arguments (grid_dim block_dim : dim3) (shared_mem : Z)
    (args : list (Z * list Byte.byte)) (func : Z) (s : t)
    (stream : GPU.CUstream) :
  buffer_ok s -> kernel_arg_size s = 0 ->
  Forall well_placed args -> all_apart args ->
  GPU.get_current_task_stream (proc s) = Ok stream ->
  exists s1 s2 buffer extra,
    setup_arguments args
      (internal_configure_call grid_dim block_dim shared_mem s) = Ok s1
    /\ internal_launch func s1 = Ok s2
    /\ calls s2
       = calls s ++ extra
         ++ [cuLaunchKernel (launched_function s func) grid_dim block_dim
               shared_mem stream buffer (args_end args)]
    /\ Forall buffer_call extra
    /\ args_end args <= Z.of_nat (length buffer)
    /\ Forall (stored buffer) args
    /\ launch_configs s2 = launch_configs s
    /\ kernel_arg_size s2 = 0
    /\ buffer_ok s2.
Proof.
  intros Hok Hzero Hwp Hapart Hstream.
  set (s0 := internal_configure_call grid_dim block_dim shared_mem s).
  assert (Hok0 : buffer_ok s0) by exact Hok.
  destruct (setup_arguments_spec args s0 Hok0 Hwp Hapart)
    as (s1 & Hrun & Hok1 & Hsize & Hst & _ & Hl & Hf & Hp).
  cbn [s0 internal_configure_call with_launch_configs launch_configs
       device_functions proc kernel_arg_size] in Hsize, Hl, Hf, Hp.
  rewrite Hzero in Hsize. pose proof (args_end_nonneg args) as Hnn.
  rewrite Z.max_r in Hsize by exact Hnn.
  rewrite <- Hp in Hstream.
  pose proof (launch_run func s1 _ _ stream Hl Hstream) as Hlaunch.
  destruct (setup_arguments_calls args s0 s1 Hrun) as (extra & Hcalls & Hextra).
  eexists s1, _, (kernel_arg_buffer s1), extra.
  split; [exact Hrun|]. split; [exact Hlaunch|].
  cbn [with_buffer with_launch_configs call calls launch_configs
       kernel_arg_size grid block shared].
  destruct Hok1 as [Hlen [Hlo Hhi]].
  split.
  { rewrite Hcalls, Hsize, <- app_assoc. unfold launched_function. rewrite Hf.
    reflexivity. }
  split; [exact Hextra|].
  split; [lia|]. split; [exact Hst|].
  split; [reflexivity|]. split; [reflexivity|].
  unfold buffer_ok.
  cbn [with_buffer with_launch_configs call kernel_arg_buffer
       kernel_buffer_size kernel_arg_size]. lia.
Qed.

Lemma launch_passes_arguments_witness :
  exists s1 s2 buffer extra,
    setup_arguments two_args
      (internal_configure_call unit_dim row_dim 0 cuda_gpu) = Ok s1
    /\ internal_launch 700 s1 = Ok s2
    /\ calls s2
       = calls cuda_gpu ++ extra
         ++ [cuLaunchKernel (launched_function cuda_gpu 700) unit_dim
               row_dim 0 12 buffer (args_end two_args)]
    /\ Forall buffer_call extra
    /\ args_end two_args <= Z.of_nat (length buffer)
    /\ Forall (stored buffer) two_args
    /\ launch_configs s2 = launch_configs cuda_gpu
    /\ kernel_arg_size s2 = 0
    /\ buffer_ok s2.
Proof.
  refine (launch_passes_arguments unit_dim row_dim 0 two_args 700 cuda_gpu 12
            _ eq_refl _ _ eq_refl).
  - split; [vm_compute; reflexivity | cbn; lia].
  - repeat constructor; unfold arg_end; cbn; lia.
  - split; [|split; [constructor | exact I]].
    constructor; [|constructor]. left. unfold arg_end. cbn. lia.
Defined.

End KernelArguments.

(** ** Launch configurations and registered functions *)

Section Registration.
Import CudaRuntime CudaNotions MoreExamples.

(** X18.  Launch configurations are a stack: of two configured calls the
    launch that comes first takes the newer configuration and the next one
    the older.  A launch resets the argument size, so the second kernel is
    handed a buffer of size 0 whatever was set up for the first.  A launch
    with no configuration pending fails its assertion. *)
Theorem launch_takes_newest_configuration (grid1 block1 grid2 block2 : dim3)
    (shared1 shared2 : Z) (func1 func2 : Z) (s : t) (stream : GPU.CUstream) :
  GPU.get_current_task_stream (proc s) = Ok stream ->
  (launch_configs s = [] ->
   forall func, internal_launch func s = Err AssertFailed)
  /\ exists s1 s2,
       internal_launch func2
         (internal_configure_call grid2 block2 shared2
            (internal_configure_call grid1 block1 shared1 s)) = Ok s1
       /\ internal_launch func1 s1 = Ok s2
       /\ calls s2
          = calls s
            ++ [cuLaunchKernel (launched_function s func2) grid2 block2
                  shared2 stream (kernel_arg_buffer s) (kernel_arg_size s);
                cuLaunchKernel (launched_function s func1) grid1 block1
                  shared1 stream (kernel_arg_buffer s) 0]
       /\ launch_configs s2 = launch_configs s
       /\ kernel_arg_size s2 = 0
       /\ kernel_arg_buffer s2 = kernel_arg_buffer s.
Proof.
  intros Hstream. split.
  { intros Hnil func. unfold internal_launch. rewrite Hnil. reflexivity. }
  set (c1 := {| grid := grid1; block := block1; shared := shared1 |}).
  set (c2 := {| grid := grid2; block := block2; shared := shared2 |}).
  set (s0 := internal_configure_call grid2 block2 shared2
               (internal_configure_call grid1 block1 shared1 s)).
  assert (H1 : launch_configs s0 = (launch_configs s ++ [c1]) ++ [c2])
    by reflexivity.
  pose proof (launch_run func2 s0 _ _ stream H1 Hstream) as Hrun1.
  match type of Hrun1 with _ = Ok ?r => set (s1 := r) in * end.
  assert (H2 : launch_configs s1 = launch_configs s ++ [c1]) by reflexivity.
  pose proof (launch_run func1 s1 _ _ stream H2 Hstream) as Hrun2.
  eexists s1, _. split; [exact Hrun1|]. split; [exact Hrun2|].
  cbn. rewrite <- app_assoc. repeat split.
Qed.

Lemma launch_takes_newest_configuration_witness :
  exists s1 s2,
    internal_launch 701
      (internal_configure_call row_dim row_dim 16
         (internal_configure_call unit_dim row_dim 0 cuda_gpu)) = Ok s1
    /\ internal_launch 700 s1 = Ok s2
    /\ calls s2
       = calls cuda_gpu
         ++ [cuLaunchKernel (launched_function cuda_gpu 701) row_dim row_dim
               16 12 (kernel_arg_buffer cuda_gpu) (kernel_arg_size cuda_gpu);
             cuLaunchKernel (launched_function cuda_gpu 700) unit_dim row_dim
               0 12 (kernel_arg_buffer cuda_gpu) 0]
    /\ launch_configs s2 = launch_configs cuda_gpu
    /\ kernel_arg_size s2 = 0
    /\ kernel_arg_buffer s2 = kernel_arg_buffer cuda_gpu.
Proof.
  exact (proj2 (launch_takes_newest_configuration unit_dim row_dim row_dim
                  row_dim 0 16 700 701 cuda_gpu 12 eq_refl)).
Defined.

Lemma erase_all_in {V} (keys : gset Z) (m : gmap Z V) (k : Z) :
  k ∈ keys -> erase_all keys m !! k = None.
Proof.
  intros H. unfold erase_all. apply lookup_foldr_delete.
  apply elem_of_elements. exact H.
Qed.

Lemma erase_all_notin {V} (keys : gset Z) (m : gmap Z V) (k : Z) :
  k ∉ keys -> erase_all keys m !! k = m !! k.
Proof.
  intros H. unfold erase_all. apply lookup_foldr_delete_not_elem_of.
  rewrite elem_of_elements. exact H.
Qed.

Lemma erase_all_fresh {V} (keys : gset Z) (m : gmap Z V) (k : Z) (v : V) :
  m !! k = None -> (forall j, j ∈ keys -> j = k) ->
  erase_all ({[k]} ∪ keys) (<[k := v]> m) = m.
Proof.
  intros Hk Hkeys. apply map_eq. intros j.
  destruct (decide (j = k)) as [->|Hne].
  - rewrite erase_all_in by set_solver. symmetry. exact Hk.
  - rewrite erase_all_notin.
    + apply lookup_insert_ne. congruence.
    + intros Hin. apply elem_of_union in Hin as [Hin|Hin].
      * apply elem_of_singleton in Hin. contradiction.
      * apply Hkeys in Hin. contradiction.
Qed.

Lemma erase_all_empty {V} (m : gmap Z V) : erase_all ∅ m = m.
Proof. unfold erase_all. rewrite elements_empty. reflexivity. Qed.

(** X19.  A binary registered in a fresh block, a function of it registered
    and launched, the binary unregistered: the launch runs the function the
    driver found in the module of the binary, and after the unregistration
    the modules, the functions and the variables are as they were at the
    start, so that a launch of the function would again hand its host
    pointer to the driver.  The handle stays among the task modules. *)
Theorem register_launch_unregister (driver_module : Z -> Z)
    (driver_function : Z -> Z -> Z) (cubin host_fun device_fun : Z) (s : t)
    (cs : list LaunchConfig) (c : LaunchConfig) (stream : GPU.CUstream) :
  modules s !! next_handle s = None ->
  device_functions s !! host_fun = None ->
  launch_configs s = cs ++ [c] ->
  GPU.get_current_task_stream (proc s) = Ok stream ->
  let f := driver_function (driver_module cubin) device_fun in
  exists s1 s2 s3 s4,
    internal_register_cuda_binary driver_module cubin s = (next_handle s, s1)
    /\ internal_register_function driver_function (next_handle s) host_fun
         device_fun s1 = Ok s2
    /\ launched_function s2 host_fun = f
    /\ internal_launch host_fun s2 = Ok s3
    /\ internal_unregister_fat_binary (next_handle s) s3 = Ok s4
    /\ calls s4
       = calls s
         ++ [cuModuleLoadData cubin;
             cuModuleGetFunction (driver_module cubin) device_fun;
             cuLaunchKernel f (grid c) (block c) (shared c) stream
               (kernel_arg_buffer s) (kernel_arg_size s);
             cuCtxSynchronize;
             cuModuleUnload (driver_module cubin)]
    /\ modules s4 = modules s
    /\ device_functions s4 = device_functions s
    /\ device_variables s4 = device_variables s
    /\ launched_function s4 host_fun = host_fun
    /\ task_modules s4 = {[next_handle s]} ∪ task_modules s.
Proof.
  intros Hfresh Hfun Hcs Hstream f.
  set (h := next_handle s) in *.
  unfold internal_register_cuda_binary. fold h. rewrite Hfresh.
  cbn [call modules task_modules device_functions device_variables
       next_handle host_aliases var_aliases].
  match goal with |- exists s1 s2 s3 s4, (_, ?r) = _ /\ _ => set (s1 := r) end.
  exists s1.
  assert (Hreg : exists s2,
            internal_register_function driver_function h host_fun device_fun s1
            = Ok s2
            /\ launch_configs s2 = cs ++ [c]
            /\ proc s2 = proc s
            /\ kernel_arg_buffer s2 = kernel_arg_buffer s
            /\ kernel_arg_size s2 = kernel_arg_size s
            /\ device_functions s2 = <[host_fun := f]> (device_functions s)
            /\ device_variables s2 = device_variables s
            /\ task_modules s2 = {[h]} ∪ task_modules s
            /\ modules s2
               = <[h := {| module := driver_module cubin;
                           host_aliases := {[host_fun]} ∪ ∅;
                           var_aliases := ∅ |}]> (modules s)
            /\ calls s2
               = calls s ++ [cuModuleLoadData cubin;
                             cuModuleGetFunction (driver_module cubin)
                               device_fun]).
  { unfold internal_register_function.
    cbn [s1 with_tables call device_functions modules]. rewrite Hfun.
    rewrite lookup_insert_eq. cbn [mbind result_bind module host_aliases
                                   var_aliases].
    eexists. split; [reflexivity|].
    cbn [with_tables call launch_configs proc kernel_arg_buffer
         kernel_arg_size device_functions device_variables task_modules
         modules calls next_handle].
    rewrite insert_insert_eq. unfold s1.
    cbn [with_tables call launch_configs proc kernel_arg_buffer
         kernel_arg_size device_functions device_variables task_modules
         modules calls next_handle].
    rewrite <- app_assoc. repeat split; auto. }
  destruct Hreg as (s2 & Hreg & Hl2 & Hp2 & Hb2 & Hsz2 & Hf2 & Hv2 & Ht2
                    & Hm2 & Hc2).
  exists s2.
  assert (Hlf : launched_function s2 host_fun = f).
  { unfold launched_function. rewrite Hf2, lookup_insert_eq. reflexivity. }
  rewrite <- Hp2 in Hstream.
  pose proof (launch_run host_fun s2 cs c stream Hl2 Hstream) as Hlaunch.
  match type of Hlaunch with _ = Ok ?r => set (s3 := r) in * end.
  exists s3.
  assert (Hm3 : modules s3 !! h
                = Some {| module := driver_module cubin;
                          host_aliases := {[host_fun]} ∪ ∅;
                          var_aliases := ∅ |}).
  { cbn [s3 with_buffer with_launch_configs call modules].
    rewrite Hm2. apply lookup_insert_eq. }
  eexists. split; [reflexivity|]. split; [exact Hreg|].
  split; [exact Hlf|]. split; [exact Hlaunch|].
  split.
  { unfold internal_unregister_fat_binary.
    cbn [call modules]. rewrite Hm3. reflexivity. }
  cbn [with_tables with_buffer with_launch_configs call calls modules
       device_functions device_variables task_modules s3 module
       host_aliases var_aliases launched_function].
  rewrite Hc2, Hm2, Hf2, Hv2, Ht2, Hlf, Hb2, Hsz2.
  split; [rewrite <- !app_assoc; reflexivity|].
  split; [apply delete_insert_id, Hfresh|].
  assert (Hback : erase_all ({[host_fun]} ∪ ∅)
                    (<[host_fun := f]> (device_functions s))
                  = device_functions s).
  { apply erase_all_fresh; [exact Hfun | set_solver]. }
  split; [exact Hback|].
  split; [apply erase_all_empty|].
  split; [|reflexivity].
  unfold launched_function.
  cbn [with_tables device_functions]. rewrite Hback, Hfun. reflexivity.
Qed.

Lemma register_launch_unregister_witness :
  exists s1 s2 s3 s4,
    internal_register_cuda_binary image_module 50 configured_gpu = (4096, s1)
    /\ internal_register_function module_symbol 4096 700 7 s1 = Ok s2
    /\ launched_function s2 700 = 5107
    /\ internal_launch 700 s2 = Ok s3
    /\ internal_unregister_fat_binary 4096 s3 = Ok s4
    /\ calls s4
       = [] ++ [cuModuleLoadData 50; cuModuleGetFunction 51 7;
                cuLaunchKernel 5107 unit_dim row_dim 0 12
                  (kernel_arg_buffer configured_gpu) 0;
                cuCtxSynchronize; cuModuleUnload 51]
    /\ modules s4 = ∅
    /\ device_functions s4 = ∅
    /\ device_variables s4 = ∅
    /\ launched_function s4 700 = 700
    /\ task_modules s4 = {[4096]} ∪ ∅.
Proof.
  exact (register_launch_unregister image_module module_symbol 50 700 7
           configured_gpu []
           {| grid := unit_dim; block := row_dim; shared := 0 |} 12
           eq_refl eq_refl eq_refl eq_refl).
Defined.

(** X20.  Unregistering a binary removes its module and exactly the
    functions and variables recorded as its aliases; the other entries
    stay.  The handle is then unknown: unregistering it again fails the
    assertion, and so does registering a function for it, unless that
    function is registered already, in which case nothing happens. *)
Theorem unregister_removes_aliases (driver_function : Z -> Z -> Z)
    (fat_bin : Z) (info : ModuleInfo) (s : t) :
  modules s !! fat_bin = Some info ->
  exists s',
    internal_unregister_fat_binary fat_bin s = Ok s'
    /\ modules s' = delete fat_bin (modules s)
    /\ (forall k, device_functions s' !! k
                  = if decide (k ∈ host_aliases info) then None
                    else device_functions s !! k)
    /\ (forall k, device_variables s' !! k
                  = if decide (k ∈ var_aliases info) then None
                    else device_variables s !! k)
    /\ calls s' = calls s ++ [cuCtxSynchronize; cuModuleUnload (module info)]
    /\ internal_unregister_fat_binary fat_bin s' = Err AssertFailed
    /\ (forall host_fun device_fun,
          internal_register_function driver_function fat_bin host_fun
            device_fun s'
          = if decide ((host_fun ∉ host_aliases info)
                       /\ is_Some (device_functions s !! host_fun))
            then Ok s' else Err AssertFailed).
Proof.
  intros Hmod. unfold internal_unregister_fat_binary at 1.
  cbn [call modules]. rewrite Hmod. cbn [mbind result_bind].
  eexists. split; [reflexivity|].
  cbn [with_tables call modules device_functions device_variables calls].
  assert (Hfuns : forall k,
            erase_all (host_aliases info) (device_functions s) !! k
            = if decide (k ∈ host_aliases info) then None
              else device_functions s !! k).
  { intros k. destruct (decide (k ∈ host_aliases info)) as [Hin|Hout].
    - apply erase_all_in, Hin.
    - apply erase_all_notin, Hout. }
  split; [reflexivity|]. split; [exact Hfuns|].
  split.
  { intros k. destruct (decide (k ∈ var_aliases info)) as [Hin|Hout].
    - apply erase_all_in, Hin.
    - apply erase_all_notin, Hout. }
  split; [rewrite <- app_assoc; reflexivity|].
  split.
  { unfold internal_unregister_fat_binary.
    cbn [with_tables call modules]. rewrite lookup_delete_eq. reflexivity. }
  intros host_fun device_fun. unfold internal_register_function.
  cbn [with_tables call modules device_functions]. rewrite Hfuns.
  rewrite lookup_delete_eq. cbn [mbind result_bind].
  destruct (decide (host_fun ∈ host_aliases info)) as [Hin|Hout].
  - rewrite decide_False; [reflexivity|]. intros [Hno _]. contradiction.
  - destruct (device_functions s !! host_fun) as [f|] eqn:Hf.
    + rewrite decide_True; [reflexivity|]. split; [exact Hout | eauto].
    + rewrite decide_False; [reflexivity|]. intros [_ [f Hsome]].
      discriminate Hsome.
Qed.

Lemma unregister_removes_aliases_witness :
  exists s',
    internal_unregister_fat_binary 4096 loaded_gpu = Ok s'
    /\ modules s' = delete 4096 (modules loaded_gpu)
    /\ device_functions s' !! 700 = None
    /\ device_variables s' !! 800 = None
    /\ internal_unregister_fat_binary 4096 s' = Err AssertFailed
    /\ internal_register_function module_symbol 4096 700 7 s'
       = Err AssertFailed.
Proof.
  destruct (unregister_removes_aliases module_symbol 4096
              {| module := 51; host_aliases := {[ 700 ]};
                 var_aliases := {[ 800 ]} |} loaded_gpu eq_refl)
    as (s' & Hrun & Hm & Hf & Hv & _ & Htwice & Hreg).
  exists s'. split; [exact Hrun|]. split; [exact Hm|].
  split; [exact (Hf 700)|]. split; [exact (Hv 800)|].
  split; [exact Htwice|]. exact (Hreg 700 7).
Defined.

(** X21.  The first registration of a host function or variable wins: it
    asks the driver for the symbol in the module of the handle and records
    the alias there; a later registration of the same host address changes
    nothing and calls nothing, whatever module and device name it gives.
    For a function the handle of the later call is not even looked up,
    while for a variable an unknown handle still fails the assertion. *)
Theorem registration_first_wins (driver_function : Z -> Z -> Z)
    (driver_global : Z -> Z -> Z * Z) (fat_bin host device_name : Z)
    (info : ModuleInfo) (s : t) :
  modules s !! fat_bin = Some info ->
  (device_functions s !! host = None ->
   exists s1 info1,
     internal_register_function driver_function fat_bin host device_name s
     = Ok s1
     /\ device_functions s1 !! host
        = Some (driver_function (module info) device_name)
     /\ modules s1 !! fat_bin = Some info1
     /\ host_aliases info1 = {[host]} ∪ host_aliases info
     /\ calls s1 = calls s ++ [cuModuleGetFunction (module info) device_name]
     /\ forall other other_name,
          internal_register_function driver_function other host other_name s1
          = Ok s1)
  /\ (device_variables s !! host = None ->
      exists s1 info1,
        internal_register_var driver_global fat_bin host device_name s = Ok s1
        /\ device_variables s1 !! host
           = Some {| name := device_name;
                     ptr := (driver_global (module info) device_name).1;
                     size := (driver_global (module info) device_name).2 |}
        /\ modules s1 !! fat_bin = Some info1
        /\ var_aliases info1 = {[host]} ∪ var_aliases info
        /\ calls s1 = calls s ++ [cuModuleGetGlobal (module info) device_name]
        /\ forall other other_name,
             internal_register_var driver_global other host other_name s1
             = if decide (is_Some (modules s !! other)) then Ok s1
               else Err AssertFailed).
Proof.
  intros Hmod. split; intros Hnew.
  - unfold internal_register_function at 1. rewrite Hnew, Hmod.
    cbn [mbind result_bind]. eexists _, _. split; [reflexivity|].
    cbn [with_tables call modules device_functions calls].
    split; [apply lookup_insert_eq|]. split; [apply lookup_insert_eq|].
    split; [reflexivity|]. split; [reflexivity|].
    intros other other_name. unfold internal_register_function.
    cbn [with_tables call device_functions]. rewrite lookup_insert_eq.
    reflexivity.
  - unfold internal_register_var at 1. rewrite Hmod.
    cbn [mbind result_bind]. rewrite Hnew. eexists _, _.
    split; [reflexivity|].
    cbn [with_tables call modules device_variables calls].
    split; [apply lookup_insert_eq|]. split; [apply lookup_insert_eq|].
    split; [reflexivity|]. split; [reflexivity|].
    intros other other_name.
    match goal with |- internal_register_var _ _ _ _ ?r = _ =>
      set (s1 := r) end.
    assert (Hvar : device_variables s1 !! host
                   = Some {| name := device_name;
                             ptr := (driver_global (module info) device_name).1;
                             size := (driver_global (module info) device_name).2 |})
      by apply lookup_insert_eq.
    assert (Hmods : modules s1 !! other
                    = if decide (other = fat_bin)
                      then Some {| module := module info;
                                   host_aliases := host_aliases info;
                                   var_aliases := {[host]} ∪ var_aliases info |}
                      else modules s !! other).
    { cbn [s1 with_tables modules]. destruct (decide (other = fat_bin)) as [->|Hne].
      - apply lookup_insert_eq.
      - apply lookup_insert_ne. congruence. }
    unfold internal_register_var. rewrite Hmods.
    destruct (decide (other = fat_bin)) as [->|Hne].
    + cbn [mbind result_bind]. rewrite Hvar, Hmod.
      rewrite decide_True by eauto. reflexivity.
    + destruct (modules s !! other) as [info2|] eqn:Hother.
      * cbn [mbind result_bind]. rewrite Hvar.
        rewrite decide_True by eauto. reflexivity.
      * rewrite decide_False; [reflexivity|]. intros [x Hx]. discriminate Hx.
Qed.

Lemma registration_first_wins_witness :
  (exists s1 info1,
     internal_register_function module_symbol 4097 701 9 loaded_gpu = Ok s1
     /\ device_functions s1 !! 701 = Some (module_symbol 61 9)
     /\ modules s1 !! 4097 = Some info1
     /\ host_aliases info1 = {[701]} ∪ ∅
     /\ calls s1 = [] ++ [cuModuleGetFunction 61 9]
     /\ forall other other_name,
          internal_register_function module_symbol other 701 other_name s1
          = Ok s1)
  /\ (exists s1 info1,
        internal_register_var module_global 4097 801 9 loaded_gpu = Ok s1
        /\ device_variables s1 !! 801
           = Some {| name := 9; ptr := (module_global 61 9).1;
                     size := (module_global 61 9).2 |}
        /\ modules s1 !! 4097 = Some info1
        /\ var_aliases info1 = {[801]} ∪ ∅
        /\ calls s1 = [] ++ [cuModuleGetGlobal 61 9]
        /\ forall other other_name,
             internal_register_var module_global other 801 other_name s1
             = if decide (is_Some (modules loaded_gpu !! other)) then Ok s1
               else Err AssertFailed).
Proof.
  destruct (registration_first_wins module_symbol module_global 4097 701 9
              {| module := 61; host_aliases := ∅; var_aliases := ∅ |}
              loaded_gpu eq_refl) as [Hfun _].
  destruct (registration_first_wins module_symbol module_global 4097 801 9
              {| module := 61; host_aliases := ∅; var_aliases := ∅ |}
              loaded_gpu eq_refl) as [_ Hvar].
  split; [exact (Hfun eq_refl) | exact (Hvar eq_refl)].
Defined.

End Registration.

(** ** Empty index spaces *)

Section EmptySpaces.
Import Transfer ElementMask TransferIteratorIndexSpace IteratorConstruction.
Import FieldNotions SpaceNotions Examples MoreExamples.

Lemma find_from_empty (bits : list bool) :
  (forall i, bits !! i <> Some true) -> forall pos, find_from bits pos = None.
Proof.
  induction bits as [|b bits IH]; intros Hnone pos; [reflexivity|].
  cbn [find_from]. destruct b.
  - exfalso. exact (Hnone 0%nat eq_refl).
  - apply IH. intros i. exact (Hnone (S i)).
Qed.

Lemma find_enabled_empty (m : ElementMask.t) :
  empty_mask m -> find_enabled m = -1.
Proof.
  intros H. unfold find_enabled. rewrite (find_from_empty m H). reflexivity.
Qed.

(** X22.  An index space without elements never hands anything out.  When
    its mask is at hand at construction, the iterator takes no field at all
    (the instance is not even looked at) and is done from the start and
    after every reset; it must not be stepped.  When the mask is still on
    the way, the iterator takes its fields and is not done; a step before
    the mask has arrived fails its assertion, and the first step after
    returns 0, leaves the address info alone and drops the fields, so that
    the iterator is done from then on, also after a reset. *)
Theorem empty_index_space_is_done
    (get_instance_impl : RegionInstance -> InstanceImpl)
    (idx_impl : IndexSpaceImpl) (inst : RegionInstance) (fields : list Z)
    (extra_elems rewind_pos0 : Z) (next_idx0 : nat) (m : ElementMask.t) :
  let sizes := metadata_field_sizes (get_instance_impl inst) in
  let new := new_index_space_iterator get_instance_impl idx_impl inst fields
               extra_elems rewind_pos0 next_idx0 in
  empty_mask m ->
  (valid_mask_ready idx_impl = true -> impl_valid_mask idx_impl = Some m ->
   exists it, new = Ok it
     /\ done it = true /\ done (reset it) = true
     /\ forall max_bytes info tentative,
          step max_bytes info tentative it = Err AssertFailed)
  /\ (valid_mask_ready idx_impl = false ->
      proper_sizes sizes ->
      forall idxs, idxs <> [] ->
        fields = map (field_start sizes) idxs ->
        Forall (fun i => (i < length sizes)%nat) idxs ->
        exists it, new = Ok it
          /\ done it = false
          /\ (forall max_bytes info tentative,
                step max_bytes info tentative it = Err AssertFailed)
          /\ forall max_bytes info tentative,
               exists it',
                 step max_bytes info tentative (mask_arrived m it)
                 = Ok (0, info, it')
                 /\ done it' = true /\ done (reset it') = true
                 /\ field_sizes it' = []
                 /\ tentative_valid it' = false).
Proof.
  intros sizes new Hempty. subst new. unfold new_index_space_iterator.
  pose proof (find_enabled_empty m Hempty) as Hfe.
  split.
  - intros Hready Hmask. rewrite Hready, Hmask.
    cbn [mbind result_bind]. rewrite Hfe. cbn [Z.eqb orb].
    eexists. split; [reflexivity|]. split; [reflexivity|].
    split; [reflexivity|]. intros max_bytes info tentative. reflexivity.
  - intros Hready Hproper idxs Hidxs -> Hlt. rewrite Hready.
    cbn [mbind result_bind Z.eqb orb].
    destruct idxs as [|i idxs]; [contradiction|].
    cbn [map is_nil]. fold sizes.
    pose proof (collect_fields_found sizes (i :: idxs) Hproper Hlt) as Hcol.
    cbn [map] in Hcol. rewrite Hcol. cbn [mbind result_bind].
    eexists. split; [reflexivity|]. split; [reflexivity|].
    split.
    + intros max_bytes info tentative. unfold step, fetch_valid_mask.
      cbn [field_sizes valid_mask is_impl is_nil negb andb].
      rewrite bool_decide_eq_false_2 by (intros [x Hx]; discriminate Hx).
      cbn [negb andb]. rewrite Hready. reflexivity.
    + intros max_bytes info tentative. unfold step, fetch_valid_mask.
      cbn [mask_arrived field_sizes valid_mask is_impl is_nil negb andb
           valid_mask_ready impl_valid_mask].
      rewrite bool_decide_eq_false_2 by (intros [x Hx]; discriminate Hx).
      cbn [negb andb assert mbind result_bind]. rewrite Hfe.
      cbn [Z.eqb mbind result_bind]. eexists. split; [reflexivity|].
      repeat split.
Qed.

Lemma empty_index_space_is_done_witness :
  (exists it,
     new_index_space_iterator grid_instance ready_space 1 [99] 0 0 0 = Ok it
     /\ done it = true /\ done (reset it) = true
     /\ forall max_bytes info tentative,
          step max_bytes info tentative it = Err AssertFailed)
  /\ (exists it,
        new_index_space_iterator grid_instance pending_space 1
          (map (field_start [4; 8; 4]) [2%nat; 0%nat]) 0 0 0 = Ok it
        /\ done it = false
        /\ (forall max_bytes info tentative,
              step max_bytes info tentative it = Err AssertFailed)
        /\ forall max_bytes info tentative,
             exists it',
               step max_bytes info tentative (mask_arrived no_elements it)
               = Ok (0, info, it')
               /\ done it' = true /\ done (reset it') = true
               /\ field_sizes it' = []
               /\ tentative_valid it' = false).
Proof.
  assert (Hempty : empty_mask no_elements).
  { intros [|[|[|[|[|i]]]]]; discriminate. }
  split.
  - exact (proj1 (empty_index_space_is_done grid_instance ready_space 1 [99]
                    0 0 0 no_elements Hempty) eq_refl eq_refl).
  - refine (proj2 (empty_index_space_is_done grid_instance pending_space 1
                     (map (field_start [4; 8; 4]) [2%nat; 0%nat])
                     0 0 0 no_elements Hempty)
              eq_refl grid_sizes_proper [2%nat; 0%nat] _ eq_refl _).
    + discriminate.
    + repeat constructor.
Defined.

End EmptySpaces.
